(** * FCMpy: causal weights of a fuzzy cognitive map from linguistic terms

    A shallow embedding of [fcmbci/data_processor/fcm_data.py]
    (class [FcmDataProcessor]) together with the parts of numpy, pandas and
    scikit-fuzzy that the class calls, and the properties of the
    specification checked against it.

    Numbers.  The program computes on binary64 floats.  The embedding uses
    exact rational arithmetic ([Q], every result kept in lowest terms): the
    rounding of the individual float operations is not modelled.  NaN only
    occurs as the "missing cell" of a table and is modelled by [None].

    Failure.  Python exceptions are values of the type [exn]; a computation
    that may raise returns a [result]. *)

From Stdlib Require Import String Ascii List Bool Arith ZArith QArith Qround Qabs Qminmax Lia Lqa Morphisms Setoid OrderedTypeEx Sorted DecimalString Permutation.
Import ListNotations.
Local Open Scope string_scope.
Local Open Scope list_scope.
Local Open Scope Q_scope.

Set Implicit Arguments.

(** ** Exceptions and results *)

Inductive exn : Type :=
| IndexError      (* list or array index out of range *)
| KeyError        (* missing dict key or table label *)
| TypeError       (* e.g. [functools.reduce] of an empty iterable *)
| ValueError      (* e.g. truth value of a DataFrame, empty [pd.concat] *)
| AttributeError  (* attribute missing on a scalar *)
| AssertionError  (* a failed [assert] of scikit-fuzzy *)
| SyntaxError     (* [eval] of a string that is no expression *)
| Unmodelled.     (* behaviour outside the fragment that is embedded *)

Inductive result (A : Type) : Type :=
| Ok  (a : A)
| Err (e : exn).
Arguments Ok {A} a.
Arguments Err {A} e.

Definition bind {A B} (r : result A) (k : A -> result B) : result B :=
  match r with
  | Ok a => k a
  | Err e => Err e
  end.

Notation "x <- c ;; k" := (bind c (fun x => k))
  (at level 61, c at next level, right associativity).
Notation "' p <- c ;; k" := (bind c (fun x => match x with p => k end))
  (at level 61, p pattern, c at next level, right associativity).

(** Monadic iteration: a Python [for] loop whose body may raise. *)
Fixpoint foldM {A S} (f : S -> A -> result S) (s : S) (l : list A) : result S :=
  match l with
  | [] => Ok s
  | a :: l' => s' <- f s a ;; foldM f s' l'
  end.

Fixpoint mapM {A B} (f : A -> result B) (l : list A) : result (list B) :=
  match l with
  | [] => Ok []
  | a :: l' => b <- f a ;; bs <- mapM f l' ;; Ok (b :: bs)
  end.

(** ** Numbers *)

Abbreviation num := Q (only parsing).

Definition fadd (x y : num) : num := Qred (x + y).
Definition fsub (x y : num) : num := Qred (x - y).
Definition fmul (x y : num) : num := Qred (x * y).
Definition fdiv (x y : num) : num := Qred (x / y).
Definition feqb (x y : num) : bool := Qeq_bool x y.
Definition fleb (x y : num) : bool := Qle_bool x y.
Definition fltb (x y : num) : bool := negb (Qle_bool y x).

(** [np.fmin] and [np.fmax] on two numbers (there is no NaN here). *)
Definition fmin (x y : num) : num := if fleb x y then x else y.
Definition fmax (x y : num) : num := if fleb y x then x else y.

Definition of_nat (n : nat) : num := inject_Z (Z.of_nat n).

(** ** Python lists and dicts *)

(** [l[i]] with Python's negative indices. *)
Definition py_index {A} (l : list A) (i : Z) : result nat :=
  let n := Z.of_nat (length l) in
  let j := (if i <? 0 then i + n else i)%Z in
  if ((0 <=? j) && (j <? n))%Z%bool then Ok (Z.to_nat j) else Err IndexError.

Definition py_get {A} (l : list A) (i : Z) : result A :=
  j <- py_index l i ;;
  match nth_error l j with
  | Some a => Ok a
  | None => Err IndexError
  end.

Fixpoint list_set {A} (l : list A) (j : nat) (a : A) : list A :=
  match l, j with
  | [], _ => []
  | _ :: l', O => a :: l'
  | x :: l', S j' => x :: list_set l' j' a
  end.

(** [l[i] = a]. *)
Definition py_set {A} (l : list A) (i : Z) (a : A) : result (list A) :=
  j <- py_index l i ;; Ok (list_set l j a).

(** A Python dict: insertion ordered, a key bound once. *)
Abbreviation dict K V := (list (K * V)) (only parsing).

Section Dict.
Context {K V : Type} (eqb : K -> K -> bool).

Fixpoint dict_get (d : dict K V) (k : K) : option V :=
  match d with
  | [] => None
  | (k', v) :: d' => if eqb k' k then Some v else dict_get d' k
  end.

(** [d[k] = v]: overwrite in place, or append a new key. *)
Fixpoint dict_set (d : dict K V) (k : K) (v : V) : dict K V :=
  match d with
  | [] => [(k, v)]
  | (k', v') :: d' =>
      if eqb k' k then (k', v) :: d' else (k', v') :: dict_set d' k v
  end.

(** [d[k]] as an expression: [KeyError] on a missing key. *)
Definition dict_lookup (d : dict K V) (k : K) : result V :=
  match dict_get d k with
  | Some v => Ok v
  | None => Err KeyError
  end.
End Dict.

Definition keys {K V} (d : dict K V) : list K := map fst d.
Definition values {K V} (d : dict K V) : list V := map snd d.

Abbreviation sdict V := (list (string * V)) (only parsing).
Definition sget {V} (d : sdict V) (k : string) : option V := dict_get String.eqb d k.
Definition sset {V} (d : sdict V) (k : string) (v : V) : sdict V := dict_set String.eqb d k v.
Definition slookup {V} (d : sdict V) (k : string) : result V := dict_lookup String.eqb d k.

(** ** numpy: arrays, [arange], [linspace] *)

Abbreviation array := (list Q) (only parsing).

(** [np.arange(start, stop, step)]: [ceil((stop - start) / step)] samples
    [start + i * step]. *)
Definition arange (start stop step : num) : array :=
  let n := Z.to_nat (Qceiling ((stop - start) / step)) in
  map (fun i => fadd start (fmul (of_nat i) step)) (seq 0 n).

(** [np.linspace(start, stop, num)], end point included. *)
Definition linspace (start stop : num) (n : nat) : array :=
  match n with
  | O => []
  | S O => [start]
  | S m =>
      let step := fdiv (fsub stop start) (of_nat m) in
      map (fun i => fadd start (fmul (of_nat i) step)) (seq 0 n)
  end.

(** [a.min()] and [a.max()]: [ValueError] on an empty array. *)
Definition arr_min (a : array) : result num :=
  match a with
  | [] => Err ValueError
  | x :: a' => Ok (fold_left fmin a' x)
  end.

Definition arr_max (a : array) : result num :=
  match a with
  | [] => Err ValueError
  | x :: a' => Ok (fold_left fmax a' x)
  end.

(** ** scikit-fuzzy: [trimf] *)

(** The triangle with feet [a], [c] and apex [b], at one sample [x]:
    [(x - a) / (b - a)] on the open left side, [(c - x) / (c - b)] on the
    open right side, [1] where [x == b], [0] elsewhere. *)
Definition trimf_at (a b c x : num) : num :=
  if feqb x b then 1
  else if negb (feqb b c) && fltb b x && fltb x c then fdiv (fsub c x) (fsub c b)
  else if negb (feqb a b) && fltb a x && fltb x b then fdiv (fsub x a) (fsub b a)
  else 0.

(** [skfuzzy.trimf(x, abc)]; it asserts [a <= b <= c]. *)
Definition trimf (x : array) (abc : num * num * num) : result array :=
  let '(a, b, c) := abc in
  if fleb a b && fleb b c then Ok (map (trimf_at a b c) x)
  else Err AssertionError.

(** ** The class [FcmDataProcessor]: membership functions *)

(** [self.universe = np.arange(-1, 1.001, 0.001)] *)
Definition universe : array := Eval vm_compute in arange (-1) (1001 # 1000) (1 # 1000).

Definition default_terms : list string :=
  ["-VH"; "-H"; "-M"; "-L"; "-VL"; "VL"; "L"; "M"; "H"; "VH"].

(** The half-open triangles [[c - w/2, c, c + w/2]] of
    [zip(centers, widths)]. *)
Definition abc_of (c w : num) : num * num * num :=
  (fsub c (fdiv w 2), c, fadd c (fdiv w 2)).

Fixpoint zip {A B} (l : list A) (m : list B) : list (A * B) :=
  match l, m with
  | a :: l', b :: m' => (a, b) :: zip l' m'
  | _, _ => []
  end.

(** [centers_pos], [centers_neg] and [centers] of [automf] *)
Definition centers_pos (number : nat) : array :=
  linspace (1 # 1000) 1 (Nat.div number 2).
Definition centers_neg (number : nat) : array :=
  linspace (-1) (- (1 # 1000)) (Nat.div number 2).
Definition automf_centers (number : nat) : array :=
  centers_neg number ++ centers_pos number.

(** [widths]: one common width, [number] times.  For two terms the width
    is a division by zero ([inf] in numpy, [0] here); [automf] raises
    before that width is used. *)
Definition automf_widths (univ_range : num) (number : nat) : list num :=
  repeat (fdiv univ_range (fdiv (fsub (fdiv (of_nat number) 2) 1) 2)) number.

(** The triangles [abcs] of [automf], with the two entries next to zero
    overwritten. *)
Definition automf_abcs (univ : array) (number : nat)
  : result (list (num * num * num)) :=
  lo <- arr_min univ ;;
  hi <- arr_max univ ;;
  let universe_range := fdiv (fsub hi lo) 2 in
  let widths := automf_widths universe_range number in
  let abcs := map (fun cw => abc_of (fst cw) (snd cw))
                  (zip (automf_centers number) widths) in
  c1 <- py_get (centers_pos number) 1 ;;
  abcs <- py_set abcs (Z.of_nat (Nat.div number 2)) (1 # 1000, 1 # 1000, c1) ;;
  c2 <- py_get (centers_neg number) (-2) ;;
  py_set abcs (Z.of_nat (Nat.div number 2) - 1) (c2, - (1 # 1000), - (1 # 1000)).

(** [automf(self, universe, linguistic_terms)] *)
Definition automf (univ : array) (linguistic_terms : list string)
  : result (sdict array) :=
  abcs <- automf_abcs univ (length linguistic_terms) ;;
  foldM (fun terms ta =>
           y <- trimf univ (snd ta) ;; Ok (sset terms (fst ta) y))
        [] (zip linguistic_terms abcs).

(** ** Activation and aggregation *)

(** [activate(self, activation_input, mf)]: clip every named membership
    function at its frequency, [np.fmin(activation_input[i], mf[i])]. *)
Definition activate (activation_input : sdict num) (mf : sdict array)
  : result (sdict array) :=
  foldM (fun activated kv =>
           y <- slookup mf (fst kv) ;;
           Ok (sset activated (fst kv) (map (fmin (snd kv)) y)))
        [] activation_input.

(** [np.fmax(x, y)] on one-dimensional arrays, with numpy's broadcasting of
    an array of length one. *)
Fixpoint map2 {A B C} (f : A -> B -> C) (l : list A) (m : list B) : list C :=
  match l, m with
  | a :: l', b :: m' => f a b :: map2 f l' m'
  | _, _ => []
  end.

Definition fmax_arr (x y : array) : result array :=
  if Nat.eqb (length x) (length y) then Ok (map2 fmax x y)
  else match x, y with
       | [a], _ => Ok (map (fmax a) y)
       | _, [b] => Ok (map (fun a => fmax a b) x)
       | _, _ => Err ValueError
       end.

(** [functools.reduce(f, l)] without initial value. *)
Definition reduce {A} (f : A -> A -> result A) (l : list A) : result A :=
  match l with
  | [] => Err TypeError
  | a :: l' => foldM f a l'
  end.

(** [aggregate(self, activated)] *)
Definition aggregate (activated : sdict array) : result array :=
  reduce fmax_arr (values activated).

(** ** scikit-fuzzy: [defuzz] *)

(** [np.finfo(float).eps] *)
Definition eps : num := 1 # 4503599627370496.

Definition arr_sum (a : array) : num := fold_left fadd a 0.

(** One step of the loop of [skfuzzy.defuzzify.centroid]: the moment and the
    area of the figure between two neighbouring samples, or nothing for a
    figure of zero height or width. *)
Definition seg_moment_area (x1 y1 x2 y2 : num) : option (num * num) :=
  if (feqb y1 y2 && feqb y2 0) || feqb x1 x2 then None
  else if feqb y1 y2 then
    Some (fmul (1 # 2) (fadd x1 x2), fmul (fsub x2 x1) y1)
  else if feqb y1 0 && negb (feqb y2 0) then
    Some (fadd (fmul (2 # 3) (fsub x2 x1)) x1,
          fmul (fmul (1 # 2) (fsub x2 x1)) y2)
  else if feqb y2 0 && negb (feqb y1 0) then
    Some (fadd (fmul (1 # 3) (fsub x2 x1)) x1,
          fmul (fmul (1 # 2) (fsub x2 x1)) y1)
  else
    Some (fadd (fdiv (fmul (fmul (2 # 3) (fsub x2 x1)) (fadd y2 (fmul (1 # 2) y1)))
                     (fadd y1 y2)) x1,
          fmul (fmul (1 # 2) (fsub x2 x1)) (fadd y1 y2)).

(** The loop [for i in range(1, len(x))], carrying the previous sample and
    the pair [(sum_moment_area, sum_area)]. *)
Fixpoint centroid_loop (x1 y1 : num) (pts : list (num * num)) (acc : num * num)
  : num * num :=
  match pts with
  | [] => acc
  | (x2, y2) :: pts' =>
      let acc' :=
        match seg_moment_area x1 y1 x2 y2 with
        | Some (moment, area) =>
            (fadd (fst acc) (fmul moment area), fadd (snd acc) area)
        | None => acc
        end in
      centroid_loop x2 y2 pts' acc'
  end.

(** [skfuzzy.defuzzify.centroid(x, mfx)] *)
Definition centroid (x mfx : array) : num :=
  match zip x mfx with
  | [] => 0
  | [(x0, y0)] => fdiv (fmul x0 y0) (fmax y0 eps)
  | (x0, y0) :: pts =>
      let '(sum_moment_area, sum_area) := centroid_loop x0 y0 pts (0, 0) in
      fdiv sum_moment_area (fmax sum_area eps)
  end.

(** [x[mfx == mfx.max()]] *)
Definition at_max (x mfx : array) : result array :=
  m <- arr_max mfx ;;
  Ok (map fst (filter (fun p => feqb (snd p) m) (zip x mfx))).

Definition arr_mean (a : array) : num := fdiv (arr_sum a) (of_nat (length a)).

(** [str.lower] and the substring test [s in t] *)
Definition lower_ascii (c : ascii) : ascii :=
  let n := nat_of_ascii c in
  if (Nat.leb 65 n && Nat.leb n 90)%bool then ascii_of_nat (n + 32) else c.

Fixpoint lower (s : string) : string :=
  match s with
  | EmptyString => EmptyString
  | String c s' => String (lower_ascii c) (lower s')
  end.

Fixpoint contains (s t : string) : bool :=
  String.prefix s t ||
  match t with
  | EmptyString => false
  | String _ t' => contains s t'
  end.

(** [skfuzzy.defuzz(x, mfx, mode)], scikit-fuzzy 0.4.2.  The modes
    [centroid] and [bisector] refuse a membership function of total area
    zero.  The bisector takes square roots and is left out of the
    embedding. *)
Definition defuzz (x mfx : array) (mode : string) : result num :=
  let mode := lower mode in
  if negb (Nat.eqb (length x) (length mfx)) then Err AssertionError
  else if contains "centroid" mode || contains "bisector" mode then
    if feqb (arr_sum mfx) 0 then Err AssertionError
    else if contains "centroid" mode then Ok (centroid x mfx)
    else Err Unmodelled
  else if contains "mom" mode then xs <- at_max x mfx ;; Ok (arr_mean xs)
  else if contains "som" mode then xs <- at_max x mfx ;; arr_min xs
  else if contains "lom" mode then xs <- at_max x mfx ;; arr_max xs
  else Err ValueError.

(** [defuzzify(self, universe, aggregated, method = 'centroid')] *)
Definition defuzzify (univ aggregated : array) (method : string) : result num :=
  defuzz univ aggregated method.

(** ** pandas: tables *)

(** A cell of a table: missing ([NaN]), a label, or a number. *)
Inductive cell : Type :=
| NaN
| Str (s : string)
| Num (q : num).

(** A [DataFrame]: column labels, and rows each with its index label and
    one cell per column. *)
Record DataFrame : Type := mkFrame {
  columns : list string;
  rows : list (string * list cell)
}.

Definition index (df : DataFrame) : list string := map fst (rows df).

Fixpoint position (c : string) (l : list string) : option nat :=
  match l with
  | [] => None
  | c' :: l' =>
      if String.eqb c' c then Some O
      else match position c l' with Some i => Some (S i) | None => None end
  end.

(** The cell of a row under column [c]; [NaN] where the row has none. *)
Definition row_cell (cols : list string) (r : list cell) (c : string) : cell :=
  match position c cols with
  | Some i => nth i r NaN
  | None => NaN
  end.

(** [Index.unique()] and the column union of [pd.concat(..., sort=False)]:
    first occurrences, in order. *)
Fixpoint unique (l : list string) : list string :=
  match l with
  | [] => []
  | a :: l' => a :: filter (fun b => negb (String.eqb a b)) (unique l')
  end.

Fixpoint distinct (l : list string) : bool :=
  match l with
  | [] => true
  | a :: l' => negb (existsb (String.eqb a) l') && distinct l'
  end.

(** The tables that are embedded: distinct column labels (as [read_excel]
    makes them) and one cell per column in every row. *)
Definition frame_ok (df : DataFrame) : bool :=
  distinct (columns df) &&
  forallb (fun r => Nat.eqb (length (snd r)) (length (columns df))) (rows df).

(** [pd.concat(frames, sort=False)]: rows stacked, columns united and the
    rows aligned to them. *)
Definition concat (frames : list DataFrame) : result DataFrame :=
  match frames with
  | [] => Err ValueError
  | _ =>
      if forallb frame_ok frames then
        let cols := unique (flat_map columns frames) in
        Ok (mkFrame cols
              (flat_map (fun df =>
                 map (fun r => (fst r, map (row_cell (columns df) (snd r)) cols))
                     (rows df)) frames))
      else Err Unmodelled
  end.

(** The rows selected by [df.loc[label]]. *)
Definition loc_rows (df : DataFrame) (label : string) : list (list cell) :=
  map snd (filter (fun r => String.eqb (fst r) label) (rows df)).

(** [pd.crosstab(values, values.index)] for values that share one index
    label: the count of every distinct label among the values, in sorted
    order; missing cells are dropped. *)
Fixpoint tally_add (t : string) (l : list (string * nat)) : list (string * nat) :=
  match l with
  | [] => [(t, 1%nat)]
  | (k, c) :: l' =>
      match String.compare t k with
      | Eq => (k, S c) :: l'
      | Lt => (t, 1%nat) :: (k, c) :: l'
      | Gt => (k, c) :: tally_add t l'
      end
  end.

Fixpoint crosstab (vals : list cell) : result (list (string * nat)) :=
  match vals with
  | [] => Ok []
  | NaN :: vals' => crosstab vals'
  | Str t :: vals' => l <- crosstab vals' ;; Ok (tally_add t l)
  | Num _ :: _ => Err Unmodelled
  end.

(** ** Python: [str] of a dict and [eval] of the string *)

(** The characters of a printed dict.  The [repr] of a float is kept as one
    token: it holds no quote character and evaluates back to the float. *)
Inductive tok : Type :=
| Ch (c : ascii)
| Flt (q : num).

Definition squote : ascii := "'"%char.
Definition dquote : ascii := ascii_of_nat 34.
Definition bslash : ascii := "\"%char.

Fixpoint mem_char (c : ascii) (s : string) : bool :=
  match s with
  | EmptyString => false
  | String c' s' => Ascii.eqb c c' || mem_char c s'
  end.

Definition hex_digit (n : nat) : ascii :=
  if Nat.ltb n 10 then ascii_of_nat (48 + n) else ascii_of_nat (87 + n).

(** The escape of one character inside a literal quoted with [q]. *)
Definition repr_char (q c : ascii) : list ascii :=
  let n := nat_of_ascii c in
  if Ascii.eqb c bslash then [bslash; bslash]
  else if Ascii.eqb c q then [bslash; q]
  else if Nat.eqb n 10 then [bslash; "n"%char]
  else if Nat.eqb n 13 then [bslash; "r"%char]
  else if Nat.eqb n 9 then [bslash; "t"%char]
  else if Nat.ltb n 32 || Nat.eqb n 127 then
    [bslash; "x"%char; hex_digit (Nat.div n 16); hex_digit (Nat.modulo n 16)]
  else [c].

(** [repr(s)] of a str: double quotes when [s] holds a single quote and no
    double quote, single quotes otherwise. *)
Definition repr_str (s : string) : list ascii :=
  let q := if mem_char squote s && negb (mem_char dquote s) then dquote else squote in
  q :: flat_map (repr_char q) (list_ascii_of_string s) ++ [q].

Definition chars (s : string) : list tok := map Ch (list_ascii_of_string s).

Definition repr_item (kv : string * num) : list tok :=
  map Ch (repr_str (fst kv)) ++ chars ": " ++ [Flt (snd kv)].

Fixpoint repr_items (d : list (string * num)) : list tok :=
  match d with
  | [] => []
  | [kv] => repr_item kv
  | kv :: d' => repr_item kv ++ chars ", " ++ repr_items d'
  end.

(** [str(d)] of a dict from str to float *)
Definition str_dict (d : sdict num) : list tok :=
  chars "{" ++ repr_items d ++ chars "}".

(** [s.replace(DQ, '')], where [DQ] is the one-character string holding a
    double quote. *)
Definition is_dquote (t : tok) : bool :=
  match t with
  | Ch c => Ascii.eqb c dquote
  | Flt _ => false
  end.

Definition replace_dquote (s : list tok) : list tok :=
  filter (fun t => negb (is_dquote t)) s.

Definition hex_value (c : ascii) : option nat :=
  let n := nat_of_ascii c in
  if Nat.leb 48 n && Nat.leb n 57 then Some (n - 48)%nat
  else if Nat.leb 97 n && Nat.leb n 102 then Some (n - 87)%nat
  else if Nat.leb 65 n && Nat.leb n 70 then Some (n - 55)%nat
  else None.

(** The body of a single-quoted string literal, up to its closing quote;
    [acc] holds the characters read so far, last first.  A literal that
    never closes is a [SyntaxError]. *)
Fixpoint eval_body (s : list tok) (acc : list ascii) : result (string * list tok) :=
  match s with
  | [] => Err SyntaxError
  | Flt _ :: _ => Err Unmodelled
  | Ch c :: s' =>
      if Ascii.eqb c squote then Ok (string_of_list_ascii (rev acc), s')
      else if Ascii.eqb c bslash then
        match s' with
        | Ch e :: s'' =>
            if Ascii.eqb e bslash then eval_body s'' (bslash :: acc)
            else if Ascii.eqb e squote then eval_body s'' (squote :: acc)
            else if Ascii.eqb e "n"%char then eval_body s'' (ascii_of_nat 10 :: acc)
            else if Ascii.eqb e "r"%char then eval_body s'' (ascii_of_nat 13 :: acc)
            else if Ascii.eqb e "t"%char then eval_body s'' (ascii_of_nat 9 :: acc)
            else if Ascii.eqb e "x"%char then
              match s'' with
              | Ch h1 :: Ch h2 :: s3 =>
                  match hex_value h1, hex_value h2 with
                  | Some a, Some b => eval_body s3 (ascii_of_nat (16 * a + b) :: acc)
                  | _, _ => Err SyntaxError
                  end
              | _ => Err SyntaxError
              end
            else Err Unmodelled
        | _ => Err Unmodelled
        end
      else if Nat.ltb (nat_of_ascii c) 32 then Err Unmodelled
      else eval_body s' (c :: acc)
  end.

(** The items [key: value] of a dict display, after the opening brace.
    Only keys that are one single-quoted literal are evaluated; any other
    key expression is outside the embedding. *)
Fixpoint eval_items (fuel : nat) (s : list tok) (d : sdict num) : result (sdict num) :=
  match fuel with
  | O => Err Unmodelled
  | S fuel' =>
      match s with
      | Ch q :: s1 =>
          if Ascii.eqb q squote then
            '(k, s2) <- eval_body s1 [] ;;
            match s2 with
            | Ch c1 :: Ch c2 :: Flt v :: s3 =>
                if Ascii.eqb c1 ":"%char && Ascii.eqb c2 " "%char then
                  let d' := sset d k v in
                  match s3 with
                  | [Ch c3] => if Ascii.eqb c3 "}"%char then Ok d' else Err Unmodelled
                  | Ch c3 :: Ch c4 :: s4 =>
                      if Ascii.eqb c3 ","%char && Ascii.eqb c4 " "%char
                      then eval_items fuel' s4 d' else Err Unmodelled
                  | _ => Err Unmodelled
                  end
                else Err Unmodelled
            | _ => Err Unmodelled
            end
          else Err Unmodelled
      | _ => Err Unmodelled
      end
  end.

(** [eval(s)] for a string that displays a dict from str to float *)
Definition py_eval (s : list tok) : result (sdict num) :=
  match s with
  | Ch c :: s1 =>
      if Ascii.eqb c "{"%char then
        match s1 with
        | [Ch c'] => if Ascii.eqb c' "}"%char then Ok [] else Err Unmodelled
        | _ => eval_items (length s1) s1 []
        end
      else Err Unmodelled
  | _ => Err Unmodelled
  end.

(** ** The class [FcmDataProcessor]: state *)

(** What a [data] argument can be: [None], a dict from sheet name to the
    table of one expert, or a single table. *)
Inductive pydata : Type :=
| PyNone
| PyDict (d : sdict DataFrame)
| PyFrame (df : DataFrame).

(** The value of [data == None] and of [data != None]: a bool, or for a
    table the table of the elementwise comparisons. *)
Inductive pycmp : Type :=
| CmpBool (b : bool)
| CmpFrame (df : DataFrame).

Definition eq_None (d : pydata) : pycmp :=
  match d with
  | PyNone => CmpBool true
  | PyDict _ => CmpBool false
  | PyFrame df => CmpFrame df
  end.

Definition ne_None (d : pydata) : pycmp :=
  match d with
  | PyNone => CmpBool false
  | PyDict _ => CmpBool true
  | PyFrame df => CmpFrame df
  end.

(** The truth value tested by [if]: pandas refuses it for a table. *)
Definition truth (c : pycmp) : result bool :=
  match c with
  | CmpBool b => Ok b
  | CmpFrame _ => Err ValueError
  end.

Definition pair_eqb (p q : string * string) : bool :=
  String.eqb (fst p) (fst q) && String.eqb (snd p) (snd q).

Record FcmDataProcessor : Type := mkFcm {
  data : pydata;
  expert_data : dict (string * string) (sdict num);
  aggregated : sdict array;
  terms : sdict array;
  causal_weights : DataFrame
}.

Definition empty_frame : DataFrame := mkFrame [] [].

(** [__init__(self, data = None)]; [self.universe] is the constant
    [universe], which no method assigns. *)
Definition init (d : pydata) : result FcmDataProcessor :=
  b <- truth (ne_None d) ;;
  Ok (mkFcm (if b then d else PyFrame empty_frame) [] [] [] empty_frame).

(** [pd.concat([data[i] for i in data], sort = False)].  Iterating a table
    yields its columns; only the table without columns is embedded. *)
Definition flatten (d : pydata) : result DataFrame :=
  match d with
  | PyNone => Err TypeError
  | PyDict frames => concat (values frames)
  | PyFrame df =>
      match columns df with
      | [] => Err ValueError
      | _ => Err Unmodelled
      end
  end.

(** [len(data.keys())] *)
Definition len_keys (d : pydata) : result nat :=
  match d with
  | PyNone => Err AttributeError
  | PyDict frames => Ok (length frames)
  | PyFrame df => Ok (length (columns df))
  end.

(** ** Weight matrix *)

(** [pd.DataFrame(columns = labels, index = labels)]: all cells missing. *)
Definition blank_matrix (labels : list string) : DataFrame :=
  mkFrame labels (map (fun l => (l, map (fun _ => NaN) labels)) labels).

(** [weight_matrix.loc[r][c] = value]: the row is a view of the table; a
    column label the row does not have only extends the view. *)
Definition set_cell (m : DataFrame) (r c : string) (v : num) : result DataFrame :=
  if existsb (String.eqb r) (index m) then
    match position c (columns m) with
    | Some j =>
        Ok (mkFrame (columns m)
              (map (fun row => if String.eqb (fst row) r
                               then (fst row, list_set (snd row) j (Num v))
                               else row) (rows m)))
    | None => Ok m
    end
  else Err KeyError.

(** [m.fillna(0)] *)
Definition fillna0 (m : DataFrame) : DataFrame :=
  mkFrame (columns m)
    (map (fun row => (fst row,
                      map (fun x => match x with NaN => Num 0 | _ => x end) (snd row)))
         (rows m)).

(** The cell [m[r][c]] of a table, read by labels. *)
Definition cell_at (m : DataFrame) (r c : string) : option cell :=
  match loc_rows m r with
  | row :: _ =>
      match position c (columns m) with
      | Some j => nth_error row j
      | None => None
      end
  | [] => None
  end.

(** ** [gen_weights_mat] and [gen_weights_list] *)

Definition set_expert_data (self : FcmDataProcessor) v : FcmDataProcessor :=
  mkFcm (data self) v (aggregated self) (terms self) (causal_weights self).
Definition set_aggregated (self : FcmDataProcessor) v : FcmDataProcessor :=
  mkFcm (data self) (expert_data self) v (terms self) (causal_weights self).
Definition set_terms (self : FcmDataProcessor) v : FcmDataProcessor :=
  mkFcm (data self) (expert_data self) (aggregated self) v (causal_weights self).
Definition set_causal_weights (self : FcmDataProcessor) v : FcmDataProcessor :=
  mkFcm (data self) (expert_data self) (aggregated self) (terms self) v.

(** The key [f'{antecedent} {consequent}'] of [self.aggregated] *)
Definition pair_key (antecedent consequent : string) : string :=
  antecedent ++ " " ++ consequent.

(** [flat_data.loc[antecedent][consequent]], to be crossed with its own
    [.index].  With a single row of that label the selection is a scalar:
    a float has no [.index], and [pd.crosstab] refuses a lone label. *)
Definition select (flat_data : DataFrame) (antecedent consequent : string)
  : result (list cell) :=
  match loc_rows flat_data antecedent with
  | [] => Err KeyError
  | [r] =>
      match row_cell (columns flat_data) r consequent with
      | Str _ => Err ValueError
      | _ => Err AttributeError
      end
  | rs => Ok (map (fun r => row_cell (columns flat_data) r consequent) rs)
  end.

(** The frequency table [pd.crosstab(...) / len(data.keys())] of one pair,
    as the dict [crostab[antecedent].to_dict()]. *)
Definition tally (d : pydata) (flat_data : DataFrame) (antecedent consequent : string)
  : result (sdict num) :=
  vals <- select flat_data antecedent consequent ;;
  counts <- crosstab vals ;;
  n <- len_keys d ;;
  Ok (map (fun kc => (fst kc, fdiv (of_nat (snd kc)) (of_nat n))) counts).

(** Activate, aggregate, defuzzify and store: the tail of both loops. *)
Definition infer (method : string) (antecedent consequent : string)
    (activation_parameter : sdict num) (st : FcmDataProcessor * DataFrame)
  : result (FcmDataProcessor * DataFrame) :=
  let '(self, weight_matrix) := st in
  activated <- activate activation_parameter (terms self) ;;
  aggr <- aggregate activated ;;
  let self := set_aggregated self
                (sset (aggregated self) (pair_key antecedent consequent) aggr) in
  value <- defuzzify universe aggr method ;;
  weight_matrix <- set_cell weight_matrix antecedent consequent value ;;
  Ok (self, weight_matrix).

(** The body of the two nested loops of [gen_weights_mat]. *)
Definition mat_step (d : pydata) (flat_data : DataFrame) (method : string)
    (st : FcmDataProcessor * DataFrame) (antecedent consequent : string)
  : result (FcmDataProcessor * DataFrame) :=
  crostab <- tally d flat_data antecedent consequent ;;
  if negb (Nat.eqb (length crostab) 0) then
    activation_parameter <- py_eval (replace_dquote (str_dict crostab)) ;;
    let self := set_expert_data (fst st)
                  (dict_set pair_eqb (expert_data (fst st))
                            (antecedent, consequent) activation_parameter) in
    infer method antecedent consequent activation_parameter (self, snd st)
  else Ok st.

Definition mat_loop (d : pydata) (flat_data : DataFrame) (method : string)
    (st : FcmDataProcessor * DataFrame) : result (FcmDataProcessor * DataFrame) :=
  foldM (fun st antecedent =>
           foldM (fun st consequent =>
                    mat_step d flat_data method st antecedent consequent)
                 st (columns flat_data))
        st (columns flat_data).

(** *** The edge list format *)

Definition is_key_column (c : string) : bool :=
  String.eqb c "From" || String.eqb c "To".

(** The columns that are counted and averaged by the [groupby]: all but the
    two keys. *)
Definition term_columns (flat_data : DataFrame) : list string :=
  filter (fun c => negb (is_key_column c)) (columns flat_data).

(** The label in column [c] of a row; the concepts of the embedded tables
    are labels. *)
Definition label_cell (flat_data : DataFrame) (c : string) (r : list cell)
  : result string :=
  match position c (columns flat_data) with
  | None => Err KeyError
  | Some j =>
      match nth j r NaN with
      | Str s => Ok s
      | _ => Err Unmodelled
      end
  end.

(** [flat_data[c]] as a list of labels *)
Definition column_labels (flat_data : DataFrame) (c : string) : result (list string) :=
  mapM (fun r => label_cell flat_data c (snd r)) (rows flat_data).

Definition row_pair (flat_data : DataFrame) (r : list cell) : result (string * string) :=
  a <- label_cell flat_data "From" r ;;
  b <- label_cell flat_data "To" r ;;
  Ok (a, b).

Definition pair_compare (p q : string * string) : comparison :=
  match String.compare (fst p) (fst q) with
  | Eq => String.compare (snd p) (snd q)
  | o => o
  end.

(** The keys of [groupby(['From', 'To'])]: the distinct pairs, sorted. *)
Fixpoint insert_pair (p : string * string) (l : list (string * string))
  : list (string * string) :=
  match l with
  | [] => [p]
  | q :: l' =>
      match pair_compare p q with
      | Eq => q :: l'
      | Lt => p :: q :: l'
      | Gt => q :: insert_pair p l'
      end
  end.

Definition group_keys (pairs : list (string * string)) : list (string * string) :=
  fold_right insert_pair [] pairs.

(** The cells of column [c] in the rows of one group. *)
Definition group_cells (flat_data : DataFrame) (pairs : list (string * string))
    (p : string * string) (c : string) : list cell :=
  map (fun rp => row_cell (columns flat_data) (snd (fst rp)) c)
      (filter (fun rp => pair_eqb (snd rp) p) (zip (rows flat_data) pairs)).

(** [count()]: the cells that are not missing. *)
Definition count_cells (l : list cell) : nat :=
  length (filter (fun x => match x with NaN => false | _ => true end) l).

(** [mean()] of a numeric column: missing for a group without numbers. *)
Fixpoint sum_cells (l : list cell) : result num :=
  match l with
  | [] => Ok 0
  | NaN :: l' => sum_cells l'
  | Num q :: l' => s <- sum_cells l' ;; Ok (fadd q s)
  | Str _ :: _ => Err Unmodelled
  end.

Definition mean_cells (l : list cell) : result (option num) :=
  s <- sum_cells l ;;
  match count_cells l with
  | O => Ok None
  | n => Ok (Some (fdiv s (of_nat n)))
  end.

(** One entry of [final]: the mean code times the frequency, [0] where the
    product is missing. *)
Definition signed_freq (n : nat) (l : list cell) : result num :=
  m <- mean_cells l ;;
  match m with
  | None => Ok 0
  | Some m => Ok (fmul m (fdiv (of_nat (count_cells l)) (of_nat n)))
  end.

(** [final.loc[pair[0], pair[1]].to_dict()] *)
Definition term_set (d : pydata) (flat_data : DataFrame)
    (pairs : list (string * string)) (p : string * string) : result (sdict num) :=
  n <- len_keys d ;;
  mapM (fun c => v <- signed_freq n (group_cells flat_data pairs p c) ;; Ok (c, v))
       (term_columns flat_data).

(** [str(np.sign(v)).strip(...)]: the minus sign of a negative number, the
    empty string otherwise; and [float(str(v).strip('-'))], its magnitude. *)
Definition sign_prefix (v : num) : string := if fltb v 0 then "-" else "".
Definition magnitude (v : num) : num := if fltb v 0 then Qopp v else v.

(** The loop that attaches the sign to the linguistic term. *)
Definition signed_terms (ts : sdict num) : sdict num :=
  fold_left (fun ap kv => sset ap (sign_prefix (snd kv) ++ fst kv) (magnitude (snd kv)))
            ts [].

(** The body of the loop of [gen_weights_list]. *)
Definition list_step (method : string) (finals : list ((string * string) * sdict num))
    (st : FcmDataProcessor * DataFrame) (pair : string * string)
  : result (FcmDataProcessor * DataFrame) :=
  ts <- dict_lookup pair_eqb finals pair ;;
  let activation_parameter := signed_terms ts in
  let self := set_expert_data (fst st)
                (dict_set pair_eqb (expert_data (fst st)) pair activation_parameter) in
  if negb (forallb (fun x => feqb x 0) (values activation_parameter)) then
    infer method (fst pair) (snd pair) activation_parameter (self, snd st)
  else Ok (self, snd st).

Section Validator.

(** [consistency_check(data, dtype)] of [data_processor.process_functions]:
    the validator of the expert tables, which raises on inconsistent
    tables.  Its module is not part of the embedded file. *)
Variable consistency_check : pydata -> string -> result unit.

(** The head shared by both methods: the choice between the stored and
    the passed tables, and the flat table of all experts. *)
Definition choose_data (self : FcmDataProcessor) (d : pydata) (dtype : string)
  : result (pydata * DataFrame) :=
  b <- truth (eq_None d) ;;
  d <- (if b then Ok (data self)
        else _ <- consistency_check d dtype ;; Ok d) ;;
  flat_data <- flatten d ;;
  Ok (d, flat_data).

(** [gen_weights_mat(self, data = None, linguistic_terms = [...],
    method = 'centroid')] *)
Definition gen_weights_mat (self : FcmDataProcessor) (d : pydata)
    (linguistic_terms : list string) (method : string)
  : result FcmDataProcessor :=
  '(d, flat_data) <- choose_data self d "Matrix" ;;
  let weight_matrix := blank_matrix (unique (index flat_data)) in
  let self := set_aggregated (set_expert_data self []) [] in
  mf <- automf universe linguistic_terms ;;
  let self := set_terms self mf in
  '(self, weight_matrix) <- mat_loop d flat_data method (self, weight_matrix) ;;
  Ok (set_causal_weights self (fillna0 weight_matrix)).

(** [gen_weights_list(self, data = None, linguistic_terms = [...],
    method = 'centroid')] *)
Definition gen_weights_list (self : FcmDataProcessor) (d : pydata)
    (linguistic_terms : list string) (method : string)
  : result FcmDataProcessor :=
  '(d, flat_data) <- choose_data self d "List" ;;
  froms <- column_labels flat_data "From" ;;
  let weight_matrix := blank_matrix (unique froms) in
  let self := set_expert_data self [] in
  pairs <- mapM (fun r => row_pair flat_data (snd r)) (rows flat_data) ;;
  let index_ := group_keys pairs in
  finals <- mapM (fun p => ts <- term_set d flat_data pairs p ;; Ok (p, ts)) index_ ;;
  let self := set_aggregated self [] in
  mf <- automf universe linguistic_terms ;;
  let self := set_terms self mf in
  '(self, weight_matrix) <- foldM (list_step method finals) (self, weight_matrix) index_ ;;
  Ok (set_causal_weights self (fillna0 weight_matrix)).

End Validator.

(** ** Notions used to state the properties *)

(** A triangle is ordered and has its apex at [center]. *)
Definition ordered_abc (abc : num * num * num) (center : num) : Prop :=
  let '(a, b, c) := abc in a <= b /\ b <= c /\ b == center.

(** The array [trimf] computes for an ordered triangle. *)
Definition trimf_arr (univ : array) (abc : num * num * num) : array :=
  let '(a, b, c) := abc in map (trimf_at a b c) univ.

(** The degrees [y] over the samples [univ] peak at [c]: they do not fall
    towards [c] from the left, do not rise away from [c] to the right, and
    are [1] on a sample equal to [c]. *)
Definition peaks_at (univ y : array) (c : num) : Prop :=
  (forall j k, (j < length univ)%nat -> (k < length univ)%nat ->
     (nth j univ 0 <= nth k univ 0 -> nth k univ 0 <= c -> nth j y 0 <= nth k y 0) /\
     (c <= nth j univ 0 -> nth j univ 0 <= nth k univ 0 -> nth k y 0 <= nth j y 0)) /\
  (forall j, (j < length univ)%nat -> nth j univ 0 == c -> nth j y 0 = 1).

(** A label without quote characters. *)
Definition quote_free (s : string) : bool :=
  negb (mem_char squote s) && negb (mem_char dquote s).

Definition str_lt (a b : string) : Prop := String.compare a b = Lt.

Definition key_lt {V} (p q : string * V) : Prop := str_lt (fst p) (fst q).

(** Two experts who both put the label [l] on the pair (A, B). *)
Definition label_table (l : string) : DataFrame :=
  mkFrame ["A"; "B"] [("A", [NaN; Str l]); ("B", [NaN; NaN])].
Definition two_tables (l : string) : pydata :=
  PyDict [("Expert1", label_table l); ("Expert2", label_table l)].
Definition two_flat (l : string) : DataFrame :=
  mkFrame ["A"; "B"]
    [("A", [NaN; Str l]); ("B", [NaN; NaN]); ("A", [NaN; Str l]); ("B", [NaN; NaN])].

(** The label [H] written between double quotes. *)
Definition quoted_H : string := String dquote (String "H" (String dquote EmptyString)).

(** The records kept for the pair [(a, c)]: nothing under [(a, c)] in
    [expert_data], and under the key of the pair in [aggregated] only what
    another pair with the same key and a term has stored. *)
Definition no_record (tables : pydata) (flat_data : DataFrame)
    (self : FcmDataProcessor) (a c : string) : Prop :=
  dict_get pair_eqb (expert_data self) (a, c) = None /\
  forall arr, sget (aggregated self) (pair_key a c) = Some arr ->
    exists a' c' t, (a', c') <> (a, c) /\ pair_key a' c' = pair_key a c /\
      In a' (columns flat_data) /\ In c' (columns flat_data) /\
      tally tables flat_data a' c' = Ok t /\ t <> [].

(** A validator that accepts every table, and the object [__init__] builds
    around tables. *)
Definition no_check : pydata -> string -> result unit := fun _ _ => Ok tt.
Definition fresh (d : pydata) : FcmDataProcessor := mkFcm d [] [] [] empty_frame.

(** The samples [x] do not fall and lie in [[lo, hi]]. *)
Fixpoint increasing_within (lo hi : Q) (x : list Q) : bool :=
  match x with
  | [] => true
  | x1 :: x' =>
      fleb lo x1 && fleb x1 hi &&
      match x' with
      | [] => true
      | x2 :: _ => fleb x1 x2
      end && increasing_within lo hi x'
  end.

(** An array of the length of the universe with entries in [[0, 1]]. *)
Definition degrees (n : nat) (y : list Q) : Prop :=
  length y = n /\ Forall (fun v => 0 <= v /\ v <= 1) y.

(** An array of that length with entries that are not negative. *)
Definition nonneg (n : nat) (y : list Q) : Prop :=
  length y = n /\ Forall (fun v => 0 <= v) y.

(** Every cell is missing or a number in [[-1, 1]]. *)
Definition bounded_cell (x : cell) : Prop :=
  match x with
  | NaN => True
  | Num v => -1 <= v /\ v <= 1
  | Str _ => False
  end.

Definition bounded_frame (m : DataFrame) : Prop :=
  Forall (fun row => Forall bounded_cell (snd row)) (rows m).

(** Membership functions over the universe, each with a positive degree
    somewhere. *)
Definition good_mf (mf : list (string * list Q)) : Prop :=
  Forall (fun kv => degrees (length universe) (snd kv) /\
                    exists j, 0 < nth j (snd kv) 0) mf.

(** An activation parameter that [mf] can serve: known terms with positive
    frequencies. *)
Definition served (mf : list (string * list Q)) (ap : list (string * Q)) : Prop :=
  Forall (fun kv => 0 < snd kv /\ exists y, sget mf (fst kv) = Some y) ap.

(** An activated set: never negative, positive somewhere. *)
Definition lit (n : nat) (y : list Q) : Prop :=
  nonneg n y /\ exists j, 0 < nth j y 0.

(** What an expert may have put on the eight pairs other than (A, B). *)
Record others : Type := mkOthers {
  o_aa : cell; o_ac : cell;
  o_ba : cell; o_bb : cell; o_bc : cell;
  o_ca : cell; o_cb : cell; o_cc : cell
}.

(** The table of an expert over the concepts A, B, C who assigns the term
    [H] to the pair (A, B). *)
Definition fixture_table (o : others) : DataFrame :=
  mkFrame ["A"; "B"; "C"]
    [("A", [o_aa o; Str "H"; o_ac o]);
     ("B", [o_ba o; o_bb o; o_bc o]);
     ("C", [o_ca o; o_cb o; o_cc o])].

Definition fixture (o1 o2 o3 : others) : pydata :=
  PyDict [("Expert1", fixture_table o1); ("Expert2", fixture_table o2);
          ("Expert3", fixture_table o3)].

Definition fixture_flat (o1 o2 o3 : others) : DataFrame :=
  mkFrame ["A"; "B"; "C"]
    (rows (fixture_table o1) ++ rows (fixture_table o2) ++ rows (fixture_table o3)).

(** A cell of validated expert data: empty, or a term of the default list. *)
Definition valid_cell (x : cell) : bool :=
  match x with
  | NaN => true
  | Str t => existsb (String.eqb t) default_terms
  | Num _ => false
  end.

Definition valid_others (o : others) : bool :=
  forallb valid_cell [o_aa o; o_ac o; o_ba o; o_bb o; o_bc o; o_ca o; o_cb o; o_cc o].

(** The membership functions of the default terms, the one of [H], and its
    centroid. *)
Definition default_mf : list (string * list Q) :=
  Eval vm_compute in
    match automf universe default_terms with
    | Ok mf => mf
    | Err _ => []
    end.

Definition mf_H : list Q :=
  Eval vm_compute in
    match sget default_mf "H" with
    | Some y => y
    | None => []
    end.

Definition weight_H : Q := 1125371999 # 1499997000.

Definition fixture_inv (st : FcmDataProcessor * DataFrame) : Prop :=
  terms (fst st) = default_mf /\
  index (snd st) = ["A"; "B"; "C"] /\
  columns (snd st) = ["A"; "B"; "C"] /\
  Forall (fun row => length (snd row) = length (columns (snd st))) (rows (snd st)).

(** What the run records for the pair (A, B). *)
Definition fixture_post (st : FcmDataProcessor * DataFrame) : Prop :=
  dict_get pair_eqb (expert_data (fst st)) ("A", "B") = Some [("H", 1)] /\
  sget (aggregated (fst st)) (pair_key "A" "B") = Some mf_H /\
  cell_at (snd st) "A" "B" = Some (Num weight_H).

(** Two ways to fill the other pairs: nothing at all, and some terms. *)
Definition quiet : others := mkOthers NaN NaN NaN NaN NaN NaN NaN NaN.
Definition busy : others :=
  mkOthers NaN (Str "-L") (Str "VH") NaN (Str "M") (Str "VL") NaN NaN.

(** The judgment of one expert: the cell for each ordered pair of
    concepts. *)
Definition judgment := string -> string -> cell.

(** The unsigned terms, the term columns of the edge list format. *)
Definition base_terms : list string := ["VL"; "L"; "M"; "H"; "VH"].

(** Mode "matrix": the square table of an expert. *)
Definition matrix_table (concepts : list string) (j : judgment) : DataFrame :=
  mkFrame concepts (map (fun a => (a, map (j a) concepts)) concepts).

(** The code of a cell under the column of the unsigned term [b]: [1] for
    [b], [-1] for [b] with a minus sign, missing otherwise. *)
Definition code (b : string) (x : cell) : cell :=
  match x with
  | Str t =>
      if String.eqb t b then Num 1
      else if String.eqb t ("-" ++ b) then Num (-1)
      else NaN
  | _ => NaN
  end.

(** Mode "list": one row for each ordered pair, as [read_excel] numbers
    them. *)
Definition row_label (i : nat) : string := NilZero.string_of_uint (Nat.to_uint i).

Definition list_row (j : judgment) (p : string * string) : list cell :=
  Str (fst p) :: Str (snd p) :: map (fun b => code b (j (fst p) (snd p))) base_terms.

Definition list_table (concepts : list string) (j : judgment) : DataFrame :=
  let pairs := list_prod concepts concepts in
  mkFrame ("From" :: "To" :: base_terms)
    (map (fun ip => (row_label (fst ip), list_row j (snd ip)))
         (zip (seq 0 (length pairs)) pairs)).

Definition matrix_data (concepts : list string) (experts : list (string * judgment)) : pydata :=
  PyDict (map (fun e => (fst e, matrix_table concepts (snd e))) experts).

Definition list_data (concepts : list string) (experts : list (string * judgment)) : pydata :=
  PyDict (map (fun e => (fst e, list_table concepts (snd e))) experts).

(** The judgment that puts the term [t] on the pair (A, B) and nothing on
    the other pairs. *)
Definition says (t : string) : judgment :=
  fun a c => if String.eqb a "A" && String.eqb c "B" then Str t else NaN.

(** Three experts on the pair (A, B): two say [H], one says [-H]. *)
Definition split_experts : list (string * judgment) :=
  [("Expert1", says "H"); ("Expert2", says "H"); ("Expert3", says "-H")].

(** The cell holds the label [t]. *)
Definition is_label (t : string) (x : cell) : bool :=
  match x with
  | Str s => String.eqb s t
  | _ => false
  end.

(** How many experts put the label [t]. *)
Definition occ (t : string) (vals : list cell) : nat :=
  length (filter (is_label t) vals).

(** The count of the label [s] in a cross table. *)
Definition count_of (s : string) (l : list (string * nat)) : nat :=
  match dict_get String.eqb l s with
  | Some c => c
  | None => O
  end.

(** The term [b] with a minus sign. *)
Definition minus (b : string) : string := "-" ++ b.

(** The three cases of a term column when the experts agree on the sign:
    unused, used with its plain name, used with the minus sign. *)
Inductive column_case (b : string) (vals : list cell) (n : nat) (v : Q) : Prop :=
| col_unused : occ b vals = O -> occ (minus b) vals = O -> v = 0 ->
    column_case b vals n v
| col_plus : (0 < occ b vals)%nat -> occ (minus b) vals = O -> 0 < v ->
    v = fdiv (of_nat (occ b vals)) (of_nat n) -> column_case b vals n v
| col_minus : occ b vals = O -> (0 < occ (minus b) vals)%nat -> v < 0 ->
    - v = fdiv (of_nat (occ (minus b) vals)) (of_nat n) -> column_case b vals n v.

(** The entry the sign loop of [gen_weights_list] makes of a term column. *)
Definition signed_key (kv : string * Q) : string := sign_prefix (snd kv) ++ fst kv.
Definition signed_entry (kv : string * Q) : string * Q := (signed_key kv, magnitude (snd kv)).

(** A number in lowest terms; two such numbers of one value are one. *)
Definition canonical (q : Q) : Prop := Qred q = q.

(** [canonical], decided. *)
Definition canonicalb (q : Q) : bool :=
  Z.eqb (Qnum (Qred q)) (Qnum q) && Pos.eqb (Qden (Qred q)) (Qden q).

(** The membership function of a term, empty for an unknown term. *)
Definition mf_get (mf : list (string * list Q)) (k : string) : list Q :=
  match sget mf k with
  | Some y => y
  | None => []
  end.

(** The array an entry of the activation parameter activates. *)
Definition activated_by (mf : list (string * list Q)) (kv : string * Q) : list Q :=
  map (fmin (snd kv)) (mf_get mf (fst kv)).

(** A table with the columns [cols] and one cell per column in every row. *)
Definition same_shape (cols : list string) (df : DataFrame) : Prop :=
  columns df = cols /\
  Forall (fun r : string * list cell => length (snd r) = length cols) (rows df).

(** The cells the experts give for one ordered pair, in their order. *)
Definition answers (experts : list (string * judgment)) (a c : string) : list cell :=
  map (fun e => snd e a c) experts.

(** The flat table of the judgments in the matrix format and in the edge
    list format. *)
Definition matrix_flat (concepts : list string) (experts : list (string * judgment))
  : DataFrame :=
  mkFrame concepts (flat_map (fun e => rows (matrix_table concepts (snd e))) experts).

(** The columns of the edge list format. *)
Definition list_columns : list string := "From" :: "To" :: base_terms.

Definition list_flat (concepts : list string) (experts : list (string * judgment))
  : DataFrame :=
  mkFrame list_columns (flat_map (fun e => rows (list_table concepts (snd e))) experts).

(** The pair a row of the edge list names. *)
Definition pair_of (r : list cell) : string * string :=
  match r with
  | Str a :: Str c :: _ => (a, c)
  | _ => ("", "")
  end.

(** The pairs of the rows, in the order of the rows. *)
Definition list_pairs (concepts : list string) (experts : list (string * judgment))
  : list (string * string) :=
  map (fun r => pair_of (snd r)) (rows (list_flat concepts experts)).

(** [w] is the weight the activation parameter [ap] yields: activated,
    aggregated and defuzzified with [method]. *)
Definition pair_weight (method : string) (mf : list (string * list Q))
    (ap : list (string * Q)) (w : Q) : Prop :=
  exists activated aggr,
    activate ap mf = Ok activated /\ aggregate activated = Ok aggr /\
    defuzzify universe aggr method = Ok w.

(** Every row of the table has one cell per column. *)
Definition full_rows (m : DataFrame) : Prop :=
  Forall (fun row : string * list cell => length (snd row) = length (columns m)) (rows m).

(** What the loops keep of their state. *)
Definition loop_inv (mf : list (string * list Q)) (cols : list string)
    (st : FcmDataProcessor * DataFrame) : Prop :=
  terms (fst st) = mf /\ columns (snd st) = cols /\ full_rows (snd st).

(** Every judgment on a pair of concepts is empty or one of the default
    terms. *)
Definition valid_judgments (concepts : list string) (experts : list (string * judgment))
  : bool :=
  forallb (fun p => forallb valid_cell (answers experts (fst p) (snd p)))
          (list_prod concepts concepts).

(** No unsigned term occurs among the cells both plain and with a minus
    sign. *)
Definition one_sign (vals : list cell) : bool :=
  forallb (fun b => Nat.eqb (occ b vals) 0 || Nat.eqb (occ (minus b) vals) 0) base_terms.

(** For no pair of concepts do the experts use a term with both signs. *)
Definition signs_agree (concepts : list string) (experts : list (string * judgment))
  : bool :=
  forallb (fun p => one_sign (answers experts (fst p) (snd p)))
          (list_prod concepts concepts).

(** What the loops keep of their state, for the runs to go on. *)
Definition run_inv (concepts : list string) (st : FcmDataProcessor * DataFrame) : Prop :=
  terms (fst st) = default_mf /\ forall a, In a concepts -> In a (index (snd st)).

(** Three experts who agree on the sign for the pair (A, B). *)
Definition united_experts : list (string * judgment) :=
  [("Expert1", says "-H"); ("Expert2", says "-VH"); ("Expert3", says "-H")].

(** The state of a loop: the data of the processor, and a weight matrix
    over [labels] with one cell per column in every row. *)
Definition shape_inv (labels : list string) (d0 : pydata)
    (st : FcmDataProcessor * DataFrame) : Prop :=
  data (fst st) = d0 /\ columns (snd st) = labels /\ index (snd st) = labels /\
  full_rows (snd st).

(** Two processors that differ in the weights of an earlier run only. *)
Definition same_but_weights (s1 s2 : FcmDataProcessor) : Prop :=
  data s1 = data s2 /\ expert_data s1 = expert_data s2 /\
  aggregated s1 = aggregated s2 /\ terms s1 = terms s2.

Definition same_states (st1 st2 : FcmDataProcessor * DataFrame) : Prop :=
  same_but_weights (fst st1) (fst st2) /\ snd st1 = snd st2.

(** Two outcomes: the same exception, or results related by [R]. *)
Definition same_outcome {S} (R : S -> S -> Prop) (r1 r2 : result S) : Prop :=
  match r1, r2 with
  | Ok a, Ok b => R a b
  | Err e1, Err e2 => e1 = e2
  | _, _ => False
  end.

(** Two experts who put opposite terms on the pair (A, B). *)
Definition opposed_experts : list (string * judgment) :=
  [("Expert1", says "H"); ("Expert2", says "-H")].

(** Neighbouring elements of a list. *)
Fixpoint adj {A} (l : list A) : list (A * A) :=
  match l with
  | [] => []
  | a :: l' =>
      match l' with
      | [] => []
      | b :: _ => (a, b) :: adj l'
      end
  end.

(** What the figure between two neighbouring points adds to the sums of
    the centroid: its moment times its area, and its area. *)
Definition contrib (s : (Q * Q) * (Q * Q)) : Q * Q :=
  match seg_moment_area (fst (fst s)) (snd (fst s)) (fst (snd s)) (snd (snd s)) with
  | Some (m, a) => (m * a, a)
  | None => (0, 0)
  end.

Definition sum_fst (cs : list (Q * Q)) : Q := fold_right (fun c s => fst c + s) 0 cs.
Definition sum_snd (cs : list (Q * Q)) : Q := fold_right (fun c s => snd c + s) 0 cs.

(** A point of a membership function, mirrored at zero. *)
Definition mirror (p : Q * Q) : Q * Q := (- fst p, snd p).




(** What the mirror image needs to know of an activation parameter. *)
Definition default_entries (t : list (string * Q)) : Prop :=
  NoDup (keys t) /\
  Forall (fun kv => In (fst kv) default_terms /\ 0 <= snd kv /\ canonical (snd kv)) t.

(** The samples rise strictly, and none of their steps crosses zero. *)
Definition grid_ok (x : list Q) : bool :=
  forallb (fun s => fltb (fst s) (snd s) && (fleb 0 (fst s) || fleb (snd s) 0)) (adj x).

(** The degrees are zero at every sample that is not positive. *)
Definition right_of_zero (x y : list Q) : bool :=
  forallb (fun p => negb (fleb (fst p) 0) || feqb (snd p) 0) (zip x y).

(** The degrees are zero at every sample that is not negative. *)
Definition left_of_zero (x y : list Q) : bool :=
  forallb (fun p => negb (fleb 0 (fst p)) || feqb (snd p) 0) (zip x y).

(** The degrees are zero at every sample that [P] holds of. *)
Definition zero_where (P : Q -> bool) (x y : list Q) : bool :=
  forallb (fun p => negb (P (fst p)) || feqb (snd p) 0) (zip x y).

(** A cell that is empty or a label without quote characters. *)
Definition label_ok (x : cell) : bool :=
  match x with
  | NaN => true
  | Str t => quote_free t
  | Num _ => false
  end.

(** All judgments on the pairs of the concepts are such cells. *)
Definition labelled (concepts : list string) (experts : list (string * judgment)) : bool :=
  forallb (fun p => forallb label_ok (answers experts (fst p) (snd p)))
          (list_prod concepts concepts).

(** * Properties *)

(** ** Basic facts about the number layer *)

Lemma fadd_eq x y : fadd x y == x + y.
Proof. apply Qred_correct. Qed.
Lemma fsub_eq x y : fsub x y == x - y.
Proof. apply Qred_correct. Qed.
Lemma fmul_eq x y : fmul x y == x * y.
Proof. apply Qred_correct. Qed.
Lemma fdiv_eq x y : fdiv x y == x / y.
Proof. apply Qred_correct. Qed.

Lemma feqb_true x y : feqb x y = true <-> x == y.
Proof. apply Qeq_bool_iff. Qed.
Lemma feqb_false x y : feqb x y = false <-> ~ x == y.
Proof.
  unfold feqb. split; intro H.
  - intro E. apply Qeq_bool_iff in E. congruence.
  - destruct (Qeq_bool x y) eqn:E; [apply Qeq_bool_iff in E; tauto | reflexivity].
Qed.
Lemma fleb_true x y : fleb x y = true <-> x <= y.
Proof. apply Qle_bool_iff. Qed.
Lemma fleb_false x y : fleb x y = false <-> y < x.
Proof.
  unfold fleb. split; intro H.
  - apply Qnot_le_lt. intro E. apply Qle_bool_iff in E. congruence.
  - destruct (Qle_bool x y) eqn:E; [|reflexivity].
    apply Qle_bool_iff in E. exfalso. apply (Qlt_not_le _ _ H E).
Qed.
Lemma fltb_true x y : fltb x y = true <-> x < y.
Proof.
  unfold fltb. rewrite negb_true_iff. apply (fleb_false y x).
Qed.
Lemma fltb_false x y : fltb x y = false <-> y <= x.
Proof.
  unfold fltb. rewrite negb_false_iff. apply (fleb_true y x).
Qed.

Lemma fmax_ge_l x y : x <= fmax x y.
Proof.
  unfold fmax. destruct (fleb y x) eqn:E.
  - apply Qle_refl.
  - apply fleb_false in E. apply Qlt_le_weak, E.
Qed.
Lemma fmax_ge_r x y : y <= fmax x y.
Proof.
  unfold fmax. destruct (fleb y x) eqn:E.
  - apply fleb_true in E. exact E.
  - apply Qle_refl.
Qed.
Lemma fmax_cases x y : fmax x y = x \/ fmax x y = y.
Proof. unfold fmax. destruct (fleb y x); auto. Qed.
Lemma fmin_le_l x y : fmin x y <= x.
Proof.
  unfold fmin. destruct (fleb x y) eqn:E.
  - apply Qle_refl.
  - apply fleb_false in E. apply Qlt_le_weak, E.
Qed.
Lemma fmin_le_r x y : fmin x y <= y.
Proof.
  unfold fmin. destruct (fleb x y) eqn:E.
  - apply fleb_true in E. exact E.
  - apply Qle_refl.
Qed.
Lemma fmin_cases x y : fmin x y = x \/ fmin x y = y.
Proof. unfold fmin. destruct (fleb x y); auto. Qed.

(** ** The [data] argument: a single table (C9) *)

Section DataArgument.
Variable consistency_check : pydata -> string -> result unit.

(** C9.  A single table passed as [data] makes the comparison with [None]
    a table of comparisons, whose truth value pandas refuses: the
    constructor and both weight methods raise [ValueError] instead of
    using the table. *)
Theorem frame_argument_raises (df : DataFrame) (self : FcmDataProcessor)
    (linguistic_terms : list string) (method : string) :
  truth (ne_None (PyFrame df)) = Err ValueError /\
  truth (eq_None (PyFrame df)) = Err ValueError /\
  init (PyFrame df) = Err ValueError /\
  gen_weights_mat consistency_check self (PyFrame df) linguistic_terms method
    = Err ValueError /\
  gen_weights_list consistency_check self (PyFrame df) linguistic_terms method
    = Err ValueError.
Proof. repeat split; reflexivity. Qed.
End DataArgument.

(** ** Aggregation (C6) *)

Lemma map2_length {A B C} (f : A -> B -> C) l m :
  length l = length m -> length (map2 f l m) = length l.
Proof.
  revert m. induction l as [|a l IH]; intros [|b m] H; simpl in *; try discriminate; auto.
Qed.

Lemma map2_nth {A B C} (f : A -> B -> C) l m i da db dc :
  length l = length m -> (i < length l)%nat ->
  nth i (map2 f l m) dc = f (nth i l da) (nth i m db).
Proof.
  revert m i. induction l as [|a l IH]; intros [|b m] i H Hi; simpl in *;
    try discriminate; try lia.
  destruct i; [reflexivity|]. apply IH; lia.
Qed.

Lemma fmax_arr_same x y :
  length x = length y -> fmax_arr x y = Ok (map2 fmax x y).
Proof. intro H. unfold fmax_arr. rewrite H, Nat.eqb_refl. reflexivity. Qed.

(** Folding [np.fmax] over arrays of one length: the result has that
    length, bounds every member from above and is attained by a member. *)
Lemma foldM_fmax_arr (n : nat) (l : list array) (a : array) :
  length a = n -> Forall (fun b => length b = n) l ->
  exists r, foldM fmax_arr a l = Ok r /\ length r = n /\
    forall i, (i < n)%nat ->
      (forall b, In b (a :: l) -> nth i b 0 <= nth i r 0) /\
      (exists b, In b (a :: l) /\ nth i r 0 = nth i b 0).
Proof.
  revert a. induction l as [|b l IH]; intros a Ha Hl.
  - exists a. simpl. repeat split; auto.
    + intros c [<-|[]]. apply Qle_refl.
    + exists a. auto.
  - inversion Hl as [|? ? Hb Hl']; subst.
    simpl. rewrite fmax_arr_same by congruence. simpl.
    destruct (IH (map2 fmax a b)) as (r & Hr & Hlen & Hi); auto.
    { rewrite map2_length; congruence. }
    exists r. repeat split; auto.
    + intros c Hc.
      destruct (Hi i H) as [Hub _].
      assert (Hm : nth i (map2 fmax a b) 0 = fmax (nth i a 0) (nth i b 0)).
      { apply map2_nth; congruence. }
      specialize (Hub (map2 fmax a b) (or_introl eq_refl)) as Hab.
      rewrite Hm in Hab.
      destruct Hc as [<-|[<-|Hc]].
      * eapply Qle_trans; [apply fmax_ge_l|exact Hab].
      * eapply Qle_trans; [apply fmax_ge_r|exact Hab].
      * apply Hub. right. exact Hc.
    + destruct (Hi i H) as [_ (c & Hc & Hrc)].
      destruct Hc as [<-|Hc].
      * rewrite (@map2_nth _ _ _ fmax a b i 0 0 0) in Hrc by congruence.
        destruct (fmax_cases (nth i a 0) (nth i b 0)) as [E|E]; rewrite E in Hrc.
        -- exists a. simpl. auto.
        -- exists b. simpl. auto.
      * exists c. simpl. auto.
Qed.

(** C6.  [aggregate] of no activated set fails ([functools.reduce] of an
    empty list raises); of a non-empty collection of arrays of one length it
    returns their elementwise maximum: an array of that length which at
    every position bounds all members and equals one of them. *)
Theorem aggregate_elementwise_max :
  aggregate [] = Err TypeError /\
  forall (activated : sdict array) (n : nat),
    activated <> [] ->
    Forall (fun b => length b = n) (values activated) ->
    exists r, aggregate activated = Ok r /\ length r = n /\
      forall i, (i < n)%nat ->
        (forall b, In b (values activated) -> nth i b 0 <= nth i r 0) /\
        (exists b, In b (values activated) /\ nth i r 0 = nth i b 0).
Proof.
  split; [reflexivity|].
  intros activated n Hne Hall.
  unfold aggregate. destruct activated as [|[k a] d]; [congruence|].
  simpl in *. inversion Hall; subst.
  apply foldM_fmax_arr; auto.
Qed.

Lemma aggregate_elementwise_max_witness :
  exists r, aggregate [("H", [0; 1 # 2; 1]); ("M", [1; 1 # 3; 0])] = Ok r /\
    length r = 3%nat /\
    forall i, (i < 3)%nat ->
      (forall b, In b [[0; 1 # 2; 1]; [1; 1 # 3; 0]] -> nth i b 0 <= nth i r 0) /\
      (exists b, In b [[0; 1 # 2; 1]; [1; 1 # 3; 0]] /\ nth i r 0 = nth i b 0).
Proof.
  apply (proj2 aggregate_elementwise_max [("H", [0; 1 # 2; 1]); ("M", [1; 1 # 3; 0])] 3%nat).
  - discriminate.
  - repeat constructor.
Defined.

(** ** Defuzzification of an empty set (C5) *)





#[export] Instance fadd_proper : Proper (Qeq ==> Qeq ==> Qeq) fadd.
Proof. intros x x' Hx y y' Hy. rewrite !fadd_eq, Hx, Hy. reflexivity. Qed.
#[export] Instance fsub_proper : Proper (Qeq ==> Qeq ==> Qeq) fsub.
Proof. intros x x' Hx y y' Hy. rewrite !fsub_eq, Hx, Hy. reflexivity. Qed.
#[export] Instance fmul_proper : Proper (Qeq ==> Qeq ==> Qeq) fmul.
Proof. intros x x' Hx y y' Hy. rewrite !fmul_eq, Hx, Hy. reflexivity. Qed.
#[export] Instance fdiv_proper : Proper (Qeq ==> Qeq ==> Qeq) fdiv.
Proof. intros x x' Hx y y' Hy. rewrite !fdiv_eq, Hx, Hy. reflexivity. Qed.

Ltac fnorm := rewrite ?fadd_eq, ?fsub_eq, ?fmul_eq, ?fdiv_eq.

(** Division by a numeral, as a product that [lra] reads. *)
Ltac qconst :=
  repeat match goal with
         | |- context [?x / (?n # ?d)] =>
             let v := eval compute in (Qinv (n # d)) in
             change (x / (n # d)) with (x * v)
         end.

(** ** Membership functions: [automf] (C3, C4) *)

Lemma linspace_length a b n : length (linspace a b n) = n.
Proof.
  destruct n as [|[|m]]; simpl; auto.
  rewrite length_map, length_seq. reflexivity.
Qed.

Lemma linspace_nth a b n i :
  (2 <= n)%nat -> (i < n)%nat ->
  nth i (linspace a b n) 0 == a + of_nat i * ((b - a) / of_nat (n - 1)).
Proof.
  intros Hn Hi. destruct n as [|[|m]]; try lia.
  unfold linspace.
  rewrite (nth_indep _ 0 (fadd a (fmul (of_nat 0) (fdiv (fsub b a) (of_nat (S m)))))).
  2:{ rewrite length_map, length_seq. lia. }
  rewrite (map_nth (fun i => fadd a (fmul (of_nat i) (fdiv (fsub b a) (of_nat (S m)))))).
  rewrite seq_nth by lia. simpl Nat.add.
  rewrite fadd_eq, fmul_eq, fdiv_eq, fsub_eq.
  replace (S (S m) - 1)%nat with (S m) by lia. reflexivity.
Qed.

Lemma fold_fmin_le l x : fold_left fmin l x <= x.
Proof.
  revert x. induction l as [|a l IH]; intro x; simpl; [apply Qle_refl|].
  eapply Qle_trans; [apply IH|apply fmin_le_l].
Qed.

Lemma fold_fmax_ge l x : x <= fold_left fmax l x.
Proof.
  revert x. induction l as [|a l IH]; intro x; simpl; [apply Qle_refl|].
  eapply Qle_trans; [apply fmax_ge_l|apply IH].
Qed.

Lemma arr_min_le_max univ lo hi :
  arr_min univ = Ok lo -> arr_max univ = Ok hi -> lo <= hi.
Proof.
  destruct univ as [|x l]; simpl; [discriminate|].
  intros [= <-] [= <-].
  eapply Qle_trans; [apply fold_fmin_le|apply fold_fmax_ge].
Qed.

Lemma py_get_nth {A} (l : list A) (i : nat) d :
  (i < length l)%nat -> py_get l (Z.of_nat i) = Ok (nth i l d).
Proof.
  intro H. unfold py_get, py_index.
  destruct (Z.of_nat i <? 0)%Z eqn:E; [apply Z.ltb_lt in E; lia|].
  replace ((0 <=? Z.of_nat i)%Z && (Z.of_nat i <? Z.of_nat (length l))%Z) with true.
  2:{ symmetry. apply andb_true_iff. split; [apply Z.leb_le|apply Z.ltb_lt]; lia. }
  simpl. rewrite Nat2Z.id.
  destruct (nth_error l i) eqn:En.
  - rewrite (nth_error_nth _ _ d En). reflexivity.
  - apply nth_error_None in En. lia.
Qed.

Lemma py_get_neg {A} (l : list A) (k : nat) d :
  (0 < k <= length l)%nat -> py_get l (- Z.of_nat k) = Ok (nth (length l - k) l d).
Proof.
  intro H. unfold py_get, py_index.
  destruct (- Z.of_nat k <? 0)%Z eqn:E; [|apply Z.ltb_ge in E; lia].
  replace ((0 <=? - Z.of_nat k + Z.of_nat (length l))%Z &&
           (- Z.of_nat k + Z.of_nat (length l) <? Z.of_nat (length l))%Z) with true.
  2:{ symmetry. apply andb_true_iff. split; [apply Z.leb_le|apply Z.ltb_lt]; lia. }
  simpl.
  replace (Z.to_nat (- Z.of_nat k + Z.of_nat (length l))) with (length l - k)%nat by lia.
  destruct (nth_error l (length l - k)) eqn:En.
  - rewrite (nth_error_nth _ _ d En). reflexivity.
  - apply nth_error_None in En. lia.
Qed.

Lemma py_get_short {A} (l : list A) (i : nat) :
  (length l <= i)%nat -> py_get l (Z.of_nat i) = Err IndexError.
Proof.
  intro H. unfold py_get, py_index.
  destruct (Z.of_nat i <? 0)%Z eqn:E; [apply Z.ltb_lt in E; lia|].
  replace ((0 <=? Z.of_nat i)%Z && (Z.of_nat i <? Z.of_nat (length l))%Z) with false.
  2:{ symmetry. apply andb_false_iff. right. apply Z.ltb_ge. lia. }
  reflexivity.
Qed.

Lemma py_set_nat {A} (l : list A) (i : nat) a :
  (i < length l)%nat -> py_set l (Z.of_nat i) a = Ok (list_set l i a).
Proof.
  intro H. unfold py_set, py_index.
  destruct (Z.of_nat i <? 0)%Z eqn:E; [apply Z.ltb_lt in E; lia|].
  replace ((0 <=? Z.of_nat i)%Z && (Z.of_nat i <? Z.of_nat (length l))%Z) with true.
  2:{ symmetry. apply andb_true_iff. split; [apply Z.leb_le|apply Z.ltb_lt]; lia. }
  simpl. rewrite Nat2Z.id. reflexivity.
Qed.

Lemma list_set_length {A} (l : list A) i a : length (list_set l i a) = length l.
Proof.
  revert i. induction l as [|x l IH]; intros [|i]; simpl; auto.
Qed.

Lemma list_set_nth {A} (l : list A) i j a d :
  (i < length l)%nat ->
  nth j (list_set l i a) d = if Nat.eqb j i then a else nth j l d.
Proof.
  revert i j. induction l as [|x l IH]; intros [|i] [|j] H; simpl in *; try lia; auto.
  apply IH. lia.
Qed.

Lemma zip_length {A B} (l : list A) (m : list B) :
  length (zip l m) = Nat.min (length l) (length m).
Proof.
  revert m. induction l as [|a l IH]; intros [|b m]; simpl; auto.
Qed.

Lemma zip_nth {A B} (l : list A) (m : list B) i da db :
  (i < length l)%nat -> (i < length m)%nat ->
  nth i (zip l m) (da, db) = (nth i l da, nth i m db).
Proof.
  revert m i. induction l as [|a l IH]; intros [|b m] [|i] H1 H2; simpl in *; try lia; auto.
  apply IH; lia.
Qed.

Lemma of_nat_le n m : (n <= m)%nat -> of_nat n <= of_nat m.
Proof. intro H. unfold of_nat. rewrite <- Zle_Qle. lia. Qed.

Lemma of_nat_S n : of_nat (S n) == of_nat n + 1.
Proof.
  unfold of_nat. rewrite Nat2Z.inj_succ, <- Z.add_1_r, inject_Z_plus. reflexivity.
Qed.

Lemma of_nat_0 : of_nat 0 == 0.
Proof. reflexivity. Qed.

Lemma Qdiv_nonneg p q : 0 <= p -> 0 < q -> 0 <= p / q.
Proof.
  intros Hp Hq. apply Qle_shift_div_l; [exact Hq|]. lra.
Qed.

Lemma Qdiv_le_1 p q : p <= q -> 0 < q -> p / q <= 1.
Proof.
  intros Hp Hq. apply Qle_shift_div_r; [exact Hq|]. lra.
Qed.

Lemma Qdiv_le_compat p p' q : p <= p' -> 0 < q -> p / q <= p' / q.
Proof.
  intros Hp Hq. unfold Qdiv. apply Qmult_le_compat_r; [exact Hp|].
  apply Qlt_le_weak, Qinv_lt_0_compat, Hq.
Qed.

(** The common width is not negative once there are four terms. *)
Lemma automf_width_nonneg lo hi number :
  lo <= hi -> (4 <= number)%nat ->
  0 <= fdiv (fdiv (fsub hi lo) 2) (fdiv (fsub (fdiv (of_nat number) 2) 1) 2).
Proof.
  intros Hlh Hn. apply (of_nat_le) in Hn. change (of_nat 4) with 4 in Hn.
  fnorm. apply Qdiv_nonneg; qconst; lra.
Qed.

Lemma abc_of_ordered c w :
  0 <= w -> let '(a, b, c') := abc_of c w in a <= b /\ b <= c' /\ b == c.
Proof.
  intro Hw. unfold abc_of. fnorm. qconst.
  repeat split; lra.
Qed.

Lemma centers_length number :
  length (automf_centers number) = (2 * Nat.div number 2)%nat.
Proof.
  unfold automf_centers, centers_neg, centers_pos.
  rewrite length_app, !linspace_length. lia.
Qed.

Lemma of_nat_pred_pos h : (2 <= h)%nat -> 1 <= of_nat (h - 1).
Proof. intro H. change 1 with (of_nat 1). apply of_nat_le. lia. Qed.

Lemma of_nat_pred2 h : (2 <= h)%nat -> of_nat (h - 2) == of_nat (h - 1) - 1.
Proof.
  intro H. replace (h - 1)%nat with (S (h - 2)) by lia. rewrite of_nat_S. lra.
Qed.

(** For four terms or more the triangles exist, one per center, each
    ordered and with its apex at its center. *)
Lemma automf_abcs_ok univ number :
  univ <> [] -> (4 <= number)%nat ->
  exists abcs, automf_abcs univ number = Ok abcs /\
    length abcs = (2 * Nat.div number 2)%nat /\
    forall i, (i < 2 * Nat.div number 2)%nat ->
      ordered_abc (nth i abcs (0, 0, 0)) (nth i (automf_centers number) 0).
Proof.
  intros Hu Hn.
  assert (Hh : (2 <= Nat.div number 2)%nat).
  { change 2%nat with (Nat.div 4 2) at 1. apply Nat.Div0.div_le_mono. exact Hn. }
  set (h := Nat.div number 2) in *.
  destruct (arr_min univ) as [lo|] eqn:Elo; [|destruct univ; [congruence|discriminate]].
  destruct (arr_max univ) as [hi|] eqn:Ehi; [|destruct univ; [congruence|discriminate]].
  pose proof (arr_min_le_max _ Elo Ehi) as Hlh.
  unfold automf_abcs. rewrite Elo, Ehi. cbv beta iota delta [bind].
  set (w := fdiv (fdiv (fsub hi lo) 2) (fdiv (fsub (fdiv (of_nat number) 2) 1) 2)).
  assert (Hw : 0 <= w) by (apply automf_width_nonneg; assumption).
  set (base := map (fun cw => abc_of (fst cw) (snd cw))
                   (zip (automf_centers number) (automf_widths (fdiv (fsub hi lo) 2) number))).
  assert (Hbl : length base = (2 * h)%nat).
  { unfold base. rewrite length_map, zip_length, centers_length.
    unfold automf_widths. rewrite repeat_length. fold h.
    pose proof (Nat.Div0.mul_div_le number 2). fold h in H. lia. }
  assert (Hpl : length (centers_pos number) = h) by apply linspace_length.
  assert (Hnl : length (centers_neg number) = h) by apply linspace_length.
  change (py_get (centers_pos number) 1) with (py_get (centers_pos number) (Z.of_nat 1)).
  rewrite (@py_get_nth _ (centers_pos number) 1 0) by lia. cbv beta iota delta [bind]. fold h.
  rewrite py_set_nat by lia. cbv beta iota delta [bind].
  change (py_get (centers_neg number) (-2)) with (py_get (centers_neg number) (- Z.of_nat 2)).
  rewrite (@py_get_neg _ (centers_neg number) 2 0) by lia. cbv beta iota delta [bind]. rewrite Hnl.
  replace (Z.of_nat h - 1)%Z with (Z.of_nat (h - 1)) by lia.
  rewrite py_set_nat by (rewrite list_set_length; lia).
  eexists. split; [reflexivity|]. split.
  { rewrite !list_set_length. exact Hbl. }
  intros i Hi.
  rewrite list_set_nth by (rewrite list_set_length; lia).
  pose proof (of_nat_pred_pos Hh) as Hp1.
  destruct (Nat.eqb_spec i (h - 1)) as [->|Hne1].
  - (* the negative term next to zero *)
    unfold ordered_abc, automf_centers.
    rewrite app_nth1 by lia.
    unfold centers_neg. fold h.
    rewrite !linspace_nth by lia.
    rewrite (of_nat_pred2 Hh).
    set (H1 := of_nat (h - 1)) in *.
    assert (E : (- (1 # 1000) - -1) / H1 * H1 == 999 # 1000).
    { field. lra. }
    repeat split; try nra. 
  - rewrite list_set_nth by lia.
    destruct (Nat.eqb_spec i h) as [->|Hne2].
    + (* the positive term next to zero *)
      unfold ordered_abc, automf_centers.
      rewrite app_nth2 by lia. rewrite Hnl, Nat.sub_diag.
      unfold centers_pos. fold h.
      rewrite !linspace_nth by lia.
      set (H1 := of_nat (h - 1)) in *.
      assert (E : 0 <= (1 - (1 # 1000)) / H1) by (apply Qdiv_nonneg; lra).
      change (of_nat 1) with 1. change (of_nat 0) with 0.
      repeat split; lra.
    + rewrite (nth_indep base (0, 0, 0) (abc_of (fst (0, 0)) (snd (0, 0)))) by lia.
      unfold base.
      rewrite (map_nth (fun cw => abc_of (fst cw) (snd cw))).
      assert (Hnum : (2 * h <= number)%nat).
      { pose proof (Nat.Div0.mul_div_le number 2) as Hd. fold h in Hd. exact Hd. }
      rewrite zip_nth
        by (rewrite ?centers_length; unfold automf_widths; rewrite ?repeat_length; fold h; lia).
      simpl fst. simpl snd.
      unfold automf_widths. fold w.
      rewrite (nth_indep (repeat w number) 0 w) by (rewrite repeat_length; lia).
      rewrite nth_repeat. fold w.
      apply abc_of_ordered. exact Hw.
Qed.

(** *** One triangle *)

Ltac btests :=
  repeat match goal with
         | H : feqb _ _ = true |- _ => apply feqb_true in H
         | H : feqb _ _ = false |- _ => apply feqb_false in H
         | H : fltb _ _ = true |- _ => apply fltb_true in H
         | H : fltb _ _ = false |- _ => apply fltb_false in H
         | H : fleb _ _ = true |- _ => apply fleb_true in H
         | H : fleb _ _ = false |- _ => apply fleb_false in H
         end.

(** The four cases of [trimf_at], as propositions. *)
Lemma trimf_at_cases a b c x :
  a <= b -> b <= c ->
  (x == b /\ trimf_at a b c x = 1) \/
  (b < x /\ x < c /\ trimf_at a b c x == (c - x) / (c - b)) \/
  (a < x /\ x < b /\ trimf_at a b c x == (x - a) / (b - a)) \/
  (~ x == b /\ (x <= a \/ c <= x) /\ trimf_at a b c x = 0).
Proof.
  intros Hab Hbc. unfold trimf_at.
  destruct (feqb x b) eqn:E1; btests; [left; auto|].
  destruct (feqb b c) eqn:E2, (fltb b x) eqn:E3, (fltb x c) eqn:E4; simpl; btests;
    try (right; left; repeat split; auto; fnorm; reflexivity);
    destruct (feqb a b) eqn:E5, (fltb a x) eqn:E6, (fltb x b) eqn:E7; simpl; btests;
    try (right; right; left; repeat split; auto; fnorm; reflexivity);
    right; right; right; repeat split; auto; try lra;
    try (left; lra); try (right; lra).
  all: destruct (Qlt_le_dec x b); [left|right]; try lra.
  all: exfalso; apply E1; lra.
Qed.

Lemma trimf_at_range a b c x :
  a <= b -> b <= c -> 0 <= trimf_at a b c x /\ trimf_at a b c x <= 1.
Proof.
  intros Hab Hbc.
  destruct (trimf_at_cases x Hab Hbc)
    as [(_ & ->)|[(H1 & H2 & ->)|[(H1 & H2 & ->)|(_ & _ & ->)]]].
  - split; lra.
  - split; [apply Qdiv_nonneg|apply Qdiv_le_1]; lra.
  - split; [apply Qdiv_nonneg|apply Qdiv_le_1]; lra.
  - split; lra.
Qed.

Lemma trimf_at_apex a b c x : x == b -> trimf_at a b c x = 1.
Proof.
  intro H. unfold trimf_at. apply feqb_true in H. rewrite H. reflexivity.
Qed.

Ltac tri_close :=
  first
    [ lra
    | apply Qdiv_le_compat; lra
    | apply Qdiv_nonneg; lra
    | match goal with N : ~ _ == _ |- _ => exfalso; apply N; lra end
    | match goal with
      | H : _ \/ _ |- _ => destruct H; first [lra | match goal with N : ~ _ == _ |- _ => exfalso; apply N; lra end]
      end ].

(** Left of the apex the triangle does not fall. *)
Lemma trimf_at_rise a b c x x' :
  a <= b -> b <= c -> x <= x' -> x' <= b ->
  trimf_at a b c x <= trimf_at a b c x'.
Proof.
  intros Hab Hbc Hx Hx'.
  destruct (trimf_at_cases x' Hab Hbc)
    as [(E' & ->)|[(H1' & H2' & E')|[(H1' & H2' & E')|(N' & H' & ->)]]].
  - apply trimf_at_range; assumption.
  - lra.
  - rewrite E'.
    destruct (trimf_at_cases x Hab Hbc)
      as [(E & _)|[(H1 & H2 & E)|[(H1 & H2 & ->)|(N & H & ->)]]]; tri_close.
  - destruct (trimf_at_cases x Hab Hbc)
      as [(E & _)|[(H1 & H2 & E)|[(H1 & H2 & E)|(N & H & ->)]]]; tri_close.
Qed.

(** Right of the apex the triangle does not rise. *)
Lemma trimf_at_fall a b c x x' :
  a <= b -> b <= c -> b <= x -> x <= x' ->
  trimf_at a b c x' <= trimf_at a b c x.
Proof.
  intros Hab Hbc Hx Hx'.
  destruct (trimf_at_cases x Hab Hbc)
    as [(E & ->)|[(H1 & H2 & E)|[(H1 & H2 & E)|(N & H & ->)]]].
  - apply trimf_at_range; assumption.
  - rewrite E.
    destruct (trimf_at_cases x' Hab Hbc)
      as [(E' & _)|[(H1' & H2' & ->)|[(H1' & H2' & E')|(N' & H' & ->)]]]; tri_close.
  - lra.
  - destruct (trimf_at_cases x' Hab Hbc)
      as [(E' & _)|[(H1' & H2' & E')|[(H1' & H2' & E')|(N' & H' & ->)]]]; tri_close.
Qed.

(** *** The dict of membership functions *)

Lemma trimf_ordered univ abc ctr :
  ordered_abc abc ctr -> trimf univ abc = Ok (trimf_arr univ abc).
Proof.
  destruct abc as [[a b] c]. intros (Hab & Hbc & _).
  unfold trimf, trimf_arr.
  apply fleb_true in Hab, Hbc. rewrite Hab, Hbc. reflexivity.
Qed.

Lemma trimf_arr_length univ abc : length (trimf_arr univ abc) = length univ.
Proof. destruct abc as [[a b] c]. apply length_map. Qed.

Lemma trimf_arr_range univ abc ctr :
  ordered_abc abc ctr ->
  Forall (fun v => 0 <= v /\ v <= 1) (trimf_arr univ abc).
Proof.
  destruct abc as [[a b] c]. intros (Hab & Hbc & _).
  unfold trimf_arr. apply Forall_forall. intros v Hv.
  apply in_map_iff in Hv. destruct Hv as (x & <- & _).
  apply trimf_at_range; assumption.
Qed.

Lemma trimf_arr_nth univ a b c j :
  (j < length univ)%nat ->
  nth j (trimf_arr univ (a, b, c)) 0 = trimf_at a b c (nth j univ 0).
Proof.
  intro Hj. unfold trimf_arr.
  rewrite (nth_indep _ 0 (trimf_at a b c 0)) by (rewrite length_map; exact Hj).
  apply map_nth.
Qed.

Lemma trimf_arr_peaks univ abc ctr :
  ordered_abc abc ctr -> peaks_at univ (trimf_arr univ abc) ctr.
Proof.
  destruct abc as [[a b] c]. intros (Hab & Hbc & Hc).
  split.
  - intros j k Hj Hk. rewrite !trimf_arr_nth by assumption. split.
    + intros H1 H2. apply trimf_at_rise; try assumption. rewrite Hc. exact H2.
    + intros H1 H2. apply trimf_at_fall; try assumption. rewrite Hc. exact H1.
  - intros j Hj E. rewrite trimf_arr_nth by assumption.
    apply trimf_at_apex. rewrite Hc. exact E.
Qed.

Lemma automf_fold univ tas d :
  Forall (fun ta => exists ctr, ordered_abc (snd ta) ctr) tas ->
  foldM (fun terms ta => y <- trimf univ (snd ta) ;; Ok (sset terms (fst ta) y)) d tas
  = Ok (fold_left (fun d ta => sset d (fst ta) (trimf_arr univ (snd ta))) tas d).
Proof.
  revert d. induction tas as [|ta tas IH]; intros d H; [reflexivity|].
  inversion H as [|? ? (ctr & Ho) Ht]; subst.
  simpl. rewrite (@trimf_ordered univ _ ctr Ho). simpl. apply IH. exact Ht.
Qed.

Lemma keys_sset {V} (d : sdict V) k v k' :
  In k' (keys (sset d k v)) <-> k' = k \/ In k' (keys d).
Proof.
  unfold keys, sset. induction d as [|[k0 v0] d IH]; simpl.
  - intuition.
  - destruct (String.eqb_spec k0 k) as [->|Hne]; simpl.
    + intuition.
    + rewrite IH. intuition.
Qed.

Lemma keys_fold_sset {V A} (f : A -> string) (g : A -> V) (l : list A) (d : sdict V) k :
  In k (keys (fold_left (fun d a => sset d (f a) (g a)) l d)) <->
  In k (map f l) \/ In k (keys d).
Proof.
  revert d. induction l as [|a l IH]; intro d; simpl.
  - tauto.
  - rewrite IH, keys_sset. split; intros [H|H]; auto.
    + destruct H; auto.
    + destruct H; auto.
Qed.

Lemma sset_fresh {V} (d : sdict V) k v :
  ~ In k (keys d) -> sset d k v = d ++ [(k, v)].
Proof.
  unfold keys, sset. induction d as [|[k0 v0] d IH]; simpl; intro H; [reflexivity|].
  destruct (String.eqb_spec k0 k) as [->|Hne]; [tauto|].
  rewrite IH; [reflexivity|tauto].
Qed.

Lemma fold_sset_nodup {V A} (f : A -> string) (g : A -> V) (l : list A) (d : sdict V) :
  NoDup (keys d ++ map f l) ->
  fold_left (fun d a => sset d (f a) (g a)) l d = d ++ map (fun a => (f a, g a)) l.
Proof.
  revert d. induction l as [|a l IH]; intros d H; simpl.
  - rewrite app_nil_r. reflexivity.
  - rewrite sset_fresh.
    2:{ intro Hin. simpl in H. apply NoDup_remove_2 in H. apply H.
        apply in_or_app. left. exact Hin. }
    rewrite IH.
    + rewrite <- app_assoc. reflexivity.
    + unfold keys. rewrite map_app. simpl. rewrite <- app_assoc. simpl.
      fold (keys d). exact H.
Qed.

Lemma zip_map_fst {A B} (l : list A) (m : list B) :
  map fst (zip l m) = firstn (length m) l.
Proof.
  revert m. induction l as [|a l IH]; intros [|b m]; simpl; auto.
  rewrite IH. reflexivity.
Qed.

Lemma even_double n : Nat.even n = true -> (2 * Nat.div n 2 = n)%nat.
Proof.
  intro H. apply Nat.even_spec in H. destruct H as [k ->].
  assert (E : Nat.div (2 * k) 2 = k)
    by (rewrite Nat.mul_comm; apply Nat.div_mul; discriminate).
  rewrite E. lia.
Qed.

Lemma odd_double n : Nat.odd n = true -> (2 * Nat.div n 2 = n - 1)%nat.
Proof.
  intro H. apply Nat.odd_spec in H. destruct H as [k ->].
  assert (E : Nat.div (2 * k + 1) 2 = k).
  { replace (2 * k + 1)%nat with (1 + k * 2)%nat by lia.
    rewrite Nat.div_add by discriminate. reflexivity. }
  rewrite E. lia.
Qed.

Lemma automf_result univ terms :
  univ <> [] -> (4 <= length terms)%nat ->
  exists abcs, length abcs = (2 * Nat.div (length terms) 2)%nat /\
    (forall i, (i < length abcs)%nat ->
       ordered_abc (nth i abcs (0, 0, 0)) (nth i (automf_centers (length terms)) 0)) /\
    automf univ terms =
      Ok (fold_left (fun d ta => sset d (fst ta) (trimf_arr univ (snd ta)))
                    (zip terms abcs) []).
Proof.
  intros Hu Hn.
  destruct (automf_abcs_ok Hu Hn) as (abcs & Habcs & Hlen & Hord).
  exists abcs. split; [exact Hlen|].
  split; [intros i Hi; apply Hord; rewrite <- Hlen; exact Hi|].
  unfold automf. rewrite Habcs. cbv beta iota delta [bind].
  apply automf_fold.
  apply Forall_forall. intros [t abc] Hin.
  apply (In_nth _ _ ("", (0, 0, 0))) in Hin. destruct Hin as (i & Hi & E).
  rewrite zip_length in Hi.
  rewrite zip_nth in E by lia. injection E as _ E.
  exists (nth i (automf_centers (length terms)) 0). cbn [snd]. rewrite <- E.
  apply Hord. rewrite <- Hlen.
  apply Nat.lt_le_trans with (1 := Hi). apply Nat.le_min_r.
Qed.

Lemma nth_error_map_Some {A B} (f : A -> B) l i b :
  nth_error (map f l) i = Some b ->
  exists a, nth_error l i = Some a /\ f a = b.
Proof.
  revert i. induction l as [|x l IH]; intros [|i] H; simpl in *; try discriminate.
  - injection H as <-. exists x. auto.
  - apply IH. exact H.
Qed.

(** C4, as the code has it.  For an even number of at least four distinct
    terms [automf] returns one entry per term, in order; every entry is an
    array as long as the universe with degrees in [[0, 1]]; and the degrees
    of a term do not fall towards its center from the left, do not rise
    away from it to the right, and are [1] on a sample that is the center:
    the maximum lies at the center. *)
Theorem automf_even_terms (univ : array) (linguistic_terms : list string) :
  univ <> [] ->
  Nat.even (length linguistic_terms) = true ->
  (4 <= length linguistic_terms)%nat ->
  NoDup linguistic_terms ->
  exists mf, automf univ linguistic_terms = Ok mf /\
    keys mf = linguistic_terms /\
    length mf = length linguistic_terms /\
    forall i t y, nth_error mf i = Some (t, y) ->
      length y = length univ /\
      Forall (fun v => 0 <= v /\ v <= 1) y /\
      peaks_at univ y (nth i (automf_centers (length linguistic_terms)) 0).
Proof.
  intros Hu Hev Hn Hnd.
  destruct (automf_result linguistic_terms Hu Hn) as (abcs & Hlen & Hord & Hmf).
  rewrite (even_double _ Hev) in Hlen.
  assert (Hk : map fst (zip linguistic_terms abcs) = linguistic_terms).
  { rewrite zip_map_fst, Hlen. apply firstn_all. }
  rewrite (@fold_sset_nodup _ _ fst (fun ta => trimf_arr univ (snd ta))) in Hmf.
  2:{ change (NoDup (map fst (zip linguistic_terms abcs))). rewrite Hk. exact Hnd. }
  cbn [app] in Hmf.
  eexists. split; [exact Hmf|].
  split; [|split].
  - unfold keys. rewrite map_map. simpl. exact Hk.
  - rewrite <- Hk at 2. rewrite !length_map. reflexivity.
  - intros i t y Hi.
    apply nth_error_map_Some in Hi. destruct Hi as ([t' abc] & E & Hi).
    simpl in Hi. injection Hi as <- <-.
    assert (Hlt : (i < length abcs)%nat).
    {       assert (H' : nth_error (zip linguistic_terms abcs) i <> None) by congruence.
      apply nth_error_Some in H'. rewrite zip_length, Hlen, Nat.min_id in H'.
      rewrite Hlen. exact H'. }
    apply (nth_error_nth _ _ ("", (0, 0, 0))) in E.
    rewrite zip_nth in E by lia. injection E as _ E.
    specialize (Hord i Hlt). rewrite E in Hord.
    split; [apply trimf_arr_length|].
    split; [eapply trimf_arr_range; exact Hord|].
    apply trimf_arr_peaks. exact Hord.
Qed.

(** C3, as the code has it.  [automf] has no check of the number of terms.
    For an odd number of terms below five it fails on an index; for an odd
    number of five or more it returns membership functions for all terms
    but the last one. *)
Theorem automf_odd_terms (univ : array) (linguistic_terms : list string) :
  univ <> [] ->
  Nat.odd (length linguistic_terms) = true ->
  ((length linguistic_terms < 5)%nat -> automf univ linguistic_terms = Err IndexError) /\
  ((5 <= length linguistic_terms)%nat ->
   exists mf, automf univ linguistic_terms = Ok mf /\
     forall t, In t (keys mf) <-> In t (removelast linguistic_terms)).
Proof.
  intros Hu Hodd. split.
  - intro Hlt.
    destruct univ as [|x u]; [congruence|].
    destruct linguistic_terms as [|t1 [|t2 [|t3 [|t4 [|t5 l]]]]];
      simpl in Hodd, Hlt; try discriminate; try lia; reflexivity.
  - intro Hge.
    destruct (automf_result linguistic_terms Hu) as (abcs & Hlen & _ & Hmf); [lia|].
    eexists. split; [exact Hmf|].
    intro t.
    rewrite (@keys_fold_sset _ _ fst (fun ta => trimf_arr univ (snd ta))).
    rewrite zip_map_fst, Hlen, (odd_double _ Hodd).
    rewrite removelast_firstn_len.
    replace (pred (length linguistic_terms)) with (length linguistic_terms - 1)%nat by lia.
    simpl. tauto.
Qed.

Lemma automf_odd_terms_witness :
  (3 < 5)%nat /\ automf universe ["L"; "M"; "H"] = Err IndexError.
Proof.
  split; [lia|].
  apply (@automf_odd_terms universe ["L"; "M"; "H"]);
    [discriminate | reflexivity | simpl; lia].
Defined.

(** C3, as the specification has it, fails: five terms give four
    membership functions and no error. *)
Lemma automf_five_terms_partial :
  exists mf, automf universe ["-H"; "-L"; "M"; "L"; "H"] = Ok mf /\
    keys mf = ["-H"; "-L"; "M"; "L"].
Proof.
  destruct (automf universe ["-H"; "-L"; "M"; "L"; "H"]) as [mf|e] eqn:E.
  - exists mf. split; [reflexivity|].
    assert (H : match automf universe ["-H"; "-L"; "M"; "L"; "H"] with
                | Ok d => keys d
                | Err _ => []
                end = ["-H"; "-L"; "M"; "L"]) by (vm_compute; reflexivity).
    rewrite E in H. exact H.
  - exfalso.
    assert (H : match automf universe ["-H"; "-L"; "M"; "L"; "H"] with
                | Ok _ => true
                | Err _ => false
                end = true) by (vm_compute; reflexivity).
    rewrite E in H. discriminate.
Qed.

Lemma automf_even_terms_witness :
  exists mf, automf universe default_terms = Ok mf /\
    keys mf = default_terms /\
    length mf = length default_terms /\
    forall i t y, nth_error mf i = Some (t, y) ->
      length y = length universe /\
      Forall (fun v => 0 <= v /\ v <= 1) y /\
      peaks_at universe y (nth i (automf_centers (length default_terms)) 0).
Proof.
  apply (@automf_even_terms universe default_terms).
  - discriminate.
  - reflexivity.
  - simpl; lia.
  - repeat constructor; simpl; intuition discriminate.
Defined.

(** C4, as the specification has it, fails: two terms are an even number
    of terms, and [automf] raises. *)
Lemma automf_two_terms_fails :
  automf universe ["L"; "H"] = Err IndexError.
Proof. vm_compute. reflexivity. Qed.

(** ** The string round trip of the activation parameter (C10) *)

(** Reading back the escape of one character. *)
Lemma eval_body_repr_char (c : ascii) (s : list tok) (acc : list ascii) :
  eval_body (map Ch (repr_char squote c) ++ s) acc = eval_body s (c :: acc).
Proof.
  destruct c as [[] [] [] [] [] [] [] []]; reflexivity.
Qed.

Lemma eval_body_repr (cs : list ascii) (s : list tok) (acc : list ascii) :
  eval_body (map Ch (flat_map (repr_char squote) cs) ++ Ch squote :: s) acc
  = Ok (string_of_list_ascii (rev acc ++ cs), s).
Proof.
  revert acc. induction cs as [|c cs IH]; intro acc.
  - simpl. rewrite app_nil_r. reflexivity.
  - simpl flat_map. rewrite map_app, <- app_assoc, eval_body_repr_char, IH.
    simpl. rewrite <- app_assoc. reflexivity.
Qed.

Lemma repr_char_no_dquote (c : ascii) :
  c <> dquote ->
  filter (fun a => negb (Ascii.eqb a dquote)) (repr_char squote c) = repr_char squote c.
Proof.
  destruct c as [[] [] [] [] [] [] [] []]; intro H; try reflexivity.
  exfalso. apply H. reflexivity.
Qed.

Lemma mem_char_false c s :
  mem_char c s = false -> ~ In c (list_ascii_of_string s).
Proof.
  induction s as [|c' s IH]; simpl; [tauto|].
  intros H [E|Hin]; apply orb_false_iff in H; destruct H as [H1 H2].
  - subst. rewrite Ascii.eqb_refl in H1. discriminate.
  - apply IH; assumption.
Qed.

Lemma quote_free_repr (k : string) :
  quote_free k = true ->
  repr_str k = squote :: flat_map (repr_char squote) (list_ascii_of_string k) ++ [squote].
Proof.
  unfold quote_free, repr_str. intro H. apply andb_true_iff in H. destruct H as [H1 _].
  apply negb_true_iff in H1. rewrite H1. reflexivity.
Qed.

Lemma replace_dquote_app s t :
  replace_dquote (s ++ t) = replace_dquote s ++ replace_dquote t.
Proof. apply filter_app. Qed.

Lemma replace_dquote_key (k : string) :
  quote_free k = true ->
  replace_dquote (map Ch (repr_str k)) = map Ch (repr_str k).
Proof.
  intro H. rewrite (quote_free_repr _ H).
  unfold quote_free in H. apply andb_true_iff in H. destruct H as [_ H2].
  apply negb_true_iff, mem_char_false in H2.
  unfold replace_dquote.
  simpl. f_equal. rewrite !map_app, filter_app. f_equal.
  induction (list_ascii_of_string k) as [|c cs IH]; [reflexivity|].
  simpl flat_map. rewrite map_app, filter_app, IH.
  2:{ intro Hin. apply H2. right. exact Hin. }
  f_equal.
  assert (Hc : c <> dquote) by (intro E; apply H2; left; exact E).
  pose proof (repr_char_no_dquote Hc) as Hf.
  clear -Hf. induction (repr_char squote c) as [|a l IHl]; [reflexivity|].
  simpl in *. destruct (Ascii.eqb a dquote); simpl in *.
  - exfalso. assert (Hl : (length (filter (fun a => negb (Ascii.eqb a dquote)) l) <= length l)%nat)
      by apply filter_length_le.
    rewrite Hf in Hl. simpl in Hl. lia.
  - f_equal. apply IHl. congruence.
Qed.

Lemma replace_dquote_item (kv : string * Q) :
  quote_free (fst kv) = true ->
  replace_dquote (repr_item kv) = repr_item kv.
Proof.
  intro H. unfold repr_item.
  rewrite !replace_dquote_app, replace_dquote_key by exact H. reflexivity.
Qed.

Lemma replace_dquote_items (d : list (string * Q)) :
  forallb (fun kv => quote_free (fst kv)) d = true ->
  replace_dquote (repr_items d) = repr_items d.
Proof.
  induction d as [|kv d IH]; intro H; [reflexivity|].
  simpl in H. apply andb_true_iff in H. destruct H as [Hk Hd].
  destruct d as [|kv' d].
  - simpl. apply replace_dquote_item. exact Hk.
  - change (repr_items (kv :: kv' :: d))
      with (repr_item kv ++ chars ", " ++ repr_items (kv' :: d)).
    rewrite !replace_dquote_app, replace_dquote_item, IH by assumption.
    reflexivity.
Qed.

Lemma replace_dquote_str_dict (d : list (string * Q)) :
  forallb (fun kv => quote_free (fst kv)) d = true ->
  replace_dquote (str_dict d) = str_dict d.
Proof.
  intro H. unfold str_dict.
  rewrite !replace_dquote_app, replace_dquote_items by exact H. reflexivity.
Qed.

Lemma eval_item (kv : string * Q) (rest : list tok) :
  quote_free (fst kv) = true ->
  exists s1,
    repr_item kv ++ rest = Ch squote :: s1 /\
    eval_body s1 [] = Ok (fst kv, Ch ":"%char :: Ch " "%char :: Flt (snd kv) :: rest).
Proof.
  intro H. unfold repr_item. rewrite (quote_free_repr _ H).
  eexists. split.
  - simpl. reflexivity.
  - rewrite map_app, <- !app_assoc. simpl app.
    rewrite eval_body_repr. simpl rev. simpl app.
    rewrite string_of_list_ascii_of_string. reflexivity.
Qed.

Lemma eval_items_ok (tally : list (string * Q)) :
  tally <> [] ->
  forallb (fun kv => quote_free (fst kv)) tally = true ->
  forall d fuel, (length tally <= fuel)%nat ->
  eval_items fuel (repr_items tally ++ chars "}") d
  = Ok (fold_left (fun d kv => sset d (fst kv) (snd kv)) tally d).
Proof.
  induction tally as [|kv tally IH]; intros Hne Hq d fuel Hf; [congruence|].
  simpl in Hq. apply andb_true_iff in Hq. destruct Hq as [Hk Hq].
  destruct fuel as [|fuel]; [simpl in Hf; lia|].
  destruct tally as [|kv' tally].
  - change (repr_items [kv]) with (repr_item kv).
    destruct (eval_item kv (chars "}") Hk) as (s1 & -> & Hb).
    simpl. rewrite Hb. reflexivity.
  - change (repr_items (kv :: kv' :: tally))
      with (repr_item kv ++ chars ", " ++ repr_items (kv' :: tally)).
    rewrite <- !app_assoc.
    destruct (eval_item kv (chars ", " ++ repr_items (kv' :: tally) ++ chars "}") Hk)
      as (s1 & -> & Hb).
    cbn [eval_items]. rewrite Ascii.eqb_refl. rewrite Hb.
    cbn [bind chars list_ascii_of_string map app].
    cbn [Ascii.eqb Bool.eqb andb].
    rewrite IH; [reflexivity|discriminate|exact Hq|simpl in *; lia].
Qed.

Lemma map_pair_id {A B} (l : list (A * B)) :
  map (fun a => (fst a, snd a)) l = l.
Proof.
  induction l as [|[k v] l IH]; [reflexivity|]. simpl. rewrite IH. reflexivity.
Qed.

(** Printing a dict with distinct quote-free keys and evaluating the
    string gives the dict back. *)
Lemma eval_str_dict_roundtrip (tally : list (string * Q)) :
  NoDup (keys tally) ->
  forallb (fun kv => quote_free (fst kv)) tally = true ->
  py_eval (replace_dquote (str_dict tally)) = Ok tally.
Proof.
  intros Hnd Hq. rewrite (replace_dquote_str_dict _ Hq).
  destruct tally as [|kv tally]; [reflexivity|].
  unfold str_dict.
  assert (Hit : exists t1 t2 s, repr_items (kv :: tally) ++ chars "}" = t1 :: t2 :: s).
  { destruct tally as [|kv' tally].
    - destruct (eval_item kv (chars "}")) as (s1 & E & _).
      { simpl in Hq. apply andb_true_iff in Hq. tauto. }
      change (repr_items [kv]) with (repr_item kv). rewrite E.
      destruct s1 as [|t2 s]; [|eauto].
      exfalso. clear -E. unfold repr_item in E.
      apply (f_equal (@length tok)) in E. rewrite !length_app in E. simpl in E. lia.
    - destruct (eval_item kv (chars ", " ++ repr_items (kv' :: tally) ++ chars "}"))
        as (s1 & E & _).
      { simpl in Hq. apply andb_true_iff in Hq. tauto. }
      change (repr_items (kv :: kv' :: tally))
        with (repr_item kv ++ chars ", " ++ repr_items (kv' :: tally)).
      rewrite <- !app_assoc, E.
      destruct s1 as [|t2 s]; [|eauto].
      exfalso. clear -E. unfold repr_item in E.
      apply (f_equal (@length tok)) in E. rewrite !length_app in E. simpl in E. lia. }
  destruct Hit as (t1 & t2 & s & E).
  change (chars "{" ++ repr_items (kv :: tally) ++ chars "}")
    with (Ch "{"%char :: (repr_items (kv :: tally) ++ chars "}")).
  unfold py_eval. rewrite Ascii.eqb_refl.
  assert (Hgo : forall l, l = t1 :: t2 :: s ->
     match l with
     | [Ch c'] => if Ascii.eqb c' "}"%char then Ok [] else Err Unmodelled
     | _ => eval_items (length l) l []
     end = eval_items (length l) l []).
  { intros l ->. destruct t1; reflexivity. }
  rewrite (Hgo _ E).
  rewrite eval_items_ok; [|discriminate|exact Hq|].
  - rewrite (@fold_sset_nodup _ _ fst snd (kv :: tally) []) by exact Hnd.
    rewrite map_pair_id. reflexivity.
  - clear. rewrite length_app.
    assert (H : forall l : list (string * Q), (length l <= length (repr_items l))%nat).
    { induction l as [|a l IH]; [simpl; lia|].
      destruct l as [|b l].
      - simpl. unfold repr_item. rewrite !length_app. simpl. lia.
      - change (repr_items (a :: b :: l))
          with (repr_item a ++ chars ", " ++ repr_items (b :: l)).
        rewrite !length_app. unfold repr_item at 1. rewrite !length_app.
        simpl in *. lia. }
    specialize (H (kv :: tally)). lia.
Qed.

(** *** The tally of one pair *)

Lemma str_lt_trans a b c : str_lt a b -> str_lt b c -> str_lt a c.
Proof.
  unfold str_lt. intros H1 H2.
  apply String_as_OT.cmp_lt. apply String_as_OT.cmp_lt in H1, H2.
  eapply String_as_OT.lt_trans; eassumption.
Qed.

Lemma str_lt_neq a b : str_lt a b -> a <> b.
Proof.
  unfold str_lt. intros H E. apply String_as_OT.cmp_lt in H.
  apply String_as_OT.lt_not_eq in H. apply H. exact E.
Qed.

Lemma str_gt_lt a b : String.compare a b = Gt -> str_lt b a.
Proof.
  unfold str_lt. intro H. rewrite String.compare_antisym, H. reflexivity.
Qed.

Lemma tally_add_forall (P : string -> Prop) t l :
  P t -> Forall (fun q : string * nat => P (fst q)) l ->
  Forall (fun q : string * nat => P (fst q)) (tally_add t l).
Proof.
  intros Ht. induction l as [|[k c] l IH]; intro H; simpl.
  - constructor; [exact Ht|constructor].
  - inversion H; subst.
    destruct (String.compare t k); constructor; auto.
Qed.

Lemma tally_add_sorted t l :
  StronglySorted (@key_lt nat) l -> StronglySorted (@key_lt nat) (tally_add t l).
Proof.
  induction l as [|[k c] l IH]; intro H; simpl.
  - constructor; constructor.
  - inversion H as [|? ? Hs Hf]; subst.
    destruct (String.compare t k) eqn:E.
    + constructor; assumption.
    + constructor; [exact H|].
      constructor; [exact E|].
      eapply Forall_impl; [|exact Hf].
      intros q Hq. unfold key_lt in *. simpl in *.
      eapply str_lt_trans; [exact E|exact Hq].
    + constructor; [apply IH; exact Hs|].
      apply (@tally_add_forall (fun s => str_lt k s)); [|exact Hf].
      apply str_gt_lt. exact E.
Qed.

Lemma sorted_nodup {V} (l : list (string * V)) :
  StronglySorted (@key_lt V) l -> NoDup (keys l).
Proof.
  induction 1 as [|p l Hs IH Hf]; simpl; constructor; [|exact IH].
  intro Hin. unfold keys in Hin. apply in_map_iff in Hin.
  destruct Hin as (q & E & Hq).
  rewrite Forall_forall in Hf. specialize (Hf q Hq).
  apply str_lt_neq in Hf. congruence.
Qed.

Lemma crosstab_sorted vals l :
  crosstab vals = Ok l -> StronglySorted (@key_lt nat) l.
Proof.
  revert l. induction vals as [|[|t|q] vals IH]; intros l H; simpl in H.
  - injection H as <-. constructor.
  - apply IH. exact H.
  - destruct (crosstab vals) as [l'|] eqn:E; [|discriminate].
    simpl in H. injection H as <-. apply tally_add_sorted. apply IH. reflexivity.
  - discriminate.
Qed.

Lemma crosstab_keys vals l :
  crosstab vals = Ok l ->
  Forall (fun q : string * nat => In (Str (fst q)) vals) l.
Proof.
  revert l. induction vals as [|[|t|q] vals IH]; intros l H; simpl in H.
  - injection H as <-. constructor.
  - eapply Forall_impl; [|apply IH; exact H]. simpl. auto.
  - destruct (crosstab vals) as [l'|] eqn:E; [|discriminate].
    simpl in H. injection H as <-.
    apply (@tally_add_forall (fun s => In (Str s) (Str t :: vals))).
    + left. reflexivity.
    + eapply Forall_impl; [|apply IH; reflexivity]. simpl. auto.
  - discriminate.
Qed.

Lemma tally_nodup d flat_data a c t :
  tally d flat_data a c = Ok t -> NoDup (keys t).
Proof.
  unfold tally. intro H.
  destruct (select flat_data a c) as [vals|]; [|discriminate].
  simpl in H. destruct (crosstab vals) as [l|] eqn:E; [|discriminate].
  simpl in H. destruct (len_keys d) as [n|]; [|discriminate].
  simpl in H. injection H as <-.
  unfold keys. rewrite map_map. simpl.
  apply (sorted_nodup (crosstab_sorted _ E)).
Qed.

(** C10, as the code has it.  For the tally of a pair whose labels hold no
    quote character, printing the tally, deleting the double quotes and
    evaluating the string gives the tally back: the same keys with the
    same frequencies, in the same order. *)
Theorem activation_parameter_roundtrip (d : pydata) (flat_data : DataFrame)
    (antecedent consequent : string) (crostab : list (string * Q)) :
  tally d flat_data antecedent consequent = Ok crostab ->
  forallb (fun kv => quote_free (fst kv)) crostab = true ->
  py_eval (replace_dquote (str_dict crostab)) = Ok crostab.
Proof.
  intros Ht Hq. apply eval_str_dict_roundtrip; [|exact Hq].
  eapply tally_nodup. exact Ht.
Qed.

Lemma two_tables_tally (l : string) :
  flatten (two_tables l) = Ok (two_flat l) /\
  tally (two_tables l) (two_flat l) "A" "B" = Ok [(l, 1)].
Proof.
  split; [reflexivity|].
  unfold tally. simpl. destruct (String.compare l l) eqn:E.
  - reflexivity.
  - apply str_lt_neq in E. congruence.
  - apply str_gt_lt, str_lt_neq in E. congruence.
Qed.

Lemma activation_parameter_roundtrip_witness :
  py_eval (replace_dquote (str_dict [("H", 1)])) = Ok [("H", 1)].
Proof.
  apply (@activation_parameter_roundtrip (two_tables "H") (two_flat "H") "A" "B").
  - apply two_tables_tally.
  - reflexivity.
Defined.

(** C10, as stated, fails for a label that holds a double quote: the
    tally of the quoted label evaluates to a dict with another key. *)
Lemma quoted_label_not_roundtrip :
  tally (two_tables quoted_H) (two_flat quoted_H) "A" "B" = Ok [(quoted_H, 1)] /\
  py_eval (replace_dquote (str_dict [(quoted_H, 1)])) = Ok [("H", 1)] /\
  py_eval (replace_dquote (str_dict [(quoted_H, 1)])) <> Ok [(quoted_H, 1)].
Proof.
  split; [apply two_tables_tally|].
  split; [reflexivity|].
  vm_compute. discriminate.
Qed.

(** ** Loops *)

Lemma bind_Ok {A B} (r : result A) (k : A -> result B) (b : B) :
  bind r k = Ok b -> exists a, r = Ok a /\ k a = Ok b.
Proof. destruct r as [a|e]; simpl; [eauto|discriminate]. Qed.

(** An invariant of the body is an invariant of the loop. *)
Lemma foldM_inv {A S} (f : S -> A -> result S) (Inv : S -> Prop) (l : list A) :
  (forall x s s', In x l -> Inv s -> f s x = Ok s' -> Inv s') ->
  forall s s', Inv s -> foldM f s l = Ok s' -> Inv s'.
Proof.
  induction l as [|x l IH]; intros Hstep s s' Hs H; simpl in H.
  - injection H as <-. exact Hs.
  - apply bind_Ok in H. destruct H as (s1 & H1 & H2).
    apply (IH (fun y t t' Hy => Hstep y t t' (or_intror Hy)) s1 s'); [|exact H2].
    apply (Hstep x s s1); [left; reflexivity|exact Hs|exact H1].
Qed.

(** A loop that ends has run its body on every element. *)
Lemma foldM_ran {A S} (f : S -> A -> result S) (l : list A) s s' x :
  foldM f s l = Ok s' -> In x l -> exists t t', f t x = Ok t'.
Proof.
  revert s. induction l as [|y l IH]; intros s H Hin; [destruct Hin|].
  simpl in H. apply bind_Ok in H. destruct H as (s1 & H1 & H2).
  destruct Hin as [->|Hin]; [eauto|].
  eapply IH; eassumption.
Qed.

(** *** One pair of the matrix loop *)

(** What a step of the matrix loop that ends has done. *)
Lemma mat_step_inv d flat_data method st a c st' :
  mat_step d flat_data method st a c = Ok st' ->
  exists t, tally d flat_data a c = Ok t /\
    ((t = [] /\ st' = st) \/
     (t <> [] /\
      exists ap activated aggr v wm,
        py_eval (replace_dquote (str_dict t)) = Ok ap /\
        activate ap (terms (fst st)) = Ok activated /\
        aggregate activated = Ok aggr /\
        defuzzify universe aggr method = Ok v /\
        set_cell (snd st) a c v = Ok wm /\
        st' = (set_aggregated
                 (set_expert_data (fst st)
                    (dict_set pair_eqb (expert_data (fst st)) (a, c) ap))
                 (sset (aggregated (fst st)) (pair_key a c) aggr),
               wm))).
Proof.
  unfold mat_step. intro H.
  apply bind_Ok in H. destruct H as (t & Ht & H).
  exists t. split; [exact Ht|].
  destruct t as [|kv t].
  - left. simpl in H. injection H as <-. auto.
  - right. split; [discriminate|].
    cbn [length Nat.eqb negb] in H.
    apply bind_Ok in H. destruct H as (ap & Hap & H).
    unfold infer in H.
    apply bind_Ok in H. destruct H as (activated & Hact & H).
    apply bind_Ok in H. destruct H as (aggr & Hagg & H).
    apply bind_Ok in H. destruct H as (v & Hv & H).
    apply bind_Ok in H. destruct H as (wm & Hwm & H).
    injection H as <-.
    exists ap, activated, aggr, v, wm. simpl in *. auto 10.
Qed.

(** *** Dicts and tables: reading after writing *)

Lemma pair_eqb_eq p q : pair_eqb p q = true <-> p = q.
Proof.
  destruct p as [a b], q as [a' b']. unfold pair_eqb. simpl.
  rewrite andb_true_iff, !String.eqb_eq. split.
  - intros [-> ->]. reflexivity.
  - intros [= -> ->]. auto.
Qed.

Section DictFacts.
Context {K V : Type} (eqb : K -> K -> bool).
Hypothesis eqb_eq : forall x y, eqb x y = true <-> x = y.

Lemma dict_get_set (d : list (K * V)) k v k' :
  dict_get eqb (dict_set eqb d k v) k' =
  if eqb k k' then Some v else dict_get eqb d k'.
Proof.
  induction d as [|[k0 v0] d IH]; simpl; [reflexivity|].
  destruct (eqb k0 k) eqn:E0; simpl.
  - apply eqb_eq in E0. subst k0.
    destruct (eqb k k'); reflexivity.
  - rewrite IH. destruct (eqb k0 k') eqn:E1; [|reflexivity].
    apply eqb_eq in E1. subst k'.
    destruct (eqb k k0) eqn:E2; [|reflexivity].
    apply eqb_eq in E2. subst k0.
    assert (E3 : eqb k k = true) by (apply eqb_eq; reflexivity).
    congruence.
Qed.
End DictFacts.

Lemma sget_sset {V} (d : list (string * V)) k v k' :
  sget (sset d k v) k' = if String.eqb k k' then Some v else sget d k'.
Proof. apply dict_get_set. apply String.eqb_eq. Qed.

Lemma position_nth c cols j :
  position c cols = Some j -> nth_error cols j = Some c.
Proof.
  revert j. induction cols as [|c0 cols IH]; intros j H; simpl in H; [discriminate|].
  destruct (String.eqb_spec c0 c) as [->|Hne].
  - injection H as <-. reflexivity.
  - destruct (position c cols) as [i|]; [|discriminate].
    injection H as <-. simpl. apply IH. reflexivity.
Qed.

Lemma position_In c cols : In c cols -> exists j, position c cols = Some j.
Proof.
  induction cols as [|c0 cols IH]; intro H; [destruct H|].
  simpl. destruct (String.eqb_spec c0 c) as [->|Hne]; [eauto|].
  destruct H as [E|H]; [congruence|].
  destruct (IH H) as (j & ->). eauto.
Qed.

Lemma list_set_nth_error {A} (l : list A) j j' a :
  j' <> j -> nth_error (list_set l j a) j' = nth_error l j'.
Proof.
  revert j j'. induction l as [|x l IH]; intros [|j] [|j'] H; simpl; auto; try congruence.
Qed.

Lemma list_set_nth_error_same {A} (l : list A) j a :
  (j < length l)%nat -> nth_error (list_set l j a) j = Some a.
Proof.
  revert j. induction l as [|x l IH]; intros [|j] H; simpl in *; try lia; auto.
  apply IH. lia.
Qed.

Lemma filter_map_label {A} (upd : string * A -> string * A) (p : string -> bool) rows :
  (forall r, fst (upd r) = fst r) ->
  filter (fun r => p (fst r)) (map upd rows) = map upd (filter (fun r => p (fst r)) rows).
Proof.
  intro H. induction rows as [|r rows IH]; [reflexivity|].
  simpl. rewrite H. destruct (p (fst r)); simpl; rewrite IH; reflexivity.
Qed.

(** Writing a cell leaves the other cells as they are. *)
Lemma cell_at_set_cell_other m r c v m' r' c' :
  set_cell m r c v = Ok m' -> (r', c') <> (r, c) ->
  cell_at m' r' c' = cell_at m r' c'.
Proof.
  unfold set_cell. intros H Hne.
  destruct (existsb (String.eqb r) (index m)); [|discriminate].
  destruct (position c (columns m)) as [j|] eqn:Ej; injection H as <-; [|reflexivity].
  unfold cell_at, loc_rows. cbn [rows columns].
  rewrite (@filter_map_label _ _ (fun l => String.eqb l r')) by (intros [l row]; simpl; destruct (String.eqb l r); reflexivity).
  destruct (filter (fun r0 => String.eqb (fst r0) r') (rows m)) as [|[l row] rest] eqn:Ef;
    [reflexivity|].
  assert (Hl : l = r').
  { assert (Hin : In (l, row) (filter (fun r0 => String.eqb (fst r0) r') (rows m)))
      by (rewrite Ef; left; reflexivity).
    apply filter_In in Hin. destruct Hin as [_ Hin]. apply String.eqb_eq in Hin. exact Hin. }
  subst l. cbn [map fst snd].
  destruct (String.eqb_spec r' r) as [->|Hr]; [|reflexivity].
  cbn [snd].
  destruct (position c' (columns m)) as [j'|] eqn:Ej'; [|reflexivity].
  apply list_set_nth_error.
  intros ->. apply position_nth in Ej, Ej'. rewrite Ej in Ej'. injection Ej' as <-.
  apply Hne. reflexivity.
Qed.

Lemma set_cell_shape m r c v m' :
  set_cell m r c v = Ok m' -> columns m' = columns m /\ index m' = index m.
Proof.
  unfold set_cell. intro H.
  destruct (existsb (String.eqb r) (index m)); [|discriminate].
  destruct (position c (columns m)) as [j|]; injection H as <-; [|auto].
  split; [reflexivity|].
  unfold index. cbn [rows]. rewrite map_map. apply map_ext.
  intros [l row]. simpl. destruct (String.eqb l r); reflexivity.
Qed.

Lemma cell_at_fillna0 m r c :
  cell_at (fillna0 m) r c =
  match cell_at m r c with
  | Some NaN => Some (Num 0)
  | o => o
  end.
Proof.
  unfold cell_at, fillna0, loc_rows. cbn [rows columns].
  rewrite (@filter_map_label _ _ (fun l => String.eqb l r)) by (intros [l row]; reflexivity).
  destruct (filter (fun r0 => String.eqb (fst r0) r) (rows m)) as [|[l row] rest];
    [reflexivity|].
  cbn [map fst snd].
  destruct (position c (columns m)) as [j|]; [|reflexivity].
  rewrite nth_error_map. destruct (nth_error row j) as [[| |]|]; reflexivity.
Qed.

(** *** The matrix loop *)

Lemma mat_loop_inv d flat_data method (Inv : FcmDataProcessor * DataFrame -> Prop) :
  (forall a c st st',
      In a (columns flat_data) -> In c (columns flat_data) -> Inv st ->
      mat_step d flat_data method st a c = Ok st' -> Inv st') ->
  forall st st', Inv st -> mat_loop d flat_data method st = Ok st' -> Inv st'.
Proof.
  intros Hstep st st' Hst H. unfold mat_loop in H.
  revert st st' Hst H. apply foldM_inv.
  intros a s s' Ha Hs H. revert s s' Hs H. apply foldM_inv.
  intros c s s' Hc Hs H. exact (Hstep a c s s' Ha Hc Hs H).
Qed.

Lemma mat_loop_ran d flat_data method st st' a c :
  mat_loop d flat_data method st = Ok st' ->
  In a (columns flat_data) -> In c (columns flat_data) ->
  exists t t', mat_step d flat_data method t a c = Ok t'.
Proof.
  unfold mat_loop. intros H Ha Hc.
  destruct (foldM_ran _ _ _ _ H Ha) as (t & t' & Hin).
  exact (foldM_ran _ _ _ _ Hin Hc).
Qed.

Section MatrixRun.
Variable consistency_check : pydata -> string -> result unit.

(** What a run of [gen_weights_mat] that ends has done. *)
Lemma gen_weights_mat_inv self d linguistic_terms method self' :
  gen_weights_mat consistency_check self d linguistic_terms method = Ok self' ->
  exists tables flat_data mf self1 wm,
    choose_data consistency_check self d "Matrix" = Ok (tables, flat_data) /\
    automf universe linguistic_terms = Ok mf /\
    mat_loop tables flat_data method
      (set_terms (set_aggregated (set_expert_data self []) []) mf,
       blank_matrix (unique (index flat_data))) = Ok (self1, wm) /\
    self' = set_causal_weights self1 (fillna0 wm).
Proof.
  unfold gen_weights_mat. intro H.
  apply bind_Ok in H. destruct H as ([tables flat_data] & Hc & H).
  apply bind_Ok in H. destruct H as (mf & Hmf & H).
  apply bind_Ok in H. destruct H as ([self1 wm] & Hl & H).
  injection H as <-.
  exists tables, flat_data, mf, self1, wm. auto.
Qed.
End MatrixRun.

Lemma unique_In x l : In x (unique l) <-> In x l.
Proof.
  induction l as [|a l IH]; simpl; [tauto|].
  rewrite filter_In, IH.
  destruct (String.eqb_spec a x) as [->|Hne]; simpl.
  - tauto.
  - split; [intros [H|[H _]]; auto|intros [H|H]; auto].
Qed.

Lemma cell_at_blank labels a c :
  In a labels -> In c labels -> cell_at (blank_matrix labels) a c = Some NaN.
Proof.
  intros Ha Hc. unfold cell_at, blank_matrix, loc_rows. cbn [rows columns].
  destruct (position_In _ _ Hc) as (j & Ej). rewrite Ej.
  assert (Hf : exists rest,
    filter (fun r : string * list cell => String.eqb (fst r) a)
           (map (fun l => (l, map (fun _ : string => NaN) labels)) labels)
    = (a, map (fun _ : string => NaN) labels) :: rest).
  { clear -Ha. generalize (map (fun _ : string => NaN) labels) as row. intro row.
    induction labels as [|l labels IH]; [destruct Ha|].
    simpl. destruct (String.eqb_spec l a) as [->|Hne]; [eauto|].
    destruct Ha as [E|Ha]; [congruence|]. apply IH. exact Ha. }
  destruct Hf as (rest & ->). cbn [map snd].
  rewrite nth_error_map.
  apply position_nth in Ej. rewrite Ej. reflexivity.
Qed.

Lemma select_index flat_data a c vals :
  select flat_data a c = Ok vals -> In a (index flat_data).
Proof.
  unfold select, loc_rows, index. intro H.
  destruct (filter (fun r => String.eqb (fst r) a) (rows flat_data)) as [|r rest] eqn:E;
    [discriminate|].
  assert (Hin : In r (filter (fun r => String.eqb (fst r) a) (rows flat_data)))
    by (rewrite E; left; reflexivity).
  apply filter_In in Hin. destruct Hin as [Hin Hl].
  apply String.eqb_eq in Hl. subst a. apply in_map. exact Hin.
Qed.

Lemma tally_index d flat_data a c t :
  tally d flat_data a c = Ok t -> In a (index flat_data).
Proof.
  unfold tally. intro H. apply bind_Ok in H. destruct H as (vals & Hs & _).
  eapply select_index. exact Hs.
Qed.

(** ** A pair without any term (C7) *)

Section EmptyTally.
Variable consistency_check : pydata -> string -> result unit.

(** C7.  In a run of [gen_weights_mat], a pair of concepts whose tally is
    empty ends with the matrix cell [0]; its step of the loop changes
    nothing, and no record is kept for it. *)
Theorem empty_tally_cell_zero (self : FcmDataProcessor) (d : pydata)
    (linguistic_terms : list string) (method : string)
    (self' : FcmDataProcessor) (tables : pydata) (flat_data : DataFrame)
    (antecedent consequent : string) :
  gen_weights_mat consistency_check self d linguistic_terms method = Ok self' ->
  choose_data consistency_check self d "Matrix" = Ok (tables, flat_data) ->
  In antecedent (columns flat_data) ->
  In consequent (columns flat_data) ->
  tally tables flat_data antecedent consequent = Ok [] ->
  cell_at (causal_weights self') antecedent consequent = Some (Num 0) /\
  (forall st, mat_step tables flat_data method st antecedent consequent = Ok st) /\
  no_record tables flat_data self' antecedent consequent.
Proof.
  intros Hrun Hch Ha Hc Ht.
  destruct (@gen_weights_mat_inv _ _ _ _ _ _ Hrun)
    as (tables' & flat' & mf & self1 & wm & Hch' & Hmf & Hloop & ->).
  rewrite Hch in Hch'. injection Hch' as <- <-.
  set (Inv := fun st : FcmDataProcessor * DataFrame =>
    cell_at (snd st) antecedent consequent = Some NaN /\
    no_record tables flat_data (fst st) antecedent consequent).
  assert (Hfinal : Inv (self1, wm)).
  { pose proof Hloop as Hloop'. revert Hloop'. apply mat_loop_inv.
    - intros a c st st' Hia Hic (Hcell & Hed & Hag) Hstep.
      destruct (@mat_step_inv _ _ _ _ _ _ _ Hstep) as (t & Htal & [[-> ->]|(Hne & H)]).
      + split; [exact Hcell|split; assumption].
      + destruct H as (ap & activated & aggr & v & wm' & _ & _ & _ & _ & Hset & ->).
        assert (Hpair : (antecedent, consequent) <> (a, c)).
        { intros [= <- <-]. rewrite Ht in Htal. injection Htal as <-. congruence. }
        split; [|split].
        * cbn [snd]. rewrite (@cell_at_set_cell_other _ _ _ _ _ _ _ Hset Hpair).
          exact Hcell.
        * cbn [fst set_aggregated set_expert_data expert_data].
          rewrite (@dict_get_set _ _ pair_eqb pair_eqb_eq).
          destruct (pair_eqb (a, c) (antecedent, consequent)) eqn:E; [|exact Hed].
          apply pair_eqb_eq in E. congruence.
        * cbn [fst set_aggregated set_expert_data aggregated].
          intros arr Harr. rewrite sget_sset in Harr.
          destruct (String.eqb_spec (pair_key a c) (pair_key antecedent consequent)) as [E|E].
          -- exists a, c, t. repeat split; auto; congruence.
          -- apply Hag in Harr. exact Harr.
    - split; [|split].
      + cbn [snd]. apply cell_at_blank; apply unique_In.
        * eapply tally_index. exact Ht.
        * destruct (@mat_loop_ran _ _ _ _ _ consequent consequent Hloop Hc Hc)
            as (t & t' & Hstep).
          destruct (@mat_step_inv _ _ _ _ _ _ _ Hstep) as (tl & Htal & _).
          eapply tally_index. exact Htal.
      + reflexivity.
      + cbn. discriminate. }
  destruct Hfinal as (Hcell & Hrec).
  split; [|split].
  - cbn [causal_weights set_causal_weights]. rewrite cell_at_fillna0.
    cbn [snd] in Hcell. rewrite Hcell. reflexivity.
  - intro st. unfold mat_step. rewrite Ht. reflexivity.
  - exact Hrec.
Qed.
End EmptyTally.

Lemma empty_tally_cell_zero_witness :
  exists self',
    gen_weights_mat no_check (fresh (two_tables "H")) PyNone default_terms "centroid"
      = Ok self' /\
    cell_at (causal_weights self') "B" "A" = Some (Num 0) /\
    (forall st, mat_step (two_tables "H") (two_flat "H") "centroid" st "B" "A" = Ok st) /\
    no_record (two_tables "H") (two_flat "H") self' "B" "A".
Proof.
  destruct (gen_weights_mat no_check (fresh (two_tables "H")) PyNone default_terms "centroid")
    as [self'|e] eqn:E.
  - exists self'. split; [reflexivity|].
    apply (@empty_tally_cell_zero no_check (fresh (two_tables "H")) PyNone
             default_terms "centroid" self' (two_tables "H") (two_flat "H") "B" "A" E).
    + reflexivity.
    + simpl. auto.
    + simpl. auto.
    + reflexivity.
  - exfalso.
    assert (H : match gen_weights_mat no_check (fresh (two_tables "H")) PyNone
                        default_terms "centroid" with
                | Ok _ => true
                | Err _ => false
                end = true) by (vm_compute; reflexivity).
    rewrite E in H. discriminate.
Defined.

(** ** Defuzzified values lie in the universe (C8) *)

Lemma universe_increasing : increasing_within (-1) 1 universe = true.
Proof. vm_compute. reflexivity. Qed.

(** The figure between two samples: its moment lies between the samples
    and its area is not negative. *)
Lemma seg_moment_area_bounds x1 y1 x2 y2 m ar :
  x1 <= x2 -> 0 <= y1 -> 0 <= y2 ->
  seg_moment_area x1 y1 x2 y2 = Some (m, ar) ->
  x1 <= m /\ m <= x2 /\ 0 <= ar.
Proof.
  intros Hx Hy1 Hy2. unfold seg_moment_area.
  destruct (feqb y1 y2 && feqb y2 0 || feqb x1 x2); [discriminate|].
  destruct (feqb y1 y2) eqn:E1.
  { intros [= <- <-]. fnorm. repeat split; nra. }
  destruct (feqb y1 0 && negb (feqb y2 0)) eqn:E2.
  { intros [= <- <-]. fnorm. repeat split; nra. }
  destruct (feqb y2 0 && negb (feqb y1 0)) eqn:E3.
  { intros [= <- <-]. fnorm. repeat split; nra. }
  intros [= <- <-]. fnorm.
  apply feqb_false in E1.
  assert (Hpos : 0 < y1 + y2).
  { destruct (Qlt_le_dec 0 (y1 + y2)) as [H|H]; [exact H|].
    exfalso. apply E1. lra. }
  assert (H0 : 0 <= (2 # 3) * (x2 - x1) * (y2 + (1 # 2) * y1)) by nra.
  assert (H1 : (2 # 3) * (x2 - x1) * (y2 + (1 # 2) * y1) <= (x2 - x1) * (y1 + y2)) by nra.
  pose proof (Qdiv_nonneg H0 Hpos) as Hd0.
  assert (Hd1 : (2 # 3) * (x2 - x1) * (y2 + (1 # 2) * y1) / (y1 + y2) <= x2 - x1).
  { apply Qle_shift_div_r; [exact Hpos|exact H1]. }
  repeat split; first [lra | nra].
Qed.

(** The loop of the centroid keeps the moment sum within the area sum. *)
Lemma centroid_loop_bounds pts : forall x1 y1 sma sa sma' sa',
  increasing_within (-1) 1 (x1 :: map fst pts) = true ->
  0 <= y1 -> Forall (fun p => 0 <= snd p) pts ->
  - sa <= sma -> sma <= sa ->
  centroid_loop x1 y1 pts (sma, sa) = (sma', sa') ->
  - sa' <= sma' /\ sma' <= sa'.
Proof.
  induction pts as [|[x2 y2] pts IH]; intros x1 y1 sma sa sma' sa' Hinc Hy1 Hys Hlo Hhi H.
  - simpl in H. injection H as <- <-. auto.
  - simpl in H. inversion Hys as [|? ? Hy2 Hys']; subst. simpl in Hy2.
    simpl in Hinc. apply andb_true_iff in Hinc. destruct Hinc as [Hinc Hrest].
    apply andb_true_iff in Hinc. destruct Hinc as [Hinc H12].
    apply andb_true_iff in Hinc. destruct Hinc as [Hl1 Hh1].
    btests.
    assert (Hx2 : -1 <= x2 /\ x2 <= 1).
    { simpl in Hrest. apply andb_true_iff in Hrest. destruct Hrest as [Hr _].
      apply andb_true_iff in Hr. destruct Hr as [Hr _].
      apply andb_true_iff in Hr. destruct Hr as [Ha Hb]. btests. auto. }
    destruct (seg_moment_area x1 y1 x2 y2) as [[m ar]|] eqn:Es.
    + destruct (@seg_moment_area_bounds x1 y1 x2 y2 m ar H12 Hy1 Hy2 Es) as (Hm1 & Hm2 & Har).
      eapply (IH x2 y2); [exact Hrest|exact Hy2|exact Hys'| | |exact H];
        simpl; fnorm; nra.
    + eapply (IH x2 y2); [exact Hrest|exact Hy2|exact Hys'| | |exact H]; assumption.
Qed.

Lemma increasing_within_range lo hi x v :
  increasing_within lo hi x = true -> In v x -> lo <= v /\ v <= hi.
Proof.
  induction x as [|x1 x IH]; intros H Hin; [destruct Hin|].
  simpl in H. apply andb_true_iff in H. destruct H as [H Hrest].
  apply andb_true_iff in H. destruct H as [H _].
  apply andb_true_iff in H. destruct H as [Hl Hh]. btests.
  destruct Hin as [<-|Hin]; [auto|]. apply IH; assumption.
Qed.

Lemma zip_fst_increasing lo hi (x y : list Q) :
  increasing_within lo hi x = true ->
  increasing_within lo hi (map fst (zip x y)) = true.
Proof.
  revert y. induction x as [|x1 x IH]; intros y H; [reflexivity|].
  destruct y as [|y1 y]; [reflexivity|].
  simpl in H. apply andb_true_iff in H. destruct H as [H Hrest].
  apply andb_true_iff in H. destruct H as [Hb H12].
  cbn [zip map fst increasing_within]. rewrite Hb, (IH y Hrest). simpl.
  destruct x as [|x2 x]; [reflexivity|].
  destruct y as [|y2 y]; [reflexivity|]. simpl. rewrite H12. reflexivity.
Qed.

Lemma zip_snd_forall {A B} (P : B -> Prop) (x : list A) (y : list B) :
  Forall P y -> Forall (fun p => P (snd p)) (zip x y).
Proof.
  revert y. induction x as [|a x IH]; intros [|b y] H; simpl; try constructor.
  - inversion H; assumption.
  - apply IH. inversion H; assumption.
Qed.

Lemma ratio_bounds sma sa d :
  - sa <= sma -> sma <= sa -> sa <= d -> 0 < d ->
  -1 <= sma / d /\ sma / d <= 1.
Proof.
  intros H1 H2 H3 H4. split.
  - apply Qle_shift_div_l; [exact H4|lra].
  - apply Qle_shift_div_r; [exact H4|lra].
Qed.

Lemma fmax_eps_pos s : 0 < fmax s eps /\ s <= fmax s eps.
Proof.
  split; [|apply fmax_ge_l].
  eapply Qlt_le_trans; [|apply fmax_ge_r]. reflexivity.
Qed.

(** The centroid of a set with degrees that are not negative lies between
    the bounds of the samples. *)
Lemma centroid_bounds (x mfx : list Q) :
  increasing_within (-1) 1 x = true -> Forall (fun v => 0 <= v) mfx ->
  -1 <= centroid x mfx /\ centroid x mfx <= 1.
Proof.
  intros Hx Hy. unfold centroid.
  pose proof (@zip_fst_increasing _ _ x mfx Hx) as Hzx.
  pose proof (@zip_snd_forall _ _ (fun v => 0 <= v) x mfx Hy) as Hzy.
  destruct (zip x mfx) as [|[x0 y0] pts]; [split; lra|].
  inversion Hzy as [|? ? Hy0 Hpts]; subst. simpl in Hy0.
  destruct (fmax_eps_pos y0) as (Hd & Hge).
  assert (Hx0 : -1 <= x0 /\ x0 <= 1).
  { apply (@increasing_within_range _ _ _ x0 Hzx). left. reflexivity. }
  destruct pts as [|p pts].
  - fnorm. apply (@ratio_bounds (x0 * y0) y0 (fmax y0 eps)); try assumption; nra.
  - destruct (centroid_loop x0 y0 (p :: pts) (0, 0)) as [sma sa] eqn:El.
    destruct (@centroid_loop_bounds (p :: pts) x0 y0 0 0 sma sa Hzx Hy0 Hpts) as (H1 & H2);
      [lra|lra|exact El|].
    destruct (fmax_eps_pos sa) as (Hd' & Hge').
    fnorm. apply (@ratio_bounds sma sa (fmax sa eps)); assumption.
Qed.

(** *** Mean, smallest and largest of the maximum *)

Lemma at_max_subset x mfx xs v :
  at_max x mfx = Ok xs -> In v xs -> In v x.
Proof.
  unfold at_max. intros H Hin. apply bind_Ok in H. destruct H as (m & _ & H).
  injection H as <-. apply in_map_iff in Hin. destruct Hin as ([a b] & <- & Hin).
  apply filter_In in Hin. destruct Hin as [Hin _].
  clear -Hin. revert mfx Hin. induction x as [|x1 x IH]; intros [|y1 y] Hin; simpl in *; try tauto.
  destruct Hin as [[= -> _]|Hin]; [auto|]. right. eapply IH. exact Hin.
Qed.

Lemma fold_fmin_In l x : In (fold_left fmin l x) (x :: l).
Proof.
  revert x. induction l as [|a l IH]; intro x; simpl; [auto|].
  destruct (IH (fmin x a)) as [E|Hin]; [|auto].
  rewrite <- E. destruct (fmin_cases x a) as [->| ->]; auto.
Qed.

Lemma fold_fmax_In l x : In (fold_left fmax l x) (x :: l).
Proof.
  revert x. induction l as [|a l IH]; intro x; simpl; [auto|].
  destruct (IH (fmax x a)) as [E|Hin]; [|auto].
  rewrite <- E. destruct (fmax_cases x a) as [->| ->]; auto.
Qed.

Lemma arr_min_In a v : arr_min a = Ok v -> In v a.
Proof.
  destruct a as [|x l]; simpl; [discriminate|]. intros [= <-]. apply fold_fmin_In.
Qed.

Lemma arr_max_In a v : arr_max a = Ok v -> In v a.
Proof.
  destruct a as [|x l]; simpl; [discriminate|]. intros [= <-]. apply fold_fmax_In.
Qed.

Lemma fold_fadd_bounds l : forall acc,
  Forall (fun v => -1 <= v /\ v <= 1) l ->
  acc - of_nat (length l) <= fold_left fadd l acc /\
  fold_left fadd l acc <= acc + of_nat (length l).
Proof.
  induction l as [|a l IH]; intros acc H.
  - simpl. change (of_nat 0) with 0. split; lra.
  - inversion H as [|? ? [Ha1 Ha2] Hl]; subst.
    cbn [fold_left length]. rewrite of_nat_S.
    destruct (IH (fadd acc a) Hl) as [H1 H2].
    pose proof (fadd_eq acc a) as E. split; lra.
Qed.

Lemma arr_mean_bounds a :
  Forall (fun v => -1 <= v /\ v <= 1) a ->
  -1 <= arr_mean a /\ arr_mean a <= 1.
Proof.
  intro H. unfold arr_mean, arr_sum. fnorm.
  destruct (@fold_fadd_bounds a 0 H) as [H1 H2].
  destruct a as [|x l].
  - split; apply Qle_bool_iff; reflexivity.
  - assert (Hn : 0 < of_nat (length (x :: l))).
    { cbn [length]. rewrite of_nat_S.
      pose proof (of_nat_le (Nat.le_0_l (length l))) as H0.
      change (of_nat 0) with 0 in H0. lra. }
    apply (@ratio_bounds _ (of_nat (length (x :: l))) _); try lra.
Qed.

(** [defuzz] returns a value between the bounds of the samples. *)
Lemma defuzz_bounds x mfx mode v :
  increasing_within (-1) 1 x = true -> Forall (fun v => 0 <= v) mfx ->
  defuzz x mfx mode = Ok v -> -1 <= v /\ v <= 1.
Proof.
  intros Hx Hy. unfold defuzz.
  destruct (negb (Nat.eqb (length x) (length mfx))); [discriminate|].
  destruct (contains "centroid" (lower mode) || contains "bisector" (lower mode)).
  { destruct (feqb (arr_sum mfx) 0); [discriminate|].
    destruct (contains "centroid" (lower mode)); [|discriminate].
    intros [= <-]. apply centroid_bounds; assumption. }
  assert (Hsub : forall xs, at_max x mfx = Ok xs ->
                   Forall (fun v => -1 <= v /\ v <= 1) xs).
  { intros xs Hxs. apply Forall_forall. intros w Hw.
    apply (@increasing_within_range _ _ x w Hx). eapply at_max_subset; eassumption. }
  destruct (contains "mom" (lower mode)).
  { intro H. apply bind_Ok in H. destruct H as (xs & Hxs & [= <-]).
    apply arr_mean_bounds. apply Hsub. exact Hxs. }
  destruct (contains "som" (lower mode)).
  { intro H. apply bind_Ok in H. destruct H as (xs & Hxs & H).
    apply arr_min_In in H. specialize (Hsub xs Hxs).
    rewrite Forall_forall in Hsub. apply Hsub. exact H. }
  destruct (contains "lom" (lower mode)); [|discriminate].
  intro H. apply bind_Ok in H. destruct H as (xs & Hxs & H).
  apply arr_max_In in H. specialize (Hsub xs Hxs).
  rewrite Forall_forall in Hsub. apply Hsub. exact H.
Qed.

(** *** Degrees are never negative *)

Lemma sset_forall {V} (P : string * V -> Prop) d k v :
  Forall P d -> P (k, v) -> Forall P (sset d k v).
Proof.
  intros Hd Hk. unfold sset. induction d as [|[k0 v0] d IH]; simpl.
  - constructor; [exact Hk|constructor].
  - inversion Hd; subst.
    destruct (String.eqb_spec k0 k) as [->|Hne]; constructor; auto.
Qed.

Lemma sget_In {V} (d : list (string * V)) k v :
  sget d k = Some v -> In (k, v) d.
Proof.
  unfold sget. induction d as [|[k0 v0] d IH]; simpl; [discriminate|].
  destruct (String.eqb_spec k0 k) as [->|Hne].
  - intros [= ->]. left. reflexivity.
  - intro H. right. apply IH. exact H.
Qed.

Lemma slookup_In {V} (d : list (string * V)) k v :
  slookup d k = Ok v -> In (k, v) d.
Proof.
  unfold slookup, dict_lookup. intro H. apply sget_In. unfold sget.
  destruct (dict_get String.eqb d k); [injection H as ->; reflexivity|discriminate].
Qed.

Lemma trimf_inv univ abc y :
  trimf univ abc = Ok y -> degrees (length univ) y.
Proof.
  destruct abc as [[a b] c]. unfold trimf.
  destruct (fleb a b) eqn:Hab; [|discriminate].
  destruct (fleb b c) eqn:Hbc; [|discriminate].
  intros [= <-]. btests. split; [apply length_map|].
  apply Forall_forall. intros v Hv. apply in_map_iff in Hv.
  destruct Hv as (x & <- & _). apply trimf_at_range; assumption.
Qed.

(** Every membership function [automf] returns is an array of degrees as
    long as the universe. *)
Lemma automf_degrees univ linguistic_terms mf :
  automf univ linguistic_terms = Ok mf ->
  Forall (fun kv => degrees (length univ) (snd kv)) mf.
Proof.
  unfold automf. intro H. apply bind_Ok in H. destruct H as (abcs & _ & H).
  revert H. apply foldM_inv; [|constructor].
  intros [t abc] d d' _ Hd H. apply bind_Ok in H. destruct H as (y & Hy & [= <-]).
  apply sset_forall; [exact Hd|]. simpl. eapply trimf_inv. exact Hy.
Qed.

Lemma fmin_nonneg f v : 0 <= f -> 0 <= v -> 0 <= fmin f v.
Proof. intros Hf Hv. destruct (fmin_cases f v) as [->| ->]; assumption. Qed.

(** Activated sets are as long as the membership functions and never
    negative when the frequencies are not. *)
Lemma activate_nonneg n ap mf activated :
  Forall (fun kv : string * Q => 0 <= snd kv) ap ->
  Forall (fun kv => degrees n (snd kv)) mf ->
  activate ap mf = Ok activated ->
  Forall (fun kv => nonneg n (snd kv)) activated.
Proof.
  intros Hap Hmf. unfold activate. apply foldM_inv; [|constructor].
  intros [k f] d d' Hin Hd H. apply bind_Ok in H. destruct H as (y & Hy & [= <-]).
  apply sset_forall; [exact Hd|]. simpl in *.
  apply slookup_In in Hy.
  rewrite Forall_forall in Hmf. destruct (Hmf _ Hy) as [Hlen Hdeg]. simpl in *.
  rewrite Forall_forall in Hap. specialize (Hap _ Hin). simpl in Hap.
  split; [rewrite length_map; exact Hlen|].
  apply Forall_forall. intros v Hv. apply in_map_iff in Hv.
  destruct Hv as (w & <- & Hw). rewrite Forall_forall in Hdeg.
  apply fmin_nonneg; [exact Hap|apply Hdeg; exact Hw].
Qed.

Lemma aggregate_nonneg n activated aggr :
  Forall (fun kv : string * list Q => nonneg n (snd kv)) activated ->
  aggregate activated = Ok aggr -> nonneg n aggr.
Proof.
  intros Hact H. unfold aggregate, reduce in H.
  destruct activated as [|[k a] d]; [discriminate|].
  change (foldM fmax_arr a (values d) = Ok aggr) in H.
  inversion Hact as [|? ? [Ha Hanon] Hd]; subst. cbn [snd] in Hanon.
  destruct (@foldM_fmax_arr (length a) (values d) a eq_refl) as (r & Hr & Hlen & Hi).
  { unfold values. apply Forall_forall. intros b Hb. apply in_map_iff in Hb.
    destruct Hb as (kv & <- & Hkv). rewrite Forall_forall in Hd. apply (Hd _ Hkv). }
  rewrite Hr in H. injection H as <-.
  split; [exact Hlen|].
  apply Forall_forall. intros v Hv. apply (In_nth _ _ 0) in Hv.
  destruct Hv as (i & Hi' & <-). rewrite Hlen in Hi'.
  destruct (Hi i Hi') as [_ (b & Hb & ->)].
  assert (Hbn : Forall (fun v => 0 <= v) b).
  { destruct Hb as [<-|Hb]; [exact Hanon|].
    unfold values in Hb. apply in_map_iff in Hb. destruct Hb as (kv & <- & Hkv).
    rewrite Forall_forall in Hd. apply (Hd _ Hkv). }
  rewrite Forall_forall in Hbn. apply Hbn. apply nth_In.
  destruct Hb as [<-|Hb]; [exact Hi'|].
  unfold values in Hb. apply in_map_iff in Hb. destruct Hb as (kv & <- & Hkv).
  rewrite Forall_forall in Hd. destruct (Hd _ Hkv) as [-> _]. exact Hi'.
Qed.

(** *** The frequencies after the string round trip *)

Lemma eval_body_suffix : forall n s acc k rest,
  (length s <= n)%nat -> eval_body s acc = Ok (k, rest) ->
  forall t, In t rest -> In t s.
Proof.
  induction n as [|n IH]; intros s acc k rest Hn H t Ht.
  - destruct s; [discriminate|simpl in Hn; lia].
  - destruct s as [|[c|q] s1]; [discriminate| |discriminate].
    simpl in Hn. cbn [eval_body] in H.
    destruct (Ascii.eqb c squote).
    { injection H as _ <-. right. exact Ht. }
    destruct (Ascii.eqb c bslash).
    + destruct s1 as [|[e|q] s2]; [discriminate| |discriminate].
      simpl in Hn.
      assert (Hgo : forall a, eval_body s2 a = Ok (k, rest) -> In t (Ch c :: Ch e :: s2)).
      { intros a Ha. right. right. eapply (IH s2); [lia|exact Ha|exact Ht]. }
      destruct (Ascii.eqb e bslash); [eapply Hgo; exact H|].
      destruct (Ascii.eqb e squote); [eapply Hgo; exact H|].
      destruct (Ascii.eqb e "n"%char); [eapply Hgo; exact H|].
      destruct (Ascii.eqb e "r"%char); [eapply Hgo; exact H|].
      destruct (Ascii.eqb e "t"%char); [eapply Hgo; exact H|].
      destruct (Ascii.eqb e "x"%char); [|discriminate].
      destruct s2 as [|[h1|q] [|[h2|q'] s3]]; try discriminate.
      destruct (hex_value h1), (hex_value h2); try discriminate.
      simpl in Hn. right. right. right. right.
      eapply (IH s3); [lia|exact H|exact Ht].
    + destruct (Nat.ltb (nat_of_ascii c) 32); [discriminate|].
      right. eapply (IH s1); [lia|exact H|exact Ht].
Qed.

Lemma sset_In {V} (d : list (string * V)) k v k' v' :
  In (k', v') (sset d k v) -> v' = v \/ In (k', v') d.
Proof.
  unfold sset. induction d as [|[k0 v0] d IH]; simpl.
  - intros [[= <- <-]|[]]. auto.
  - destruct (String.eqb k0 k); simpl.
    + intros [[= <- <-]|H]; auto.
    + intros [H|H]; auto. destruct (IH H); auto.
Qed.

(** Every value of the evaluated dict is a float of the string. *)
Lemma eval_items_values : forall fuel s d d',
  eval_items fuel s d = Ok d' ->
  forall k v, In (k, v) d' -> In (Flt v) s \/ In (k, v) d.
Proof.
  induction fuel as [|fuel IH]; intros s d d' H k v Hin; [discriminate|].
  cbn [eval_items] in H.
  destruct s as [|[q|?] s1]; try discriminate.
  destruct (Ascii.eqb q squote); [|discriminate].
  apply bind_Ok in H. destruct H as ([k0 s2] & Hb & H).
  pose proof (@eval_body_suffix (length s1) s1 [] k0 s2 (le_n _) Hb) as Hsuf.
  destruct s2 as [|[c1|?] [|[c2|?] [|[?|v0] s3]]]; try discriminate.
  destruct (Ascii.eqb c1 ":"%char && Ascii.eqb c2 " "%char); [|discriminate].
  assert (Hv0 : In (Flt v0) (Ch q :: s1)).
  { right. apply Hsuf. right. right. left. reflexivity. }
  assert (Hd' : In (k, v) (sset d k0 v0) -> In (Flt v) (Ch q :: s1) \/ In (k, v) d).
  { intro Hs. destruct (sset_In _ _ _ _ _ Hs) as [->|Hs']; auto. }
  destruct s3 as [|[c3|?] [|[c4|?] s4]]; try discriminate.
  - destruct (Ascii.eqb c3 "}"%char); [|discriminate].
    injection H as <-. apply Hd'. exact Hin.
  - destruct (Ascii.eqb c3 ","%char && Ascii.eqb c4 " "%char); [|discriminate].
    destruct (IH _ _ _ H k v Hin) as [Hs|Hs].
    + left. right. apply Hsuf. right. right. right. right. right. exact Hs.
    + apply Hd'. exact Hs.
Qed.

Lemma str_dict_floats (t : list (string * Q)) v :
  In (Flt v) (replace_dquote (str_dict t)) -> In v (values t).
Proof.
  intro H. unfold replace_dquote in H. apply filter_In in H. destruct H as [H _].
  unfold str_dict in H. apply in_app_or in H. destruct H as [H|H].
  { simpl in H. destruct H as [H|[]]. discriminate. }
  apply in_app_or in H. destruct H as [H|H].
  2:{ simpl in H. destruct H as [H|[]]. discriminate. }
  assert (Hitem : forall kv, In (Flt v) (repr_item kv) -> v = snd kv).
  { intros kv Hi. unfold repr_item in Hi.
    apply in_app_or in Hi. destruct Hi as [Hi|Hi].
    - apply in_map_iff in Hi. destruct Hi as (c & Hc & _). discriminate.
    - apply in_app_or in Hi. destruct Hi as [Hi|Hi].
      + simpl in Hi. destruct Hi as [Hi|[Hi|[]]]; discriminate.
      + destruct Hi as [[= ->]|[]]. reflexivity. }
  induction t as [|kv t IH]; [destruct H|].
  destruct t as [|kv' t].
  - left. symmetry. apply Hitem. exact H.
  - change (repr_items (kv :: kv' :: t))
      with (repr_item kv ++ chars ", " ++ repr_items (kv' :: t)) in H.
    apply in_app_or in H. destruct H as [H|H].
    + left. symmetry. apply Hitem. exact H.
    + apply in_app_or in H. destruct H as [H|H].
      * simpl in H. destruct H as [H|[H|[]]]; discriminate.
      * right. apply IH. exact H.
Qed.

Lemma py_eval_values (t ap : list (string * Q)) :
  py_eval (replace_dquote (str_dict t)) = Ok ap ->
  forall kv, In kv ap -> In (snd kv) (values t).
Proof.
  intros H [k v] Hin. simpl. apply str_dict_floats.
  unfold py_eval in H.
  destruct (replace_dquote (str_dict t)) as [|[c|?] s1]; try discriminate.
  destruct (Ascii.eqb c "{"%char); [|discriminate].
  assert (Hgo : eval_items (length s1) s1 [] = Ok ap -> In (Flt v) (Ch c :: s1)).
  { intro He. destruct (eval_items_values _ _ _ He k v Hin) as [Hs|[]]. right. exact Hs. }
  destruct s1 as [|[c'|?] [|? ?]]; try (apply Hgo; exact H).
  destruct (Ascii.eqb c' "}"%char); [|discriminate].
  injection H as <-. destruct Hin.
Qed.

Lemma of_nat_nonneg n : 0 <= of_nat n.
Proof. change 0 with (of_nat 0). apply of_nat_le. lia. Qed.

Lemma fdiv_nonneg p q : 0 <= p -> 0 <= q -> 0 <= fdiv p q.
Proof.
  intros Hp Hq. fnorm. unfold Qdiv.
  apply Qmult_le_0_compat; [exact Hp|apply Qinv_le_0_compat; exact Hq].
Qed.

Lemma tally_nonneg d flat_data a c t :
  tally d flat_data a c = Ok t -> Forall (fun v => 0 <= v) (values t).
Proof.
  unfold tally. intro H.
  apply bind_Ok in H. destruct H as (vals & _ & H).
  apply bind_Ok in H. destruct H as (counts & _ & H).
  apply bind_Ok in H. destruct H as (n & _ & [= <-]).
  unfold values. rewrite map_map. apply Forall_forall. intros v Hv.
  apply in_map_iff in Hv. destruct Hv as (kc & <- & _). simpl.
  apply fdiv_nonneg; apply of_nat_nonneg.
Qed.

(** *** The weight matrix *)

Lemma blank_matrix_bounded labels : bounded_frame (blank_matrix labels).
Proof.
  unfold bounded_frame, blank_matrix. cbn [rows].
  apply Forall_forall. intros row Hrow. apply in_map_iff in Hrow.
  destruct Hrow as (l & <- & _). cbn [snd].
  apply Forall_forall. intros x Hx. apply in_map_iff in Hx.
  destruct Hx as (l' & <- & _). exact I.
Qed.

Lemma list_set_forall {A} (P : A -> Prop) l j a :
  Forall P l -> P a -> Forall P (list_set l j a).
Proof.
  intros Hl Ha. revert j. induction Hl as [|x l Hx Hl IH]; intros [|j]; simpl;
    constructor; auto.
Qed.

Lemma set_cell_bounded m r c v m' :
  bounded_frame m -> -1 <= v /\ v <= 1 ->
  set_cell m r c v = Ok m' -> bounded_frame m'.
Proof.
  unfold set_cell, bounded_frame. intros Hm Hv H.
  destruct (existsb (String.eqb r) (index m)); [|discriminate].
  destruct (position c (columns m)) as [j|]; injection H as <-; [|exact Hm].
  cbn [rows]. apply Forall_forall. intros row Hrow. apply in_map_iff in Hrow.
  destruct Hrow as ([l cells] & <- & Hin).
  rewrite Forall_forall in Hm. specialize (Hm _ Hin). simpl in *.
  destruct (String.eqb l r); simpl; [|exact Hm].
  apply list_set_forall; [exact Hm|exact Hv].
Qed.

Lemma cell_at_In m r c x :
  cell_at m r c = Some x -> exists row, In row (rows m) /\ In x (snd row).
Proof.
  unfold cell_at, loc_rows. intro H.
  destruct (filter (fun r0 => String.eqb (fst r0) r) (rows m)) as [|row rest] eqn:Ef;
    [discriminate|].
  cbn [map] in H. destruct (position c (columns m)) as [j|]; [|discriminate].
  exists row. split.
  - assert (Hin : In row (filter (fun r0 => String.eqb (fst r0) r) (rows m)))
      by (rewrite Ef; left; reflexivity).
    apply filter_In in Hin. tauto.
  - eapply nth_error_In. exact H.
Qed.

Lemma fillna0_cells m r c x :
  bounded_frame m -> cell_at (fillna0 m) r c = Some x ->
  exists v, x = Num v /\ -1 <= v /\ v <= 1.
Proof.
  intros Hm H. apply cell_at_In in H. destruct H as (row & Hrow & Hx).
  unfold fillna0 in Hrow. cbn [rows] in Hrow. apply in_map_iff in Hrow.
  destruct Hrow as ([l cells] & <- & Hin). cbn [snd] in Hx.
  apply in_map_iff in Hx. destruct Hx as (y & <- & Hy).
  unfold bounded_frame in Hm. rewrite Forall_forall in Hm. specialize (Hm _ Hin).
  cbn [snd] in Hm. rewrite Forall_forall in Hm. specialize (Hm _ Hy).
  destruct y as [|s|v]; simpl in Hm.
  - exists 0. repeat split; lra.
  - destruct Hm.
  - exists v. auto.
Qed.

(** The tail of both loops keeps the weight matrix bounded. *)
Lemma infer_bounded method a c ap st st' mf :
  terms (fst st) = mf ->
  Forall (fun kv => degrees (length universe) (snd kv)) mf ->
  Forall (fun kv : string * Q => 0 <= snd kv) ap ->
  bounded_frame (snd st) ->
  infer method a c ap st = Ok st' ->
  terms (fst st') = mf /\ bounded_frame (snd st').
Proof.
  intros Hterms Hmf Hap Hb H. destruct st as [self wm]. unfold infer in H.
  apply bind_Ok in H. destruct H as (activated & Hact & H).
  apply bind_Ok in H. destruct H as (aggr & Hagg & H).
  apply bind_Ok in H. destruct H as (v & Hv & H).
  apply bind_Ok in H. destruct H as (wm' & Hwm & [= <-]).
  simpl in *. split; [exact Hterms|].
  eapply set_cell_bounded; [exact Hb| |exact Hwm].
  rewrite Hterms in Hact.
  pose proof (activate_nonneg Hap Hmf Hact) as Hn.
  destruct (aggregate_nonneg Hn Hagg) as [_ Hnn].
  eapply defuzz_bounds; [apply universe_increasing|exact Hnn|exact Hv].
Qed.

Lemma magnitude_nonneg v : 0 <= magnitude v.
Proof.
  unfold magnitude. destruct (fltb v 0) eqn:E; btests; lra.
Qed.

Lemma signed_terms_nonneg ts :
  Forall (fun kv : string * Q => 0 <= snd kv) (signed_terms ts).
Proof.
  unfold signed_terms.
  assert (H : forall d, Forall (fun kv : string * Q => 0 <= snd kv) d ->
    Forall (fun kv : string * Q => 0 <= snd kv)
      (fold_left (fun ap kv => sset ap (sign_prefix (snd kv) ++ fst kv) (magnitude (snd kv)))
                 ts d)).
  { induction ts as [|kv ts IH]; intros d Hd; [exact Hd|].
    simpl. apply IH. apply sset_forall; [exact Hd|]. apply magnitude_nonneg. }
  apply H. constructor.
Qed.

Section Bounds.
Variable consistency_check : pydata -> string -> result unit.

Lemma gen_weights_mat_bounded self d linguistic_terms method self' :
  gen_weights_mat consistency_check self d linguistic_terms method = Ok self' ->
  exists wm, causal_weights self' = fillna0 wm /\ bounded_frame wm.
Proof.
  intro Hrun.
  destruct (@gen_weights_mat_inv _ _ _ _ _ _ Hrun)
    as (tables & flat_data & mf & self1 & wm & _ & Hmf & Hloop & ->).
  exists wm. split; [reflexivity|].
  pose proof (automf_degrees _ _ Hmf) as Hdeg.
  set (Inv := fun st : FcmDataProcessor * DataFrame =>
                terms (fst st) = mf /\ bounded_frame (snd st)).
  assert (Hfinal : Inv (self1, wm)).
  { revert Hloop. apply mat_loop_inv.
    - intros a c st st' _ _ (Ht & Hb) Hstep. unfold mat_step in Hstep.
      apply bind_Ok in Hstep. destruct Hstep as (t & Htal & Hstep).
      destruct (negb (Nat.eqb (length t) 0)); [|injection Hstep as <-; split; assumption].
      apply bind_Ok in Hstep. destruct Hstep as (ap & Hap & Hstep).
      eapply infer_bounded; [| | | |exact Hstep]; try assumption.
      apply Forall_forall. intros kv Hkv.
      pose proof (py_eval_values _ Hap kv Hkv) as Hv.
      pose proof (tally_nonneg _ _ _ _ Htal) as Hn.
      rewrite Forall_forall in Hn. apply Hn. exact Hv.
    - split; [reflexivity|apply blank_matrix_bounded]. }
  apply Hfinal.
Qed.

Lemma gen_weights_list_bounded self d linguistic_terms method self' :
  gen_weights_list consistency_check self d linguistic_terms method = Ok self' ->
  exists wm, causal_weights self' = fillna0 wm /\ bounded_frame wm.
Proof.
  unfold gen_weights_list. intro H.
  apply bind_Ok in H. destruct H as ([tables flat_data] & _ & H).
  apply bind_Ok in H. destruct H as (froms & _ & H).
  apply bind_Ok in H. destruct H as (pairs & _ & H).
  apply bind_Ok in H. destruct H as (finals & _ & H).
  apply bind_Ok in H. destruct H as (mf & Hmf & H).
  apply bind_Ok in H. destruct H as ([self1 wm] & Hloop & [= <-]).
  exists wm. split; [reflexivity|].
  pose proof (automf_degrees _ _ Hmf) as Hdeg.
  set (Inv := fun st : FcmDataProcessor * DataFrame =>
                terms (fst st) = mf /\ bounded_frame (snd st)).
  assert (Hfinal : Inv (self1, wm)).
  { revert Hloop. apply foldM_inv.
    - intros pair st st' _ (Ht & Hb) Hstep. unfold list_step in Hstep.
      apply bind_Ok in Hstep. destruct Hstep as (ts & _ & Hstep).
      destruct (negb (forallb (fun x => feqb x 0) (values (signed_terms ts)))).
      + eapply infer_bounded; [| | | |exact Hstep]; try assumption.
        apply signed_terms_nonneg.
      + injection Hstep as <-. split; assumption.
    - split; [reflexivity|apply blank_matrix_bounded]. }
  apply Hfinal.
Qed.

End Bounds.


(** ** When the inference of a pair succeeds *)

(** A loop whose body succeeds under an invariant succeeds. *)
Lemma foldM_total {A S} (f : S -> A -> result S) (Inv : S -> Prop) (l : list A) :
  (forall x s, In x l -> Inv s -> exists s', f s x = Ok s' /\ Inv s') ->
  forall s, Inv s -> exists s', foldM f s l = Ok s' /\ Inv s'.
Proof.
  induction l as [|x l IH]; intros Hstep s Hs.
  - exists s. auto.
  - destruct (Hstep x s (or_introl eq_refl) Hs) as (s1 & H1 & Hs1).
    destruct (IH (fun y t Hy => Hstep y t (or_intror Hy)) s1 Hs1) as (s' & H' & Hs').
    exists s'. simpl. rewrite H1. auto.
Qed.

Lemma fmin_pos f v : 0 < f -> 0 < v -> 0 < fmin f v.
Proof. intros Hf Hv. destruct (fmin_cases f v) as [->| ->]; assumption. Qed.

Lemma activate_lit mf ap :
  good_mf mf -> served mf ap ->
  exists activated, activate ap mf = Ok activated /\
    Forall (fun kv => lit (length universe) (snd kv)) activated /\
    (ap <> [] -> activated <> []).
Proof.
  intros Hmf Hap. unfold activate.
  destruct (@foldM_total _ _
              (fun activated (kv : string * Q) =>
                 y <- slookup mf (fst kv) ;;
                 Ok (sset activated (fst kv) (map (fmin (snd kv)) y)))
              (fun d => Forall (fun kv => lit (length universe) (snd kv)) d)
              ap) with (s := @nil (string * list Q)) as (act & Hact & Hlit).
  - intros [k f] d Hin Hd.
    unfold served in Hap. rewrite Forall_forall in Hap.
    destruct (Hap _ Hin) as (Hf & y & Hy). simpl in *.
    unfold slookup, dict_lookup. unfold sget in Hy. rewrite Hy. simpl.
    eexists. split; [reflexivity|].
    apply sset_forall; [exact Hd|]. simpl.
    apply sget_In in Hy. unfold good_mf in Hmf. rewrite Forall_forall in Hmf.
    destruct (Hmf _ Hy) as ((Hlen & Hdeg) & j & Hj). simpl in *.
    rewrite Forall_forall in Hdeg.
    split; [split|].
    + rewrite length_map. exact Hlen.
    + apply Forall_forall. intros v Hv. apply in_map_iff in Hv.
      destruct Hv as (w & <- & Hw). apply fmin_nonneg; [lra|apply Hdeg; exact Hw].
    + exists j.
      assert (Hjl : (j < length y)%nat).
      { destruct (Nat.lt_ge_cases j (length y)) as [H|H]; [exact H|].
        rewrite nth_overflow in Hj by exact H. lra. }
      rewrite (nth_indep _ 0 (fmin f 0)) by (rewrite length_map; exact Hjl).
      rewrite (map_nth (fmin f)). apply fmin_pos; assumption.
  - constructor.
  - exists act. split; [exact Hact|]. split; [exact Hlit|].
    intros Hne ->. destruct ap as [|[k f] ap]; [congruence|].
    simpl in Hact. apply bind_Ok in Hact. destruct Hact as (d1 & H1 & H2).
    apply bind_Ok in H1. destruct H1 as (y & _ & [= <-]).
    revert H2. clear.
    assert (Hgen : forall l d, d <> [] ->
       foldM (fun activated (kv : string * Q) =>
                 y <- slookup mf (fst kv) ;;
                 Ok (sset activated (fst kv) (map (fmin (snd kv)) y))) d l <> Ok []).
    { induction l as [|kv l IH]; intros d Hd; simpl; [congruence|].
      destruct (slookup mf (fst kv)) as [y'|]; simpl; [|discriminate].
      apply IH. unfold sset. destruct d as [|[k0 v0] d]; [congruence|].
      simpl. destruct (String.eqb k0 (fst kv)); discriminate. }
    apply Hgen. unfold sset. simpl. discriminate.
Qed.

Lemma arr_sum_ge l : forall acc,
  Forall (fun v => 0 <= v) l -> acc <= fold_left fadd l acc.
Proof.
  induction l as [|a l IH]; intros acc H; [apply Qle_refl|].
  inversion H; subst. simpl.
  eapply Qle_trans; [|apply IH; assumption].
  rewrite fadd_eq. lra.
Qed.

Lemma fold_fadd_pos l : forall j acc,
  Forall (fun v => 0 <= v) l -> 0 <= acc -> 0 < nth j l 0 ->
  0 < fold_left fadd l acc.
Proof.
  induction l as [|a l IH]; intros j acc H Hacc Hj.
  - destruct j; simpl in Hj; lra.
  - inversion H; subst. simpl.
    pose proof (fadd_eq acc a) as E.
    destruct j as [|j]; simpl in Hj.
    + eapply Qlt_le_trans; [|apply arr_sum_ge; assumption]. lra.
    + apply (IH j); [assumption|lra|exact Hj].
Qed.

Lemma arr_sum_pos l j :
  Forall (fun v => 0 <= v) l -> 0 < nth j l 0 -> 0 < arr_sum l.
Proof.
  intros H Hj. unfold arr_sum. apply (@fold_fadd_pos l j 0); [exact H|lra|exact Hj].
Qed.

Lemma aggregate_lit n activated :
  activated <> [] ->
  Forall (fun kv : string * list Q => lit n (snd kv)) activated ->
  exists aggr, aggregate activated = Ok aggr /\ lit n aggr.
Proof.
  intros Hne Hact. unfold aggregate, reduce.
  destruct activated as [|[k a] d]; [congruence|].
  change (values ((k, a) :: d)) with (a :: values d).
  inversion Hact as [|? ? [[Ha Hanon] (j & Hj)] Hd]; subst. cbn [snd] in *.
  destruct (@foldM_fmax_arr (length a) (values d) a eq_refl) as (r & Hr & Hlen & Hi).
  { unfold values. apply Forall_forall. intros b Hb. apply in_map_iff in Hb.
    destruct Hb as (kv & <- & Hkv). rewrite Forall_forall in Hd.
    destruct (Hd _ Hkv) as [[Hl _] _]. exact Hl. }
  exists r. split; [exact Hr|].
  assert (Hnn : nonneg (length a) r).
  { apply (@aggregate_nonneg (length a) ((k, a) :: d) r).
    - eapply Forall_impl; [|exact Hact]. intros kv [H _]. exact H.
    - exact Hr. }
  split; [exact Hnn|].
  exists j.
  assert (Hjl : (j < length a)%nat).
  { destruct (Nat.lt_ge_cases j (length a)) as [H|H]; [exact H|].
    rewrite nth_overflow in Hj by exact H. lra. }
  destruct (Hi j Hjl) as [Hub _].
  eapply Qlt_le_trans; [exact Hj|]. apply Hub. left. reflexivity.
Qed.

Lemma defuzzify_centroid_ok mfx :
  lit (length universe) mfx ->
  defuzzify universe mfx "centroid" = Ok (centroid universe mfx).
Proof.
  intros [[Hlen Hnn] (j & Hj)]. unfold defuzzify, defuzz.
  rewrite Hlen, Nat.eqb_refl. cbn [negb].
  change (lower "centroid") with "centroid".
  change (contains "centroid" "centroid") with true. cbn [orb].
  destruct (feqb (arr_sum mfx) 0) eqn:E; [|reflexivity].
  apply feqb_true in E. pose proof (arr_sum_pos j Hnn Hj). lra.
Qed.

Lemma set_cell_ok m r c v :
  In r (index m) -> exists m', set_cell m r c v = Ok m'.
Proof.
  intro H. unfold set_cell.
  assert (E : existsb (String.eqb r) (index m) = true).
  { apply existsb_exists. exists r. split; [exact H|apply String.eqb_refl]. }
  rewrite E. destruct (position c (columns m)); eauto.
Qed.

(** With membership functions that can serve it, the inference of a pair
    succeeds under the method [centroid]. *)
Lemma infer_ok a c ap self wm :
  good_mf (terms self) -> served (terms self) ap -> ap <> [] ->
  In a (index wm) ->
  exists aggr wm',
    lit (length universe) aggr /\
    set_cell wm a c (centroid universe aggr) = Ok wm' /\
    infer "centroid" a c ap (self, wm)
    = Ok (set_aggregated self (sset (aggregated self) (pair_key a c) aggr), wm').
Proof.
  intros Hmf Hap Hne Ha.
  destruct (activate_lit Hmf Hap) as (activated & Hact & Hlit & Hne').
  destruct (aggregate_lit (Hne' Hne) Hlit) as (aggr & Hagg & Hal).
  destruct (@set_cell_ok wm a c (centroid universe aggr) Ha) as (wm' & Hwm).
  exists aggr, wm'. split; [exact Hal|]. split; [exact Hwm|].
  unfold infer. rewrite Hact. cbn [bind]. rewrite Hagg. cbn [bind].
  rewrite (defuzzify_centroid_ok Hal). cbn [bind]. rewrite Hwm. reflexivity.
Qed.

(** *** Loops, again *)

Lemma foldM_app {A S} (f : S -> A -> result S) l1 l2 s :
  foldM f s (l1 ++ l2) = (s' <- foldM f s l1 ;; foldM f s' l2).
Proof.
  revert s. induction l1 as [|x l1 IH]; intro s; [reflexivity|].
  simpl. destruct (f s x) as [s1|e]; simpl; [apply IH|reflexivity].
Qed.

Lemma foldM_map {A B S} (f : S -> B -> result S) (g : A -> B) l s :
  foldM f s (map g l) = foldM (fun s a => f s (g a)) s l.
Proof.
  revert s. induction l as [|x l IH]; intro s; [reflexivity|].
  simpl. destruct (f s (g x)) as [s1|e]; simpl; [apply IH|reflexivity].
Qed.

(** Two nested loops visit the pairs in order. *)
Lemma foldM_nested {A B S} (f : S -> A -> B -> result S) outer inner s :
  foldM (fun s a => foldM (fun s b => f s a b) s inner) s outer =
  foldM (fun s p => f s (fst p) (snd p)) s (list_prod outer inner).
Proof.
  revert s. induction outer as [|a outer IH]; intro s; [reflexivity|].
  cbn [foldM list_prod]. rewrite foldM_app, foldM_map. cbn [fst snd].
  destruct (foldM (fun s0 b => f s0 a b) s inner) as [s1|e]; simpl;
    [apply IH|reflexivity].
Qed.

Lemma mat_loop_prod d flat_data method st :
  mat_loop d flat_data method st =
  foldM (fun st p => mat_step d flat_data method st (fst p) (snd p)) st
        (list_prod (columns flat_data) (columns flat_data)).
Proof. unfold mat_loop. apply foldM_nested. Qed.

(** What the step for [x0] establishes, and the other steps keep, holds
    after the loop. *)
Lemma foldM_post {A S} (f : S -> A -> result S) (Inv Post : S -> Prop)
    (l : list A) (x0 : A) :
  (forall x : A, x = x0 \/ x <> x0) ->
  (forall x s s', In x l -> Inv s -> f s x = Ok s' -> Inv s') ->
  (forall s s', Inv s -> f s x0 = Ok s' -> Post s') ->
  (forall x s s', In x l -> x <> x0 -> Inv s -> Post s -> f s x = Ok s' -> Post s') ->
  In x0 l ->
  forall s s', Inv s -> foldM f s l = Ok s' -> Post s'.
Proof.
  intros Hdec Hinv Hest Hkeep.
  assert (Hboth : forall l', (forall x, In x l' -> In x l) ->
            forall s s', Inv s -> Post s -> foldM f s l' = Ok s' -> Post s').
  { induction l' as [|x l' IH]; intros Hsub s s' Hs Hp H; simpl in H.
    - injection H as <-. exact Hp.
    - apply bind_Ok in H. destruct H as (s1 & H1 & H2).
      assert (Hx : In x l) by (apply Hsub; left; reflexivity).
      apply (IH (fun y Hy => Hsub y (or_intror Hy)) s1 s'); [| |exact H2].
      + exact (Hinv x s s1 Hx Hs H1).
      + destruct (Hdec x) as [->|Hne].
        * exact (Hest s s1 Hs H1).
        * exact (Hkeep x s s1 Hx Hne Hs Hp H1). }
  assert (Hgen : forall l', (forall x, In x l' -> In x l) -> In x0 l' ->
            forall s s', Inv s -> foldM f s l' = Ok s' -> Post s').
  { induction l' as [|x l' IH]; intros Hsub Hin s s' Hs H; [destruct Hin|].
    simpl in H. apply bind_Ok in H. destruct H as (s1 & H1 & H2).
    assert (Hx : In x l) by (apply Hsub; left; reflexivity).
    assert (Hs1 : Inv s1) by exact (Hinv x s s1 Hx Hs H1).
    destruct (Hdec x) as [->|Hne].
    - apply (Hboth l' (fun y Hy => Hsub y (or_intror Hy)) s1 s'); [exact Hs1| |exact H2].
      exact (Hest s s1 Hs H1).
    - destruct Hin as [E|Hin]; [congruence|].
      apply (IH (fun y Hy => Hsub y (or_intror Hy)) Hin s1 s'); assumption. }
  intro Hin. apply Hgen; auto.
Qed.

Lemma cell_at_set_cell_same m r c v m' :
  set_cell m r c v = Ok m' -> In c (columns m) ->
  Forall (fun row => length (snd row) = length (columns m)) (rows m) ->
  cell_at m' r c = Some (Num v).
Proof.
  unfold set_cell. intros H Hc Hwf.
  destruct (existsb (String.eqb r) (index m)) eqn:Er; [|discriminate].
  destruct (position_In _ _ Hc) as (j & Ej). rewrite Ej in H. injection H as <-.
  unfold cell_at, loc_rows. cbn [rows columns]. rewrite Ej.
  rewrite (@filter_map_label _ _ (fun l => String.eqb l r))
    by (intros [l row]; simpl; destruct (String.eqb l r); reflexivity).
  apply existsb_exists in Er. destruct Er as (l & Hl & El).
  apply String.eqb_eq in El. subst l.
  destruct (filter (fun r0 => String.eqb (fst r0) r) (rows m)) as [|[l row] rest] eqn:Ef.
  - exfalso. unfold index in Hl. apply in_map_iff in Hl. destruct Hl as ([l row] & E & Hin).
    simpl in E. subst l.
    assert (Hf : In (r, row) (filter (fun r0 => String.eqb (fst r0) r) (rows m))).
    { apply filter_In. split; [exact Hin|]. simpl. apply String.eqb_refl. }
    rewrite Ef in Hf. destruct Hf.
  - assert (Hin : In (l, row) (filter (fun r0 => String.eqb (fst r0) r) (rows m)))
      by (rewrite Ef; left; reflexivity).
    apply filter_In in Hin. destruct Hin as [Hin El]. simpl in El.
    cbn [map fst snd]. rewrite El. cbn [snd].
    apply list_set_nth_error_same.
    rewrite Forall_forall in Hwf. specialize (Hwf _ Hin). cbn [snd] in Hwf.
    rewrite Hwf. apply position_nth in Ej. apply nth_error_Some. congruence.
Qed.

Lemma set_cell_wf m r c v m' :
  set_cell m r c v = Ok m' ->
  Forall (fun row => length (snd row) = length (columns m)) (rows m) ->
  Forall (fun row => length (snd row) = length (columns m')) (rows m').
Proof.
  unfold set_cell. intros H Hwf.
  destruct (existsb (String.eqb r) (index m)); [|discriminate].
  destruct (position c (columns m)) as [j|]; injection H as <-; [|exact Hwf].
  cbn [rows columns]. apply Forall_forall. intros row Hrow.
  apply in_map_iff in Hrow. destruct Hrow as ([l cells] & <- & Hin).
  rewrite Forall_forall in Hwf. specialize (Hwf _ Hin). simpl in *.
  destruct (String.eqb l r); simpl; [rewrite list_set_length|]; exact Hwf.
Qed.

(** ** The fixture of three experts (C1) *)

Lemma default_mf_eq : automf universe default_terms = Ok default_mf.
Proof. vm_compute. reflexivity. Qed.

Lemma default_mf_keys : keys default_mf = default_terms.
Proof. vm_compute. reflexivity. Qed.

Lemma existsb_pos_nth (y : list Q) :
  existsb (fun v => fltb 0 v) y = true -> exists j, 0 < nth j y 0.
Proof.
  intro H. apply existsb_exists in H. destruct H as (v & Hin & Hv).
  apply (In_nth _ _ 0) in Hin. destruct Hin as (j & _ & E).
  exists j. rewrite E. apply fltb_true. exact Hv.
Qed.

Lemma default_mf_good : good_mf default_mf.
Proof.
  pose proof (automf_degrees _ _ default_mf_eq) as Hdeg.
  assert (Hpos : forallb (fun kv : string * list Q => existsb (fun v => fltb 0 v) (snd kv))
                         default_mf = true) by (vm_compute; reflexivity).
  rewrite forallb_forall in Hpos. rewrite Forall_forall in Hdeg.
  apply Forall_forall. intros kv Hkv. split; [apply Hdeg; exact Hkv|].
  apply existsb_pos_nth. apply Hpos. exact Hkv.
Qed.

Lemma sget_keys {V} (d : list (string * V)) k :
  In k (keys d) -> exists y, sget d k = Some y.
Proof.
  unfold keys, sget. induction d as [|[k0 v0] d IH]; simpl; [tauto|].
  destruct (String.eqb_spec k0 k) as [->|Hne]; [eauto|].
  intros [E|H]; [congruence|]. apply IH. exact H.
Qed.

Lemma default_term_served k :
  In k default_terms ->
  quote_free k = true /\ exists y, sget default_mf k = Some y.
Proof.
  intro H. split.
  - assert (Hq : forallb quote_free default_terms = true) by reflexivity.
    rewrite forallb_forall in Hq. apply Hq. exact H.
  - apply sget_keys. rewrite default_mf_keys. exact H.
Qed.

(** *** The tally of validated cells *)

Lemma tally_add_pos t l :
  Forall (fun kc : string * nat => (0 < snd kc)%nat) l ->
  Forall (fun kc : string * nat => (0 < snd kc)%nat) (tally_add t l).
Proof.
  induction l as [|[k c] l IH]; intro H; simpl.
  - repeat constructor.
  - inversion H; subst. simpl in *.
    destruct (String.compare t k); repeat constructor; simpl; auto; lia.
Qed.

Lemma crosstab_valid vals :
  Forall (fun x => valid_cell x = true) vals ->
  exists l, crosstab vals = Ok l /\
    Forall (fun kc : string * nat => (0 < snd kc)%nat /\ In (fst kc) default_terms) l.
Proof.
  intro H.
  assert (Hok : exists l, crosstab vals = Ok l /\
                  Forall (fun kc : string * nat => (0 < snd kc)%nat) l).
  { induction H as [|x vals Hx Hv (l & IH & Hp)]; [exists []; split; [reflexivity|constructor]|].
    destruct x as [|t|q]; simpl in *; [eauto| |discriminate].
    rewrite IH. simpl. eexists. split; [reflexivity|]. apply tally_add_pos. exact Hp. }
  destruct Hok as (l & Hl & Hp). exists l. split; [exact Hl|].
  pose proof (crosstab_keys _ Hl) as Hk.
  rewrite Forall_forall in *. intros kc Hkc. split; [apply Hp; exact Hkc|].
  specialize (Hk _ Hkc). specialize (H _ Hk). cbn [valid_cell] in H.
  apply existsb_exists in H. destruct H as (t & Ht & E).
  apply String.eqb_eq in E. subst t. exact Ht.
Qed.

Lemma of_nat_pos n : (0 < n)%nat -> 0 < of_nat n.
Proof.
  intro H. destruct n as [|n]; [lia|]. rewrite of_nat_S.
  pose proof (of_nat_nonneg n). lra.
Qed.

(** The tally of a pair of validated cells: a dict that the default
    membership functions can serve, with quote-free keys. *)
Lemma tally_valid d flat_data a c vals n :
  select flat_data a c = Ok vals ->
  Forall (fun x => valid_cell x = true) vals ->
  len_keys d = Ok n -> (0 < n)%nat ->
  exists t, tally d flat_data a c = Ok t /\
    served default_mf t /\
    forallb (fun kv => quote_free (fst kv)) t = true.
Proof.
  intros Hs Hv Hn Hpos. unfold tally. rewrite Hs. cbn [bind].
  destruct (crosstab_valid Hv) as (l & Hl & Hp). rewrite Hl. cbn [bind].
  rewrite Hn. cbn [bind]. eexists. split; [reflexivity|].
  rewrite Forall_forall in Hp. split.
  - apply Forall_forall. intros kv Hkv. apply in_map_iff in Hkv.
    destruct Hkv as (kc & <- & Hkc). destruct (Hp _ Hkc) as [Hc Hk]. simpl. split.
    + fnorm. apply Qlt_shift_div_l; [apply of_nat_pos; exact Hpos|].
      pose proof (of_nat_pos Hc). lra.
    + apply default_term_served. exact Hk.
  - apply forallb_forall. intros kv Hkv. apply in_map_iff in Hkv.
    destruct Hkv as (kc & <- & Hkc). destruct (Hp _ Hkc) as [_ Hk]. simpl.
    apply default_term_served. exact Hk.
Qed.

(** *** The run on the fixture *)

Lemma valid_others_cells o :
  valid_others o = true ->
  Forall (fun x => valid_cell x = true)
    [o_aa o; o_ac o; o_ba o; o_bb o; o_bc o; o_ca o; o_cb o; o_cc o].
Proof. intro H. apply Forall_forall. apply forallb_forall. exact H. Qed.

Lemma fixture_select o1 o2 o3 p :
  valid_others o1 = true -> valid_others o2 = true -> valid_others o3 = true ->
  In p (list_prod ["A"; "B"; "C"] ["A"; "B"; "C"]) ->
  exists vals, select (fixture_flat o1 o2 o3) (fst p) (snd p) = Ok vals /\
    Forall (fun x => valid_cell x = true) vals.
Proof.
  intros H1 H2 H3 Hp.
  apply valid_others_cells in H1, H2, H3.
  rewrite Forall_forall in H1, H2, H3.
  assert (V : forall x, In x [Str "H"] -> valid_cell x = true)
    by (intros x [<-|[]]; reflexivity).
  simpl in Hp.
  repeat (destruct Hp as [<-|Hp];
          [eexists; split; [cbn; reflexivity|];
           repeat constructor;
           first [apply H1; simpl; tauto | apply H2; simpl; tauto
                 | apply H3; simpl; tauto | apply V; simpl; tauto]|]).
  destruct Hp.
Qed.

Lemma fixture_step o1 o2 o3 p st :
  valid_others o1 = true -> valid_others o2 = true -> valid_others o3 = true ->
  In p (list_prod ["A"; "B"; "C"] ["A"; "B"; "C"]) ->
  fixture_inv st ->
  exists st', mat_step (fixture o1 o2 o3) (fixture_flat o1 o2 o3) "centroid" st (fst p) (snd p)
              = Ok st' /\ fixture_inv st'.
Proof.
  intros H1 H2 H3 Hp (Hterms & Hidx & Hcols & Hwf).
  destruct (@fixture_select o1 o2 o3 p H1 H2 H3 Hp) as (vals & Hsel & Hval).
  destruct (@tally_valid (fixture o1 o2 o3) _ _ _ vals 3%nat Hsel Hval eq_refl)
    as (t & Ht & Hserved & Hq); [lia|].
  unfold mat_step. rewrite Ht. cbn [bind].
  destruct t as [|kv t]; [exists st; split; [reflexivity|repeat split; assumption]|].
  cbn [length Nat.eqb negb].
  rewrite (@eval_str_dict_roundtrip _ (@tally_nodup _ _ _ _ _ Ht) Hq). cbn [bind].
  destruct st as [self wm]. cbn [fst snd] in *.
  destruct (@infer_ok (fst p) (snd p) (kv :: t)
              (set_expert_data self
                 (dict_set pair_eqb (expert_data self) (fst p, snd p) (kv :: t))) wm)
    as (aggr & wm' & _ & Hset & Hinf).
  - cbn [terms set_expert_data]. rewrite Hterms. apply default_mf_good.
  - cbn [terms set_expert_data]. rewrite Hterms. exact Hserved.
  - discriminate.
  - rewrite Hidx. simpl in Hp. simpl.
    repeat (destruct Hp as [<-|Hp]; [simpl; tauto|]). destruct Hp.
  - rewrite Hinf. eexists. split; [reflexivity|].
    destruct (@set_cell_shape _ _ _ _ _ Hset) as [Hc Hi].
    unfold fixture_inv. cbn [fst snd terms set_aggregated set_expert_data].
    repeat split; try congruence.
    eapply set_cell_wf; eassumption.
Qed.

Lemma fixture_tally_AB o1 o2 o3 :
  tally (fixture o1 o2 o3) (fixture_flat o1 o2 o3) "A" "B" = Ok [("H", 1)].
Proof. reflexivity. Qed.

Lemma activate_H : activate [("H", 1)] default_mf = Ok [("H", mf_H)].
Proof. vm_compute. reflexivity. Qed.

Lemma defuzzify_H : defuzzify universe mf_H "centroid" = Ok weight_H.
Proof. vm_compute. reflexivity. Qed.

(** The step of the pair (A, B) records the activation parameter, the
    membership function of [H] and its centroid. *)
Lemma fixture_step_AB o1 o2 o3 st st' :
  fixture_inv st ->
  mat_step (fixture o1 o2 o3) (fixture_flat o1 o2 o3) "centroid" st "A" "B" = Ok st' ->
  fixture_post st'.
Proof.
  intros (Hterms & Hidx & Hcols & Hwf) H.
  unfold mat_step in H. rewrite fixture_tally_AB in H. cbn [bind length Nat.eqb negb] in H.
  change (py_eval (replace_dquote (str_dict [("H", 1)]))) with (Ok [("H", 1)]) in H.
  cbn [bind] in H. unfold infer in H. cbn [terms set_expert_data] in H.
  rewrite Hterms, activate_H in H. cbn [bind] in H.
  change (aggregate [("H", mf_H)]) with (Ok mf_H) in H. cbn [bind] in H.
  rewrite defuzzify_H in H. cbn [bind] in H.
  apply bind_Ok in H. destruct H as (wm' & Hset & [= <-]).
  unfold fixture_post. cbn [fst snd expert_data aggregated set_aggregated set_expert_data].
  split; [|split].
  - rewrite (@dict_get_set _ _ pair_eqb pair_eqb_eq). reflexivity.
  - rewrite sget_sset, String.eqb_refl. reflexivity.
  - eapply cell_at_set_cell_same; [exact Hset| |exact Hwf].
    rewrite Hcols. simpl. tauto.
Qed.

(** The steps of the other pairs leave those records alone. *)
Lemma fixture_step_other o1 o2 o3 p st st' :
  In p (list_prod ["A"; "B"; "C"] ["A"; "B"; "C"]) -> p <> ("A", "B") ->
  fixture_post st ->
  mat_step (fixture o1 o2 o3) (fixture_flat o1 o2 o3) "centroid" st (fst p) (snd p) = Ok st' ->
  fixture_post st'.
Proof.
  intros Hp Hne (Hed & Hag & Hcell) H.
  destruct (@mat_step_inv _ _ _ _ _ _ _ H) as (t & _ & [[_ ->]|(_ & Hw)]);
    [repeat split; assumption|].
  destruct Hw as (ap & activated & aggr & v & wm' & _ & _ & _ & _ & Hset & ->).
  unfold fixture_post. cbn [fst snd expert_data aggregated set_aggregated set_expert_data].
  assert (Hkey : String.eqb (pair_key (fst p) (snd p)) (pair_key "A" "B") = false).
  { simpl in Hp.
    repeat (destruct Hp as [<-|Hp]; [first [reflexivity|congruence]|]). destruct Hp. }
  split; [|split].
  - rewrite (@dict_get_set _ _ pair_eqb pair_eqb_eq).
    destruct (pair_eqb (fst p, snd p) ("A", "B")) eqn:E; [|exact Hed].
    apply pair_eqb_eq in E. destruct p. simpl in E. congruence.
  - rewrite sget_sset, Hkey. exact Hag.
  - rewrite (@cell_at_set_cell_other _ _ _ _ _ "A" "B" Hset); [exact Hcell|].
    destruct p. simpl. congruence.
Qed.

Section Fixture.
Variable consistency_check : pydata -> string -> result unit.

(** C1.  Three experts over the concepts A, B, C who all assign [H] to the
    pair (A, B): whatever validated terms they put on the other pairs,
    [gen_weights_mat] ends, records the activation parameter [{H: 1.0}] for
    (A, B), stores as aggregated set the membership function of [H], and
    writes into the cell (A, B) the centroid of that function, one positive
    constant of the default ten terms. *)
Theorem fixture_pair_AB (o1 o2 o3 : others) :
  valid_others o1 = true -> valid_others o2 = true -> valid_others o3 = true ->
  automf universe default_terms = Ok default_mf /\
  sget default_mf "H" = Some mf_H /\
  defuzzify universe mf_H "centroid" = Ok weight_H /\
  0 < weight_H /\
  exists self self',
    init (fixture o1 o2 o3) = Ok self /\
    gen_weights_mat consistency_check self PyNone default_terms "centroid" = Ok self' /\
    dict_get pair_eqb (expert_data self') ("A", "B") = Some [("H", 1)] /\
    sget (aggregated self') (pair_key "A" "B") = Some mf_H /\
    cell_at (causal_weights self') "A" "B" = Some (Num weight_H).
Proof.
  intros H1 H2 H3.
  split; [exact default_mf_eq|]. split; [reflexivity|].
  split; [exact defuzzify_H|]. split; [reflexivity|].
  exists (fresh (fixture o1 o2 o3)).
  set (st0 := (set_terms (set_aggregated (set_expert_data (fresh (fixture o1 o2 o3)) []) [])
                 default_mf,
               blank_matrix ["A"; "B"; "C"])).
  assert (Hinv0 : fixture_inv st0).
  { unfold fixture_inv, st0. cbn. repeat split. repeat constructor. }
  destruct (@foldM_total _ _
              (fun st p => mat_step (fixture o1 o2 o3) (fixture_flat o1 o2 o3) "centroid"
                                    st (fst p) (snd p))
              fixture_inv (list_prod ["A"; "B"; "C"] ["A"; "B"; "C"])) with (s := st0)
    as ([self1 wm] & Hloop & Hinv1).
  { intros p st Hp Hst. apply fixture_step; assumption. }
  { exact Hinv0. }
  assert (Hpost : fixture_post (self1, wm)).
  { revert Hloop. apply (@foldM_post _ _ _ fixture_inv fixture_post _ ("A", "B")).
    - intros [a c].
      destruct (string_dec a "A") as [->|Ha]; [|right; congruence].
      destruct (string_dec c "B") as [->|Hc]; [left; reflexivity|right; congruence].
    - intros p st st' Hp Hst Hs.
      destruct (@fixture_step o1 o2 o3 p st H1 H2 H3 Hp Hst) as (st'' & E & Hst'').
      rewrite E in Hs. injection Hs as <-. exact Hst''.
    - intros st st' Hst Hs. eapply fixture_step_AB; eassumption.
    - intros p st st' Hp Hne _ Hpo Hs. eapply fixture_step_other; eassumption.
    - simpl. tauto.
    - exact Hinv0. }
  exists (set_causal_weights self1 (fillna0 wm)).
  split; [reflexivity|]. split.
  - unfold gen_weights_mat, choose_data.
    change (truth (eq_None PyNone)) with (Ok true). cbn [bind].
    change (flatten (data (fresh (fixture o1 o2 o3)))) with (Ok (fixture_flat o1 o2 o3)).
    cbn [bind]. rewrite default_mf_eq. cbn [bind].
    rewrite mat_loop_prod.
    change (unique (index (fixture_flat o1 o2 o3))) with ["A"; "B"; "C"].
    change (columns (fixture_flat o1 o2 o3)) with ["A"; "B"; "C"].
    change (data (fresh (fixture o1 o2 o3))) with (fixture o1 o2 o3).
    fold st0. rewrite Hloop. reflexivity.
  - destruct Hpost as (Hed & Hag & Hcell).
    cbn [expert_data aggregated causal_weights set_causal_weights].
    split; [exact Hed|]. split; [exact Hag|].
    rewrite cell_at_fillna0. cbn [snd] in Hcell. rewrite Hcell. reflexivity.
Qed.
End Fixture.

Lemma fixture_pair_AB_witness :
  automf universe default_terms = Ok default_mf /\
  sget default_mf "H" = Some mf_H /\
  defuzzify universe mf_H "centroid" = Ok weight_H /\
  0 < weight_H /\
  exists self self',
    init (fixture quiet busy busy) = Ok self /\
    gen_weights_mat no_check self PyNone default_terms "centroid" = Ok self' /\
    dict_get pair_eqb (expert_data self') ("A", "B") = Some [("H", 1)] /\
    sget (aggregated self') (pair_key "A" "B") = Some mf_H /\
    cell_at (causal_weights self') "A" "B" = Some (Num weight_H).
Proof.
  apply (@fixture_pair_AB no_check quiet busy busy); reflexivity.
Defined.

(** ** The same judgments in both formats (C2) *)

(** C2, as stated, fails when experts disagree on the sign of a term: the
    same judgments give about 0.17 in the matrix format and about 0.75 in
    the edge list format. *)
Lemma modes_disagree_on_signs :
  exists self_m self_l,
    gen_weights_mat no_check (fresh (matrix_data ["A"; "B"] split_experts)) PyNone
        default_terms "centroid" = Ok self_m /\
    gen_weights_list no_check (fresh (list_data ["A"; "B"] split_experts)) PyNone
        default_terms "centroid" = Ok self_l /\
    cell_at (causal_weights self_m) "A" "B" = Some (Num (750249 # 4333324)) /\
    cell_at (causal_weights self_l) "A" "B" = Some (Num (625206167 # 833331000)) /\
    (750249 # 4333324) + (1 # 2) < (625206167 # 833331000).
Proof.
  destruct (gen_weights_mat no_check (fresh (matrix_data ["A"; "B"] split_experts)) PyNone
              default_terms "centroid") as [self_m|e] eqn:Em.
  2:{ exfalso.
      assert (H : match gen_weights_mat no_check (fresh (matrix_data ["A"; "B"] split_experts))
                          PyNone default_terms "centroid" with
                  | Ok _ => true | Err _ => false end = true) by (vm_compute; reflexivity).
      rewrite Em in H. discriminate. }
  destruct (gen_weights_list no_check (fresh (list_data ["A"; "B"] split_experts)) PyNone
              default_terms "centroid") as [self_l|e] eqn:El.
  2:{ exfalso.
      assert (H : match gen_weights_list no_check (fresh (list_data ["A"; "B"] split_experts))
                          PyNone default_terms "centroid" with
                  | Ok _ => true | Err _ => false end = true) by (vm_compute; reflexivity).
      rewrite El in H. discriminate. }
  exists self_m, self_l. split; [reflexivity|]. split; [reflexivity|].
  assert (Hm : match gen_weights_mat no_check (fresh (matrix_data ["A"; "B"] split_experts))
                       PyNone default_terms "centroid" with
               | Ok s => cell_at (causal_weights s) "A" "B"
               | Err _ => None end = Some (Num (750249 # 4333324)))
    by (vm_compute; reflexivity).
  assert (Hl : match gen_weights_list no_check (fresh (list_data ["A"; "B"] split_experts))
                       PyNone default_terms "centroid" with
               | Ok s => cell_at (causal_weights s) "A" "B"
               | Err _ => None end = Some (Num (625206167 # 833331000)))
    by (vm_compute; reflexivity).
  rewrite Em in Hm. rewrite El in Hl.
  split; [exact Hm|]. split; [exact Hl|]. reflexivity.
Qed.

(** *** Counting the labels of one pair *)

Lemma sorted_above_get (l : list (string * nat)) s :
  Forall (fun q => str_lt s (fst q)) l -> dict_get String.eqb l s = None.
Proof.
  induction 1 as [|[k c] l Hk Hl IH]; [reflexivity|].
  simpl in *. destruct (String.eqb_spec k s) as [->|Hne]; [|exact IH].
  apply str_lt_neq in Hk. congruence.
Qed.

Lemma tally_add_get s l t :
  StronglySorted (@key_lt nat) l ->
  dict_get String.eqb (tally_add s l) t =
  if String.eqb s t then Some (S (count_of s l)) else dict_get String.eqb l t.
Proof.
  induction l as [|[k c] l IH]; intro Hs.
  - reflexivity.
  - inversion Hs as [|? ? Hs' Hf]; subst.
    cbn [tally_add]. destruct (String.compare s k) eqn:E.
    + apply String.compare_eq_iff in E. subst k.
      unfold count_of. simpl. rewrite String.eqb_refl.
      destruct (String.eqb s t); reflexivity.
    + assert (Hnone : dict_get String.eqb ((k, c) :: l) s = None).
      { apply sorted_above_get. constructor; [exact E|].
        eapply Forall_impl; [|exact Hf]. intros q Hq.
        unfold key_lt in Hq. simpl in Hq. eapply str_lt_trans; [exact E|exact Hq]. }
      unfold count_of. rewrite Hnone.
      change (dict_get String.eqb ((s, 1%nat) :: (k, c) :: l) t)
        with (if String.eqb s t then Some 1%nat else dict_get String.eqb ((k, c) :: l) t).
      reflexivity.
    + assert (Hks : String.eqb k s = false).
      { apply String.eqb_neq. apply str_gt_lt in E. apply str_lt_neq in E. exact E. }
      change (dict_get String.eqb ((k, c) :: tally_add s l) t)
        with (if String.eqb k t then Some c else dict_get String.eqb (tally_add s l) t).
      rewrite (IH Hs').
      unfold count_of. simpl. rewrite Hks.
      destruct (String.eqb_spec k t) as [->|Hkt]; [|reflexivity].
      rewrite String.eqb_sym, Hks. reflexivity.
Qed.

(** The cross table holds for every label its number of occurrences. *)
Lemma crosstab_get vals l t :
  crosstab vals = Ok l ->
  dict_get String.eqb l t =
  if Nat.eqb (occ t vals) 0 then None else Some (occ t vals).
Proof.
  revert l. induction vals as [|[|s|q] vals IH]; intros l H; simpl in H.
  - injection H as <-. reflexivity.
  - apply IH. exact H.
  - destruct (crosstab vals) as [l'|] eqn:E; [|discriminate].
    simpl in H. injection H as <-.
    rewrite (@tally_add_get s l' t (@crosstab_sorted _ _ E)).
    unfold occ. cbn [filter is_label].
    destruct (String.eqb_spec s t) as [->|Hne].
    + cbn [length]. unfold count_of. rewrite (IH l' eq_refl). fold (occ t vals).
      destruct (Nat.eqb_spec (occ t vals) 0) as [->|_]; reflexivity.
    + apply (IH l' eq_refl).
  - discriminate.
Qed.

Lemma In_sget_nodup {V} (d : list (string * V)) k v :
  NoDup (keys d) -> (In (k, v) d <-> sget d k = Some v).
Proof.
  intro Hnd. split; [|apply sget_In].
  unfold sget, keys in *. induction d as [|[k0 v0] d IH]; [intros []|].
  simpl in *. inversion Hnd; subst.
  intros [[= -> ->]|Hin].
  - rewrite String.eqb_refl. reflexivity.
  - destruct (String.eqb_spec k0 k) as [->|Hne]; [|apply IH; assumption].
    exfalso. apply H1. apply in_map_iff. exists (k, v). auto.
Qed.

(** The frequencies of the matrix format: the labels that occur, each with
    its share of the experts. *)
Lemma tally_occ d flat_data a c vals n t :
  select flat_data a c = Ok vals -> len_keys d = Ok n ->
  tally d flat_data a c = Ok t ->
  forall k f, In (k, f) t <->
    ((0 < occ k vals)%nat /\ f = fdiv (of_nat (occ k vals)) (of_nat n)).
Proof.
  intros Hs Hn Ht k f.
  rewrite (@In_sget_nodup _ t k f (@tally_nodup _ _ _ _ _ Ht)).
  unfold tally in Ht. rewrite Hs in Ht. cbn [bind] in Ht.
  destruct (crosstab vals) as [l|] eqn:El; [|discriminate].
  cbn [bind] in Ht. rewrite Hn in Ht. cbn [bind] in Ht. injection Ht as <-.
  pose proof (@crosstab_get vals l k El) as Hget.
  assert (Hmap : sget (map (fun kc : string * nat => (fst kc, fdiv (of_nat (snd kc)) (of_nat n))) l) k
                 = option_map (fun c => fdiv (of_nat c) (of_nat n)) (dict_get String.eqb l k)).
  { unfold sget. clear. induction l as [|[k0 c0] l IH]; [reflexivity|].
    simpl. destruct (String.eqb k0 k); [reflexivity|exact IH]. }
  rewrite Hmap, Hget.
  destruct (Nat.eqb_spec (occ k vals) 0) as [E|E]; simpl.
  - split; [discriminate|]. intros [H _]. lia.
  - split.
    + intros [= <-]. split; [lia|reflexivity].
    + intros [_ ->]. reflexivity.
Qed.

(** *** The signed frequencies of the edge list format *)

Lemma minus_neq b : String.eqb b (minus b) = false.
Proof.
  apply String.eqb_neq. intro E. apply (f_equal String.length) in E.
  unfold minus in E. simpl in E. lia.
Qed.

Lemma occ_cons t x vals :
  occ t (x :: vals) = ((if is_label t x then 1 else 0) + occ t vals)%nat.
Proof. unfold occ. simpl. destruct (is_label t x); reflexivity. Qed.

Lemma count_cells_cons x l :
  count_cells (x :: l) =
  ((match x with NaN => 0 | _ => 1 end) + count_cells l)%nat.
Proof. unfold count_cells. destruct x; reflexivity. Qed.

Lemma code_cases b x :
  (is_label b x = true /\ is_label (minus b) x = false /\ code b x = Num 1) \/
  (is_label b x = false /\ is_label (minus b) x = true /\ code b x = Num (-1)) \/
  (is_label b x = false /\ is_label (minus b) x = false /\ code b x = NaN).
Proof.
  destruct x as [|t|q]; cbn [is_label code]; [tauto| |tauto].
  fold (minus b).
  destruct (String.eqb_spec t b) as [->|Hb].
  - rewrite minus_neq. tauto.
  - destruct (String.eqb t (minus b)); tauto.
Qed.

Lemma count_cells_code b vals :
  count_cells (map (code b) vals) = (occ b vals + occ (minus b) vals)%nat.
Proof.
  induction vals as [|x vals IH]; [reflexivity|].
  cbn [map]. rewrite count_cells_cons, !occ_cons, IH.
  destruct (code_cases b x) as [(-> & -> & ->)|[(-> & -> & ->)|(-> & -> & ->)]]; lia.
Qed.

Lemma sum_cells_code b vals :
  exists s, sum_cells (map (code b) vals) = Ok s /\
    s == of_nat (occ b vals) - of_nat (occ (minus b) vals).
Proof.
  induction vals as [|x vals (s & Hs & Es)].
  - exists 0. split; reflexivity.
  - cbn [map]. rewrite !occ_cons.
    destruct (code_cases b x) as [(-> & -> & ->)|[(-> & -> & ->)|(-> & -> & ->)]];
      cbn [sum_cells]; rewrite ?Hs; cbn [bind].
    + eexists. split; [reflexivity|].
      rewrite fadd_eq, Es. change (1 + occ b vals)%nat with (S (occ b vals)).
      rewrite of_nat_S. simpl Nat.add. lra.
    + eexists. split; [reflexivity|].
      rewrite fadd_eq, Es. change (1 + occ (minus b) vals)%nat with (S (occ (minus b) vals)).
      rewrite of_nat_S. simpl Nat.add. lra.
    + exists s. split; [reflexivity|]. simpl Nat.add. exact Es.
Qed.

Lemma Qdiv_pos p q : 0 < p -> 0 < q -> 0 < p / q.
Proof. intros Hp Hq. apply Qlt_shift_div_l; [exact Hq|lra]. Qed.

Lemma signed_freq_code b vals n :
  (0 < n)%nat ->
  occ b vals = O \/ occ (minus b) vals = O ->
  exists v, signed_freq n (map (code b) vals) = Ok v /\ column_case b vals n v.
Proof.
  intros Hn Hsign. unfold signed_freq, mean_cells.
  destruct (sum_cells_code b vals) as (s & Hs & Es). rewrite Hs. cbn [bind].
  rewrite count_cells_code.
  pose proof (of_nat_pos Hn) as Hnq.
  destruct (occ b vals + occ (minus b) vals)%nat as [|m] eqn:Ec.
  - cbn [bind]. exists 0. split; [reflexivity|].
    apply col_unused; [lia|lia|reflexivity].
  - cbn [bind]. eexists. split; [reflexivity|].
    assert (Hm : 0 < of_nat (S m)) by (apply of_nat_pos; lia).
    assert (Eval : fmul (fdiv s (of_nat (S m))) (fdiv (of_nat (S m)) (of_nat n))
                   == s / of_nat n).
    { fnorm. field. split; lra. }
    destruct Hsign as [H0|H0].
    + assert (Hneg : occ (minus b) vals = S m) by lia.
      rewrite H0 in Es. change (of_nat 0) with 0 in Es. rewrite Hneg in Es.
      apply col_minus; [exact H0|lia| |].
      * rewrite Eval, Es. unfold Qdiv.
        setoid_replace ((0 - of_nat (S m)) * / of_nat n)
          with (- (of_nat (S m) * / of_nat n)) by ring.
        pose proof (@Qdiv_pos (of_nat (S m)) (of_nat n) Hm Hnq) as Hp.
        unfold Qdiv in Hp. lra.
      * unfold fmul at 1. rewrite <- Qred_opp. unfold fdiv at 3.
        apply Qred_complete. rewrite Hneg.
        fnorm. rewrite Es. field. split; lra.
    + assert (Hpos : occ b vals = S m) by lia.
      rewrite H0 in Es. change (of_nat 0) with 0 in Es. rewrite Hpos in Es.
      apply col_plus; [lia|exact H0| |].
      * rewrite Eval, Es.
        setoid_replace (of_nat (S m) - 0) with (of_nat (S m)) by ring.
        apply Qdiv_pos; assumption.
      * unfold fmul at 1. unfold fdiv at 3. apply Qred_complete. rewrite Hpos.
        fnorm. rewrite Es. field. split; lra.
Qed.

(** *** Activation parameters of the edge list format *)

Lemma signed_terms_map ts :
  NoDup (map signed_key ts) -> signed_terms ts = map signed_entry ts.
Proof.
  intro H. unfold signed_terms.
  exact (@fold_sset_nodup _ _ signed_key (fun kv => magnitude (snd kv)) ts [] H).
Qed.

Lemma base_keys_nodup ts :
  map fst ts = base_terms -> NoDup (map signed_key ts).
Proof.
  intro H.
  destruct ts as [|[b1 v1] [|[b2 v2] [|[b3 v3] [|[b4 v4] [|[b5 v5] [|? ?]]]]]];
    try discriminate.
  injection H as -> -> -> -> ->.
  unfold signed_key, sign_prefix. cbn [map fst snd].
  destruct (fltb v1 0), (fltb v2 0), (fltb v3 0), (fltb v4 0), (fltb v5 0);
    repeat constructor; simpl; intuition discriminate.
Qed.

Lemma default_terms_split k :
  In k default_terms -> exists b, In b base_terms /\ (k = b \/ k = minus b).
Proof.
  intro H. simpl in H.
  repeat (destruct H as [<-|H];
          [first [exists "VL"; split; [simpl; tauto|]; simpl; tauto
                 |exists "L"; split; [simpl; tauto|]; simpl; tauto
                 |exists "M"; split; [simpl; tauto|]; simpl; tauto
                 |exists "H"; split; [simpl; tauto|]; simpl; tauto
                 |exists "VH"; split; [simpl; tauto|]; simpl; tauto]|]).
  destruct H.
Qed.

Lemma occ_pos_In t vals : (0 < occ t vals)%nat -> In (Str t) vals.
Proof.
  unfold occ. intro H.
  destruct (filter (is_label t) vals) as [|x l] eqn:E; [simpl in H; lia|].
  assert (Hx : In x (filter (is_label t) vals)) by (rewrite E; left; reflexivity).
  apply filter_In in Hx. destruct Hx as [Hin Hl].
  destruct x as [|s|q]; simpl in Hl; try discriminate.
  apply String.eqb_eq in Hl. subst s. exact Hin.
Qed.

Lemma sign_prefix_neg v : v < 0 -> sign_prefix v = "-".
Proof. intro H. unfold sign_prefix. apply fltb_true in H. rewrite H. reflexivity. Qed.

Lemma sign_prefix_nonneg v : 0 <= v -> sign_prefix v = "".
Proof. intro H. unfold sign_prefix. apply fltb_false in H. rewrite H. reflexivity. Qed.

Lemma magnitude_neg v : v < 0 -> magnitude v = - v.
Proof. intro H. unfold magnitude. apply fltb_true in H. rewrite H. reflexivity. Qed.

Lemma magnitude_nonneg_id v : 0 <= v -> magnitude v = v.
Proof. intro H. unfold magnitude. apply fltb_false in H. rewrite H. reflexivity. Qed.

(** Under agreement on the signs, the entry of a term column is unused or
    is the entry of the matrix format for its signed label. *)
Lemma signed_entry_cases b vals n v :
  column_case b vals n v ->
  (occ b vals = O /\ occ (minus b) vals = O /\ signed_entry (b, v) = (b, 0)) \/
  (exists k, (k = b \/ k = minus b) /\ (0 < occ k vals)%nat /\
     signed_entry (b, v) = (k, fdiv (of_nat (occ k vals)) (of_nat n))).
Proof.
  intros [H1 H2 ->|H1 H2 Hv E|H1 H2 Hv E]; unfold signed_entry, signed_key; cbn [fst snd].
  - left. repeat split; auto.
  - right. exists b. split; [auto|]. split; [exact H1|].
    rewrite sign_prefix_nonneg, magnitude_nonneg_id by lra. rewrite <- E. reflexivity.
  - right. exists (minus b). split; [auto|]. split; [exact H2|].
    rewrite sign_prefix_neg, magnitude_neg by exact Hv. rewrite <- E. reflexivity.
Qed.

(** *** The same aggregated set *)

Lemma canonicalb_true q : canonicalb q = true -> canonical q.
Proof.
  unfold canonicalb, canonical. intro H. apply andb_true_iff in H.
  destruct H as [H1 H2]. apply Z.eqb_eq in H1. apply Pos.eqb_eq in H2.
  destruct (Qred q) as [a b], q as [c d]. simpl in *. congruence.
Qed.

Lemma canonical_eq p q : canonical p -> canonical q -> p == q -> p = q.
Proof.
  unfold canonical. intros Hp Hq E. rewrite <- Hp, <- Hq. apply Qred_complete. exact E.
Qed.

Lemma fdiv_canonical p q : canonical (fdiv p q).
Proof. unfold canonical, fdiv. apply Qred_complete, Qred_correct. Qed.

Lemma fmin_canonical f v : canonical f -> canonical v -> canonical (fmin f v).
Proof. intros Hf Hv. destruct (fmin_cases f v) as [->| ->]; assumption. Qed.

Lemma default_mf_canonical :
  Forall (fun kv : string * list Q => Forall canonical (snd kv)) default_mf.
Proof.
  assert (H : forallb (fun kv : string * list Q => forallb canonicalb (snd kv)) default_mf = true)
    by (vm_compute; reflexivity).
  rewrite forallb_forall in H. apply Forall_forall. intros kv Hkv.
  specialize (H kv Hkv). rewrite forallb_forall in H.
  apply Forall_forall. intros v Hv. apply canonicalb_true. apply H. exact Hv.
Qed.

Lemma slookup_sget {V} (d : list (string * V)) k v :
  slookup d k = Ok v -> sget d k = Some v.
Proof.
  unfold slookup, dict_lookup, sget.
  destruct (dict_get String.eqb d k); [intros [= ->]; reflexivity|discriminate].
Qed.

Lemma activate_values ap mf act :
  NoDup (keys ap) -> activate ap mf = Ok act ->
  values act = map (activated_by mf) ap.
Proof.
  intros Hnd H. unfold activate in H.
  assert (Hgen : forall ap d act,
    NoDup (keys d ++ keys ap) ->
    foldM (fun activated (kv : string * Q) =>
             y <- slookup mf (fst kv) ;;
             Ok (sset activated (fst kv) (map (fmin (snd kv)) y))) d ap = Ok act ->
    act = d ++ map (fun kv => (fst kv, activated_by mf kv)) ap).
  { clear. induction ap as [|[k f] ap IH]; intros d act Hnd H.
    - simpl in H. injection H as <-. rewrite app_nil_r. reflexivity.
    - simpl in H. apply bind_Ok in H. destruct H as (d1 & H1 & H2).
      apply bind_Ok in H1. destruct H1 as (y & Hy & [= <-]).
      rewrite sset_fresh in H2.
      2:{ intro Hin. simpl in Hnd. apply NoDup_remove_2 in Hnd. apply Hnd.
          apply in_or_app. left. exact Hin. }
      apply IH in H2.
      + rewrite H2, <- app_assoc. simpl. unfold activated_by, mf_get. simpl.
        rewrite (slookup_sget _ _ Hy). reflexivity.
      + unfold keys in *. rewrite map_app. simpl. rewrite <- app_assoc. exact Hnd. }
  apply Hgen in H; [|exact Hnd]. rewrite H. unfold values. simpl.
  rewrite map_map. reflexivity.
Qed.

Lemma reduce_fmax_spec n (F : list (list Q)) r :
  Forall (fun b => length b = n) F -> reduce fmax_arr F = Ok r ->
  length r = n /\
  forall i, (i < n)%nat ->
    (forall b, In b F -> nth i b 0 <= nth i r 0) /\
    (exists b, In b F /\ nth i r 0 = nth i b 0).
Proof.
  intros HF H. destruct F as [|a l]; [discriminate|].
  inversion HF as [|? ? Ha Hl]; subst. cbn [reduce] in H.
  destruct (@foldM_fmax_arr (length a) l a eq_refl Hl) as (r' & Hr & Hlen & Hi).
  rewrite Hr in H. injection H as <-. auto.
Qed.

(** Two families of activated sets have one aggregated set when the
    second family only adds all-zero sets to the first. *)
Lemma aggregate_same n (FM FL : list (list Q)) rM rL :
  FM <> [] ->
  Forall (fun b => length b = n /\ Forall (fun v => 0 <= v /\ canonical v) b) FL ->
  (forall b, In b FM -> In b FL) ->
  (forall b, In b FL -> In b FM \/ Forall (fun v => v = 0) b) ->
  reduce fmax_arr FM = Ok rM -> reduce fmax_arr FL = Ok rL ->
  rM = rL.
Proof.
  intros Hne HFL Hsub Hsup HM HL.
  rewrite Forall_forall in HFL.
  assert (HFM : Forall (fun b => length b = n) FM).
  { apply Forall_forall. intros b Hb. apply HFL, Hsub, Hb. }
  assert (HFL' : Forall (fun b => length b = n) FL).
  { apply Forall_forall. intros b Hb. apply HFL, Hb. }
  destruct (reduce_fmax_spec HFM HM) as (HlM & HiM).
  destruct (reduce_fmax_spec HFL' HL) as (HlL & HiL).
  assert (Hentry : forall b i, In b FL -> (i < n)%nat ->
                     0 <= nth i b 0 /\ canonical (nth i b 0)).
  { intros b i Hb Hi. destruct (HFL b Hb) as [Hlen Hall].
    rewrite Forall_forall in Hall. apply Hall. apply nth_In. lia. }
  apply (nth_ext _ _ 0 0); [congruence|].
  intros i Hi. rewrite HlM in Hi.
  destruct (HiM i Hi) as [HubM (bM & HbM & EM)].
  destruct (HiL i Hi) as [HubL (bL & HbL & EL)].
  apply canonical_eq.
  - rewrite EM. apply Hentry; auto.
  - rewrite EL. apply Hentry; auto.
  - apply Qle_antisym.
    + rewrite EM. apply HubL. apply Hsub. exact HbM.
    + rewrite EL. destruct (Hsup bL HbL) as [Hin|Hz].
      * apply HubM. exact Hin.
      * assert (E0 : nth i bL 0 = 0).
        { rewrite Forall_forall in Hz. apply Hz. apply nth_In.
          destruct (HFL bL HbL) as [Hlen _]. lia. }
        rewrite E0. rewrite EM. apply Hentry; auto.
Qed.

Lemma mf_get_degrees mf k :
  Forall (fun kv : string * list Q => degrees (length universe) (snd kv)) mf ->
  Forall (fun v => 0 <= v /\ v <= 1) (mf_get mf k).
Proof.
  intro H. unfold mf_get. destruct (sget mf k) as [y|] eqn:E; [|constructor].
  apply sget_In in E. rewrite Forall_forall in H. destruct (H _ E) as [_ Hd]. exact Hd.
Qed.

Lemma activate_canonical ap mf act :
  Forall (fun kv : string * Q => canonical (snd kv)) ap ->
  Forall (fun kv : string * list Q => Forall canonical (snd kv)) mf ->
  activate ap mf = Ok act ->
  Forall (fun kv : string * list Q => Forall canonical (snd kv)) act.
Proof.
  intros Hap Hmf. unfold activate. apply foldM_inv; [|constructor].
  intros [k f] d d' Hin Hd H. apply bind_Ok in H. destruct H as (y & Hy & [= <-]).
  apply sset_forall; [exact Hd|]. simpl in *.
  apply slookup_In in Hy. rewrite Forall_forall in Hmf. specialize (Hmf _ Hy). simpl in Hmf.
  rewrite Forall_forall in Hap. specialize (Hap _ Hin). simpl in Hap.
  apply Forall_forall. intros v Hv. apply in_map_iff in Hv.
  destruct Hv as (w & <- & Hw). rewrite Forall_forall in Hmf.
  apply fmin_canonical; [exact Hap|apply Hmf; exact Hw].
Qed.

Section PairCore.
Variables (vals : list cell) (n : nat) (M ts : list (string * Q)).
Hypothesis Hvalid : Forall (fun x => valid_cell x = true) vals.
Hypothesis Hsign : forall b, In b base_terms -> occ b vals = O \/ occ (minus b) vals = O.
Hypothesis HM : forall k f, In (k, f) M <->
  ((0 < occ k vals)%nat /\ f = fdiv (of_nat (occ k vals)) (of_nat n)).
Hypothesis HMnd : NoDup (keys M).
Hypothesis Hts_keys : map fst ts = base_terms.
Hypothesis Hts : Forall (fun kv => column_case (fst kv) vals n (snd kv)) ts.

Lemma list_ap_eq : signed_terms ts = map signed_entry ts.
Proof. apply signed_terms_map, base_keys_nodup, Hts_keys. Qed.

Lemma ts_base kv : In kv ts -> In (fst kv) base_terms.
Proof. intro H. rewrite <- Hts_keys. apply in_map. exact H. Qed.

Lemma base_ts b : In b base_terms -> exists v, In (b, v) ts.
Proof.
  intro H. rewrite <- Hts_keys in H. apply in_map_iff in H.
  destruct H as ([b' v] & E & Hin). simpl in E. subst b'. eauto.
Qed.

(** Every entry of the matrix format is an entry of the list format. *)
Lemma M_sub_L kv : In kv M -> In kv (signed_terms ts).
Proof.
  destruct kv as [k f]. intro H. apply HM in H. destruct H as [Hocc ->].
  rewrite list_ap_eq.
  assert (Hk : In k default_terms).
  { apply occ_pos_In in Hocc. rewrite Forall_forall in Hvalid.
    specialize (Hvalid _ Hocc). cbn [valid_cell] in Hvalid.
    apply existsb_exists in Hvalid. destruct Hvalid as (t & Ht & E).
    apply String.eqb_eq in E. subst t. exact Ht. }
  destruct (@default_terms_split k Hk) as (b & Hb & Hkb).
  destruct (@base_ts b Hb) as (v & Hin).
  apply in_map_iff. exists (b, v). split; [|exact Hin].
  rewrite Forall_forall in Hts. specialize (Hts _ Hin). cbn [fst snd] in Hts.
  destruct (@signed_entry_cases _ _ _ _ Hts) as [(H1 & H2 & _)|(k' & Hk' & Hocc' & E)].
  - destruct Hkb as [->| ->]; lia.
  - rewrite E. destruct (@Hsign b Hb) as [H0|H0];
      destruct Hkb as [->| ->]; destruct Hk' as [->| ->]; try lia; reflexivity.
Qed.

(** Every entry of the list format is one of the matrix format or has the
    frequency zero. *)
Lemma L_sub_M kv : In kv (signed_terms ts) -> In kv M \/ snd kv = 0.
Proof.
  rewrite list_ap_eq. intro H. apply in_map_iff in H.
  destruct H as ([b v] & <- & Hin).
  rewrite Forall_forall in Hts. specialize (Hts _ Hin). cbn [fst snd] in Hts.
  destruct (@signed_entry_cases _ _ _ _ Hts) as [(_ & _ & ->)|(k & _ & Hocc & ->)].
  - right. reflexivity.
  - left. apply HM. split; [exact Hocc|reflexivity].
Qed.

Lemma L_values kv :
  In kv (signed_terms ts) -> 0 <= snd kv /\ canonical (snd kv).
Proof.
  intro H. destruct (@L_sub_M _ H) as [Hm| ->]; [|split; [lra|reflexivity]].
  destruct kv as [k f]. apply HM in Hm. destruct Hm as [_ ->]. cbn [snd].
  split; [apply fdiv_nonneg; apply of_nat_nonneg|apply fdiv_canonical].
Qed.

(** No term in the matrix format, exactly when the list format holds only
    zero frequencies. *)
Lemma skip_iff :
  (0 < n)%nat ->
  (M = [] <-> forallb (fun x => feqb x 0) (values (signed_terms ts)) = true).
Proof.
  intro Hn. split.
  - intro HMe. apply forallb_forall. intros x Hx. unfold values in Hx.
    apply in_map_iff in Hx. destruct Hx as (kv & <- & Hkv).
    destruct (@L_sub_M _ Hkv) as [Hm| ->]; [rewrite HMe in Hm; destruct Hm|reflexivity].
  - intro Hz.
    assert (Hno : forall kv, In kv M -> False); cycle 1.
    { clear - Hno. destruct M as [|kv M']; [reflexivity|].
      exfalso. apply (Hno kv). left. reflexivity. }
    intros [k f] Hin.
    pose proof (@M_sub_L _ Hin) as HL.
    rewrite forallb_forall in Hz.
    assert (Hf : feqb f 0 = true).
    { apply Hz. unfold values. apply in_map_iff. exists (k, f). auto. }
    apply feqb_true in Hf. apply HM in Hin. destruct Hin as [Hocc E].
    rewrite E, fdiv_eq in Hf.
    pose proof (@Qdiv_pos (of_nat (occ k vals)) (of_nat n) (of_nat_pos Hocc) (of_nat_pos Hn)).
    lra.
Qed.

(** With some term in the matrix format, both formats aggregate to the
    same set. *)
Lemma same_aggregated aM aL rM rL :
  M <> [] ->
  activate M default_mf = Ok aM -> activate (signed_terms ts) default_mf = Ok aL ->
  aggregate aM = Ok rM -> aggregate aL = Ok rL ->
  rM = rL.
Proof.
  intros Hne HaM HaL HrM HrL.
  assert (HLnd : NoDup (keys (signed_terms ts))).
  { rewrite list_ap_eq. unfold keys. rewrite map_map. apply base_keys_nodup, Hts_keys. }
  pose proof (@activate_values _ _ _ HMnd HaM) as EM.
  pose proof (@activate_values _ _ _ HLnd HaL) as EL.
  pose proof default_mf_good as Hgood.
  assert (Hdeg : Forall (fun kv : string * list Q => degrees (length universe) (snd kv)) default_mf).
  { eapply Forall_impl; [|exact Hgood]. intros kv [H _]. exact H. }
  unfold aggregate in HrM, HrL. rewrite EM in HrM. rewrite EL in HrL.
  apply (@aggregate_same (length universe) _ _ rM rL) with (5 := HrM) (6 := HrL).
  - clear - Hne. destruct M; [congruence|discriminate].
  - rewrite <- EL. unfold values. apply Forall_forall. intros b Hb.
    apply in_map_iff in Hb. destruct Hb as (ka & <- & Hka).
    assert (Hnn : Forall (fun kv : string * list Q => nonneg (length universe) (snd kv)) aL).
    { eapply activate_nonneg; [|exact Hdeg|exact HaL].
      apply Forall_forall. intros kv Hkv. apply L_values. exact Hkv. }
    assert (Hcan : Forall (fun kv : string * list Q => Forall canonical (snd kv)) aL).
    { eapply activate_canonical; [|exact default_mf_canonical|exact HaL].
      apply Forall_forall. intros kv Hkv. apply L_values. exact Hkv. }
    rewrite Forall_forall in Hnn, Hcan.
    destruct (Hnn _ Hka) as [Hlen Hpos]. specialize (Hcan _ Hka).
    split; [exact Hlen|].
    rewrite Forall_forall in *. intros v Hv. split; [apply Hpos|apply Hcan]; exact Hv.
  - intros b Hb. apply in_map_iff in Hb. destruct Hb as (kv & <- & Hkv).
    apply in_map. apply M_sub_L. exact Hkv.
  - intros b Hb. apply in_map_iff in Hb. destruct Hb as (kv & <- & Hkv).
    destruct (@L_sub_M _ Hkv) as [Hm|Hz].
    + left. apply in_map. exact Hm.
    + right. unfold activated_by. rewrite Hz.
      apply Forall_forall. intros v Hv. apply in_map_iff in Hv.
      destruct Hv as (w & <- & Hw).
      pose proof (@mf_get_degrees _ (fst kv) Hdeg) as Hd.
      rewrite Forall_forall in Hd. destruct (Hd _ Hw) as [Hw0 _].
      unfold fmin. apply fleb_true in Hw0. rewrite Hw0. reflexivity.
Qed.
End PairCore.

(** *** Tables of one shape, stacked *)

Lemma position_distinct cols k c :
  distinct cols = true -> nth_error cols k = Some c -> position c cols = Some k.
Proof.
  revert k. induction cols as [|c0 cols IH]; intros k Hd H; [destruct k; discriminate|].
  simpl in Hd. apply andb_true_iff in Hd. destruct Hd as [Hc0 Hd].
  destruct k as [|k]; simpl in *.
  - injection H as ->. rewrite String.eqb_refl. reflexivity.
  - destruct (String.eqb_spec c0 c) as [->|Hne].
    + exfalso. apply negb_true_iff in Hc0.
      assert (E : existsb (String.eqb c) cols = true).
      { apply existsb_exists. exists c. split; [|apply String.eqb_refl].
        eapply nth_error_In. exact H. }
      congruence.
    + rewrite (IH k Hd H). reflexivity.
Qed.

(** A row that has one cell per column is aligned to its own columns. *)
Lemma realign_id cols (r : list cell) :
  distinct cols = true -> length r = length cols ->
  map (row_cell cols r) cols = r.
Proof.
  intros Hd Hlen. apply nth_error_ext. intro k.
  rewrite nth_error_map.
  destruct (nth_error cols k) as [c|] eqn:E; simpl.
  - unfold row_cell. rewrite (@position_distinct cols k c Hd E).
    symmetry. apply nth_error_nth'.
    rewrite Hlen. apply nth_error_Some. congruence.
  - symmetry. apply nth_error_None. rewrite Hlen. apply nth_error_None. exact E.
Qed.

Lemma filter_filter {A} (p q : A -> bool) l :
  filter p (filter q l) = filter (fun x => q x && p x) l.
Proof.
  induction l as [|x l IH]; [reflexivity|].
  simpl. destruct (q x); simpl; [destruct (p x); rewrite IH; reflexivity|exact IH].
Qed.

Lemma filter_none {A} (p : A -> bool) l :
  (forall x, In x l -> p x = false) -> filter p l = [].
Proof.
  induction l as [|x l IH]; intro H; [reflexivity|].
  simpl. rewrite (H x (or_introl eq_refl)). apply IH.
  intros y Hy. apply H. right. exact Hy.
Qed.

Lemma filter_all {A} (p : A -> bool) l :
  (forall x, In x l -> p x = true) -> filter p l = l.
Proof.
  induction l as [|x l IH]; intro H; [reflexivity|].
  simpl. rewrite (H x (or_introl eq_refl)). f_equal. apply IH.
  intros y Hy. apply H. right. exact Hy.
Qed.

Lemma unique_app l m :
  unique (l ++ m) =
  unique l ++ filter (fun x => negb (existsb (String.eqb x) l)) (unique m).
Proof.
  induction l as [|a l IH]; simpl.
  - symmetry. apply filter_all. reflexivity.
  - f_equal. rewrite IH, filter_app, filter_filter. f_equal.
    apply filter_ext. intro x.
    rewrite (String.eqb_sym x a).
    destruct (String.eqb a x); simpl;
      [rewrite andb_false_r|rewrite andb_true_r]; reflexivity.
Qed.

Lemma distinct_notin a l :
  existsb (String.eqb a) l = false -> forall x, In x l -> String.eqb a x = false.
Proof.
  intros H x Hx. destruct (String.eqb a x) eqn:E; [|reflexivity].
  assert (existsb (String.eqb a) l = true) by (apply existsb_exists; eauto).
  congruence.
Qed.

Lemma unique_distinct l : distinct l = true -> unique l = l.
Proof.
  induction l as [|a l IH]; intro H; [reflexivity|].
  simpl in *. apply andb_true_iff in H. destruct H as [Ha Hd].
  rewrite (IH Hd). f_equal. apply filter_all.
  intros x Hx. apply negb_true_iff in Ha.
  rewrite (distinct_notin _ _ Ha _ Hx). reflexivity.
Qed.

Lemma unique_absorb l m :
  distinct l = true -> (forall x, In x m -> In x l) -> unique (l ++ m) = l.
Proof.
  intros Hd Hsub. rewrite unique_app, (unique_distinct _ Hd).
  rewrite filter_none; [apply app_nil_r|].
  intros x Hx. apply (proj1 (unique_In x m)) in Hx. apply Hsub in Hx.
  apply negb_false_iff. apply existsb_exists. exists x.
  split; [exact Hx|apply String.eqb_refl].
Qed.

(** Stacking tables that all have the columns [cols] stacks their rows. *)
Lemma concat_same_shape cols frames :
  frames <> [] -> distinct cols = true -> Forall (same_shape cols) frames ->
  concat frames = Ok (mkFrame cols (flat_map rows frames)).
Proof.
  intros Hne Hd Hall. unfold concat.
  destruct frames as [|df frames]; [congruence|].
  generalize dependent (df :: frames). clear df frames. intros frames Hne Hall.
  assert (Hok : forallb frame_ok frames = true).
  { apply forallb_forall. intros f Hf. rewrite Forall_forall in Hall.
    destruct (Hall _ Hf) as [Hc Hr]. unfold frame_ok. rewrite Hc, Hd. simpl.
    apply forallb_forall. intros r Hr'. rewrite Forall_forall in Hr.
    apply Nat.eqb_eq. apply Hr. exact Hr'. }
  rewrite Hok.
  assert (Hcols : unique (flat_map columns frames) = cols).
  { destruct Hall as [|df fs [Hc _] Hrest]; [congruence|]. cbn [flat_map]. rewrite Hc.
    apply unique_absorb; [exact Hd|].
    intros x Hx. apply in_flat_map in Hx. destruct Hx as (f & Hf & Hx).
    rewrite Forall_forall in Hrest. destruct (Hrest _ Hf) as [Hc' _].
    rewrite <- Hc'. exact Hx. }
  rewrite Hcols. f_equal. f_equal.
  clear Hne Hok Hcols. induction Hall as [|f fs [Hc Hr] _ IH]; [reflexivity|].
  cbn [flat_map]. rewrite IH. f_equal. rewrite Hc.
  rewrite <- (map_id (rows f)) at 2. apply map_ext_in.
  intros [l r] Hin. simpl. f_equal. apply realign_id; [exact Hd|].
  rewrite Forall_forall in Hr. apply (Hr _ Hin).
Qed.

(** *** The judgments in the matrix format *)

Lemma flat_map_map {A B C} (f : B -> list C) (g : A -> B) l :
  flat_map f (map g l) = flat_map (fun x => f (g x)) l.
Proof. induction l as [|x l IH]; simpl; [|rewrite IH]; reflexivity. Qed.

Lemma flat_map_single {A B} (g : A -> B) l :
  flat_map (fun x => [g x]) l = map g l.
Proof. induction l as [|x l IH]; simpl; [|rewrite IH]; reflexivity. Qed.

Lemma filter_flat_map {A B} (p : B -> bool) (f : A -> list B) l :
  filter p (flat_map f l) = flat_map (fun x => filter p (f x)) l.
Proof.
  induction l as [|x l IH]; simpl; [reflexivity|].
  rewrite filter_app, IH. reflexivity.
Qed.

Lemma map_flat_map {A B C} (g : B -> C) (f : A -> list B) l :
  map g (flat_map f l) = flat_map (fun x => map g (f x)) l.
Proof.
  induction l as [|x l IH]; simpl; [reflexivity|].
  rewrite map_app, IH. reflexivity.
Qed.

Lemma values_tables {A} (F : string * A -> DataFrame) (experts : list (string * A)) :
  values (map (fun e => (fst e, F e)) experts) = map F experts.
Proof. unfold values. rewrite map_map. reflexivity. Qed.

Lemma flatten_matrix_data concepts experts :
  experts <> [] -> distinct concepts = true ->
  flatten (matrix_data concepts experts) = Ok (matrix_flat concepts experts).
Proof.
  intros Hne Hd. unfold flatten, matrix_data.
  rewrite (@values_tables _ (fun e => matrix_table concepts (snd e))).
  rewrite (@concat_same_shape concepts).
  - unfold matrix_flat. rewrite flat_map_map. reflexivity.
  - destruct experts; [congruence|discriminate].
  - exact Hd.
  - apply Forall_forall. intros df Hdf. apply in_map_iff in Hdf.
    destruct Hdf as (e & <- & _). split; [reflexivity|].
    apply Forall_forall. intros r Hr. cbn [matrix_table rows] in Hr.
    apply in_map_iff in Hr. destruct Hr as (a & <- & _).
    cbn [snd]. apply length_map.
Qed.

Lemma flatten_list_data concepts experts :
  experts <> [] ->
  flatten (list_data concepts experts) = Ok (list_flat concepts experts).
Proof.
  intros Hne. unfold flatten, list_data.
  rewrite (@values_tables _ (fun e => list_table concepts (snd e))).
  rewrite (@concat_same_shape list_columns).
  - unfold list_flat. rewrite flat_map_map. reflexivity.
  - destruct experts; [congruence|discriminate].
  - reflexivity.
  - apply Forall_forall. intros df Hdf. apply in_map_iff in Hdf.
    destruct Hdf as (e & <- & _). split; [reflexivity|].
    apply Forall_forall. intros r Hr. cbn [list_table rows] in Hr.
    apply in_map_iff in Hr. destruct Hr as (ip & <- & _).
    reflexivity.
Qed.

Lemma filter_key_single {A} (F : string -> A) concepts a :
  distinct concepts = true -> In a concepts ->
  filter (fun r : string * A => String.eqb (fst r) a) (map (fun x => (x, F x)) concepts)
  = [(a, F a)].
Proof.
  induction concepts as [|x l IH]; intros Hd Ha; [destruct Ha|].
  simpl in Hd. apply andb_true_iff in Hd. destruct Hd as [Hx Hd].
  apply negb_true_iff in Hx. cbn [map filter fst].
  destruct (String.eqb_spec x a) as [->|Hne].
  - f_equal. apply filter_none. intros r Hr. apply in_map_iff in Hr.
    destruct Hr as (y & <- & Hy). cbn [fst]. rewrite String.eqb_sym.
    apply (distinct_notin _ _ Hx _ Hy).
  - apply IH; [exact Hd|]. destruct Ha as [E|Ha]; [congruence|exact Ha].
Qed.

Lemma row_cell_map (F : string -> cell) concepts c :
  In c concepts -> row_cell concepts (map F concepts) c = F c.
Proof.
  intro Hc. unfold row_cell. destruct (position_In _ _ Hc) as (j & Ej). rewrite Ej.
  apply position_nth in Ej. apply nth_error_nth.
  rewrite nth_error_map, Ej. reflexivity.
Qed.

Lemma loc_rows_matrix concepts experts a :
  distinct concepts = true -> In a concepts ->
  loc_rows (matrix_flat concepts experts) a
  = map (fun e : string * judgment => map (snd e a) concepts) experts.
Proof.
  intros Hd Ha. unfold loc_rows, matrix_flat. cbn [rows matrix_table].
  rewrite filter_flat_map, map_flat_map.
  rewrite <- flat_map_single. apply flat_map_ext. intro e.
  rewrite (@filter_key_single _ (fun x => map (snd e x) concepts) concepts a Hd Ha).
  reflexivity.
Qed.

(** The cells selected for a pair are the answers of the experts. *)
Lemma select_matrix concepts experts a c vals :
  distinct concepts = true -> In a concepts -> In c concepts ->
  select (matrix_flat concepts experts) a c = Ok vals ->
  vals = answers experts a c.
Proof.
  intros Hd Ha Hc. unfold select. rewrite (@loc_rows_matrix concepts experts a Hd Ha).
  assert (E : map (fun r => row_cell (columns (matrix_flat concepts experts)) r c)
                  (map (fun e : string * judgment => map (snd e a) concepts) experts)
              = answers experts a c).
  { rewrite map_map. apply map_ext. intro e. cbn [matrix_flat columns].
    apply row_cell_map. exact Hc. }
  destruct experts as [|e1 [|e2 experts]]; cbn [map].
  - discriminate.
  - destruct (row_cell _ _ _); discriminate.
  - intros [= <-]. exact E.
Qed.

Lemma select_matrix_ok concepts experts a c :
  distinct concepts = true -> In a concepts -> In c concepts ->
  (2 <= length experts)%nat ->
  select (matrix_flat concepts experts) a c = Ok (answers experts a c).
Proof.
  intros Hd Ha Hc Hn. unfold select. rewrite (@loc_rows_matrix concepts experts a Hd Ha).
  assert (E : map (fun r => row_cell (columns (matrix_flat concepts experts)) r c)
                  (map (fun e : string * judgment => map (snd e a) concepts) experts)
              = answers experts a c).
  { rewrite map_map. apply map_ext. intro e. cbn [matrix_flat columns].
    apply row_cell_map. exact Hc. }
  destruct experts as [|e1 [|e2 experts]]; cbn [map length] in *; try lia.
  f_equal. exact E.
Qed.

(** *** The judgments in the edge list format *)

Lemma mapM_map {A B} (f : A -> result B) (g : A -> B) l :
  (forall x, In x l -> f x = Ok (g x)) -> mapM f l = Ok (map g l).
Proof.
  induction l as [|x l IH]; intro H; [reflexivity|].
  simpl. rewrite (H x (or_introl eq_refl)). cbn [bind].
  rewrite IH; [reflexivity|]. intros y Hy. apply H. right. exact Hy.
Qed.

Lemma mapM_Forall2 {A B} (f : A -> result B) l r :
  mapM f l = Ok r -> Forall2 (fun x y => f x = Ok y) l r.
Proof.
  revert r. induction l as [|x l IH]; intros r H; simpl in H.
  - injection H as <-. constructor.
  - apply bind_Ok in H. destruct H as (b & Hb & H).
    apply bind_Ok in H. destruct H as (bs & Hbs & [= <-]).
    constructor; [exact Hb|apply IH; exact Hbs].
Qed.

Lemma zip_map_self {A B} (g : A -> B) l :
  zip l (map g l) = map (fun x => (x, g x)) l.
Proof. induction l as [|x l IH]; simpl; [|rewrite IH]; reflexivity. Qed.

Lemma zip_map_snd {A B} (l : list A) (m : list B) :
  length l = length m -> map snd (zip l m) = m.
Proof.
  revert m. induction l as [|a l IH]; intros [|b m] H; simpl in *; try lia; auto.
  rewrite IH; [reflexivity|lia].
Qed.

Lemma filter_map_swap {A B} (p : B -> bool) (f : A -> B) l :
  filter p (map f l) = map f (filter (fun x => p (f x)) l).
Proof.
  induction l as [|x l IH]; simpl; [reflexivity|].
  destruct (p (f x)); simpl; rewrite IH; reflexivity.
Qed.

Lemma list_flat_row concepts experts r :
  In r (rows (list_flat concepts experts)) ->
  exists e p, In e experts /\ In p (list_prod concepts concepts) /\
              snd r = list_row (snd e) p.
Proof.
  unfold list_flat. cbn [rows list_table]. intro H.
  apply in_flat_map in H. destruct H as (e & He & H).
  apply in_map_iff in H. destruct H as ([i p] & <- & Hip).
  exists e, p. split; [exact He|]. split; [|reflexivity].
  assert (Hin : In (snd (i, p)) (map snd (zip (seq 0 (length (list_prod concepts concepts)))
                                             (list_prod concepts concepts))))
    by (apply in_map; exact Hip).
  rewrite zip_map_snd in Hin by apply length_seq. exact Hin.
Qed.

Lemma pair_of_list_row j p : pair_of (list_row j p) = p.
Proof. destruct p. reflexivity. Qed.

Lemma row_pair_list concepts experts r :
  In r (rows (list_flat concepts experts)) ->
  row_pair (list_flat concepts experts) (snd r) = Ok (pair_of (snd r)).
Proof.
  intro H. destruct (list_flat_row _ _ _ H) as (e & [a c] & _ & _ & ->). reflexivity.
Qed.

Lemma label_cell_list concepts experts r :
  In r (rows (list_flat concepts experts)) ->
  label_cell (list_flat concepts experts) "From" (snd r) = Ok (fst (pair_of (snd r))).
Proof.
  intro H. destruct (list_flat_row _ _ _ H) as (e & [a c] & _ & _ & ->). reflexivity.
Qed.

Lemma list_pairs_ok concepts experts :
  mapM (fun r => row_pair (list_flat concepts experts) (snd r))
       (rows (list_flat concepts experts))
  = Ok (list_pairs concepts experts).
Proof. apply mapM_map. intros r Hr. apply row_pair_list. exact Hr. Qed.

Lemma column_labels_list concepts experts :
  column_labels (list_flat concepts experts) "From"
  = Ok (map fst (list_pairs concepts experts)).
Proof.
  unfold column_labels, list_pairs. rewrite map_map.
  apply mapM_map. intros r Hr. apply label_cell_list. exact Hr.
Qed.

Lemma in_list_pairs concepts experts a c :
  experts <> [] -> In a concepts -> In c concepts ->
  In (a, c) (list_pairs concepts experts).
Proof.
  intros Hne Ha Hc. destruct experts as [|e experts]; [congruence|].
  unfold list_pairs, list_flat. cbn [rows flat_map list_table].
  rewrite map_app. apply in_or_app. left.
  rewrite map_map. cbn [snd].
  rewrite (map_ext _ (fun ip => snd ip)) by (intros [i p]; apply pair_of_list_row).
  rewrite zip_map_snd by apply length_seq.
  apply in_prod; assumption.
Qed.

Lemma list_pairs_in concepts experts p :
  In p (list_pairs concepts experts) -> In (fst p) concepts /\ In (snd p) concepts.
Proof.
  unfold list_pairs. intro H. apply in_map_iff in H. destruct H as (r & <- & Hr).
  destruct (list_flat_row _ _ _ Hr) as (e & [a c] & _ & Hp & ->).
  rewrite pair_of_list_row. apply in_prod_iff in Hp. exact Hp.
Qed.

(** *** The keys of the groups *)

Lemma pair_compare_eq p q : pair_compare p q = Eq -> p = q.
Proof.
  destruct p as [a b], q as [a' b']. unfold pair_compare. cbn [fst snd].
  destruct (String.compare a a') eqn:E; try discriminate.
  intro H. apply String.compare_eq_iff in E, H. congruence.
Qed.

Lemma insert_pair_In p l x : In x (insert_pair p l) <-> x = p \/ In x l.
Proof.
  induction l as [|q l IH]; simpl; [intuition congruence|].
  destruct (pair_compare p q) eqn:E; simpl.
  - apply pair_compare_eq in E. subst q. intuition congruence.
  - intuition congruence.
  - rewrite IH. intuition congruence.
Qed.

Lemma group_keys_In pairs x : In x (group_keys pairs) <-> In x pairs.
Proof.
  unfold group_keys. induction pairs as [|p pairs IH]; simpl; [tauto|].
  rewrite insert_pair_In, IH. intuition congruence.
Qed.

(** *** The groups of the edge list *)

Lemma filter_pair_row x l' a c :
  distinct l' = true -> In c l' ->
  filter (fun q => pair_eqb q (a, c)) (map (pair x) l')
  = if String.eqb x a then [(a, c)] else [].
Proof.
  intros Hd Hc. destruct (String.eqb_spec x a) as [->|Hne].
  - induction l' as [|y l' IH]; [destruct Hc|].
    simpl in Hd. apply andb_true_iff in Hd. destruct Hd as [Hy Hd].
    apply negb_true_iff in Hy. cbn [map filter]. unfold pair_eqb at 1. cbn [fst snd].
    rewrite String.eqb_refl. cbn [andb].
    destruct (String.eqb_spec y c) as [->|Hyc].
    + f_equal. apply filter_none. intros q Hq. apply in_map_iff in Hq.
      destruct Hq as (z & <- & Hz). unfold pair_eqb. cbn [fst snd].
      rewrite String.eqb_refl. cbn [andb]. rewrite String.eqb_sym.
      apply (distinct_notin _ _ Hy _ Hz).
    + apply IH; [exact Hd|]. destruct Hc as [E|Hc]; [congruence|exact Hc].
  - apply filter_none. intros q Hq. apply in_map_iff in Hq.
    destruct Hq as (z & <- & Hz). unfold pair_eqb. cbn [fst snd].
    destruct (String.eqb_spec x a); [congruence|reflexivity].
Qed.

Lemma flat_map_nil {A B} (f : A -> list B) l :
  (forall x, In x l -> f x = []) -> flat_map f l = [].
Proof.
  induction l as [|x l IH]; intro H; [reflexivity|].
  simpl. rewrite (H x (or_introl eq_refl)). apply IH.
  intros y Hy. apply H. right. exact Hy.
Qed.

(** A pair of concepts occurs once among the ordered pairs. *)
Lemma filter_pair_prod l l' a c :
  distinct l = true -> distinct l' = true -> In a l -> In c l' ->
  filter (fun q => pair_eqb q (a, c)) (list_prod l l') = [(a, c)].
Proof.
  intros Hd Hd' Ha Hc. rewrite list_prod_as_flat_map, filter_flat_map.
  rewrite (flat_map_ext _ (fun x => if String.eqb x a then [(a, c)] else []))
    by (intro x; apply filter_pair_row; assumption).
  clear Hd' Hc. induction l as [|x l IH]; [destruct Ha|].
  simpl in Hd. apply andb_true_iff in Hd. destruct Hd as [Hx Hd].
  apply negb_true_iff in Hx. cbn [flat_map].
  destruct (String.eqb_spec x a) as [->|Hne].
  - cbn [app]. f_equal.
    apply flat_map_nil.
    intros y Hy. rewrite String.eqb_sym. rewrite (distinct_notin _ _ Hx _ Hy). reflexivity.
  - cbn [app]. apply IH; [exact Hd|]. destruct Ha as [E|Ha]; [congruence|exact Ha].
Qed.

Lemma list_row_cell j p b :
  In b base_terms ->
  row_cell list_columns (list_row j p) b = code b (j (fst p) (snd p)).
Proof.
  intro H. simpl in H.
  repeat (destruct H as [<-|H]; [reflexivity|]). destruct H.
Qed.

(** The cells of a term column in the group of a pair are the codes of
    the answers of the experts. *)
Lemma group_cells_list concepts experts a c b :
  distinct concepts = true -> In a concepts -> In c concepts -> In b base_terms ->
  group_cells (list_flat concepts experts) (list_pairs concepts experts) (a, c) b
  = map (code b) (answers experts a c).
Proof.
  intros Hd Ha Hc Hb. unfold group_cells, list_pairs.
  rewrite zip_map_self, filter_map_swap, map_map. cbn [fst snd].
  unfold list_flat at 1 2. cbn [rows columns].
  rewrite filter_flat_map, map_flat_map.
  unfold answers. rewrite (map_map (fun e : string * judgment => snd e a c) (code b)).
  rewrite <- flat_map_single. apply flat_map_ext. intro e.
  cbn [list_table rows].
  rewrite filter_map_swap, map_map. cbn [snd].
  rewrite (filter_ext _ (fun ip => pair_eqb (snd ip) (a, c)))
    by (intros [i p]; cbn [snd]; rewrite pair_of_list_row; reflexivity).
  rewrite <- (map_map snd (fun p => row_cell list_columns (list_row (snd e) p) b)).
  rewrite <- (filter_map_swap (fun q => pair_eqb q (a, c)) snd).
  rewrite zip_map_snd by apply length_seq.
  rewrite (@filter_pair_prod concepts concepts a c Hd Hd Ha Hc). cbn [map].
  rewrite (@list_row_cell (snd e) (a, c) b Hb). reflexivity.
Qed.

(** *** The weight of one pair *)

Lemma pair_dec (p q : string * string) : p = q \/ p <> q.
Proof.
  destruct p as [a c], q as [a' c'].
  destruct (string_dec a a') as [->|Ha]; [|right; congruence].
  destruct (string_dec c c') as [->|Hc]; [left; reflexivity|right; congruence].
Qed.

Lemma mat_step_loop_inv d flat_data method mf cols st a c st' :
  loop_inv mf cols st ->
  mat_step d flat_data method st a c = Ok st' -> loop_inv mf cols st'.
Proof.
  intros (Ht & Hc & Hwf) H.
  destruct (@mat_step_inv _ _ _ _ _ _ _ H) as (t & _ & [[_ ->]|(_ & Hw)]);
    [repeat split; assumption|].
  destruct Hw as (ap & activated & aggr & v & wm' & _ & _ & _ & _ & Hset & ->).
  destruct (@set_cell_shape _ _ _ _ _ Hset) as [Hc' _].
  unfold loop_inv. cbn [fst snd terms set_aggregated set_expert_data].
  split; [exact Ht|]. split; [congruence|].
  exact (@set_cell_wf _ _ _ _ _ Hset Hwf).
Qed.

(** The cell of a pair after the matrix loop: still missing when the
    tally of the pair is empty, and the weight of the tally otherwise. *)
Lemma mat_loop_cell d flat_data method mf cols st0 st' a c t :
  mat_loop d flat_data method st0 = Ok st' ->
  In a (columns flat_data) -> In c (columns flat_data) ->
  tally d flat_data a c = Ok t ->
  py_eval (replace_dquote (str_dict t)) = Ok t ->
  loop_inv mf cols st0 -> In c cols ->
  cell_at (snd st0) a c = Some NaN ->
  (t = [] /\ cell_at (snd st') a c = Some NaN) \/
  (t <> [] /\ exists w, pair_weight method mf t w /\
                        cell_at (snd st') a c = Some (Num w)).
Proof.
  intros Hloop Ha Hc Ht Hev Hinv Hcc Hcell.
  destruct t as [|kv t].
  - left. split; [reflexivity|].
    revert Hcell. revert Hloop. revert st0 st' Hinv.
    intros st0 st' _ Hloop Hcell. revert st0 st' Hcell Hloop.
    apply mat_loop_inv.
    intros a' c' st st1 _ _ Hcell Hstep.
    destruct (@mat_step_inv _ _ _ _ _ _ _ Hstep) as (t' & Htal & [[_ ->]|(Hne & Hw)]);
      [exact Hcell|].
    destruct Hw as (ap & activated & aggr & v & wm' & _ & _ & _ & _ & Hset & ->).
    cbn [snd]. rewrite (@cell_at_set_cell_other _ _ _ _ _ a c Hset); [exact Hcell|].
    intros [= <- <-]. rewrite Ht in Htal. injection Htal as <-. congruence.
  - right. split; [discriminate|].
    rewrite mat_loop_prod in Hloop. revert Hloop.
    apply (@foldM_post _ _ _ (loop_inv mf cols)
             (fun st => exists w, pair_weight method mf (kv :: t) w /\
                                  cell_at (snd st) a c = Some (Num w))
             _ (a, c)).
    + intro p. apply pair_dec.
    + intros p st st1 _ Hst Hstep. exact (@mat_step_loop_inv _ _ _ _ _ _ _ _ _ Hst Hstep).
    + intros st st1 (Hterms & Hcols & Hwf) Hstep. cbn [fst snd] in Hstep.
      destruct (@mat_step_inv _ _ _ _ _ _ _ Hstep) as (t' & Htal & [[E _]|(_ & Hw)]).
      * rewrite Ht in Htal. injection Htal as <-. discriminate.
      * rewrite Ht in Htal. injection Htal as <-.
        destruct Hw as (ap & activated & aggr & v & wm' & Hap & Hact & Hagg & Hv & Hset & ->).
        rewrite Hev in Hap. injection Hap as <-.
        exists v. split.
        -- exists activated, aggr. rewrite <- Hterms. auto.
        -- cbn [snd]. apply (@cell_at_set_cell_same _ _ _ _ _ Hset); [|exact Hwf].
           rewrite Hcols. exact Hcc.
    + intros p st st1 _ Hne _ (w & Hw & Hcell') Hstep.
      destruct (@mat_step_inv _ _ _ _ _ _ _ Hstep) as (t' & _ & [[_ ->]|(_ & Hw')]);
        [eauto|].
      destruct Hw' as (ap & activated & aggr & v & wm' & _ & _ & _ & _ & Hset & ->).
      exists w. split; [exact Hw|]. cbn [snd].
      rewrite (@cell_at_set_cell_other _ _ _ _ _ a c Hset); [exact Hcell'|].
      destruct p. cbn [fst snd]. congruence.
    + apply in_prod; assumption.
    + exact Hinv.
Qed.

(** What a step of the edge list loop that ends has done. *)
Lemma list_step_inv method finals st p st' :
  list_step method finals st p = Ok st' ->
  exists ts, dict_lookup pair_eqb finals p = Ok ts /\
    let ap := signed_terms ts in
    let self := set_expert_data (fst st) (dict_set pair_eqb (expert_data (fst st)) p ap) in
    ((forallb (fun x => feqb x 0) (values ap) = true /\ st' = (self, snd st)) \/
     (forallb (fun x => feqb x 0) (values ap) = false /\
      exists activated aggr v wm,
        activate ap (terms (fst st)) = Ok activated /\
        aggregate activated = Ok aggr /\
        defuzzify universe aggr method = Ok v /\
        set_cell (snd st) (fst p) (snd p) v = Ok wm /\
        st' = (set_aggregated self (sset (aggregated (fst st)) (pair_key (fst p) (snd p)) aggr),
               wm))).
Proof.
  unfold list_step. intro H.
  apply bind_Ok in H. destruct H as (ts & Hts & H).
  exists ts. split; [exact Hts|]. cbn zeta.
  destruct (forallb (fun x => feqb x 0) (values (signed_terms ts))).
  - left. cbn [negb] in H. injection H as <-. auto.
  - right. split; [reflexivity|]. cbn [negb] in H.
    unfold infer in H.
    apply bind_Ok in H. destruct H as (activated & Hact & H).
    apply bind_Ok in H. destruct H as (aggr & Hagg & H).
    apply bind_Ok in H. destruct H as (v & Hv & H).
    apply bind_Ok in H. destruct H as (wm & Hwm & H).
    injection H as <-.
    exists activated, aggr, v, wm. cbn in *. auto 10.
Qed.

Lemma list_step_loop_inv method finals mf cols st p st' :
  loop_inv mf cols st ->
  list_step method finals st p = Ok st' -> loop_inv mf cols st'.
Proof.
  intros (Ht & Hc & Hwf) H.
  destruct (@list_step_inv _ _ _ _ _ H) as (ts & _ & [[_ ->]|(_ & Hw)]);
    [repeat split; assumption|].
  destruct Hw as (activated & aggr & v & wm' & _ & _ & _ & Hset & ->).
  destruct (@set_cell_shape _ _ _ _ _ Hset) as [Hc' _].
  unfold loop_inv. cbn [fst snd terms set_aggregated set_expert_data].
  split; [exact Ht|]. split; [congruence|].
  exact (@set_cell_wf _ _ _ _ _ Hset Hwf).
Qed.

(** The cell of a pair after the edge list loop: still missing when all
    frequencies of the pair are zero, and the weight of its signed terms
    otherwise. *)
Lemma list_loop_cell method finals mf cols st0 st' index_ a c ts :
  foldM (list_step method finals) st0 index_ = Ok st' ->
  In (a, c) index_ ->
  dict_lookup pair_eqb finals (a, c) = Ok ts ->
  loop_inv mf cols st0 -> In c cols ->
  cell_at (snd st0) a c = Some NaN ->
  (forallb (fun x => feqb x 0) (values (signed_terms ts)) = true /\
   cell_at (snd st') a c = Some NaN) \/
  (forallb (fun x => feqb x 0) (values (signed_terms ts)) = false /\
   exists w, pair_weight method mf (signed_terms ts) w /\
             cell_at (snd st') a c = Some (Num w)).
Proof.
  intros Hloop Hin Hts Hinv Hcc Hcell.
  destruct (forallb (fun x => feqb x 0) (values (signed_terms ts))) eqn:Ez.
  - left. split; [reflexivity|].
    revert st0 st' Hinv Hloop Hcell. intros st0 st' _ Hloop Hcell.
    revert st0 st' Hcell Hloop. apply foldM_inv.
    intros p st st1 _ Hcell Hstep.
    destruct (@list_step_inv _ _ _ _ _ Hstep) as (ts' & Hts' & [[_ ->]|(Hnz & Hw)]);
      [exact Hcell|].
    destruct Hw as (activated & aggr & v & wm' & _ & _ & _ & Hset & ->).
    cbn [snd]. rewrite (@cell_at_set_cell_other _ _ _ _ _ a c Hset); [exact Hcell|].
    intro E. destruct p as [a' c']. cbn [fst snd] in E. injection E as <- <-.
    rewrite Hts in Hts'. injection Hts' as <-. congruence.
  - right. split; [reflexivity|].
    revert Hloop.
    apply (@foldM_post _ _ _ (loop_inv mf cols)
             (fun st => exists w, pair_weight method mf (signed_terms ts) w /\
                                  cell_at (snd st) a c = Some (Num w))
             _ (a, c)).
    + intro p. apply pair_dec.
    + intros p st st1 _ Hst Hstep. exact (@list_step_loop_inv _ _ _ _ _ _ _ Hst Hstep).
    + intros st st1 (Hterms & Hcols & Hwf) Hstep.
      destruct (@list_step_inv _ _ _ _ _ Hstep) as (ts' & Hts' & [[E _]|(_ & Hw)]).
      * rewrite Hts in Hts'. injection Hts' as <-. congruence.
      * rewrite Hts in Hts'. injection Hts' as <-.
        destruct Hw as (activated & aggr & v & wm' & Hact & Hagg & Hv & Hset & ->).
        exists v. split.
        -- exists activated, aggr. rewrite <- Hterms. auto.
        -- cbn [snd fst] in *. apply (@cell_at_set_cell_same _ _ _ _ _ Hset); [|exact Hwf].
           rewrite Hcols. exact Hcc.
    + intros p st st1 _ Hne _ (w & Hw & Hcell') Hstep.
      destruct (@list_step_inv _ _ _ _ _ Hstep) as (ts' & _ & [[_ ->]|(_ & Hw')]);
        [eauto|].
      destruct Hw' as (activated & aggr & v & wm' & _ & _ & _ & Hset & ->).
      exists w. split; [exact Hw|]. cbn [snd].
      rewrite (@cell_at_set_cell_other _ _ _ _ _ a c Hset); [exact Hcell'|].
      destruct p. cbn [fst snd]. congruence.
    + exact Hin.
    + exact Hinv.
Qed.

(** *** The term sets of the edge list *)

Lemma one_sign_occ vals b :
  one_sign vals = true -> In b base_terms ->
  occ b vals = O \/ occ (minus b) vals = O.
Proof.
  unfold one_sign. rewrite forallb_forall. intros H Hb.
  specialize (H b Hb). apply orb_true_iff in H.
  destruct H as [H|H]; apply Nat.eqb_eq in H; auto.
Qed.

Lemma term_set_list concepts experts a c :
  distinct concepts = true -> In a concepts -> In c concepts -> experts <> [] ->
  one_sign (answers experts a c) = true ->
  exists ts,
    term_set (list_data concepts experts) (list_flat concepts experts)
             (list_pairs concepts experts) (a, c) = Ok ts /\
    map fst ts = base_terms /\
    Forall (fun kv => column_case (fst kv) (answers experts a c) (length experts) (snd kv)) ts.
Proof.
  intros Hd Ha Hc Hne Hs.
  assert (Hn : (0 < length experts)%nat) by (destruct experts; [congruence|simpl; lia]).
  set (G := fun b => match signed_freq (length experts) (map (code b) (answers experts a c)) with
                     | Ok v => v
                     | Err _ => 0
                     end).
  assert (HG : forall b, In b base_terms ->
             signed_freq (length experts) (map (code b) (answers experts a c)) = Ok (G b) /\
             column_case b (answers experts a c) (length experts) (G b)).
  { intros b Hb.
    destruct (@signed_freq_code b (answers experts a c) (length experts) Hn
                (@one_sign_occ _ b Hs Hb)) as (v & Hv & Hcase).
    unfold G. rewrite Hv. auto. }
  exists (map (fun b => (b, G b)) base_terms). split; [|split].
  - unfold term_set, list_data. cbn [len_keys]. rewrite length_map. cbn [bind].
    change (term_columns (list_flat concepts experts)) with base_terms.
    apply mapM_map. intros b Hb.
    rewrite (@group_cells_list concepts experts a c b Hd Ha Hc Hb).
    destruct (HG b Hb) as [-> _]. reflexivity.
  - rewrite map_map. apply map_id.
  - apply Forall_forall. intros kv Hkv. apply in_map_iff in Hkv.
    destruct Hkv as (b & <- & Hb). apply HG. exact Hb.
Qed.

Lemma finals_lookup {V} (F : string * string -> result V) l finals p v :
  mapM (fun p => ts <- F p ;; Ok (p, ts)) l = Ok finals ->
  dict_lookup pair_eqb finals p = Ok v -> F p = Ok v.
Proof.
  revert finals. induction l as [|x l IH]; intros finals H Hv; simpl in H.
  - injection H as <-. discriminate.
  - apply bind_Ok in H. destruct H as ([x' tx] & Hx & H).
    apply bind_Ok in Hx. destruct Hx as (tx' & Hx & [= <- <-]).
    apply bind_Ok in H. destruct H as (rest & Hrest & [= <-]).
    unfold dict_lookup in Hv. cbn [dict_get] in Hv.
    destruct (pair_eqb x p) eqn:E.
    + apply pair_eqb_eq in E. subst x. injection Hv as <-. exact Hx.
    + apply (IH rest Hrest). exact Hv.
Qed.

Lemma finals_total {V} (F : string * string -> result V) l :
  (forall p, In p l -> exists v, F p = Ok v) ->
  exists finals, mapM (fun p => ts <- F p ;; Ok (p, ts)) l = Ok finals /\
    forall p, In p l -> exists v, dict_lookup pair_eqb finals p = Ok v.
Proof.
  induction l as [|x l IH]; intro H.
  - exists []. split; [reflexivity|]. intros p [].
  - destruct (H x (or_introl eq_refl)) as (v & Hv).
    destruct IH as (rest & Hrest & Hlook); [intros p Hp; apply H; right; exact Hp|].
    exists ((x, v) :: rest). split.
    + simpl. rewrite Hv. cbn [bind]. rewrite Hrest. reflexivity.
    + intros p Hp. unfold dict_lookup. cbn [dict_get].
      destruct (pair_eqb x p) eqn:E; [eauto|].
      destruct Hp as [->|Hp]; [|exact (Hlook p Hp)].
      assert (pair_eqb p p = true) by (apply pair_eqb_eq; reflexivity). congruence.
Qed.

(** *** The first state of the loops *)

Lemma full_rows_blank labels : full_rows (blank_matrix labels).
Proof.
  unfold full_rows, blank_matrix. cbn [rows columns].
  apply Forall_forall. intros r Hr. apply in_map_iff in Hr.
  destruct Hr as (l & <- & _). cbn [snd]. apply length_map.
Qed.

Lemma index_matrix_flat concepts experts a :
  experts <> [] -> In a concepts -> In a (index (matrix_flat concepts experts)).
Proof.
  intros Hne Ha. destruct experts as [|e experts]; [congruence|].
  unfold index, matrix_flat. cbn [rows flat_map matrix_table].
  rewrite map_app. apply in_or_app. left.
  rewrite map_map. cbn [fst]. rewrite map_id. exact Ha.
Qed.

Lemma tally_select d flat_data a c t :
  tally d flat_data a c = Ok t -> exists vals, select flat_data a c = Ok vals.
Proof.
  unfold tally. intro H. apply bind_Ok in H. destruct H as (vals & Hs & _). eauto.
Qed.

Lemma answers_valid concepts experts a c :
  valid_judgments concepts experts = true -> In a concepts -> In c concepts ->
  Forall (fun x => valid_cell x = true) (answers experts a c).
Proof.
  unfold valid_judgments. rewrite forallb_forall. intros H Ha Hc.
  specialize (H (a, c) (in_prod _ _ _ _ Ha Hc)). cbn [fst snd] in H.
  apply Forall_forall. apply forallb_forall. exact H.
Qed.

Lemma answers_one_sign concepts experts a c :
  signs_agree concepts experts = true -> In a concepts -> In c concepts ->
  one_sign (answers experts a c) = true.
Proof.
  unfold signs_agree. rewrite forallb_forall. intros H Ha Hc.
  exact (H (a, c) (in_prod _ _ _ _ Ha Hc)).
Qed.

(** *** Both runs on the same judgments *)

Section SameJudgments.
Variable consistency_check : pydata -> string -> result unit.

Lemma choose_data_fresh d dtype :
  choose_data consistency_check (fresh d) PyNone dtype
  = (flat_data <- flatten d ;; Ok (d, flat_data)).
Proof. reflexivity. Qed.

(** The cell of a pair after [gen_weights_mat] on the matrix format. *)
Lemma matrix_run_cell concepts experts method self_m a c :
  distinct concepts = true -> valid_judgments concepts experts = true ->
  gen_weights_mat consistency_check (fresh (matrix_data concepts experts)) PyNone
    default_terms method = Ok self_m ->
  In a concepts -> In c concepts ->
  exists t,
    tally (matrix_data concepts experts) (matrix_flat concepts experts) a c = Ok t /\
    select (matrix_flat concepts experts) a c = Ok (answers experts a c) /\
    ((t = [] /\ cell_at (causal_weights self_m) a c = Some (Num 0)) \/
     (t <> [] /\ exists w, pair_weight method default_mf t w /\
                           cell_at (causal_weights self_m) a c = Some (Num w))).
Proof.
  intros Hd Hvalid Hrun Ha Hc.
  assert (Hne : experts <> []).
  { intros ->. unfold gen_weights_mat in Hrun. rewrite choose_data_fresh in Hrun.
    discriminate. }
  destruct (@gen_weights_mat_inv _ _ _ _ _ _ Hrun)
    as (tables & flat_data & mf & self1 & wm & Hch & Hmf & Hloop & ->).
  rewrite choose_data_fresh, (@flatten_matrix_data concepts experts Hne Hd) in Hch.
  injection Hch as <- <-.
  rewrite default_mf_eq in Hmf. injection Hmf as <-.
  destruct (@mat_loop_ran _ _ _ _ _ a c Hloop Ha Hc) as (s & s' & Hstep).
  destruct (@mat_step_inv _ _ _ _ _ _ _ Hstep) as (t & Ht & _).
  destruct (@tally_select _ _ _ _ _ Ht) as (vals & Hsel).
  pose proof (@select_matrix concepts experts a c vals Hd Ha Hc Hsel) as ->.
  exists t. split; [exact Ht|]. split; [exact Hsel|].
  assert (Hn : (0 < length experts)%nat) by (destruct experts; [congruence|simpl; lia]).
  destruct (@tally_valid (matrix_data concepts experts) _ a c (answers experts a c)
              (length experts) Hsel (@answers_valid concepts experts a c Hvalid Ha Hc))
    as (t' & Ht' & _ & Hq); [unfold matrix_data; cbn [len_keys]; rewrite length_map; reflexivity
                            |exact Hn|].
  rewrite Ht in Ht'. injection Ht' as <-.
  pose proof (@eval_str_dict_roundtrip t (@tally_nodup _ _ _ _ _ Ht) Hq) as Hev.
  destruct (@mat_loop_cell _ _ _ default_mf (unique (index (matrix_flat concepts experts)))
              _ _ a c t Hloop Ha Hc Ht Hev) as [[E Hcell]|(Hnot & w & Hw & Hcell)].
  - split; [reflexivity|]. split; [reflexivity|]. apply full_rows_blank.
  - apply unique_In. apply index_matrix_flat; assumption.
  - cbn [snd]. apply cell_at_blank; apply unique_In; apply index_matrix_flat; assumption.
  - left. split; [exact E|].
    cbn [causal_weights set_causal_weights]. rewrite cell_at_fillna0.
    cbn [snd] in Hcell. rewrite Hcell. reflexivity.
  - right. split; [exact Hnot|]. exists w. split; [exact Hw|].
    cbn [causal_weights set_causal_weights]. rewrite cell_at_fillna0.
    cbn [snd] in Hcell. rewrite Hcell. reflexivity.
Qed.

(** The cell of a pair after [gen_weights_list] on the edge list format. *)
Lemma list_run_cell concepts experts method self_l a c :
  distinct concepts = true -> signs_agree concepts experts = true ->
  gen_weights_list consistency_check (fresh (list_data concepts experts)) PyNone
    default_terms method = Ok self_l ->
  In a concepts -> In c concepts ->
  exists ts,
    map fst ts = base_terms /\
    Forall (fun kv => column_case (fst kv) (answers experts a c) (length experts) (snd kv)) ts /\
    ((forallb (fun x => feqb x 0) (values (signed_terms ts)) = true /\
      cell_at (causal_weights self_l) a c = Some (Num 0)) \/
     (forallb (fun x => feqb x 0) (values (signed_terms ts)) = false /\
      exists w, pair_weight method default_mf (signed_terms ts) w /\
                cell_at (causal_weights self_l) a c = Some (Num w))).
Proof.
  intros Hd Hsign Hrun Ha Hc.
  assert (Hne : experts <> []).
  { intros ->. unfold gen_weights_list in Hrun. rewrite choose_data_fresh in Hrun.
    discriminate. }
  unfold gen_weights_list in Hrun.
  rewrite choose_data_fresh, (@flatten_list_data concepts experts Hne) in Hrun.
  cbn [bind] in Hrun. rewrite column_labels_list in Hrun. cbn [bind] in Hrun.
  rewrite list_pairs_ok in Hrun. cbn [bind] in Hrun.
  apply bind_Ok in Hrun. destruct Hrun as (finals & Hfin & Hrun).
  rewrite default_mf_eq in Hrun. cbn [bind] in Hrun.
  apply bind_Ok in Hrun. destruct Hrun as ([self1 wm] & Hloop & [= <-]).
  assert (Hin : In (a, c) (group_keys (list_pairs concepts experts))).
  { apply group_keys_In. apply in_list_pairs; assumption. }
  destruct (@foldM_ran _ _ _ _ _ _ (a, c) Hloop Hin) as (s & s' & Hstep).
  destruct (@list_step_inv _ _ _ _ _ Hstep) as (ts & Hts & _).
  pose proof (@finals_lookup _ _ _ _ _ _ Hfin Hts) as Hterm.
  destruct (@term_set_list concepts experts a c Hd Ha Hc Hne
              (@answers_one_sign concepts experts a c Hsign Ha Hc))
    as (ts' & Hterm' & Hkeys & Hcases).
  rewrite Hterm in Hterm'. injection Hterm' as <-.
  exists ts. split; [exact Hkeys|]. split; [exact Hcases|].
  assert (Hlab : forall x, In x concepts ->
                   In x (unique (map fst (list_pairs concepts experts)))).
  { intros x Hx. apply unique_In.
    apply (in_map fst _ (x, x)). apply in_list_pairs; assumption. }
  destruct (@list_loop_cell method finals default_mf
              (unique (map fst (list_pairs concepts experts)))
              _ _ _ a c ts Hloop Hin Hts) as [[E Hcell]|(Hnot & w & Hw & Hcell)].
  - split; [reflexivity|]. split; [reflexivity|]. apply full_rows_blank.
  - apply Hlab. exact Hc.
  - cbn [snd]. apply cell_at_blank; apply Hlab; assumption.
  - left. split; [exact E|].
    cbn [causal_weights set_causal_weights]. rewrite cell_at_fillna0.
    cbn [snd] in Hcell. rewrite Hcell. reflexivity.
  - right. split; [exact Hnot|]. exists w. split; [exact Hw|].
    cbn [causal_weights set_causal_weights]. rewrite cell_at_fillna0.
    cbn [snd] in Hcell. rewrite Hcell. reflexivity.
Qed.

(** For validated judgments without a term of both signs, two runs that
    end hold the same number in the cell of every pair. *)
Lemma runs_agree concepts experts method self_m self_l a c :
  distinct concepts = true ->
  valid_judgments concepts experts = true -> signs_agree concepts experts = true ->
  gen_weights_mat consistency_check (fresh (matrix_data concepts experts)) PyNone
    default_terms method = Ok self_m ->
  gen_weights_list consistency_check (fresh (list_data concepts experts)) PyNone
    default_terms method = Ok self_l ->
  In a concepts -> In c concepts ->
  exists w, cell_at (causal_weights self_m) a c = Some (Num w) /\
            cell_at (causal_weights self_l) a c = Some (Num w).
Proof.
  intros Hd Hvalid Hsign Hm Hl Ha Hc.
  destruct (@matrix_run_cell concepts experts method self_m a c Hd Hvalid Hm Ha Hc)
    as (t & Ht & Hsel & HcellM).
  destruct (@list_run_cell concepts experts method self_l a c Hd Hsign Hl Ha Hc)
    as (ts & Hkeys & Hcases & HcellL).
  assert (Hne : experts <> []).
  { intros ->. unfold gen_weights_mat in Hm. rewrite choose_data_fresh in Hm.
    discriminate. }
  assert (Hn : (0 < length experts)%nat) by (destruct experts; [congruence|simpl; lia]).
  assert (Hlen : len_keys (matrix_data concepts experts) = Ok (length experts))
    by (unfold matrix_data; cbn [len_keys]; rewrite length_map; reflexivity).
  pose proof (@answers_valid concepts experts a c Hvalid Ha Hc) as Hv.
  pose proof (fun b => @one_sign_occ (answers experts a c) b
                         (@answers_one_sign concepts experts a c Hsign Ha Hc)) as Hs.
  pose proof (@tally_occ _ _ _ _ _ _ _ Hsel Hlen Ht) as HM.
  pose proof (@tally_nodup _ _ _ _ _ Ht) as Hnd.
  pose proof (@skip_iff (answers experts a c) (length experts) t ts Hv Hs HM Hkeys Hcases Hn)
    as Hskip.
  destruct HcellM as [[E HcM]|(Hnot & w & (aM & rM & HaM & HrM & HwM) & HcM)].
  - destruct HcellL as [[_ HcL]|(Hnz & _)].
    + exists 0. auto.
    + apply Hskip in E. congruence.
  - destruct HcellL as [[Hz _]|(_ & w' & (aL & rL & HaL & HrL & HwL) & HcL)].
    + apply Hskip in Hz. congruence.
    + pose proof (@same_aggregated (answers experts a c) (length experts) t ts
                    Hv Hs HM Hnd Hkeys Hcases aM aL rM rL Hnot HaM HaL HrM HrL) as <-.
      rewrite HwM in HwL. injection HwL as <-.
      exists w. auto.
Qed.
End SameJudgments.

(** *** Both runs end *)

Lemma base_in_default b :
  In b base_terms -> In b default_terms /\ In (minus b) default_terms.
Proof.
  intro H. simpl in H.
  repeat (destruct H as [<-|H]; [split; simpl; tauto|]). destruct H.
Qed.

Lemma signed_terms_keys vals n ts kv :
  map fst ts = base_terms ->
  Forall (fun kv => column_case (fst kv) vals n (snd kv)) ts ->
  In kv (signed_terms ts) -> In (fst kv) default_terms.
Proof.
  intros Hkeys Hts H.
  rewrite (@signed_terms_map ts (@base_keys_nodup ts Hkeys)) in H.
  apply in_map_iff in H. destruct H as ([b v] & <- & Hin).
  assert (Hb : In b base_terms) by (rewrite <- Hkeys; apply (in_map fst _ _ Hin)).
  destruct (@base_in_default b Hb) as [Hb1 Hb2].
  rewrite Forall_forall in Hts. specialize (Hts _ Hin). cbn [fst snd] in Hts.
  destruct (@signed_entry_cases _ _ _ _ Hts) as [(_ & _ & ->)|(k & [->| ->] & _ & ->)];
    assumption.
Qed.

Lemma activate_total ap mf :
  (forall kv, In kv ap -> exists y, sget mf (fst kv) = Some y) ->
  exists activated, activate ap mf = Ok activated.
Proof.
  intro H. unfold activate.
  destruct (@foldM_total _ _
              (fun activated (kv : string * Q) =>
                 y <- slookup mf (fst kv) ;;
                 Ok (sset activated (fst kv) (map (fmin (snd kv)) y)))
              (fun _ => True) ap) with (s := @nil (string * list Q)) as (act & Hact & _).
  - intros kv d Hin _. destruct (H kv Hin) as (y & Hy).
    unfold slookup, dict_lookup. unfold sget in Hy. rewrite Hy. cbn [bind]. eauto.
  - exact I.
  - eauto.
Qed.

Lemma aggregate_total n activated :
  activated <> [] ->
  Forall (fun kv : string * list Q => nonneg n (snd kv)) activated ->
  exists aggr, aggregate activated = Ok aggr.
Proof.
  intros Hne Hact. unfold aggregate, reduce.
  destruct activated as [|[k a] d]; [congruence|].
  inversion Hact as [|? ? [Ha _] Hd]; subst. cbn [snd] in *.
  change (values ((k, a) :: d)) with (a :: values d). cbn iota.
  destruct (@foldM_fmax_arr (length a) (values d) a eq_refl) as (r & Hr & _).
  { unfold values. apply Forall_forall. intros b Hb. apply in_map_iff in Hb.
    destruct Hb as (kv & <- & Hkv). rewrite Forall_forall in Hd. apply (Hd _ Hkv). }
  eauto.
Qed.

Lemma infer_centroid_ok concepts a c ap st activated aggr :
  run_inv concepts st -> In a concepts ->
  activate ap default_mf = Ok activated -> aggregate activated = Ok aggr ->
  lit (length universe) aggr ->
  exists st', infer "centroid" a c ap st = Ok st' /\ run_inv concepts st'.
Proof.
  intros [Ht Hidx] Ha Hact Hagg Hlit. destruct st as [self wm]. cbn [fst snd] in *.
  destruct (@set_cell_ok wm a c (centroid universe aggr) (Hidx a Ha)) as (wm' & Hwm).
  unfold infer. rewrite Ht, Hact. cbn [bind]. rewrite Hagg. cbn [bind].
  rewrite (defuzzify_centroid_ok Hlit). cbn [bind]. rewrite Hwm. cbn [bind].
  eexists. split; [reflexivity|].
  destruct (@set_cell_shape _ _ _ _ _ Hwm) as [_ Hi].
  split; [exact Ht|]. cbn [snd]. rewrite Hi. exact Hidx.
Qed.

Lemma len_matrix_data concepts experts :
  len_keys (matrix_data concepts experts) = Ok (length experts).
Proof. unfold matrix_data. cbn [len_keys]. rewrite length_map. reflexivity. Qed.

(** The tally of a pair in the matrix format, for two experts or more. *)
Lemma matrix_tally_ok concepts experts a c :
  distinct concepts = true -> valid_judgments concepts experts = true ->
  (2 <= length experts)%nat -> In a concepts -> In c concepts ->
  exists t,
    tally (matrix_data concepts experts) (matrix_flat concepts experts) a c = Ok t /\
    served default_mf t /\
    py_eval (replace_dquote (str_dict t)) = Ok t.
Proof.
  intros Hd Hvalid Hn Ha Hc.
  destruct (@tally_valid (matrix_data concepts experts) _ a c (answers experts a c)
              (length experts)
              (@select_matrix_ok concepts experts a c Hd Ha Hc Hn)
              (@answers_valid concepts experts a c Hvalid Ha Hc)
              (len_matrix_data concepts experts))
    as (t & Ht & Hserved & Hq); [lia|].
  exists t. split; [exact Ht|]. split; [exact Hserved|].
  exact (@eval_str_dict_roundtrip t (@tally_nodup _ _ _ _ _ Ht) Hq).
Qed.

Lemma served_weight t :
  served default_mf t -> t <> [] ->
  exists activated aggr,
    activate t default_mf = Ok activated /\ aggregate activated = Ok aggr /\
    lit (length universe) aggr.
Proof.
  intros Hs Hne.
  destruct (activate_lit default_mf_good Hs) as (activated & Hact & Hlit & Hne').
  destruct (aggregate_lit (Hne' Hne) Hlit) as (aggr & Hagg & Hal).
  eauto.
Qed.

Lemma matrix_step_ok concepts experts st p :
  distinct concepts = true -> valid_judgments concepts experts = true ->
  (2 <= length experts)%nat ->
  In p (list_prod concepts concepts) -> run_inv concepts st ->
  exists st', mat_step (matrix_data concepts experts) (matrix_flat concepts experts)
                "centroid" st (fst p) (snd p) = Ok st' /\ run_inv concepts st'.
Proof.
  intros Hd Hvalid Hn Hp Hinv. destruct p as [a c]. apply in_prod_iff in Hp.
  destruct Hp as [Ha Hc]. cbn [fst snd].
  destruct (@matrix_tally_ok concepts experts a c Hd Hvalid Hn Ha Hc)
    as (t & Ht & Hserved & Hev).
  unfold mat_step. rewrite Ht. cbn [bind].
  destruct t as [|kv t]; [exists st; split; [reflexivity|exact Hinv]|].
  cbn [length Nat.eqb negb]. rewrite Hev. cbn [bind].
  destruct (@served_weight (kv :: t) Hserved) as (act & aggr & Hact & Hagg & Hlit);
    [discriminate|].
  apply (@infer_centroid_ok concepts a c (kv :: t) _ act aggr); assumption.
Qed.

Lemma list_step_ok concepts experts finals st p ts :
  distinct concepts = true -> valid_judgments concepts experts = true ->
  signs_agree concepts experts = true -> (2 <= length experts)%nat ->
  In (fst p) concepts -> In (snd p) concepts ->
  dict_lookup pair_eqb finals p = Ok ts ->
  term_set (list_data concepts experts) (list_flat concepts experts)
           (list_pairs concepts experts) p = Ok ts ->
  run_inv concepts st ->
  exists st', list_step "centroid" finals st p = Ok st' /\ run_inv concepts st'.
Proof.
  intros Hd Hvalid Hsign Hn Ha Hc Hlook Hterm Hinv. destruct p as [a c]. cbn [fst snd] in *.
  assert (Hne : experts <> []) by (intros ->; simpl in Hn; lia).
  destruct (@term_set_list concepts experts a c Hd Ha Hc Hne
              (@answers_one_sign concepts experts a c Hsign Ha Hc))
    as (ts' & Hterm' & Hkeys & Hcases).
  rewrite Hterm in Hterm'. injection Hterm' as <-.
  unfold list_step. rewrite Hlook. cbn [bind fst snd].
  destruct (forallb (fun x => feqb x 0) (values (signed_terms ts))) eqn:Ez; cbn [negb].
  - eexists. split; [reflexivity|]. exact Hinv.
  - destruct (@matrix_tally_ok concepts experts a c Hd Hvalid Hn Ha Hc)
      as (t & Ht & Hserved & _).
    pose proof (@answers_valid concepts experts a c Hvalid Ha Hc) as Hv.
    pose proof (fun b => @one_sign_occ (answers experts a c) b
                           (@answers_one_sign concepts experts a c Hsign Ha Hc)) as Hs.
    pose proof (@tally_occ _ _ _ _ _ _ _
                  (@select_matrix_ok concepts experts a c Hd Ha Hc Hn)
                  (len_matrix_data concepts experts) Ht) as HM.
    pose proof (@tally_nodup _ _ _ _ _ Ht) as Hnd.
    assert (Hpos : (0 < length experts)%nat) by lia.
    pose proof (@skip_iff (answers experts a c) (length experts) t ts Hv Hs HM Hkeys Hcases
                  Hpos) as Hskip.
    assert (Hnot : t <> []) by (intro E; apply Hskip in E; congruence).
    destruct (@served_weight t Hserved Hnot) as (aM & rM & HaM & HrM & Hlit).
    destruct (@activate_total (signed_terms ts) default_mf) as (aL & HaL).
    { intros kv Hkv. apply default_term_served.
      exact (@signed_terms_keys _ _ _ _ Hkeys Hcases Hkv). }
    assert (HLnd : NoDup (keys (signed_terms ts))).
    { rewrite (@signed_terms_map ts (@base_keys_nodup ts Hkeys)).
      unfold keys. rewrite map_map. apply base_keys_nodup. exact Hkeys. }
    destruct (@aggregate_total (length universe) aL) as (rL & HrL).
    { intros ->. pose proof (@activate_values _ _ _ HLnd HaL) as E.
      rewrite (@signed_terms_map ts (@base_keys_nodup ts Hkeys)) in E.
      destruct ts; [discriminate Hkeys|discriminate E]. }
    { apply (@activate_nonneg (length universe) (signed_terms ts) default_mf aL).
      - apply signed_terms_nonneg.
      - pose proof default_mf_good as Hg. eapply Forall_impl; [|exact Hg].
        intros kv [H _]. exact H.
      - exact HaL. }
    pose proof (@same_aggregated (answers experts a c) (length experts) t ts
                  Hv Hs HM Hnd Hkeys Hcases aM aL rM rL Hnot HaM HaL HrM HrL) as <-.
    set (self := set_expert_data (fst st)
                   (dict_set pair_eqb (expert_data (fst st)) (a, c) (signed_terms ts))).
    apply (@infer_centroid_ok concepts a c (signed_terms ts) (self, snd st) aL rM);
      assumption.
Qed.

Lemma index_blank labels : index (blank_matrix labels) = labels.
Proof.
  unfold index, blank_matrix. cbn [rows]. rewrite map_map. cbn [fst]. apply map_id.
Qed.

Section BothRuns.
Variable consistency_check : pydata -> string -> result unit.

Lemma matrix_run_ok concepts experts :
  distinct concepts = true -> valid_judgments concepts experts = true ->
  (2 <= length experts)%nat ->
  exists self_m,
    gen_weights_mat consistency_check (fresh (matrix_data concepts experts)) PyNone
      default_terms "centroid" = Ok self_m.
Proof.
  intros Hd Hvalid Hn.
  assert (Hne : experts <> []) by (intros ->; simpl in Hn; lia).
  unfold gen_weights_mat.
  rewrite choose_data_fresh, (@flatten_matrix_data concepts experts Hne Hd).
  cbn [bind]. rewrite default_mf_eq. cbn [bind]. rewrite mat_loop_prod.
  destruct (@foldM_total _ _
              (fun st p => mat_step (matrix_data concepts experts)
                             (matrix_flat concepts experts) "centroid" st (fst p) (snd p))
              (run_inv concepts)
              (list_prod (columns (matrix_flat concepts experts))
                         (columns (matrix_flat concepts experts))))
    with (s := (set_terms (set_aggregated
                  (set_expert_data (fresh (matrix_data concepts experts)) []) [])
                  default_mf,
                blank_matrix (unique (index (matrix_flat concepts experts)))))
    as ([self1 wm] & Hloop & _).
  - intros p st Hp Hst. apply matrix_step_ok; assumption.
  - split; [reflexivity|]. intros a Ha. cbn [snd]. rewrite index_blank.
    apply unique_In. apply index_matrix_flat; assumption.
  - rewrite Hloop. cbn [bind]. eauto.
Qed.

Lemma list_run_ok concepts experts :
  distinct concepts = true -> valid_judgments concepts experts = true ->
  signs_agree concepts experts = true -> (2 <= length experts)%nat ->
  exists self_l,
    gen_weights_list consistency_check (fresh (list_data concepts experts)) PyNone
      default_terms "centroid" = Ok self_l.
Proof.
  intros Hd Hvalid Hsign Hn.
  assert (Hne : experts <> []) by (intros ->; simpl in Hn; lia).
  unfold gen_weights_list.
  rewrite choose_data_fresh, (@flatten_list_data concepts experts Hne).
  cbn [bind]. rewrite column_labels_list. cbn [bind].
  rewrite list_pairs_ok. cbn [bind].
  assert (Hkey : forall p, In p (group_keys (list_pairs concepts experts)) ->
                   In (fst p) concepts /\ In (snd p) concepts).
  { intros p Hp. apply list_pairs_in with (experts := experts).
    apply group_keys_In. exact Hp. }
  destruct (@finals_total _
              (term_set (list_data concepts experts) (list_flat concepts experts)
                        (list_pairs concepts experts))
              (group_keys (list_pairs concepts experts)))
    as (finals & Hfin & Hlook).
  { intros [a c] Hp. destruct (Hkey _ Hp) as [Ha Hc]. cbn [fst snd] in *.
    destruct (@term_set_list concepts experts a c Hd Ha Hc Hne
                (@answers_one_sign concepts experts a c Hsign Ha Hc)) as (ts & Hts & _).
    eauto. }
  rewrite Hfin. cbn [bind]. rewrite default_mf_eq. cbn [bind].
  destruct (@foldM_total _ _ (list_step "centroid" finals) (run_inv concepts)
              (group_keys (list_pairs concepts experts)))
    with (s := (set_terms (set_aggregated
                  (set_expert_data (fresh (list_data concepts experts)) []) [])
                  default_mf,
                blank_matrix (unique (map fst (list_pairs concepts experts)))))
    as ([self1 wm] & Hloop & _).
  - intros p st Hp Hst. destruct (Hkey _ Hp) as [Ha Hc].
    destruct (Hlook p Hp) as (ts & Hts).
    apply (@list_step_ok concepts experts finals st p ts); try assumption.
    exact (@finals_lookup _ _ _ _ _ _ Hfin Hts).
  - split; [reflexivity|]. intros a Ha. cbn [snd]. rewrite index_blank.
    apply unique_In. apply (in_map fst _ (a, a)). apply in_list_pairs; assumption.
  - rewrite Hloop. cbn [bind]. eauto.
Qed.

(** C2, amended.  Judgments over distinct concepts, made of validated terms
    and such that for no pair a term is used with both signs, give the same
    causal weight in both formats: whenever [gen_weights_mat] on the matrix
    format and [gen_weights_list] on the edge list format both end, with
    any method, their weight matrices hold the same number in the cell of
    every ordered pair of concepts; and with two experts or more and the
    centroid both runs do end. *)
Theorem same_judgments_same_weights (concepts : list string)
    (experts : list (string * judgment)) :
  distinct concepts = true ->
  valid_judgments concepts experts = true ->
  signs_agree concepts experts = true ->
  (forall method self_m self_l,
      gen_weights_mat consistency_check (fresh (matrix_data concepts experts)) PyNone
        default_terms method = Ok self_m ->
      gen_weights_list consistency_check (fresh (list_data concepts experts)) PyNone
        default_terms method = Ok self_l ->
      forall a c, In a concepts -> In c concepts ->
        exists w, cell_at (causal_weights self_m) a c = Some (Num w) /\
                  cell_at (causal_weights self_l) a c = Some (Num w)) /\
  ((2 <= length experts)%nat ->
   exists self_m self_l,
     gen_weights_mat consistency_check (fresh (matrix_data concepts experts)) PyNone
       default_terms "centroid" = Ok self_m /\
     gen_weights_list consistency_check (fresh (list_data concepts experts)) PyNone
       default_terms "centroid" = Ok self_l).
Proof.
  intros Hd Hvalid Hsign. split.
  - intros method self_m self_l Hm Hl a c Ha Hc.
    exact (@runs_agree consistency_check concepts experts method self_m self_l a c
             Hd Hvalid Hsign Hm Hl Ha Hc).
  - intro Hn.
    destruct (@matrix_run_ok concepts experts Hd Hvalid Hn) as (self_m & Hm).
    destruct (@list_run_ok concepts experts Hd Hvalid Hsign Hn) as (self_l & Hl).
    exists self_m, self_l. split; assumption.
Qed.
End BothRuns.

Lemma same_judgments_same_weights_witness :
  exists self_m self_l w,
    gen_weights_mat no_check (fresh (matrix_data ["A"; "B"] united_experts)) PyNone
      default_terms "centroid" = Ok self_m /\
    gen_weights_list no_check (fresh (list_data ["A"; "B"] united_experts)) PyNone
      default_terms "centroid" = Ok self_l /\
    cell_at (causal_weights self_m) "A" "B" = Some (Num w) /\
    cell_at (causal_weights self_l) "A" "B" = Some (Num w).
Proof.
  destruct (@same_judgments_same_weights no_check ["A"; "B"] united_experts
              eq_refl eq_refl eq_refl) as [Hagree Hend].
  destruct Hend as (self_m & self_l & Hm & Hl); [simpl; lia|].
  destruct (Hagree "centroid" self_m self_l Hm Hl "A" "B") as (w & H1 & H2);
    [simpl; tauto|simpl; tauto|].
  exists self_m, self_l, w. auto.
Defined.

(** ** A processor without data *)

Section NoData.
Variable consistency_check : pydata -> string -> result unit.

(** A processor made without data (or with an empty dict of tables) has
    nothing to concatenate: both weight methods raise [ValueError],
    whatever the terms and the method. *)
Theorem no_data_raises (d : pydata) (self : FcmDataProcessor)
    (linguistic_terms : list string) (method : string) :
  d = PyNone \/ d = PyDict [] ->
  init d = Ok self ->
  gen_weights_mat consistency_check self PyNone linguistic_terms method = Err ValueError /\
  gen_weights_list consistency_check self PyNone linguistic_terms method = Err ValueError.
Proof.
  intros [-> | ->] H; cbn in H; injection H as <-; split; reflexivity.
Qed.
End NoData.

Lemma no_data_raises_witness :
  gen_weights_mat no_check (fresh (PyFrame empty_frame)) PyNone default_terms "centroid"
    = Err ValueError /\
  gen_weights_list no_check (fresh (PyFrame empty_frame)) PyNone default_terms "centroid"
    = Err ValueError.
Proof.
  apply (@no_data_raises no_check PyNone (fresh (PyFrame empty_frame)) default_terms "centroid");
    [left; reflexivity|reflexivity].
Defined.

(** ** [activate]: known and unknown terms *)

Lemma activate_unknown ap mf :
  (exists kv, In kv ap /\ sget mf (fst kv) = None) -> activate ap mf = Err KeyError.
Proof.
  unfold activate. generalize (@nil (string * list Q)) as d.
  induction ap as [|kv ap IH]; intros d (kv0 & Hin & Hnone); [destruct Hin|].
  simpl. unfold slookup, dict_lookup.
  destruct (dict_get String.eqb mf (fst kv)) as [y|] eqn:E; [|reflexivity].
  cbn [bind]. apply IH. exists kv0. split; [|exact Hnone].
  destruct Hin as [->|Hin]; [|exact Hin].
  unfold sget in Hnone. congruence.
Qed.

Lemma activate_known ap mf :
  NoDup (keys ap) ->
  (forall kv, In kv ap -> exists y, sget mf (fst kv) = Some y) ->
  activate ap mf = Ok (map (fun kv => (fst kv, activated_by mf kv)) ap).
Proof.
  intros Hnd Hall.
  destruct (@activate_total ap mf Hall) as (act & Hact).
  rewrite Hact. f_equal.
  assert (Hgen : forall ap d act,
    NoDup (keys d ++ keys ap) ->
    (forall kv, In kv ap -> exists y, sget mf (fst kv) = Some y) ->
    foldM (fun activated (kv : string * Q) =>
             y <- slookup mf (fst kv) ;;
             Ok (sset activated (fst kv) (map (fmin (snd kv)) y))) d ap = Ok act ->
    act = d ++ map (fun kv => (fst kv, activated_by mf kv)) ap).
  { clear. induction ap as [|kv ap IH]; intros d act Hnd Hall H.
    - simpl in H. injection H as <-. rewrite app_nil_r. reflexivity.
    - simpl in H. apply bind_Ok in H. destruct H as (d1 & H1 & H2).
      apply bind_Ok in H1. destruct H1 as (y & Hy & [= <-]).
      assert (Hfresh : ~ In (fst kv) (keys d)).
      { intro Hk. apply NoDup_remove_2 in Hnd. apply Hnd.
        apply in_or_app. left. exact Hk. }
      rewrite (@sset_fresh _ _ _ _ Hfresh) in H2.
      apply IH in H2.
      + rewrite H2, <- app_assoc. cbn [app map]. do 3 f_equal.
        unfold activated_by, mf_get. unfold slookup, dict_lookup in Hy. unfold sget.
        destruct (dict_get String.eqb mf (fst kv)); [injection Hy as <-; reflexivity|discriminate].
      + unfold keys in *. rewrite map_app. cbn [map fst]. rewrite <- app_assoc. exact Hnd.
      + intros kv' Hkv'. apply Hall. right. exact Hkv'. }
  apply (Hgen ap [] act); [exact Hnd|exact Hall|exact Hact].
Qed.

(** [activate] raises [KeyError] when a term of the input has no membership
    function.  Otherwise it returns one entry for every term of the input, in
    the order of the input: the membership function of the term cut off at
    its frequency, so that no degree exceeds the frequency or the degree it
    had. *)
Theorem activate_known_or_unknown (activation_input : list (string * Q))
    (mf : list (string * list Q)) :
  NoDup (keys activation_input) ->
  ((exists kv, In kv activation_input /\ sget mf (fst kv) = None) ->
   activate activation_input mf = Err KeyError) /\
  ((forall kv, In kv activation_input -> exists y, sget mf (fst kv) = Some y) ->
   exists activated,
     activate activation_input mf = Ok activated /\
     keys activated = keys activation_input /\
     forall k f y, In (k, f) activation_input -> sget mf k = Some y ->
       sget activated k = Some (map (fmin f) y) /\
       Forall2 (fun v w => v <= f /\ v <= w /\ (v = f \/ v = w)) (map (fmin f) y) y).
Proof.
  intro Hnd. split; [apply activate_unknown|].
  intro Hall. rewrite (@activate_known activation_input mf Hnd Hall).
  eexists. split; [reflexivity|]. split.
  - unfold keys. rewrite map_map. reflexivity.
  - intros k f y Hin Hy. split.
    + assert (Hnd' : NoDup (keys (map (fun kv : string * Q => (fst kv, activated_by mf kv))
                                     activation_input)))
        by (unfold keys; rewrite map_map; exact Hnd).
      apply (proj1 (@In_sget_nodup _ _ _ _ Hnd')).
      apply in_map_iff. exists (k, f). split; [|exact Hin].
      unfold activated_by, mf_get. cbn [fst snd]. rewrite Hy. reflexivity.
    + clear. induction y as [|w y IH]; constructor; [|exact IH].
      split; [apply fmin_le_l|]. split; [apply fmin_le_r|].
      destruct (fmin_cases f w) as [->| ->]; auto.
Qed.

Lemma activate_known_or_unknown_witness :
  exists activated,
    activate [("H", 2 # 3); ("VH", 1 # 3)] default_mf = Ok activated /\
    keys activated = ["H"; "VH"].
Proof.
  assert (Hnd : NoDup (keys [("H", 2 # 3); ("VH", 1 # 3)])).
  { repeat constructor; simpl; intuition discriminate. }
  destruct (proj2 (@activate_known_or_unknown [("H", 2 # 3); ("VH", 1 # 3)] default_mf Hnd))
    as (activated & Hact & Hkeys & _).
  - intros kv [<-|[<-|[]]]; cbn [fst]; eexists; reflexivity.
  - exists activated. split; [exact Hact|exact Hkeys].
Defined.

(** ** [aggregate]: the order of the terms *)

Lemma Forall2_by_nth (R : Q -> Q -> Prop) (l l' : list Q) :
  length l = length l' ->
  (forall i, (i < length l)%nat -> R (nth i l 0) (nth i l' 0)) ->
  Forall2 R l l'.
Proof.
  revert l'. induction l as [|a l IH]; intros [|b l'] Hlen H; simpl in Hlen; try lia.
  - constructor.
  - constructor.
    + apply (H O). simpl. lia.
    + apply IH; [lia|]. intros i Hi. apply (H (S i)). simpl. lia.
Qed.

(** The aggregated set does not depend on the order of the activated
    sets: listed in another order, arrays of one length aggregate to the
    same degrees. *)
Theorem aggregate_any_order (n : nat) (activated1 activated2 : list (string * list Q)) :
  Permutation activated1 activated2 ->
  activated1 <> [] ->
  Forall (fun kv => length (snd kv) = n) activated1 ->
  exists r1 r2,
    aggregate activated1 = Ok r1 /\ aggregate activated2 = Ok r2 /\
    Forall2 Qeq r1 r2.
Proof.
  intros Hperm Hne Hlen.
  assert (Hlen2 : Forall (fun kv : string * list Q => length (snd kv) = n) activated2).
  { apply Forall_forall. intros kv Hkv. rewrite Forall_forall in Hlen. apply Hlen.
    apply Permutation_sym in Hperm. exact (Permutation_in _ Hperm Hkv). }
  assert (Hne2 : activated2 <> []).
  { intros ->. apply Permutation_sym, Permutation_nil in Hperm. congruence. }
  assert (Hspec : forall act : list (string * list Q),
            act <> [] -> Forall (fun kv => length (snd kv) = n) act ->
            exists r, aggregate act = Ok r /\ length r = n /\
              forall i, (i < n)%nat ->
                (forall kv, In kv act -> nth i (snd kv) 0 <= nth i r 0) /\
                (exists kv, In kv act /\ nth i r 0 = nth i (snd kv) 0)).
  { clear. intros act Hne Hlen. unfold aggregate, reduce.
    destruct act as [|[k a] d]; [congruence|].
    pose proof (Forall_inv Hlen) as Ha. pose proof (Forall_inv_tail Hlen) as Hd.
    cbn [snd] in Ha.
    change (values ((k, a) :: d)) with (a :: values d). cbn iota.
    destruct (@foldM_fmax_arr n (values d) a Ha) as (r & Hr & Hlr & Hi).
    { unfold values. apply Forall_forall. intros b Hb. apply in_map_iff in Hb.
      destruct Hb as (kv & <- & Hkv). rewrite Forall_forall in Hd. apply (Hd _ Hkv). }
    exists r. split; [exact Hr|]. split; [exact Hlr|].
    intros i Hlt. destruct (Hi i Hlt) as [Hub (b & Hb & Eb)]. split.
    - intros kv Hkv. apply Hub.
      change (a :: values d) with (values ((k, a) :: d)). unfold values.
      apply in_map. exact Hkv.
    - change (a :: values d) with (values ((k, a) :: d)) in Hb. unfold values in Hb.
      apply in_map_iff in Hb. destruct Hb as (kv & <- & Hkv). eauto. }
  destruct (Hspec activated1 Hne Hlen) as (r1 & H1 & Hl1 & Hi1).
  destruct (Hspec activated2 Hne2 Hlen2) as (r2 & H2 & Hl2 & Hi2).
  exists r1, r2. split; [exact H1|]. split; [exact H2|].
  apply Forall2_by_nth; [congruence|].
  intros i Hi. rewrite Hl1 in Hi.
  destruct (Hi1 i Hi) as [Hub1 (kv1 & Hkv1 & E1)].
  destruct (Hi2 i Hi) as [Hub2 (kv2 & Hkv2 & E2)].
  apply Qle_antisym.
  - rewrite E1. apply Hub2. exact (Permutation_in _ Hperm Hkv1).
  - rewrite E2. apply Hub1. apply Permutation_sym in Hperm. exact (Permutation_in _ Hperm Hkv2).
Qed.

Lemma aggregate_any_order_witness :
  exists r1 r2,
    aggregate [("L", [0; 1 # 2; 0]); ("H", [0; 1 # 4; 1])] = Ok r1 /\
    aggregate [("H", [0; 1 # 4; 1]); ("L", [0; 1 # 2; 0])] = Ok r2 /\
    Forall2 Qeq r1 r2.
Proof.
  apply (@aggregate_any_order 3 [("L", [0; 1 # 2; 0]); ("H", [0; 1 # 4; 1])]
           [("H", [0; 1 # 4; 1]); ("L", [0; 1 # 2; 0])]).
  - apply perm_swap.
  - discriminate.
  - repeat constructor.
Defined.

(** ** [defuzzify]: the three maxima *)

Lemma fold_fmin_lb l : forall x v, In v (x :: l) -> fold_left fmin l x <= v.
Proof.
  induction l as [|a l IH]; intros x v Hin.
  - destruct Hin as [<-|[]]. apply Qle_refl.
  - cbn [fold_left]. destruct Hin as [<-|[<-|Hin]].
    + eapply Qle_trans; [apply fold_fmin_le|apply fmin_le_l].
    + eapply Qle_trans; [apply fold_fmin_le|apply fmin_le_r].
    + apply IH. right. exact Hin.
Qed.

Lemma fold_fmax_ub l : forall x v, In v (x :: l) -> v <= fold_left fmax l x.
Proof.
  induction l as [|a l IH]; intros x v Hin.
  - destruct Hin as [<-|[]]. apply Qle_refl.
  - cbn [fold_left]. destruct Hin as [<-|[<-|Hin]].
    + eapply Qle_trans; [apply fmax_ge_l|apply fold_fmax_ge].
    + eapply Qle_trans; [apply fmax_ge_r|apply fold_fmax_ge].
    + apply IH. right. exact Hin.
Qed.

Lemma fold_fadd_between lo hi l : forall acc,
  Forall (fun v => lo <= v /\ v <= hi) l ->
  acc + of_nat (length l) * lo <= fold_left fadd l acc /\
  fold_left fadd l acc <= acc + of_nat (length l) * hi.
Proof.
  induction l as [|a l IH]; intros acc H.
  - simpl. change (of_nat 0) with 0. split; lra.
  - pose proof (Forall_inv H) as [Ha1 Ha2]. pose proof (Forall_inv_tail H) as Hl.
    cbn [fold_left length]. rewrite of_nat_S.
    destruct (IH (fadd acc a) Hl) as [H1 H2].
    pose proof (fadd_eq acc a) as E. split; nra.
Qed.

Lemma arr_mean_between lo hi a :
  a <> [] -> Forall (fun v => lo <= v /\ v <= hi) a ->
  lo <= arr_mean a /\ arr_mean a <= hi.
Proof.
  intros Hne H. unfold arr_mean, arr_sum. fnorm.
  destruct (@fold_fadd_between lo hi a 0 H) as [H1 H2].
  assert (Hn : 0 < of_nat (length a)).
  { apply of_nat_pos. destruct a; [congruence|simpl; lia]. }
  split.
  - apply Qle_shift_div_l; [exact Hn|lra].
  - apply Qle_shift_div_r; [exact Hn|lra].
Qed.

(** The samples where a membership function of the length of [x] takes its
    maximum: there is one. *)
Lemma at_max_some x mfx :
  length x = length mfx -> mfx <> [] ->
  exists xs, at_max x mfx = Ok xs /\ xs <> [].
Proof.
  intros Hlen Hne. unfold at_max.
  destruct (arr_max mfx) as [m|e] eqn:Em; [|destruct mfx; [congruence|discriminate]].
  cbn [bind]. eexists. split; [reflexivity|].
  pose proof (@arr_max_In _ _ Em) as Hin.
  assert (Hz : exists p, In p (zip x mfx) /\ snd p = m).
  { clear Em Hne. revert mfx Hlen Hin.
    induction x as [|x0 x IH]; intros [|y0 y] Hlen Hin; simpl in *;
      try contradiction; try discriminate.
    destruct Hin as [->|Hin].
    - exists (x0, m). auto.
    - destruct (IH y) as (p & Hp & E); [lia|exact Hin|]. exists p. auto. }
  destruct Hz as (p & Hp & E).
  assert (Hf : In p (filter (fun p => feqb (snd p) m) (zip x mfx))).
  { apply filter_In. split; [exact Hp|]. rewrite E. apply feqb_true. reflexivity. }
  intro Hnil. apply (in_map fst) in Hf. rewrite Hnil in Hf. destruct Hf.
Qed.

(** For a membership function with one degree per sample, the smallest,
    the mean and the largest of the maximum all exist, in that order, and
    the smallest and the largest are samples of the universe. *)
Theorem maxima_in_order (x mfx : list Q) :
  length x = length mfx -> mfx <> [] ->
  exists s m l,
    defuzzify x mfx "som" = Ok s /\
    defuzzify x mfx "mom" = Ok m /\
    defuzzify x mfx "lom" = Ok l /\
    s <= m /\ m <= l /\ In s x /\ In l x.
Proof.
  intros Hlen Hne.
  destruct (@at_max_some x mfx Hlen Hne) as (xs & Hxs & Hnil).
  destruct xs as [|x0 xs]; [congruence|].
  exists (fold_left fmin xs x0), (arr_mean (x0 :: xs)), (fold_left fmax xs x0).
  unfold defuzzify, defuzz. rewrite Hlen, Nat.eqb_refl. cbn [negb].
  change (lower "som") with "som". change (lower "mom") with "mom".
  change (lower "lom") with "lom".
  change (contains "centroid" "som" || contains "bisector" "som") with false.
  change (contains "centroid" "mom" || contains "bisector" "mom") with false.
  change (contains "centroid" "lom" || contains "bisector" "lom") with false.
  change (contains "mom" "som") with false. change (contains "som" "som") with true.
  change (contains "mom" "mom") with true.
  change (contains "mom" "lom") with false. change (contains "som" "lom") with false.
  change (contains "lom" "lom") with true.
  cbv beta iota. rewrite Hxs. cbn [bind arr_min arr_max].
  split; [reflexivity|]. split; [reflexivity|]. split; [reflexivity|].
  assert (Hb : Forall (fun v => fold_left fmin xs x0 <= v /\ v <= fold_left fmax xs x0)
                      (x0 :: xs)).
  { apply Forall_forall. intros v Hv. split; [apply fold_fmin_lb|apply fold_fmax_ub]; exact Hv. }
  destruct (@arr_mean_between _ _ (x0 :: xs) Hnil Hb) as [H1 H2].
  split; [exact H1|]. split; [exact H2|]. split.
  - apply (@at_max_subset x mfx (x0 :: xs) _ Hxs). apply fold_fmin_In.
  - apply (@at_max_subset x mfx (x0 :: xs) _ Hxs). apply fold_fmax_In.
Qed.

Lemma maxima_in_order_witness :
  exists s m l,
    defuzzify [0; 1; 2; 3] [1 # 2; 1; 1; 0] "som" = Ok s /\
    defuzzify [0; 1; 2; 3] [1 # 2; 1; 1; 0] "mom" = Ok m /\
    defuzzify [0; 1; 2; 3] [1 # 2; 1; 1; 0] "lom" = Ok l /\
    s <= m /\ m <= l /\ In s [0; 1; 2; 3] /\ In l [0; 1; 2; 3].
Proof.
  apply (@maxima_in_order [0; 1; 2; 3] [1 # 2; 1; 1; 0]); [reflexivity|discriminate].
Defined.

(** ** Rows that [gen_weights_mat] needs *)

Lemma select_two_rows flat_data a c vals :
  select flat_data a c = Ok vals -> (2 <= length (loc_rows flat_data a))%nat.
Proof.
  unfold select. destruct (loc_rows flat_data a) as [|r [|r' rs]].
  - discriminate.
  - destruct (row_cell (columns flat_data) r c); discriminate.
  - intros _. simpl. lia.
Qed.

Section LoneRow.
Variable consistency_check : pydata -> string -> result unit.

(** [gen_weights_mat] selects the rows of every column label and crosses
    them with their index: a column label that labels no row, or one row
    only (a single expert), makes the method raise. *)
Theorem lone_row_raises (self : FcmDataProcessor) (d : pydata)
    (linguistic_terms : list string) (method : string)
    (tables : pydata) (flat_data : DataFrame) (a : string) :
  choose_data consistency_check self d "Matrix" = Ok (tables, flat_data) ->
  In a (columns flat_data) ->
  (length (loc_rows flat_data a) < 2)%nat ->
  exists e, gen_weights_mat consistency_check self d linguistic_terms method = Err e.
Proof.
  intros Hch Ha Hrows.
  destruct (gen_weights_mat consistency_check self d linguistic_terms method)
    as [self'|e] eqn:Hrun; [exfalso|eauto].
  destruct (@gen_weights_mat_inv _ _ _ _ _ _ Hrun)
    as (tables' & flat' & mf & self1 & wm & Hch' & _ & Hloop & _).
  rewrite Hch in Hch'. injection Hch' as <- <-.
  destruct (@mat_loop_ran _ _ _ _ _ a a Hloop Ha Ha) as (s & s' & Hstep).
  destruct (@mat_step_inv _ _ _ _ _ _ _ Hstep) as (t & Ht & _).
  destruct (@tally_select _ _ _ _ _ Ht) as (vals & Hsel).
  pose proof (@select_two_rows _ _ _ _ Hsel). lia.
Qed.
End LoneRow.

Lemma lone_row_raises_witness :
  exists e,
    gen_weights_mat no_check (fresh (matrix_data ["A"; "B"] [("Expert1", says "H")])) PyNone
      default_terms "centroid" = Err e.
Proof.
  apply (@lone_row_raises no_check (fresh (matrix_data ["A"; "B"] [("Expert1", says "H")]))
           PyNone default_terms "centroid"
           (matrix_data ["A"; "B"] [("Expert1", says "H")])
           (matrix_flat ["A"; "B"] [("Expert1", says "H")]) "A").
  - reflexivity.
  - simpl. tauto.
  - simpl. lia.
Defined.

(** ** The frequencies of one pair *)

Lemma crosstab_total vals :
  Forall (fun x => forall q, x <> Num q) vals -> exists l, crosstab vals = Ok l.
Proof.
  induction 1 as [|x vals Hx _ (l & IH)]; [exists []; reflexivity|].
  destruct x as [|t|q]; simpl.
  - eauto.
  - rewrite IH. cbn [bind]. eauto.
  - exfalso. apply (Hx q). reflexivity.
Qed.

(** The activation parameter of a pair is the table of relative
    frequencies of its labels: for cells without numbers the tally exists,
    lists every label that occurs among the cells once, in ascending order,
    and gives it the number of its occurrences divided by the number of
    experts (of tables); missing cells are not counted. *)
Theorem tally_frequencies (d : pydata) (flat_data : DataFrame)
    (antecedent consequent : string) (vals : list cell) (n : nat) :
  select flat_data antecedent consequent = Ok vals ->
  Forall (fun x => forall q, x <> Num q) vals ->
  len_keys d = Ok n ->
  exists t,
    tally d flat_data antecedent consequent = Ok t /\
    StronglySorted (@key_lt Q) t /\
    forall k f, In (k, f) t <->
      ((0 < occ k vals)%nat /\ f = fdiv (of_nat (occ k vals)) (of_nat n)).
Proof.
  intros Hsel Hvals Hn.
  destruct (crosstab_total Hvals) as (l & Hl).
  assert (Ht : tally d flat_data antecedent consequent
               = Ok (map (fun kc => (fst kc, fdiv (of_nat (snd kc)) (of_nat n))) l)).
  { unfold tally. rewrite Hsel. cbn [bind]. rewrite Hl. cbn [bind]. rewrite Hn. reflexivity. }
  eexists. split; [exact Ht|]. split.
  - pose proof (@crosstab_sorted _ _ Hl) as Hs. clear -Hs.
    induction Hs as [|kc l Hs IH Hhd]; [constructor|].
    cbn [map]. constructor; [exact IH|].
    apply Forall_forall. intros kv Hkv. apply in_map_iff in Hkv.
    destruct Hkv as (kc' & <- & Hkc'). rewrite Forall_forall in Hhd.
    exact (Hhd _ Hkc').
  - exact (@tally_occ _ _ _ _ _ _ _ Hsel Hn Ht).
Qed.

Lemma tally_frequencies_witness :
  exists t,
    tally (two_tables "H") (two_flat "H") "A" "B" = Ok t /\
    StronglySorted (@key_lt Q) t.
Proof.
  destruct (@tally_frequencies (two_tables "H") (two_flat "H") "A" "B"
              [Str "H"; Str "H"] 2%nat) as (t & Ht & Hs & _).
  - reflexivity.
  - repeat constructor; discriminate.
  - reflexivity.
  - exists t. split; [exact Ht|exact Hs].
Defined.

(** ** Experts of one mind *)

Lemma occ_unanimous k k' (vals : list cell) :
  Forall (fun x => x = Str k) vals ->
  occ k' vals = if String.eqb k k' then length vals else O.
Proof.
  unfold occ. induction 1 as [|x vals -> _ IH]; [destruct (String.eqb k k'); reflexivity|].
  cbn [filter is_label]. destruct (String.eqb k k'); cbn [length]; rewrite IH; reflexivity.
Qed.

Lemma single_entry {V} (t : list (string * V)) x :
  NoDup (keys t) -> (forall kv, In kv t -> kv = x) -> In x t -> t = [x].
Proof.
  intros Hnd Hall Hin. destruct t as [|kv t]; [destruct Hin|].
  rewrite (Hall kv (or_introl eq_refl)). f_equal.
  destruct t as [|kv' t]; [reflexivity|]. exfalso.
  pose proof (Hall kv (or_introl eq_refl)) as E1.
  pose proof (Hall kv' (or_intror (or_introl eq_refl))) as E2. subst kv kv'.
  unfold keys in Hnd. cbn [map] in Hnd. apply NoDup_cons_iff in Hnd.
  apply (proj1 Hnd). left. reflexivity.
Qed.

Lemma fdiv_same q : 0 < q -> fdiv q q = 1.
Proof.
  intro H. apply canonical_eq; [apply fdiv_canonical|reflexivity|].
  rewrite fdiv_eq. field. lra.
Qed.

Lemma fmin_one v : v <= 1 -> canonical v -> fmin 1 v = v.
Proof.
  intros Hv Hc. unfold fmin. destruct (fleb 1 v) eqn:E; [|reflexivity].
  apply fleb_true in E. symmetry. apply canonical_eq; [exact Hc|reflexivity|lra].
Qed.

(** The weight of the activation parameter with one term at frequency 1 is
    the defuzzified membership function of the term. *)
Lemma full_term_weight method k w :
  pair_weight method default_mf [(k, 1)] w ->
  exists y, sget default_mf k = Some y /\ defuzzify universe y method = Ok w.
Proof.
  intros (act & aggr & Hact & Hagg & Hw).
  unfold activate in Hact. cbn [foldM fst snd] in Hact.
  apply bind_Ok in Hact. destruct Hact as (d1 & H1 & [= <-]).
  apply bind_Ok in H1. destruct H1 as (y & Hy & [= <-]).
  assert (Hget : sget default_mf k = Some y).
  { unfold slookup, dict_lookup in Hy. unfold sget.
    destruct (dict_get String.eqb default_mf k); [injection Hy as <-; reflexivity|discriminate]. }
  exists y. split; [exact Hget|].
  cbn in Hagg. injection Hagg as <-.
  assert (E : map (fmin 1) y = y).
  { apply sget_In in Hget.
    pose proof default_mf_good as Hg. pose proof default_mf_canonical as Hc.
    unfold good_mf in Hg. rewrite Forall_forall in Hg. rewrite Forall_forall in Hc.
    destruct (Hg _ Hget) as [[_ Hdeg] _]. specialize (Hc _ Hget). cbn [snd] in *.
    rewrite <- (map_id y) at 2. apply map_ext_in. intros v Hv.
    rewrite Forall_forall in Hdeg, Hc.
    apply fmin_one; [apply Hdeg; exact Hv|apply Hc; exact Hv]. }
  rewrite E in Hw. exact Hw.
Qed.

Section Unanimous.
Variable consistency_check : pydata -> string -> result unit.

(** When all experts put the same term on a pair, [gen_weights_mat] gives
    the pair the defuzzified membership function of that term: the weight
    depends on the term and the method only, not on the number of experts
    nor on their other judgments. *)
Theorem unanimous_weight (concepts : list string) (experts : list (string * judgment))
    (method : string) (self_m : FcmDataProcessor) (a c k : string) :
  distinct concepts = true -> valid_judgments concepts experts = true ->
  In a concepts -> In c concepts ->
  (forall e, In e experts -> snd e a c = Str k) ->
  gen_weights_mat consistency_check (fresh (matrix_data concepts experts)) PyNone
    default_terms method = Ok self_m ->
  exists y w,
    sget default_mf k = Some y /\ defuzzify universe y method = Ok w /\
    cell_at (causal_weights self_m) a c = Some (Num w).
Proof.
  intros Hd Hvalid Ha Hc Hall Hrun.
  assert (Hne : experts <> []).
  { intros ->. unfold gen_weights_mat in Hrun. rewrite choose_data_fresh in Hrun.
    discriminate. }
  assert (Hn : (0 < length experts)%nat) by (destruct experts; [congruence|simpl; lia]).
  destruct (@matrix_run_cell consistency_check concepts experts method self_m a c
              Hd Hvalid Hrun Ha Hc) as (t & Ht & Hsel & Hcell).
  pose proof (@tally_occ _ _ _ _ _ _ _ Hsel (len_matrix_data concepts experts) Ht) as HM.
  assert (Hvals : Forall (fun x => x = Str k) (answers experts a c)).
  { apply Forall_forall. intros x Hx. unfold answers in Hx. apply in_map_iff in Hx.
    destruct Hx as (e & <- & He). apply Hall. exact He. }
  assert (Hlen : length (answers experts a c) = length experts)
    by (unfold answers; apply length_map).
  assert (Et : t = [(k, 1)]).
  { apply single_entry.
    - exact (@tally_nodup _ _ _ _ _ Ht).
    - intros [k' f] Hin. apply HM in Hin. destruct Hin as [Hocc ->].
      rewrite (@occ_unanimous k k' _ Hvals) in *.
      destruct (String.eqb_spec k k') as [->|Hne']; [|lia].
      rewrite Hlen. rewrite fdiv_same by (apply of_nat_pos; exact Hn). reflexivity.
    - apply HM. rewrite (@occ_unanimous k k _ Hvals), String.eqb_refl, Hlen.
      split; [exact Hn|]. symmetry. apply fdiv_same. apply of_nat_pos. exact Hn. }
  subst t. destruct Hcell as [[E _]|(_ & w & Hw & Hcw)]; [discriminate|].
  destruct (@full_term_weight method k w Hw) as (y & Hy & Hdef).
  exists y, w. auto.
Qed.
End Unanimous.

Lemma unanimous_weight_witness :
  exists y w,
    sget default_mf "-H" = Some y /\ defuzzify universe y "centroid" = Ok w /\
    forall self_m,
      gen_weights_mat no_check
        (fresh (matrix_data ["A"; "B"] [("Expert1", says "-H"); ("Expert2", says "-H")]))
        PyNone default_terms "centroid" = Ok self_m ->
      cell_at (causal_weights self_m) "A" "B" = Some (Num w).
Proof.
  destruct (gen_weights_mat no_check
              (fresh (matrix_data ["A"; "B"] [("Expert1", says "-H"); ("Expert2", says "-H")]))
              PyNone default_terms "centroid") as [self_m|e] eqn:E.
  - destruct (@unanimous_weight no_check ["A"; "B"]
                [("Expert1", says "-H"); ("Expert2", says "-H")] "centroid" self_m
                "A" "B" "-H" eq_refl eq_refl) as (y & w & Hy & Hw & Hcell).
    + simpl. tauto.
    + simpl. tauto.
    + intros e [<-|[<-|[]]]; reflexivity.
    + exact E.
    + exists y, w. split; [exact Hy|]. split; [exact Hw|].
      intros s [= <-]. exact Hcell.
  - exfalso.
    assert (H : match gen_weights_mat no_check
                        (fresh (matrix_data ["A"; "B"]
                                  [("Expert1", says "-H"); ("Expert2", says "-H")]))
                        PyNone default_terms "centroid" with
                | Ok _ => true
                | Err _ => false
                end = true) by (vm_compute; reflexivity).
    rewrite E in H. discriminate.
Defined.

(** ** The shape of the weight matrix *)

Lemma shape_blank labels self :
  shape_inv labels (data self) (self, blank_matrix labels).
Proof.
  split; [reflexivity|]. split; [reflexivity|]. split; [apply index_blank|].
  apply full_rows_blank.
Qed.

Lemma mat_step_shape d flat_data method labels d0 st a c st' :
  shape_inv labels d0 st ->
  mat_step d flat_data method st a c = Ok st' -> shape_inv labels d0 st'.
Proof.
  intros (Hd & Hc & Hi & Hwf) H.
  destruct (@mat_step_inv _ _ _ _ _ _ _ H) as (t & _ & [[_ ->]|(_ & Hw)]);
    [repeat split; assumption|].
  destruct Hw as (ap & activated & aggr & v & wm' & _ & _ & _ & _ & Hset & ->).
  destruct (@set_cell_shape _ _ _ _ _ Hset) as [Hc' Hi'].
  unfold shape_inv. cbn [fst snd data set_aggregated set_expert_data].
  split; [exact Hd|]. split; [congruence|]. split; [congruence|].
  exact (@set_cell_wf _ _ _ _ _ Hset Hwf).
Qed.

Lemma list_step_shape method finals labels d0 st p st' :
  shape_inv labels d0 st ->
  list_step method finals st p = Ok st' -> shape_inv labels d0 st'.
Proof.
  intros (Hd & Hc & Hi & Hwf) H.
  destruct (@list_step_inv _ _ _ _ _ H) as (ts & _ & [[_ ->]|(_ & Hw)]);
    [repeat split; assumption|].
  destruct Hw as (activated & aggr & v & wm' & _ & _ & _ & Hset & ->).
  destruct (@set_cell_shape _ _ _ _ _ Hset) as [Hc' Hi'].
  unfold shape_inv. cbn [fst snd data set_aggregated set_expert_data].
  split; [exact Hd|]. split; [congruence|]. split; [congruence|].
  exact (@set_cell_wf _ _ _ _ _ Hset Hwf).
Qed.

Lemma shape_fillna0 labels d0 self wm :
  shape_inv labels d0 (self, wm) ->
  columns (fillna0 wm) = labels /\ index (fillna0 wm) = labels /\ full_rows (fillna0 wm).
Proof.
  intros (_ & Hc & Hi & Hwf). cbn [fst snd] in *. split; [exact Hc|]. split.
  - unfold index, fillna0 in *. cbn [rows]. rewrite map_map. exact Hi.
  - unfold full_rows, fillna0 in *. cbn [rows columns].
    apply Forall_forall. intros row Hrow. apply in_map_iff in Hrow.
    destruct Hrow as (r & <- & Hr). cbn [snd]. rewrite length_map.
    rewrite Forall_forall in Hwf. exact (Hwf _ Hr).
Qed.

(** A table with full rows has a cell for every row and column label. *)
Lemma cell_at_full m r c :
  full_rows m -> In r (index m) -> In c (columns m) ->
  exists x, cell_at m r c = Some x.
Proof.
  intros Hwf Hr Hc. unfold cell_at, loc_rows.
  unfold index in Hr. apply in_map_iff in Hr. destruct Hr as ([l row] & E & Hin).
  cbn [fst] in E. subst l.
  destruct (filter (fun r0 : string * list cell => String.eqb (fst r0) r) (rows m))
    as [|[l' row'] rest] eqn:Ef.
  - exfalso.
    assert (Hf : In (r, row) (filter (fun r0 : string * list cell => String.eqb (fst r0) r)
                                     (rows m))).
    { apply filter_In. split; [exact Hin|]. apply String.eqb_refl. }
    rewrite Ef in Hf. destruct Hf.
  - cbn [map snd]. destruct (position_In _ _ Hc) as (j & Ej). rewrite Ej.
    assert (Hin' : In (l', row') (rows m)).
    { assert (Hf : In (l', row') (filter (fun r0 : string * list cell => String.eqb (fst r0) r)
                                         (rows m))) by (rewrite Ef; left; reflexivity).
      apply filter_In in Hf. apply Hf. }
    unfold full_rows in Hwf. rewrite Forall_forall in Hwf. specialize (Hwf _ Hin').
    cbn [snd] in Hwf.
    destruct (nth_error row' j) as [x|] eqn:En; [eauto|].
    exfalso. apply nth_error_None in En. apply position_nth in Ej.
    assert (j < length (columns m))%nat by (apply nth_error_Some; congruence). lia.
Qed.

Section Shape.
Variable consistency_check : pydata -> string -> result unit.

Lemma gen_weights_mat_shape self d linguistic_terms method self' tables flat_data :
  gen_weights_mat consistency_check self d linguistic_terms method = Ok self' ->
  choose_data consistency_check self d "Matrix" = Ok (tables, flat_data) ->
  data self' = data self /\
  columns (causal_weights self') = unique (index flat_data) /\
  index (causal_weights self') = unique (index flat_data) /\
  full_rows (causal_weights self').
Proof.
  intros Hrun Hch.
  destruct (@gen_weights_mat_inv _ _ _ _ _ _ Hrun)
    as (tables' & flat' & mf & self1 & wm & Hch' & _ & Hloop & ->).
  rewrite Hch in Hch'. injection Hch' as <- <-.
  assert (Hinv : shape_inv (unique (index flat_data)) (data self) (self1, wm)).
  { revert Hloop. apply mat_loop_inv.
    - intros a c st st' _ _ Hst Hstep. exact (@mat_step_shape _ _ _ _ _ _ _ _ _ Hst Hstep).
    - apply (@shape_blank (unique (index flat_data))
               (set_terms (set_aggregated (set_expert_data self []) []) mf)). }
  cbn [causal_weights set_causal_weights data].
  split; [apply Hinv|]. exact (@shape_fillna0 _ _ _ _ Hinv).
Qed.

Lemma gen_weights_list_shape self d linguistic_terms method self' tables flat_data froms :
  gen_weights_list consistency_check self d linguistic_terms method = Ok self' ->
  choose_data consistency_check self d "List" = Ok (tables, flat_data) ->
  column_labels flat_data "From" = Ok froms ->
  data self' = data self /\
  columns (causal_weights self') = unique froms /\
  index (causal_weights self') = unique froms /\
  full_rows (causal_weights self').
Proof.
  intros Hrun Hch Hfr. unfold gen_weights_list in Hrun.
  rewrite Hch in Hrun. cbn [bind] in Hrun. rewrite Hfr in Hrun. cbn [bind] in Hrun.
  apply bind_Ok in Hrun. destruct Hrun as (pairs & _ & Hrun).
  apply bind_Ok in Hrun. destruct Hrun as (finals & _ & Hrun).
  apply bind_Ok in Hrun. destruct Hrun as (mf & _ & Hrun).
  apply bind_Ok in Hrun. destruct Hrun as ([self1 wm] & Hloop & [= <-]).
  assert (Hinv : shape_inv (unique froms) (data self) (self1, wm)).
  { revert Hloop. apply foldM_inv.
    - intros p st st' _ Hst Hstep. exact (@list_step_shape _ _ _ _ _ _ _ Hst Hstep).
    - apply (@shape_blank (unique froms)
               (set_terms (set_aggregated (set_expert_data self []) []) mf)). }
  cbn [causal_weights set_causal_weights data].
  split; [apply Hinv|]. exact (@shape_fillna0 _ _ _ _ Hinv).
Qed.

(** After [gen_weights_mat] the weight matrix is square over the distinct
    row labels of the flat table, in the order of their first rows: these
    are its columns and its index, and every cell under them holds a
    number. *)
Theorem mat_weights_square (self : FcmDataProcessor) (d : pydata)
    (linguistic_terms : list string) (method : string) (self' : FcmDataProcessor)
    (tables : pydata) (flat_data : DataFrame) :
  gen_weights_mat consistency_check self d linguistic_terms method = Ok self' ->
  choose_data consistency_check self d "Matrix" = Ok (tables, flat_data) ->
  columns (causal_weights self') = unique (index flat_data) /\
  index (causal_weights self') = unique (index flat_data) /\
  forall r c, In r (index flat_data) -> In c (index flat_data) ->
    exists v, cell_at (causal_weights self') r c = Some (Num v).
Proof.
  intros Hrun Hch.
  destruct (@gen_weights_mat_shape _ _ _ _ _ _ _ Hrun Hch) as (_ & Hc & Hi & Hwf).
  split; [exact Hc|]. split; [exact Hi|].
  intros r c Hr Hcc.
  destruct (@cell_at_full (causal_weights self') r c Hwf) as (x & Hx).
  - rewrite Hi. apply unique_In. exact Hr.
  - rewrite Hc. apply unique_In. exact Hcc.
  - destruct (@gen_weights_mat_bounded consistency_check _ _ _ _ _ Hrun) as (wm & E & Hb).
    rewrite E in Hx. destruct (@fillna0_cells _ _ _ _ Hb Hx) as (v & -> & _).
    exists v. rewrite E. exact Hx.
Qed.

(** After [gen_weights_list] the weight matrix is square over the distinct
    labels of the column [From], in the order of their first rows: a
    concept that only occurs under [To] has neither a row nor a column. *)
Theorem list_weights_square (self : FcmDataProcessor) (d : pydata)
    (linguistic_terms : list string) (method : string) (self' : FcmDataProcessor)
    (tables : pydata) (flat_data : DataFrame) (froms : list string) :
  gen_weights_list consistency_check self d linguistic_terms method = Ok self' ->
  choose_data consistency_check self d "List" = Ok (tables, flat_data) ->
  column_labels flat_data "From" = Ok froms ->
  columns (causal_weights self') = unique froms /\
  index (causal_weights self') = unique froms /\
  (forall r c, In r froms -> In c froms ->
     exists v, cell_at (causal_weights self') r c = Some (Num v)) /\
  (forall r c, ~ In c froms -> cell_at (causal_weights self') r c = None).
Proof.
  intros Hrun Hch Hfr.
  destruct (@gen_weights_list_shape _ _ _ _ _ _ _ _ Hrun Hch Hfr) as (_ & Hc & Hi & Hwf).
  split; [exact Hc|]. split; [exact Hi|]. split.
  - intros r c Hr Hcc.
    destruct (@cell_at_full (causal_weights self') r c Hwf) as (x & Hx).
    + rewrite Hi. apply unique_In. exact Hr.
    + rewrite Hc. apply unique_In. exact Hcc.
    + destruct (@gen_weights_list_bounded consistency_check _ _ _ _ _ Hrun) as (wm & E & Hb).
      rewrite E in Hx. destruct (@fillna0_cells _ _ _ _ Hb Hx) as (v & -> & _).
      exists v. rewrite E. exact Hx.
  - intros r c Hnc. unfold cell_at.
    destruct (loc_rows (causal_weights self') r) as [|row rest]; [reflexivity|].
    destruct (position c (columns (causal_weights self'))) as [j|] eqn:Ej; [|reflexivity].
    exfalso. apply Hnc. apply position_nth in Ej. apply nth_error_In in Ej.
    rewrite Hc in Ej. apply (proj1 (unique_In c froms)) in Ej. exact Ej.
Qed.
End Shape.

Lemma mat_weights_square_witness :
  exists self',
    gen_weights_mat no_check (fresh (two_tables "H")) PyNone default_terms "centroid"
      = Ok self' /\
    columns (causal_weights self') = ["A"; "B"] /\
    index (causal_weights self') = ["A"; "B"].
Proof.
  destruct (gen_weights_mat no_check (fresh (two_tables "H")) PyNone default_terms "centroid")
    as [self'|e] eqn:E.
  - exists self'. split; [reflexivity|].
    destruct (@mat_weights_square no_check (fresh (two_tables "H")) PyNone default_terms
                "centroid" self' (two_tables "H") (two_flat "H") E eq_refl)
      as (Hc & Hi & _).
    split; [exact Hc|exact Hi].
  - exfalso.
    assert (H : match gen_weights_mat no_check (fresh (two_tables "H")) PyNone
                        default_terms "centroid" with
                | Ok _ => true
                | Err _ => false
                end = true) by (vm_compute; reflexivity).
    rewrite E in H. discriminate.
Defined.

Lemma list_weights_square_witness :
  exists self',
    gen_weights_list no_check (fresh (list_data ["A"; "B"] united_experts)) PyNone
      default_terms "centroid" = Ok self' /\
    columns (causal_weights self') = ["A"; "B"] /\
    index (causal_weights self') = ["A"; "B"].
Proof.
  destruct (gen_weights_list no_check (fresh (list_data ["A"; "B"] united_experts)) PyNone
              default_terms "centroid") as [self'|e] eqn:E.
  - exists self'. split; [reflexivity|].
    destruct (@list_weights_square no_check (fresh (list_data ["A"; "B"] united_experts))
                PyNone default_terms "centroid" self'
                (list_data ["A"; "B"] united_experts)
                (list_flat ["A"; "B"] united_experts)
                (map fst (list_pairs ["A"; "B"] united_experts)) E eq_refl eq_refl)
      as (Hc & Hi & _).
    split; [exact Hc|exact Hi].
  - exfalso.
    assert (H : match gen_weights_list no_check (fresh (list_data ["A"; "B"] united_experts))
                        PyNone default_terms "centroid" with
                | Ok _ => true
                | Err _ => false
                end = true) by (vm_compute; reflexivity).
    rewrite E in H. discriminate.
Defined.

(** ** A second run *)

Lemma foldM_same_outcome {A S} (f : S -> A -> result S) (R : S -> S -> Prop) l :
  (forall x s1 s2, R s1 s2 -> same_outcome R (f s1 x) (f s2 x)) ->
  forall s1 s2, R s1 s2 -> same_outcome R (foldM f s1 l) (foldM f s2 l).
Proof.
  intro Hf. induction l as [|x l IH]; intros s1 s2 Hs; [exact Hs|].
  cbn [foldM]. specialize (Hf x s1 s2 Hs).
  destruct (f s1 x) as [a|e1], (f s2 x) as [b|e2]; cbn [bind same_outcome] in *;
    try contradiction; [apply IH; exact Hf|exact Hf].
Qed.

Lemma infer_same_outcome method a c ap st1 st2 :
  same_states st1 st2 ->
  same_outcome same_states (infer method a c ap st1) (infer method a c ap st2).
Proof.
  destruct st1 as [[d1 e1 a1 t1 c1] wm1], st2 as [[d2 e2 a2 t2 c2] wm2].
  intros [(Hd & He & Ha & Ht) Hwm]. cbn [fst snd data expert_data aggregated terms] in *.
  subst d2 e2 a2 t2 wm2. unfold infer. cbn [terms aggregated set_aggregated].
  destruct (activate ap t1) as [act|e]; cbn [bind same_outcome]; [|reflexivity].
  destruct (aggregate act) as [aggr|e]; cbn [bind same_outcome]; [|reflexivity].
  destruct (defuzzify universe aggr method) as [v|e]; cbn [bind same_outcome]; [|reflexivity].
  destruct (set_cell wm1 a c v) as [wm'|e]; cbn [bind same_outcome]; [|reflexivity].
  repeat split.
Qed.

Lemma mat_step_same_outcome d flat_data method a c st1 st2 :
  same_states st1 st2 ->
  same_outcome same_states (mat_step d flat_data method st1 a c)
                           (mat_step d flat_data method st2 a c).
Proof.
  intro H. unfold mat_step.
  destruct (tally d flat_data a c) as [t|e]; cbn [bind same_outcome]; [|reflexivity].
  destruct (negb (Nat.eqb (length t) 0)); [|exact H].
  destruct (py_eval (replace_dquote (str_dict t))) as [ap|e]; cbn [bind same_outcome];
    [|reflexivity].
  apply infer_same_outcome.
  destruct H as [(Hd & He & Ha & Ht) Hwm]. split; [|exact Hwm].
  repeat split; cbn [fst data expert_data aggregated terms set_expert_data];
    congruence.
Qed.

Lemma list_step_same_outcome method finals p st1 st2 :
  same_states st1 st2 ->
  same_outcome same_states (list_step method finals st1 p) (list_step method finals st2 p).
Proof.
  intro H. unfold list_step.
  destruct (dict_lookup pair_eqb finals p) as [ts|e]; cbn [bind same_outcome]; [|reflexivity].
  assert (H' : same_states
            (set_expert_data (fst st1)
               (dict_set pair_eqb (expert_data (fst st1)) p (signed_terms ts)), snd st1)
            (set_expert_data (fst st2)
               (dict_set pair_eqb (expert_data (fst st2)) p (signed_terms ts)), snd st2)).
  { destruct H as [(Hd & He & Ha & Ht) Hwm]. split; [|exact Hwm].
    repeat split; cbn [fst data expert_data aggregated terms set_expert_data];
      congruence. }
  destruct (negb (forallb (fun x => feqb x 0) (values (signed_terms ts)))).
  - apply infer_same_outcome. exact H'.
  - exact H'.
Qed.

Lemma same_final s1 s2 wm :
  same_but_weights s1 s2 -> set_causal_weights s1 wm = set_causal_weights s2 wm.
Proof.
  destruct s1, s2. intros (Hd & He & Ha & Ht). cbn in *. subst. reflexivity.
Qed.

Section SecondRun.
Variable consistency_check : pydata -> string -> result unit.

Lemma choose_data_same s1 s2 d dtype :
  data s1 = data s2 ->
  choose_data consistency_check s1 d dtype = choose_data consistency_check s2 d dtype.
Proof. intro H. unfold choose_data. rewrite H. reflexivity. Qed.

Lemma gen_weights_mat_same s1 s2 d linguistic_terms method :
  data s1 = data s2 ->
  gen_weights_mat consistency_check s1 d linguistic_terms method
  = gen_weights_mat consistency_check s2 d linguistic_terms method.
Proof.
  intro H. unfold gen_weights_mat. rewrite (@choose_data_same s1 s2 d "Matrix" H).
  destruct (choose_data consistency_check s2 d "Matrix") as [[tables flat_data]|e];
    cbn [bind]; [|reflexivity].
  destruct (automf universe linguistic_terms) as [mf|e]; cbn [bind]; [|reflexivity].
  pose proof (@foldM_same_outcome _ _
                (fun st a => foldM (fun st c => mat_step tables flat_data method st a c)
                                   st (columns flat_data))
                same_states (columns flat_data)) as Hsim.
  unfold mat_loop.
  specialize (Hsim (fun a st1 st2 Hst =>
                      @foldM_same_outcome _ _
                        (fun st c => mat_step tables flat_data method st a c)
                        same_states (columns flat_data)
                        (fun c t1 t2 Ht => @mat_step_same_outcome tables flat_data method
                                             a c t1 t2 Ht)
                        st1 st2 Hst)).
  specialize (Hsim
    (set_terms (set_aggregated (set_expert_data s1 []) []) mf,
     blank_matrix (unique (index flat_data)))
    (set_terms (set_aggregated (set_expert_data s2 []) []) mf,
     blank_matrix (unique (index flat_data)))).
  match type of Hsim with
  | _ -> same_outcome _ ?r1 ?r2 => destruct r1 as [[a1 w1]|e1], r2 as [[a2 w2]|e2]
  end; cbn [bind same_outcome] in *.
  - destruct Hsim as [Hs Hw]; [repeat split; exact H|]. cbn [fst snd] in *. subst w2.
    f_equal. apply same_final. exact Hs.
  - exfalso. apply Hsim. repeat split; exact H.
  - exfalso. apply Hsim. repeat split; exact H.
  - f_equal. apply Hsim. repeat split; exact H.
Qed.

Lemma gen_weights_list_same s1 s2 d linguistic_terms method :
  data s1 = data s2 ->
  gen_weights_list consistency_check s1 d linguistic_terms method
  = gen_weights_list consistency_check s2 d linguistic_terms method.
Proof.
  intro H. unfold gen_weights_list. rewrite (@choose_data_same s1 s2 d "List" H).
  destruct (choose_data consistency_check s2 d "List") as [[tables flat_data]|e];
    cbn [bind]; [|reflexivity].
  destruct (column_labels flat_data "From") as [froms|e]; cbn [bind]; [|reflexivity].
  destruct (mapM (fun r => row_pair flat_data (snd r)) (rows flat_data)) as [pairs|e];
    cbn [bind]; [|reflexivity].
  destruct (mapM (fun p => ts <- term_set tables flat_data pairs p ;; Ok (p, ts))
                 (group_keys pairs)) as [finals|e]; cbn [bind]; [|reflexivity].
  destruct (automf universe linguistic_terms) as [mf|e]; cbn [bind]; [|reflexivity].
  pose proof (@foldM_same_outcome _ _ (list_step method finals) same_states
                (group_keys pairs)
                (fun p t1 t2 Ht => @list_step_same_outcome method finals p t1 t2 Ht)
                (set_terms (set_aggregated (set_expert_data s1 []) []) mf,
                 blank_matrix (unique froms))
                (set_terms (set_aggregated (set_expert_data s2 []) []) mf,
                 blank_matrix (unique froms))) as Hsim.
  match type of Hsim with
  | _ -> same_outcome _ ?r1 ?r2 => destruct r1 as [[a1 w1]|e1], r2 as [[a2 w2]|e2]
  end; cbn [bind same_outcome] in *.
  - destruct Hsim as [Hs Hw]; [repeat split; exact H|]. cbn [fst snd] in *. subst w2.
    f_equal. apply same_final. exact Hs.
  - exfalso. apply Hsim. repeat split; exact H.
  - exfalso. apply Hsim. repeat split; exact H.
  - f_equal. apply Hsim. repeat split; exact H.
Qed.

(** [gen_weights_mat] starts from scratch: its outcome depends on the
    processor only through the data it holds, which it leaves as they are
    (also when other data are passed); so a second call with the same
    arguments ends with the same processor as the first. *)
Theorem mat_second_run (self : FcmDataProcessor) (d : pydata)
    (linguistic_terms : list string) (method : string) (self' : FcmDataProcessor) :
  gen_weights_mat consistency_check self d linguistic_terms method = Ok self' ->
  data self' = data self /\
  gen_weights_mat consistency_check self' d linguistic_terms method = Ok self' /\
  forall other, data other = data self ->
    gen_weights_mat consistency_check other d linguistic_terms method = Ok self'.
Proof.
  intro Hrun.
  assert (Hd : data self' = data self).
  { destruct (@gen_weights_mat_inv _ _ _ _ _ _ Hrun)
      as (tables & flat_data & mf & self1 & wm & Hch & _ & _ & _).
    apply (@gen_weights_mat_shape consistency_check _ _ _ _ _ _ _ Hrun Hch). }
  split; [exact Hd|]. split.
  - rewrite (@gen_weights_mat_same self' self d linguistic_terms method Hd). exact Hrun.
  - intros other Ho.
    rewrite (@gen_weights_mat_same other self d linguistic_terms method Ho). exact Hrun.
Qed.

(** [gen_weights_list] starts from scratch as well: its outcome depends on
    the processor only through its data, which it leaves as they are, and
    a second call ends with the same processor as the first. *)
Theorem list_second_run (self : FcmDataProcessor) (d : pydata)
    (linguistic_terms : list string) (method : string) (self' : FcmDataProcessor) :
  gen_weights_list consistency_check self d linguistic_terms method = Ok self' ->
  data self' = data self /\
  gen_weights_list consistency_check self' d linguistic_terms method = Ok self' /\
  forall other, data other = data self ->
    gen_weights_list consistency_check other d linguistic_terms method = Ok self'.
Proof.
  intro Hrun.
  assert (Hd : data self' = data self).
  { pose proof Hrun as Hrun'. unfold gen_weights_list in Hrun'.
    apply bind_Ok in Hrun'. destruct Hrun' as ([tables flat_data] & Hch & Hrun').
    apply bind_Ok in Hrun'. destruct Hrun' as (froms & Hfr & _).
    apply (@gen_weights_list_shape consistency_check _ _ _ _ _ _ _ _ Hrun Hch Hfr). }
  split; [exact Hd|]. split.
  - rewrite (@gen_weights_list_same self' self d linguistic_terms method Hd). exact Hrun.
  - intros other Ho.
    rewrite (@gen_weights_list_same other self d linguistic_terms method Ho). exact Hrun.
Qed.
End SecondRun.

Lemma mat_second_run_witness :
  exists self',
    gen_weights_mat no_check (fresh (two_tables "H")) PyNone default_terms "centroid"
      = Ok self' /\
    gen_weights_mat no_check self' PyNone default_terms "centroid" = Ok self'.
Proof.
  destruct (gen_weights_mat no_check (fresh (two_tables "H")) PyNone default_terms "centroid")
    as [self'|e] eqn:E.
  - exists self'. split; [reflexivity|].
    exact (proj1 (proj2 (@mat_second_run no_check (fresh (two_tables "H")) PyNone
                           default_terms "centroid" self' E))).
  - exfalso.
    assert (H : match gen_weights_mat no_check (fresh (two_tables "H")) PyNone
                        default_terms "centroid" with
                | Ok _ => true
                | Err _ => false
                end = true) by (vm_compute; reflexivity).
    rewrite E in H. discriminate.
Defined.

Lemma list_second_run_witness :
  exists self',
    gen_weights_list no_check (fresh (list_data ["A"; "B"] united_experts)) PyNone
      default_terms "centroid" = Ok self' /\
    gen_weights_list no_check self' PyNone default_terms "centroid" = Ok self'.
Proof.
  destruct (gen_weights_list no_check (fresh (list_data ["A"; "B"] united_experts)) PyNone
              default_terms "centroid") as [self'|e] eqn:E.
  - exists self'. split; [reflexivity|].
    exact (proj1 (proj2 (@list_second_run no_check
                           (fresh (list_data ["A"; "B"] united_experts)) PyNone
                           default_terms "centroid" self' E))).
  - exfalso.
    assert (H : match gen_weights_list no_check (fresh (list_data ["A"; "B"] united_experts))
                        PyNone default_terms "centroid" with
                | Ok _ => true
                | Err _ => false
                end = true) by (vm_compute; reflexivity).
    rewrite E in H. discriminate.
Defined.

(** ** Votes for and against a term in the edge list *)

Lemma Qred_zero q : q == 0 -> Qred q = 0.
Proof. intro H. apply (Qred_complete q 0 H). Qed.

(** In the edge list format a term column holds [1] for the term and [-1]
    for the term with a minus sign.  The mean of the column times its
    frequency is the number of votes for the term less the number against
    it, over the number of experts: opposite votes cancel, the sign loop
    names the side with more votes and keeps the margin as its frequency,
    and a tie leaves the term at zero. *)
Theorem opposite_votes_cancel (b : string) (vals : list cell) (n : nat) :
  (0 < n)%nat ->
  exists v,
    signed_freq n (map (code b) vals) = Ok v /\
    v == (of_nat (occ b vals) - of_nat (occ (minus b) vals)) / of_nat n /\
    (sign_prefix v ++ b)%string
      = (if Nat.ltb (occ b vals) (occ (minus b) vals) then minus b else b) /\
    magnitude v == Qabs (of_nat (occ b vals) - of_nat (occ (minus b) vals)) / of_nat n /\
    (occ b vals = occ (minus b) vals -> v = 0).
Proof.
  intro Hn. unfold signed_freq, mean_cells.
  destruct (sum_cells_code b vals) as (s & Hs & Es). rewrite Hs. cbn [bind].
  rewrite count_cells_code.
  pose proof (of_nat_pos Hn) as Hnq.
  generalize dependent (occ (minus b) vals). generalize dependent (occ b vals).
  intros p m Es.
  assert (Hval : exists v,
            match (p + m)%nat with
            | O => Ok 0
            | S _ => Ok (fmul (fdiv s (of_nat (p + m))) (fdiv (of_nat (p + m)) (of_nat n)))
            end = Ok v /\ v == (of_nat p - of_nat m) / of_nat n /\ (p = m -> v = 0)).
  { destruct (p + m)%nat as [|k] eqn:Ec.
    - exists 0. split; [reflexivity|]. split; [|reflexivity].
      assert (p = O) by lia. assert (m = O) by lia. subst p m.
      change (of_nat 0) with 0. field. lra.
    - eexists. split; [reflexivity|].
      assert (Hk : 0 < of_nat (S k)) by (apply of_nat_pos; lia).
      assert (Eval : fmul (fdiv s (of_nat (S k))) (fdiv (of_nat (S k)) (of_nat n))
                     == (of_nat p - of_nat m) / of_nat n).
      { fnorm. rewrite Es. field. split; lra. }
      split; [exact Eval|].
      intro Epm. unfold fmul. apply Qred_zero. fnorm. rewrite Es, Epm. field. split; lra. }
  destruct Hval as (v & Hv & Ev & Hz).
  exists v. split.
  { destruct (p + m)%nat; exact Hv. }
  split; [exact Ev|].
  assert (Hp : 0 <= of_nat p) by apply of_nat_nonneg.
  assert (Hm : 0 <= of_nat m) by apply of_nat_nonneg.
  assert (Hlt : (p < m)%nat -> v < 0).
  { intro H. rewrite Ev.
    assert (of_nat p < of_nat m).
    { unfold of_nat. rewrite <- Zlt_Qlt. lia. }
    setoid_replace ((of_nat p - of_nat m) / of_nat n)
      with (- ((of_nat m - of_nat p) / of_nat n)) by (field; lra).
    assert (0 < (of_nat m - of_nat p) / of_nat n) by (apply Qdiv_pos; lra). lra. }
  assert (Hge : (m <= p)%nat -> 0 <= v).
  { intro H. rewrite Ev.
    assert (of_nat m <= of_nat p) by (apply of_nat_le; exact H).
    apply Qle_shift_div_l; [exact Hnq|lra]. }
  split; [|split; [|exact Hz]].
  - destruct (Nat.ltb_spec p m) as [H|H].
    + rewrite (sign_prefix_neg (Hlt H)). reflexivity.
    + rewrite (sign_prefix_nonneg (Hge H)). reflexivity.
  - destruct (Nat.lt_ge_cases p m) as [H|H].
    + rewrite (magnitude_neg (Hlt H)), Ev.
      assert (of_nat p < of_nat m) by (unfold of_nat; rewrite <- Zlt_Qlt; lia).
      rewrite Qabs_neg by lra. field. lra.
    + rewrite (magnitude_nonneg_id (Hge H)), Ev.
      assert (of_nat m <= of_nat p) by (apply of_nat_le; exact H).
      rewrite Qabs_pos by lra. reflexivity.
Qed.

Lemma opposite_votes_cancel_witness :
  exists v,
    signed_freq 3 (map (code "H") [Str "H"; Str "H"; Str "-H"]) = Ok v /\
    v == 1 # 3 /\ (sign_prefix v ++ "H")%string = "H".
Proof.
  destruct (@opposite_votes_cancel "H" [Str "H"; Str "H"; Str "-H"] 3%nat) as
    (v & Hv & Ev & Hs & _); [lia|].
  exists v. split; [exact Hv|]. split; [|exact Hs].
  rewrite Ev. reflexivity.
Defined.

(** ** A pair without any vote in the edge list *)

Lemma froms_of_pairs flat_data froms pairs :
  column_labels flat_data "From" = Ok froms ->
  mapM (fun r => row_pair flat_data (snd r)) (rows flat_data) = Ok pairs ->
  froms = map fst pairs.
Proof.
  unfold column_labels. generalize (rows flat_data) as rs.
  intro rs. revert froms pairs.
  induction rs as [|r rs IH]; intros froms pairs Hf Hp; simpl in Hf, Hp.
  - injection Hf as <-. injection Hp as <-. reflexivity.
  - apply bind_Ok in Hf. destruct Hf as (x & Hx & Hf).
    apply bind_Ok in Hf. destruct Hf as (fs & Hfs & [= <-]).
    apply bind_Ok in Hp. destruct Hp as (p & Hp1 & Hp).
    apply bind_Ok in Hp. destruct Hp as (ps & Hps & [= <-]).
    cbn [map]. rewrite (IH fs ps Hfs Hps). f_equal.
    unfold row_pair in Hp1. rewrite Hx in Hp1. cbn [bind] in Hp1.
    apply bind_Ok in Hp1. destruct Hp1 as (y & _ & [= <-]). reflexivity.
Qed.

Section ListRun.
Variable consistency_check : pydata -> string -> result unit.

(** What a run of [gen_weights_list] that ends has done. *)
Lemma gen_weights_list_inv self d linguistic_terms method self' :
  gen_weights_list consistency_check self d linguistic_terms method = Ok self' ->
  exists tables flat_data froms pairs finals mf self1 wm,
    choose_data consistency_check self d "List" = Ok (tables, flat_data) /\
    column_labels flat_data "From" = Ok froms /\
    mapM (fun r => row_pair flat_data (snd r)) (rows flat_data) = Ok pairs /\
    mapM (fun p => ts <- term_set tables flat_data pairs p ;; Ok (p, ts)) (group_keys pairs)
      = Ok finals /\
    automf universe linguistic_terms = Ok mf /\
    foldM (list_step method finals)
      (set_terms (set_aggregated (set_expert_data self []) []) mf,
       blank_matrix (unique froms)) (group_keys pairs) = Ok (self1, wm) /\
    self' = set_causal_weights self1 (fillna0 wm).
Proof.
  unfold gen_weights_list. intro H.
  apply bind_Ok in H. destruct H as ([tables flat_data] & Hch & H).
  apply bind_Ok in H. destruct H as (froms & Hfr & H).
  apply bind_Ok in H. destruct H as (pairs & Hp & H).
  apply bind_Ok in H. destruct H as (finals & Hfin & H).
  apply bind_Ok in H. destruct H as (mf & Hmf & H).
  apply bind_Ok in H. destruct H as ([self1 wm] & Hloop & [= <-]).
  exists tables, flat_data, froms, pairs, finals, mf, self1, wm. auto 10.
Qed.

(** In [gen_weights_list] a pair of the edge list whose signed frequencies
    are all zero is still recorded in [expert_data], with its terms at
    frequency zero, but nothing is inferred for it: its cell of the weight
    matrix (when its target is also a source) ends as [0]. *)
Theorem list_silent_pair (self : FcmDataProcessor) (d : pydata)
    (linguistic_terms : list string) (method : string) (self' : FcmDataProcessor)
    (tables : pydata) (flat_data : DataFrame) (pairs : list (string * string))
    (antecedent consequent : string) (ts : list (string * Q)) :
  gen_weights_list consistency_check self d linguistic_terms method = Ok self' ->
  choose_data consistency_check self d "List" = Ok (tables, flat_data) ->
  mapM (fun r => row_pair flat_data (snd r)) (rows flat_data) = Ok pairs ->
  In (antecedent, consequent) pairs ->
  term_set tables flat_data pairs (antecedent, consequent) = Ok ts ->
  forallb (fun x => feqb x 0) (values (signed_terms ts)) = true ->
  dict_get pair_eqb (expert_data self') (antecedent, consequent) = Some (signed_terms ts) /\
  (In consequent (map fst pairs) ->
   cell_at (causal_weights self') antecedent consequent = Some (Num 0)).
Proof.
  intros Hrun Hch Hp Hin Hts Hz.
  destruct (@gen_weights_list_inv _ _ _ _ _ Hrun)
    as (tables' & flat' & froms & pairs' & finals & mf & self1 & wm &
        Hch' & Hfr & Hp' & Hfin & Hmf & Hloop & ->).
  rewrite Hch in Hch'. injection Hch' as <- <-.
  rewrite Hp in Hp'. injection Hp' as <-.
  pose proof (@froms_of_pairs _ _ _ Hfr Hp) as ->.
  assert (Hkey : In (antecedent, consequent) (group_keys pairs))
    by (apply group_keys_In; exact Hin).
  destruct (@foldM_ran _ _ _ _ _ _ (antecedent, consequent) Hloop Hkey) as (s & s' & Hstep).
  destruct (@list_step_inv _ _ _ _ _ Hstep) as (ts' & Hlook & _).
  pose proof (@finals_lookup _ _ _ _ _ _ Hfin Hlook) as Hterm.
  rewrite Hts in Hterm. injection Hterm as <-.
  split.
  - cbn [expert_data set_causal_weights].
    pose proof Hloop as Hloop'. revert Hloop'.
    apply (@foldM_post _ _ (list_step method finals) (fun _ => True)
             (fun st => dict_get pair_eqb (expert_data (fst st)) (antecedent, consequent)
                        = Some (signed_terms ts))
             _ (antecedent, consequent)).
    + intro p. apply pair_dec.
    + intros; exact I.
    + intros st st1 _ Hs.
      destruct (@list_step_inv _ _ _ _ _ Hs) as (ts1 & Hl1 & [[_ ->]|(_ & Hw)]).
      * rewrite Hlook in Hl1. injection Hl1 as <-.
        cbn [fst expert_data set_expert_data].
        rewrite (@dict_get_set _ _ pair_eqb pair_eqb_eq).
        assert (E : pair_eqb (antecedent, consequent) (antecedent, consequent) = true)
          by (apply pair_eqb_eq; reflexivity).
        rewrite E. reflexivity.
      * rewrite Hlook in Hl1. injection Hl1 as <-.
        destruct Hw as (activated & aggr & v & wm' & _ & _ & _ & _ & ->).
        cbn [fst expert_data set_expert_data set_aggregated].
        rewrite (@dict_get_set _ _ pair_eqb pair_eqb_eq).
        assert (E : pair_eqb (antecedent, consequent) (antecedent, consequent) = true)
          by (apply pair_eqb_eq; reflexivity).
        rewrite E. reflexivity.
    + intros p st st1 _ Hne _ Hpost Hs.
      assert (E : pair_eqb p (antecedent, consequent) = false).
      { destruct (pair_eqb p (antecedent, consequent)) eqn:E; [|reflexivity].
        apply pair_eqb_eq in E. congruence. }
      destruct (@list_step_inv _ _ _ _ _ Hs) as (ts1 & _ & [[_ ->]|(_ & Hw)]).
      * cbn [fst expert_data set_expert_data].
        rewrite (@dict_get_set _ _ pair_eqb pair_eqb_eq), E. exact Hpost.
      * destruct Hw as (activated & aggr & v & wm' & _ & _ & _ & _ & ->).
        cbn [fst expert_data set_expert_data set_aggregated].
        rewrite (@dict_get_set _ _ pair_eqb pair_eqb_eq), E. exact Hpost.
    + exact Hkey.
    + exact I.
  - intro Hc.
    assert (Ha : In antecedent (map fst pairs)) by (apply (in_map fst _ _ Hin)).
    destruct (@list_loop_cell method finals mf (unique (map fst pairs)) _ _ _
                antecedent consequent ts Hloop Hkey Hlook)
      as [[_ Hcell]|(Hnz & _)].
    + split; [reflexivity|]. split; [reflexivity|]. apply full_rows_blank.
    + apply unique_In. exact Hc.
    + cbn [snd]. apply cell_at_blank; apply unique_In; assumption.
    + cbn [causal_weights set_causal_weights]. rewrite cell_at_fillna0.
      cbn [snd] in Hcell. rewrite Hcell. reflexivity.
    + congruence.
Qed.
End ListRun.

Lemma list_silent_pair_witness :
  exists self' ts,
    gen_weights_list no_check (fresh (list_data ["A"; "B"] opposed_experts)) PyNone
      default_terms "centroid" = Ok self' /\
    dict_get pair_eqb (expert_data self') ("A", "B") = Some (signed_terms ts) /\
    cell_at (causal_weights self') "A" "B" = Some (Num 0).
Proof.
  destruct (gen_weights_list no_check (fresh (list_data ["A"; "B"] opposed_experts)) PyNone
              default_terms "centroid") as [self'|e] eqn:E.
  - exists self', [("VL", 0); ("L", 0); ("M", 0); ("H", 0); ("VH", 0)].
    split; [reflexivity|].
    destruct (@list_silent_pair no_check (fresh (list_data ["A"; "B"] opposed_experts))
                PyNone default_terms "centroid" self'
                (list_data ["A"; "B"] opposed_experts)
                (list_flat ["A"; "B"] opposed_experts)
                (list_pairs ["A"; "B"] opposed_experts)
                "A" "B" [("VL", 0); ("L", 0); ("M", 0); ("H", 0); ("VH", 0)]
                E eq_refl eq_refl) as [H1 H2].
    + simpl. tauto.
    + reflexivity.
    + reflexivity.
    + split; [exact H1|]. apply H2. simpl. tauto.
  - exfalso.
    assert (H : match gen_weights_list no_check (fresh (list_data ["A"; "B"] opposed_experts))
                        PyNone default_terms "centroid" with
                | Ok _ => true
                | Err _ => false
                end = true) by (vm_compute; reflexivity).
    rewrite E in H. discriminate.
Defined.

(** ** The centroid as a sum over the figures between the samples *)

Lemma centroid_loop_adj pts : forall x1 y1 acc,
  fst (centroid_loop x1 y1 pts acc)
    == fst acc + sum_fst (map contrib (adj ((x1, y1) :: pts))) /\
  snd (centroid_loop x1 y1 pts acc)
    == snd acc + sum_snd (map contrib (adj ((x1, y1) :: pts))).
Proof.
  induction pts as [|[x2 y2] pts IH]; intros x1 y1 acc.
  - cbn. split; ring.
  - cbn [centroid_loop].
    change (adj ((x1, y1) :: (x2, y2) :: pts))
      with (((x1, y1), (x2, y2)) :: adj ((x2, y2) :: pts)).
    cbn [map sum_fst sum_snd fold_right].
    fold (sum_fst (map contrib (adj ((x2, y2) :: pts)))).
    fold (sum_snd (map contrib (adj ((x2, y2) :: pts)))).
    unfold contrib at 1 3. cbn [fst snd].
    destruct (seg_moment_area x1 y1 x2 y2) as [[m a]|];
      match goal with
      | |- context [centroid_loop x2 y2 pts ?acc'] =>
          destruct (IH x2 y2 acc') as [H1 H2]
      end; rewrite H1, H2; cbn [fst snd]; rewrite ?fadd_eq, ?fmul_eq; split; ring.
Qed.

Lemma sum_fst_cons c l : sum_fst (c :: l) = fst c + sum_fst l.
Proof. reflexivity. Qed.

Lemma sum_snd_cons c l : sum_snd (c :: l) = snd c + sum_snd l.
Proof. reflexivity. Qed.

Lemma sum_fst_app l1 l2 : sum_fst (l1 ++ l2) == sum_fst l1 + sum_fst l2.
Proof.
  induction l1 as [|c l1 IH]; [change (sum_fst []) with 0; cbn [app]; lra|].
  cbn [app]. rewrite !sum_fst_cons, IH. lra.
Qed.

Lemma sum_snd_app l1 l2 : sum_snd (l1 ++ l2) == sum_snd l1 + sum_snd l2.
Proof.
  induction l1 as [|c l1 IH]; [change (sum_snd []) with 0; cbn [app]; lra|].
  cbn [app]. rewrite !sum_snd_cons, IH. lra.
Qed.

Lemma sum_fst_rev l : sum_fst (rev l) == sum_fst l.
Proof.
  induction l as [|c l IH]; [reflexivity|].
  cbn [rev]. rewrite sum_fst_app, IH, !sum_fst_cons. change (sum_fst []) with 0. lra.
Qed.

Lemma sum_snd_rev l : sum_snd (rev l) == sum_snd l.
Proof.
  induction l as [|c l IH]; [reflexivity|].
  cbn [rev]. rewrite sum_snd_app, IH, !sum_snd_cons. change (sum_snd []) with 0. lra.
Qed.

Lemma adj_app_one {A} (l : list A) a b :
  adj (l ++ [a; b]) = adj (l ++ [a]) ++ [(a, b)].
Proof.
  induction l as [|x l IH]; [reflexivity|].
  cbn [app adj].
  destruct l as [|y l]; [reflexivity|].
  cbn [app] in *. rewrite IH. reflexivity.
Qed.

Lemma adj_rev {A} (l : list A) :
  adj (rev l) = map (fun s => (snd s, fst s)) (rev (adj l)).
Proof.
  induction l as [|a l IH]; [reflexivity|].
  destruct l as [|b l]; [reflexivity|].
  change (adj (a :: b :: l)) with ((a, b) :: adj (b :: l)).
  cbn [rev] in *. rewrite <- app_assoc. cbn [app].
  rewrite adj_app_one, IH, map_app. reflexivity.
Qed.

Lemma adj_map {A B} (f : A -> B) (l : list A) :
  adj (map f l) = map (fun s => (f (fst s), f (snd s))) (adj l).
Proof.
  induction l as [|a l IH]; [reflexivity|].
  destruct l as [|b l]; [reflexivity|].
  change (adj (a :: b :: l)) with ((a, b) :: adj (b :: l)).
  cbn [map] in *. change (adj (f a :: f b :: map f l))
    with ((f a, f b) :: adj (f b :: map f l)).
  rewrite IH. reflexivity.
Qed.

Lemma adj_In_parts {A} (l : list A) p q : In (p, q) (adj l) -> In p l /\ In q l.
Proof.
  induction l as [|a l IH]; [intros []|].
  destruct l as [|b l]; [intros []|].
  change (adj (a :: b :: l)) with ((a, b) :: adj (b :: l)).
  intros [[= -> ->]|H]; [simpl; auto|].
  destruct (IH H) as [H1 H2]. split; right; assumption.
Qed.

(** *** The mirror image *)

Ltac case_feqb :=
  repeat match goal with
         | |- context [feqb ?a ?b] =>
             let E := fresh "E" in
             destruct (feqb a b) eqn:E;
             [apply feqb_true in E | apply feqb_false in E]
         end.

Ltac absurd_feqb :=
  exfalso;
  match goal with
  | H : ~ _ == _ |- _ => apply H; lra
  end.

(** The mirrored figure has the opposite moment and the same area. *)
Lemma contrib_mirror p q :
  0 <= snd p -> 0 <= snd q ->
  fst (contrib (mirror q, mirror p)) == - fst (contrib (p, q)) /\
  snd (contrib (mirror q, mirror p)) == snd (contrib (p, q)).
Proof.
  destruct p as [x1 y1], q as [x2 y2]. cbn [fst snd]. intros Hy1 Hy2.
  unfold contrib, mirror, seg_moment_area. cbn [fst snd].
  case_feqb; cbn [andb orb negb fst snd]; try absurd_feqb;
    try (split; lra).
  all: fnorm.
  all: try (split; lra).
  all: try (split; field_simplify; lra).
  match goal with H : y2 == y1 |- _ => rewrite H end. split; ring.
Qed.

Lemma zip_rev {A B} (l : list A) (m : list B) :
  length l = length m -> zip (rev l) (rev m) = rev (zip l m).
Proof.
  revert m. induction l as [|a l IH]; intros [|b m] H; simpl in H; try lia; [reflexivity|].
  cbn [rev zip]. rewrite <- IH by lia.
  assert (Hl : length (rev l) = length (rev m)) by (rewrite !length_rev; lia).
  clear IH H. revert Hl. generalize (rev l) as l1. generalize (rev m) as m1.
  intros m1 l1. revert m1. induction l1 as [|x l1 IH]; intros [|y m1] Hl; simpl in Hl; try lia.
  - reflexivity.
  - cbn [app zip]. rewrite IH by lia. reflexivity.
Qed.

Lemma zip_map_l {A B C} (f : A -> C) (l : list A) (m : list B) :
  zip (map f l) m = map (fun p => (f (fst p), snd p)) (zip l m).
Proof.
  revert m. induction l as [|a l IH]; intros [|b m]; cbn [map zip fst snd]; try reflexivity.
  rewrite IH. reflexivity.
Qed.

Lemma fmax_Qeq a a' b : a == a' -> fmax a b == fmax a' b.
Proof.
  intro E. apply Qle_antisym.
  - destruct (fmax_cases a b) as [->| ->].
    + rewrite E. apply fmax_ge_l.
    + apply fmax_ge_r.
  - destruct (fmax_cases a' b) as [->| ->].
    + rewrite <- E. apply fmax_ge_l.
    + apply fmax_ge_r.
Qed.

Lemma sum_fst_opposite {A} (f g : A -> Q * Q) l :
  (forall s, In s l -> fst (f s) == - fst (g s)) ->
  sum_fst (map f l) == - sum_fst (map g l).
Proof.
  induction l as [|s l IH]; intro H; [reflexivity|].
  cbn [map]. rewrite !sum_fst_cons, IH, (H s (or_introl eq_refl)).
  - ring.
  - intros s' Hs'. apply H. right. exact Hs'.
Qed.

Lemma sum_snd_same {A} (f g : A -> Q * Q) l :
  (forall s, In s l -> snd (f s) == snd (g s)) ->
  sum_snd (map f l) == sum_snd (map g l).
Proof.
  induction l as [|s l IH]; intro H; [reflexivity|].
  cbn [map]. rewrite !sum_snd_cons, IH, (H s (or_introl eq_refl)).
  - reflexivity.
  - intros s' Hs'. apply H. right. exact Hs'.
Qed.

(** The sums of the centroid over the mirror image of a list of points. *)
Lemma mirror_sums (P : list (Q * Q)) :
  Forall (fun p => 0 <= snd p) P ->
  sum_fst (map contrib (adj (map mirror (rev P)))) == - sum_fst (map contrib (adj P)) /\
  sum_snd (map contrib (adj (map mirror (rev P)))) == sum_snd (map contrib (adj P)).
Proof.
  intro Hy. rewrite adj_map, adj_rev, !map_map. cbn [fst snd].
  assert (Hpt : forall s, In s (rev (adj P)) ->
            fst (contrib (mirror (snd s), mirror (fst s))) == - fst (contrib s) /\
            snd (contrib (mirror (snd s), mirror (fst s))) == snd (contrib s)).
  { intros [p q] Hs. apply in_rev in Hs. apply adj_In_parts in Hs. destruct Hs as [Hp Hq].
    rewrite Forall_forall in Hy. cbn [fst snd].
    apply contrib_mirror; [apply Hy; exact Hp|apply Hy; exact Hq]. }
  split.
  - rewrite (@sum_fst_opposite _ (fun s => contrib (mirror (snd s), mirror (fst s)))
               contrib (rev (adj P)) (fun s Hs => proj1 (Hpt s Hs))).
    rewrite map_rev, sum_fst_rev. reflexivity.
  - rewrite (@sum_snd_same _ (fun s => contrib (mirror (snd s), mirror (fst s)))
               contrib (rev (adj P)) (fun s Hs => proj2 (Hpt s Hs))).
    rewrite map_rev, sum_snd_rev. reflexivity.
Qed.

(** The centroid in terms of the sums. *)
Lemma centroid_sums x y p0 p1 pts :
  zip x y = p0 :: p1 :: pts ->
  centroid x y == sum_fst (map contrib (adj (p0 :: p1 :: pts)))
                  / fmax (sum_snd (map contrib (adj (p0 :: p1 :: pts)))) eps.
Proof.
  intro Hz. unfold centroid. rewrite Hz. destruct p0 as [x0 y0].
  destruct (centroid_loop x0 y0 (p1 :: pts) (0, 0)) as [S A] eqn:El.
  destruct (@centroid_loop_adj (p1 :: pts) x0 y0 (0, 0)) as [H1 H2].
  rewrite El in H1, H2. cbn [fst snd] in H1, H2.
  rewrite fdiv_eq.
  assert (E1 : S == sum_fst (map contrib (adj ((x0, y0) :: p1 :: pts)))) by (rewrite H1; ring).
  assert (E2 : A == sum_snd (map contrib (adj ((x0, y0) :: p1 :: pts)))) by (rewrite H2; ring).
  rewrite (fmax_Qeq eps E2), E1. reflexivity.
Qed.

(** Over samples that are symmetric about zero, the centroid of the mirror
    image of a membership function is the opposite of its centroid. *)
Lemma centroid_mirror (x y : list Q) :
  length x = length y -> rev x = map Qopp x -> Forall (fun v => 0 <= v) y ->
  centroid x (rev y) == - centroid x y.
Proof.
  intros Hlen Hsym Hy.
  assert (Hx : x = map Qopp (rev x)).
  { rewrite Hsym, map_map. rewrite <- (map_id x) at 1. apply map_ext.
    intros [n d]. unfold Qopp. cbn [Qnum Qden]. rewrite Z.opp_involutive. reflexivity. }
  assert (Hz : zip x (rev y) = map mirror (rev (zip x y))).
  { rewrite Hx at 1. rewrite zip_map_l, (zip_rev _ _ Hlen). reflexivity. }
  pose proof (@zip_snd_forall _ _ (fun v => 0 <= v) x y Hy) as HP.
  destruct (zip x y) as [|p0 [|p1 pts]] eqn:EP.
  - unfold centroid. rewrite Hz, EP. reflexivity.
  - unfold centroid. rewrite Hz, EP. cbn [rev app map mirror].
    destruct p0 as [x0 y0]. cbn [fst snd]. rewrite !fdiv_eq, !fmul_eq.
    destruct (fmax_eps_pos y0) as [Hpos _]. field. lra.
  - assert (Hrev : exists m0 m1 ms, map mirror (rev (p0 :: p1 :: pts)) = m0 :: m1 :: ms).
    { destruct (map mirror (rev (p0 :: p1 :: pts))) as [|m0 [|m1 ms]] eqn:Em.
      - apply (f_equal (@length _)) in Em. rewrite length_map, length_rev in Em.
        simpl in Em. lia.
      - apply (f_equal (@length _)) in Em. rewrite length_map, length_rev in Em.
        simpl in Em. lia.
      - eauto. }
    destruct Hrev as (m0 & m1 & ms & Em).
    rewrite (@centroid_sums x y p0 p1 pts EP).
    rewrite Em in Hz.
    rewrite (@centroid_sums x (rev y) m0 m1 ms Hz).
    rewrite <- Em.
    destruct (mirror_sums HP) as [E1 E2].
    rewrite (fmax_Qeq eps E2), E1.
    destruct (fmax_eps_pos (sum_snd (map contrib (adj (p0 :: p1 :: pts))))) as [Hpos _].
    field. lra.
Qed.

(** ** Judgments with all signs turned *)


Lemma universe_symmetric : rev universe = map Qopp universe.
Proof. vm_compute. reflexivity. Qed.





Lemma valid_cell_default x t : valid_cell x = true -> x = Str t -> In t default_terms.
Proof.
  intros H ->. cbn [valid_cell] in H. apply existsb_exists in H.
  destruct H as (t' & Ht & E). apply String.eqb_eq in E. subst t'. exact Ht.
Qed.









Lemma defuzzify_centroid_eq x y w :
  defuzzify x y "centroid" = Ok w -> w = centroid x y.
Proof.
  unfold defuzzify, defuzz. change (lower "centroid") with "centroid".
  change (contains "centroid" "centroid") with true. cbn [orb].
  destruct (negb (Nat.eqb (length x) (length y))); [discriminate|].
  destruct (feqb (arr_sum y) 0); [discriminate|].
  intros [= <-]. reflexivity.
Qed.

Lemma activated_entries t act :
  default_entries t -> activate t default_mf = Ok act ->
  values act = map (activated_by default_mf) t /\
  Forall (fun b => length b = length universe /\
                   Forall (fun v => 0 <= v /\ canonical v) b) (values act).
Proof.
  intros [Hnd Ht] Hact. split; [exact (@activate_values _ _ _ Hnd Hact)|].
  assert (Hdeg : Forall (fun kv : string * list Q => degrees (length universe) (snd kv))
                        default_mf).
  { pose proof default_mf_good as Hg. eapply Forall_impl; [|exact Hg].
    intros kv [H _]. exact H. }
  assert (Hnn : Forall (fun kv : string * list Q => nonneg (length universe) (snd kv)) act).
  { eapply activate_nonneg; [|exact Hdeg|exact Hact].
    eapply Forall_impl; [|exact Ht]. intros kv (_ & H & _). exact H. }
  assert (Hcan : Forall (fun kv : string * list Q => Forall canonical (snd kv)) act).
  { eapply activate_canonical; [|exact default_mf_canonical|exact Hact].
    eapply Forall_impl; [|exact Ht]. intros kv (_ & _ & H). exact H. }
  unfold values. apply Forall_forall. intros b Hb. apply in_map_iff in Hb.
  destruct Hb as (kv & <- & Hkv).
  rewrite Forall_forall in Hnn, Hcan. destruct (Hnn _ Hkv) as [Hlen Hpos].
  specialize (Hcan _ Hkv). split; [exact Hlen|].
  rewrite Forall_forall in *. intros v Hv. split; [apply Hpos|apply Hcan]; exact Hv.
Qed.


(** The tally of a pair of validated cells has default entries. *)
Lemma tally_default_entries d flat_data a c vals n t :
  select flat_data a c = Ok vals -> len_keys d = Ok n ->
  Forall (fun x => valid_cell x = true) vals ->
  tally d flat_data a c = Ok t -> default_entries t.
Proof.
  intros Hsel Hn Hv Ht. split; [exact (@tally_nodup _ _ _ _ _ Ht)|].
  pose proof (@tally_occ _ _ _ _ _ _ _ Hsel Hn Ht) as HM.
  apply Forall_forall. intros [k f] Hkv. apply HM in Hkv. destruct Hkv as [Hocc ->].
  cbn [fst snd]. split; [|split].
  - apply occ_pos_In in Hocc. rewrite Forall_forall in Hv.
    exact (@valid_cell_default (Str k) k (Hv _ Hocc) eq_refl).
  - apply fdiv_nonneg; apply of_nat_nonneg.
  - apply fdiv_canonical.
Qed.

Section Turned.
Variable consistency_check : pydata -> string -> result unit.


End Turned.


(** ** The sign of a weight *)

(** The figure between two samples of a membership function that is zero
    up to zero: its moment times its area is not negative, and positive
    when the function is not zero at both samples. *)
Lemma contrib_right p q :
  fst p < fst q -> (0 <= fst p \/ fst q <= 0) ->
  0 <= snd p -> 0 <= snd q ->
  (fst p <= 0 -> snd p == 0) -> (fst q <= 0 -> snd q == 0) ->
  0 <= fst (contrib (p, q)) /\ 0 <= snd (contrib (p, q)) /\
  (0 < snd p \/ 0 < snd q -> 0 < fst (contrib (p, q))).
Proof.
  destruct p as [x1 y1], q as [x2 y2]. cbn [fst snd]. intros Hx Hgrid Hy1 Hy2 Hz1 Hz2.
  destruct (Qlt_le_dec 0 x2) as [Hx2|Hx2].
  - assert (Hx1 : 0 <= x1) by (destruct Hgrid as [H|H]; lra).
    unfold contrib. cbn [fst snd].
    destruct (seg_moment_area x1 y1 x2 y2) as [[m ar]|] eqn:Es.
    + destruct (@seg_moment_area_bounds x1 y1 x2 y2 m ar (Qlt_le_weak _ _ Hx) Hy1 Hy2 Es)
        as (Hm1 & Hm2 & Har).
      cbn [fst snd]. split; [nra|]. split; [exact Har|].
      intro Hpos. unfold seg_moment_area in Es. revert Es.
      case_feqb; cbn [andb orb negb]; try discriminate; intros [= <- <-];
        try absurd_feqb.
      all: revert Hm1 Hm2 Har; fnorm; intros Hm1 Hm2 Har.
      all: try (assert (0 < y1) by (destruct (Qlt_le_dec 0 y1) as [G|G]; [exact G|absurd_feqb]));
           try (assert (0 < y2) by (destruct (Qlt_le_dec 0 y2) as [G|G]; [exact G|absurd_feqb])).
      all: apply Qmult_lt_0_compat;
        [first [lra
               |destruct (Qlt_le_dec 0 x1) as [G|G];
                [lra|exfalso; assert (y1 == 0) by (apply Hz1; exact G); lra]]
        |apply Qmult_lt_0_compat; lra].
    + cbn [fst snd]. split; [lra|]. split; [lra|].
      intro Hpos. exfalso. unfold seg_moment_area in Es. revert Es.
      case_feqb; cbn [andb orb negb]; try discriminate; intros _; lra.
  - assert (E1 : y1 == 0) by (apply Hz1; lra).
    assert (E2 : y2 == 0) by (apply Hz2; exact Hx2).
    unfold contrib, seg_moment_area. cbn [fst snd].
    assert (B1 : feqb y1 y2 = true) by (apply feqb_true; lra).
    assert (B2 : feqb y2 0 = true) by (apply feqb_true; exact E2).
    rewrite B1, B2. cbn [andb orb fst snd]. split; [lra|]. split; [lra|].
    intros [H|H]; lra.
Qed.

Lemma sum_fst_nonneg cs : Forall (fun c : Q * Q => 0 <= fst c) cs -> 0 <= sum_fst cs.
Proof.
  induction 1 as [|c cs Hc _ IH]; [apply Qle_refl|].
  rewrite sum_fst_cons. lra.
Qed.

Lemma sum_snd_nonneg cs : Forall (fun c : Q * Q => 0 <= snd c) cs -> 0 <= sum_snd cs.
Proof.
  induction 1 as [|c cs Hc _ IH]; [apply Qle_refl|].
  rewrite sum_snd_cons. lra.
Qed.

Lemma sum_fst_pos cs c :
  Forall (fun c : Q * Q => 0 <= fst c) cs -> In c cs -> 0 < fst c -> 0 < sum_fst cs.
Proof.
  induction 1 as [|c' cs Hc Hcs IH]; intros Hin Hpos; [destruct Hin|].
  rewrite sum_fst_cons. destruct Hin as [->|Hin].
  - pose proof (sum_fst_nonneg Hcs). lra.
  - specialize (IH Hin Hpos). lra.
Qed.

Lemma adj_In_some {A} (l : list A) p :
  (2 <= length l)%nat -> In p l -> exists q, In (p, q) (adj l) \/ In (q, p) (adj l).
Proof.
  induction l as [|a l IH]; intros Hlen Hin; [destruct Hin|].
  destruct l as [|b l]; [simpl in Hlen; lia|].
  change (adj (a :: b :: l)) with ((a, b) :: adj (b :: l)).
  destruct Hin as [->|Hin].
  - exists b. left. left. reflexivity.
  - destruct l as [|c l].
    + destruct Hin as [->|[]]. exists a. right. left. reflexivity.
    + destruct (IH ltac:(simpl; lia) Hin) as (q & [H|H]); exists q; [left|right]; right; exact H.
Qed.

Lemma adj_zip_fst {A B} (l : list A) (m : list B) p q :
  In (p, q) (adj (zip l m)) -> In (fst p, fst q) (adj l).
Proof.
  revert m. induction l as [|a l IH]; intros [|b m] H; try (destruct H; fail).
  destruct l as [|a' l]; [destruct H|]. destruct m as [|b' m]; [destruct H|].
  change (adj (zip (a :: a' :: l) (b :: b' :: m)))
    with (((a, b), (a', b')) :: adj (zip (a' :: l) (b' :: m))) in H.
  change (adj (a :: a' :: l)) with ((a, a') :: adj (a' :: l)).
  destruct H as [[= <- <-]|H]; [left; reflexivity|].
  right. exact (IH (b' :: m) H).
Qed.

(** Over a grid that does not step across zero, a membership function
    that is zero up to zero and positive somewhere has a positive
    centroid. *)
Lemma centroid_positive (x y : list Q) :
  grid_ok x = true -> right_of_zero x y = true ->
  Forall (fun v => 0 <= v) y ->
  (exists p, In p (zip x y) /\ 0 < snd p) ->
  0 < centroid x y.
Proof.
  intros Hgrid Hright Hy (p & Hp & Hpos).
  unfold grid_ok in Hgrid. rewrite forallb_forall in Hgrid.
  unfold right_of_zero in Hright. rewrite forallb_forall in Hright.
  pose proof (@zip_snd_forall _ _ (fun v => 0 <= v) x y Hy) as HP.
  rewrite Forall_forall in HP.
  assert (Hzero : forall q, In q (zip x y) -> fst q <= 0 -> snd q == 0).
  { intros q Hq Hle. specialize (Hright q Hq). apply orb_true_iff in Hright.
    destruct Hright as [H|H].
    - apply negb_true_iff in H. apply fleb_false in H. lra.
    - apply feqb_true. exact H. }
  assert (Hpx : 0 < fst p).
  { destruct (Qlt_le_dec 0 (fst p)) as [H|H]; [exact H|].
    pose proof (Hzero p Hp H). lra. }
  destruct (zip x y) as [|p0 [|p1 pts]] eqn:EP.
  - destruct Hp.
  - destruct Hp as [->|[]]. unfold centroid. rewrite EP. destruct p as [x0 y0].
    cbn [fst snd] in *. rewrite fdiv_eq, fmul_eq.
    destruct (fmax_eps_pos y0) as [Hd _].
    apply Qdiv_pos; [apply Qmult_lt_0_compat; assumption|exact Hd].
  - rewrite (@centroid_sums x y p0 p1 pts EP).
    assert (Hseg : forall s, In s (adj (p0 :: p1 :: pts)) ->
              0 <= fst (contrib s) /\ 0 <= snd (contrib s) /\
              (0 < snd (fst s) \/ 0 < snd (snd s) -> 0 < fst (contrib s))).
    { intros [u v] Hs. cbn [fst snd].
      pose proof (adj_In_parts _ _ _ Hs) as [Hu Hv].
      assert (Hxs : In (fst u, fst v) (adj x)).
      { apply (@adj_zip_fst _ _ x y u v). rewrite EP. exact Hs. }
      specialize (Hgrid _ Hxs). cbn [fst snd] in Hgrid.
      apply andb_true_iff in Hgrid. destruct Hgrid as [G1 G2].
      apply fltb_true in G1. apply orb_true_iff in G2.
      apply contrib_right.
      - exact G1.
      - destruct G2 as [G|G]; apply fleb_true in G; auto.
      - apply HP. exact Hu.
      - apply HP. exact Hv.
      - apply Hzero. exact Hu.
      - apply Hzero. exact Hv. }
    assert (Hall : Forall (fun c : Q * Q => 0 <= fst c)
                          (map contrib (adj (p0 :: p1 :: pts)))).
    { apply Forall_forall. intros c Hc. apply in_map_iff in Hc.
      destruct Hc as (s & <- & Hs). apply (Hseg s Hs). }
    assert (Hall2 : Forall (fun c : Q * Q => 0 <= snd c)
                           (map contrib (adj (p0 :: p1 :: pts)))).
    { apply Forall_forall. intros c Hc. apply in_map_iff in Hc.
      destruct Hc as (s & <- & Hs). apply (Hseg s Hs). }
    destruct (@adj_In_some _ (p0 :: p1 :: pts) p ltac:(simpl; lia) Hp) as (q & Hq).
    assert (Hsum : 0 < sum_fst (map contrib (adj (p0 :: p1 :: pts)))).
    { destruct Hq as [Hq|Hq].
      - apply (@sum_fst_pos _ (contrib (p, q)) Hall); [apply in_map; exact Hq|].
        apply (Hseg _ Hq). left. exact Hpos.
      - apply (@sum_fst_pos _ (contrib (q, p)) Hall); [apply in_map; exact Hq|].
        apply (Hseg _ Hq). right. exact Hpos. }
    destruct (fmax_eps_pos (sum_snd (map contrib (adj (p0 :: p1 :: pts))))) as [Hd _].
    apply Qdiv_pos; assumption.
Qed.

Lemma zip_mirror (x y : list Q) :
  length x = length y -> rev x = map Qopp x ->
  zip x (rev y) = map mirror (rev (zip x y)).
Proof.
  intros Hlen Hsym.
  assert (Hx : x = map Qopp (rev x)).
  { rewrite Hsym, map_map. rewrite <- (map_id x) at 1. apply map_ext.
    intros [n d]. unfold Qopp. cbn [Qnum Qden]. rewrite Z.opp_involutive. reflexivity. }
  rewrite Hx at 1. rewrite zip_map_l, (zip_rev _ _ Hlen). reflexivity.
Qed.

(** Over a symmetric grid, a membership function that is zero from zero
    on and positive somewhere has a negative centroid. *)
Lemma centroid_negative (x y : list Q) :
  length x = length y -> rev x = map Qopp x ->
  grid_ok x = true -> left_of_zero x y = true ->
  Forall (fun v => 0 <= v) y ->
  (exists p, In p (zip x y) /\ 0 < snd p) ->
  centroid x y < 0.
Proof.
  intros Hlen Hsym Hgrid Hleft Hy (p & Hp & Hpos).
  assert (Hlen' : length x = length (rev y)) by (rewrite length_rev; exact Hlen).
  assert (Hy' : Forall (fun v => 0 <= v) (rev y)) by (apply Forall_rev; exact Hy).
  pose proof (@centroid_mirror x (rev y) Hlen' Hsym Hy') as Hm.
  rewrite rev_involutive in Hm.
  assert (Hc : 0 < centroid x (rev y)).
  { apply centroid_positive; [exact Hgrid| |exact Hy'|].
    - unfold right_of_zero. rewrite (@zip_mirror x y Hlen Hsym). apply forallb_forall.
      intros q Hq. apply in_map_iff in Hq. destruct Hq as (q' & <- & Hq').
      apply in_rev in Hq'. unfold left_of_zero in Hleft. rewrite forallb_forall in Hleft.
      specialize (Hleft q' Hq'). unfold mirror. cbn [fst snd].
      apply orb_true_iff in Hleft. apply orb_true_iff.
      destruct Hleft as [H|H]; [left|right; exact H].
      apply negb_true_iff in H. apply negb_true_iff.
      apply fleb_false in H. apply fleb_false. lra.
    - exists (mirror p). split; [|exact Hpos].
      rewrite (@zip_mirror x y Hlen Hsym). apply in_map. apply in_rev.
      rewrite rev_involutive. exact Hp. }
  lra.
Qed.

Lemma zero_where_nth P x y i :
  zero_where P x y = true -> (i < length x)%nat -> (i < length y)%nat ->
  P (nth i x 0) = true -> nth i y 0 == 0.
Proof.
  unfold zero_where. rewrite forallb_forall. intros H Hx Hy HP.
  specialize (H (nth i x 0, nth i y 0)). cbn [fst snd] in H.
  rewrite HP in H. cbn [negb orb] in H. apply feqb_true. apply H.
  rewrite <- (@zip_nth _ _ x y i 0 0 Hx Hy). apply nth_In.
  rewrite zip_length. lia.
Qed.

Lemma zero_where_intro P x y :
  (forall i, (i < length x)%nat -> (i < length y)%nat ->
             P (nth i x 0) = true -> nth i y 0 == 0) ->
  zero_where P x y = true.
Proof.
  intro H. unfold zero_where. apply forallb_forall. intros p Hp.
  apply (In_nth _ _ (0, 0)) in Hp. destruct Hp as (i & Hi & <-).
  rewrite zip_length in Hi.
  rewrite (@zip_nth _ _ x y i 0 0) by lia. cbn [fst snd].
  destruct (P (nth i x 0)) eqn:EP; [|reflexivity]. cbn [negb orb].
  apply feqb_true. apply H; [lia|lia|exact EP].
Qed.

Lemma universe_grid : grid_ok universe = true.
Proof. vm_compute. reflexivity. Qed.

Lemma plain_terms_right :
  forallb (fun b => right_of_zero universe (mf_get default_mf b)) base_terms = true.
Proof. vm_compute. reflexivity. Qed.

Lemma minus_terms_left :
  forallb (fun b => left_of_zero universe (mf_get default_mf (minus b))) base_terms = true.
Proof. vm_compute. reflexivity. Qed.

(** What is known of the aggregated set of default entries: it is as long
    as the universe and never negative, and each of its degrees is a
    degree of one of the activated terms. *)
Lemma aggregated_entries t act r :
  default_entries t -> activate t default_mf = Ok act -> aggregate act = Ok r ->
  nonneg (length universe) r /\
  forall i, (i < length universe)%nat ->
    exists kv, In kv t /\ nth i r 0 = fmin (snd kv) (nth i (mf_get default_mf (fst kv)) 0) /\
               length (mf_get default_mf (fst kv)) = length universe.
Proof.
  intros Ht Hact Hagg.
  destruct (activated_entries Ht Hact) as [E F].
  unfold aggregate in Hagg.
  assert (Hlen : Forall (fun b => length b = length universe) (values act)).
  { eapply Forall_impl; [|exact F]. intros b [H _]. exact H. }
  destruct (@reduce_fmax_spec _ _ _ Hlen Hagg) as [Hl Hi].
  assert (Hpt : forall i, (i < length universe)%nat ->
            exists kv, In kv t /\
              nth i r 0 = fmin (snd kv) (nth i (mf_get default_mf (fst kv)) 0) /\
              length (mf_get default_mf (fst kv)) = length universe).
  { intros i Hlt. destruct (Hi i Hlt) as [_ (b & Hb & Eb)].
    rewrite E in Hb. apply in_map_iff in Hb. destruct Hb as (kv & <- & Hkv).
    exists kv. split; [exact Hkv|].
    assert (Hlb : length (mf_get default_mf (fst kv)) = length universe).
    { rewrite Forall_forall in Hlen.
      specialize (Hlen (activated_by default_mf kv)).
      unfold activated_by in Hlen at 2. rewrite length_map in Hlen. apply Hlen.
      rewrite E. apply in_map. exact Hkv. }
    split; [|exact Hlb].
    rewrite Eb. unfold activated_by.
    rewrite (nth_indep _ 0 (fmin (snd kv) 0)) by (rewrite length_map, Hlb; exact Hlt).
    apply (map_nth (fmin (snd kv))). }
  split; [|exact Hpt].
  split; [exact Hl|].
  apply Forall_forall. intros v Hv. apply (In_nth _ _ 0) in Hv.
  destruct Hv as (i & Hi' & <-). rewrite Hl in Hi'.
  destruct (Hi i Hi') as [_ (b & Hb & ->)].
  rewrite Forall_forall in F. destruct (F _ Hb) as [Hlb Hvb].
  rewrite Forall_forall in Hvb. apply Hvb. apply nth_In. rewrite Hlb. exact Hi'.
Qed.

(** Where all activated terms are zero, the aggregated set is zero. *)
Lemma aggregated_zero_where P t act r :
  default_entries t -> activate t default_mf = Ok act -> aggregate act = Ok r ->
  (forall kv, In kv t -> zero_where P universe (mf_get default_mf (fst kv)) = true) ->
  zero_where P universe r = true.
Proof.
  intros Ht Hact Hagg Hz.
  destruct (aggregated_entries Ht Hact Hagg) as [[Hl _] Hpt].
  apply zero_where_intro. intros i Hi _ HP.
  destruct (Hpt i Hi) as (kv & Hkv & -> & Hlen).
  assert (E : nth i (mf_get default_mf (fst kv)) 0 == 0).
  { apply (@zero_where_nth P universe _ i (Hz kv Hkv) Hi); [rewrite Hlen; exact Hi|exact HP]. }
  destruct Ht as [_ Hd]. rewrite Forall_forall in Hd. destruct (Hd _ Hkv) as (_ & Hf & _).
  pose proof (fmin_le_r (snd kv) (nth i (mf_get default_mf (fst kv)) 0)) as H1.
  assert (H2 : 0 <= fmin (snd kv) (nth i (mf_get default_mf (fst kv)) 0))
    by (apply fmin_nonneg; lra).
  lra.
Qed.

Lemma lit_point (r : list Q) :
  lit (length universe) r -> exists p, In p (zip universe r) /\ 0 < snd p.
Proof.
  intros [[Hl _] (j & Hj)].
  assert (Hlt : (j < length r)%nat).
  { destruct (Nat.lt_ge_cases j (length r)) as [H|H]; [exact H|].
    rewrite nth_overflow in Hj by exact H. lra. }
  exists (nth j universe 0, nth j r 0). split; [|exact Hj].
  rewrite <- (@zip_nth _ _ universe r j 0 0) by lia. apply nth_In.
  rewrite zip_length. lia.
Qed.

Section Sign.
Variable consistency_check : pydata -> string -> result unit.

(** When the run ends, the weight of a judged pair has the sign that all
    its terms have. *)
Lemma run_weight_sign (concepts : list string)
    (experts : list (string * judgment)) (self_m : FcmDataProcessor) (a c : string) :
  distinct concepts = true -> valid_judgments concepts experts = true ->
  gen_weights_mat consistency_check (fresh (matrix_data concepts experts)) PyNone
    default_terms "centroid" = Ok self_m ->
  In a concepts -> In c concepts ->
  (exists e t, In e experts /\ snd e a c = Str t) ->
  ((forall e t, In e experts -> snd e a c = Str t -> In t base_terms) ->
   exists w, cell_at (causal_weights self_m) a c = Some (Num w) /\ 0 < w) /\
  ((forall e t, In e experts -> snd e a c = Str t ->
                exists b, In b base_terms /\ t = minus b) ->
   exists w, cell_at (causal_weights self_m) a c = Some (Num w) /\ w < 0).
Proof.
  intros Hd Hvalid Hrun Ha Hc (e0 & t0 & He0 & Et0).
  assert (Hne : experts <> []) by (intros ->; destruct He0).
  assert (Hn : (0 < length experts)%nat) by (destruct experts; [congruence|simpl; lia]).
  destruct (@matrix_run_cell consistency_check concepts experts "centroid" self_m a c
              Hd Hvalid Hrun Ha Hc) as (t & Ht & Hsel & Hcell).
  pose proof (@answers_valid concepts experts a c Hvalid Ha Hc) as Hv.
  pose proof (@tally_occ _ _ _ _ _ _ _ Hsel (len_matrix_data concepts experts) Ht) as HM.
  pose proof (@tally_default_entries _ _ _ _ _ _ _ Hsel (len_matrix_data concepts experts)
                Hv Ht) as Hent.
  destruct (@tally_valid (matrix_data concepts experts) _ a c (answers experts a c)
              (length experts) Hsel Hv (len_matrix_data concepts experts) Hn)
    as (t' & Ht' & Hserved & _).
  rewrite Ht in Ht'. injection Ht' as <-.
  assert (Hin0 : In (Str t0) (answers experts a c)).
  { unfold answers. apply in_map_iff. exists e0. auto. }
  assert (Hnot : t <> []).
  { intros ->. assert (Hocc : (0 < occ t0 (answers experts a c))%nat).
    { unfold occ. destruct (filter (is_label t0) (answers experts a c)) eqn:Ef; [|simpl; lia].
      exfalso. assert (Hf : In (Str t0) (filter (is_label t0) (answers experts a c))).
      { apply filter_In. split; [exact Hin0|]. cbn [is_label]. apply String.eqb_refl. }
      rewrite Ef in Hf. destruct Hf. }
    destruct (proj2 (HM t0 _) (conj Hocc eq_refl)). }
  destruct Hcell as [[E _]|(_ & w & (act & r & Hact & Hagg & Hw) & Hcw)]; [congruence|].
  destruct (@served_weight t Hserved Hnot) as (act' & r' & Hact' & Hagg' & Hlit).
  rewrite Hact in Hact'. injection Hact' as <-.
  rewrite Hagg in Hagg'. injection Hagg' as <-.
  destruct (aggregated_entries Hent Hact Hagg) as [[Hl Hnn] _].
  pose proof (@defuzzify_centroid_eq _ _ _ Hw) as ->.
  assert (Hkey : forall kv, In kv t -> exists e, In e experts /\ snd e a c = Str (fst kv)).
  { intros [k f] Hkv. apply HM in Hkv. destruct Hkv as [Hocc _].
    apply occ_pos_In in Hocc. unfold answers in Hocc. apply in_map_iff in Hocc.
    destruct Hocc as (e & E & He). exists e. auto. }
  split.
  - intro Hplain. exists (centroid universe r). split; [exact Hcw|].
    apply centroid_positive; [exact universe_grid| |exact Hnn|exact (lit_point Hlit)].
    apply (@aggregated_zero_where (fun v => fleb v 0) t act r Hent Hact Hagg).
    intros kv Hkv. destruct (Hkey kv Hkv) as (e & He & E).
    pose proof (Hplain e _ He E) as Hb.
    pose proof plain_terms_right as Hall. rewrite forallb_forall in Hall.
    exact (Hall _ Hb).
  - intro Hminus. exists (centroid universe r). split; [exact Hcw|].
    apply centroid_negative; [congruence|exact universe_symmetric|exact universe_grid|
                              |exact Hnn|exact (lit_point Hlit)].
    apply (@aggregated_zero_where (fun v => fleb 0 v) t act r Hent Hact Hagg).
    intros kv Hkv. destruct (Hkey kv Hkv) as (e & He & E).
    destruct (Hminus e _ He E) as (b & Hb & Eb). rewrite Eb.
    pose proof minus_terms_left as Hall. rewrite forallb_forall in Hall.
    exact (Hall _ Hb).
Qed.

(** The sign of a weight is the sign of the terms: with two experts or
    more, the default terms and the centroid, [gen_weights_mat] ends and
    gives a pair that some expert judged a positive weight when all its
    judgments are terms without a minus sign, and a negative weight when
    all are terms with one. *)
Theorem weight_has_sign_of_terms (concepts : list string)
    (experts : list (string * judgment)) (a c : string) :
  distinct concepts = true -> valid_judgments concepts experts = true ->
  (2 <= length experts)%nat ->
  In a concepts -> In c concepts ->
  (exists e t, In e experts /\ snd e a c = Str t) ->
  exists self_m,
    gen_weights_mat consistency_check (fresh (matrix_data concepts experts)) PyNone
      default_terms "centroid" = Ok self_m /\
    ((forall e t, In e experts -> snd e a c = Str t -> In t base_terms) ->
     exists w, cell_at (causal_weights self_m) a c = Some (Num w) /\ 0 < w) /\
    ((forall e t, In e experts -> snd e a c = Str t ->
                  exists b, In b base_terms /\ t = minus b) ->
     exists w, cell_at (causal_weights self_m) a c = Some (Num w) /\ w < 0).
Proof.
  intros Hd Hvalid Hn Ha Hc Hsome.
  destruct (@matrix_run_ok consistency_check concepts experts Hd Hvalid Hn) as (self_m & Hrun).
  exists self_m. split; [exact Hrun|].
  exact (@run_weight_sign concepts experts self_m a c Hd Hvalid Hrun Ha Hc Hsome).
Qed.
End Sign.

Lemma weight_has_sign_of_terms_witness :
  exists self_m w,
    gen_weights_mat no_check (fresh (matrix_data ["A"; "B"] united_experts)) PyNone
      default_terms "centroid" = Ok self_m /\
    cell_at (causal_weights self_m) "A" "B" = Some (Num w) /\ w < 0.
Proof.
  destruct (@weight_has_sign_of_terms no_check ["A"; "B"] united_experts "A" "B"
              eq_refl eq_refl) as (self_m & Hrun & _ & Hneg).
  - simpl. lia.
  - simpl. tauto.
  - simpl. tauto.
  - exists ("Expert1", says "-H"), "-H". split; [simpl; tauto|reflexivity].
  - destruct Hneg as (w & Hw & Hlt).
    + intros e t [<-|[<-|[<-|[]]]] [= <-].
      * exists "H". split; [simpl; tauto|reflexivity].
      * exists "VH". split; [simpl; tauto|reflexivity].
      * exists "H". split; [simpl; tauto|reflexivity].
    + exists self_m, w. auto.
Defined.

(** ** A term that has no membership function *)

(** A loop raises [e] when the step of one element does, and every other
    step either raises [e] as well or goes on. *)
Lemma foldM_raises {A S} (f : S -> A -> result S) (Inv : S -> Prop) (e : exn) l x0 :
  (forall x s, In x l -> Inv s -> (exists s', f s x = Ok s' /\ Inv s') \/ f s x = Err e) ->
  In x0 l -> (forall s, Inv s -> f s x0 = Err e) ->
  forall s, Inv s -> foldM f s l = Err e.
Proof.
  induction l as [|x l IH]; intros Hstep Hin Hbad s Hs; [destruct Hin|].
  cbn [foldM].
  destruct (Hstep x s (or_introl eq_refl) Hs) as [(s' & E & Hs')|E]; rewrite E; cbn [bind];
    [|reflexivity].
  destruct Hin as [->|Hin].
  - rewrite (Hbad s Hs) in E. discriminate.
  - apply IH; [|exact Hin|exact Hbad|exact Hs'].
    intros y t Hy Ht. apply Hstep; [right; exact Hy|exact Ht].
Qed.

Lemma labelled_answers concepts experts a c :
  labelled concepts experts = true -> In a concepts -> In c concepts ->
  Forall (fun x => label_ok x = true) (answers experts a c).
Proof.
  unfold labelled. rewrite forallb_forall. intros H Ha Hc.
  specialize (H (a, c) (in_prod _ _ _ _ Ha Hc)). cbn [fst snd] in H.
  apply Forall_forall. apply forallb_forall. exact H.
Qed.

(** The tally of labelled cells: labels of the cells, without quote
    characters, at positive frequencies. *)
Lemma tally_labelled d flat_data a c vals n :
  select flat_data a c = Ok vals ->
  Forall (fun x => label_ok x = true) vals ->
  len_keys d = Ok n -> (0 < n)%nat ->
  exists t, tally d flat_data a c = Ok t /\
    py_eval (replace_dquote (str_dict t)) = Ok t /\
    (forall k, In k (keys t) <-> In (Str k) vals) /\
    Forall (fun kv => 0 < snd kv) t.
Proof.
  intros Hsel Hv Hn Hpos.
  assert (Hnum : Forall (fun x => forall q, x <> Num q) vals).
  { eapply Forall_impl; [|exact Hv]. intros x Hx q ->. discriminate. }
  destruct (crosstab_total Hnum) as (l & Hl).
  assert (Ht : tally d flat_data a c
               = Ok (map (fun kc => (fst kc, fdiv (of_nat (snd kc)) (of_nat n))) l)).
  { unfold tally. rewrite Hsel. cbn [bind]. rewrite Hl. cbn [bind]. rewrite Hn. reflexivity. }
  eexists. split; [exact Ht|].
  pose proof (@tally_occ _ _ _ _ _ _ _ Hsel Hn Ht) as HM.
  assert (Hkeys : forall k, In k (keys (map (fun kc : string * nat =>
                     (fst kc, fdiv (of_nat (snd kc)) (of_nat n))) l)) <-> In (Str k) vals).
  { intro k. split.
    - intro Hk. unfold keys in Hk. apply in_map_iff in Hk. destruct Hk as ([k' f] & E & Hkv).
      cbn [fst] in E. subst k'. apply HM in Hkv. destruct Hkv as [Hocc _].
      apply occ_pos_In. exact Hocc.
    - intro Hk.
      assert (Hocc : (0 < occ k vals)%nat).
      { unfold occ. destruct (filter (is_label k) vals) eqn:Ef; [|simpl; lia].
        exfalso. assert (Hf : In (Str k) (filter (is_label k) vals)).
        { apply filter_In. split; [exact Hk|]. cbn [is_label]. apply String.eqb_refl. }
        rewrite Ef in Hf. destruct Hf. }
      unfold keys. apply in_map_iff. eexists (k, _). split; [reflexivity|].
      apply HM. split; [exact Hocc|reflexivity]. }
  split; [|split; [exact Hkeys|]].
  - apply eval_str_dict_roundtrip; [exact (@tally_nodup _ _ _ _ _ Ht)|].
    apply forallb_forall. intros kv Hkv.
    assert (Hk : In (fst kv) (keys (map (fun kc : string * nat =>
                     (fst kc, fdiv (of_nat (snd kc)) (of_nat n))) l)))
      by (unfold keys; apply in_map; exact Hkv).
    apply Hkeys in Hk. rewrite Forall_forall in Hv. exact (Hv _ Hk).
  - apply Forall_forall. intros [k f] Hkv. apply HM in Hkv. destruct Hkv as [Hocc ->].
    cbn [snd]. rewrite fdiv_eq.
    apply Qdiv_pos; apply of_nat_pos; assumption.
Qed.

Lemma forallb_false_exists {A} (P : A -> bool) l :
  forallb P l = false -> exists x, In x l /\ P x = false.
Proof.
  induction l as [|a l IH]; [discriminate|].
  cbn [forallb]. destruct (P a) eqn:E; cbn [andb].
  - intro H. destruct (IH H) as (x & Hx & Ex). exists x. split; [right; exact Hx|exact Ex].
  - intros _. exists a. split; [left; reflexivity|exact E].
Qed.

Section UnknownTerm.
Variable consistency_check : pydata -> string -> result unit.

(** A judgment that is none of the linguistic terms makes
    [gen_weights_mat] raise [KeyError]: with two experts or more, labels
    without quote characters and the default terms, a label that is not a
    default term on some pair of concepts has no membership function to
    activate. *)
Theorem unknown_term_raises (concepts : list string) (experts : list (string * judgment))
    (a c t : string) (e : string * judgment) :
  distinct concepts = true -> labelled concepts experts = true ->
  (2 <= length experts)%nat ->
  In a concepts -> In c concepts -> In e experts ->
  snd e a c = Str t -> ~ In t default_terms ->
  gen_weights_mat consistency_check (fresh (matrix_data concepts experts)) PyNone
    default_terms "centroid" = Err KeyError.
Proof.
  intros Hd Hlab Hn Ha Hc He Et Hnot.
  assert (Hne : experts <> []) by (intros ->; destruct He).
  assert (Hpos : (0 < length experts)%nat) by lia.
  unfold gen_weights_mat.
  rewrite choose_data_fresh, (@flatten_matrix_data concepts experts Hne Hd).
  cbn [bind]. rewrite default_mf_eq. cbn [bind]. rewrite mat_loop_prod.
  assert (Hstep : forall p, In p (list_prod concepts concepts) ->
            exists tl,
              tally (matrix_data concepts experts) (matrix_flat concepts experts)
                    (fst p) (snd p) = Ok tl /\
              py_eval (replace_dquote (str_dict tl)) = Ok tl /\
              (forall k, In k (keys tl) <-> In (Str k) (answers experts (fst p) (snd p))) /\
              Forall (fun kv => 0 < snd kv) tl).
  { intros [a' c'] Hp. apply in_prod_iff in Hp. destruct Hp as [Ha' Hc']. cbn [fst snd].
    apply (@tally_labelled _ _ a' c' (answers experts a' c') (length experts)).
    - apply select_matrix_ok; assumption.
    - apply labelled_answers with (concepts := concepts); assumption.
    - apply len_matrix_data.
    - exact Hpos. }
  rewrite (@foldM_raises _ _
             (fun st p => mat_step (matrix_data concepts experts)
                            (matrix_flat concepts experts) "centroid" st (fst p) (snd p))
             (run_inv concepts) KeyError
             (list_prod (columns (matrix_flat concepts experts))
                        (columns (matrix_flat concepts experts)))
             (a, c)).
  - reflexivity.
  - intros [a' c'] st Hp Hst.
    destruct (Hstep (a', c') Hp) as (tl & Htl & Hev & Hkeys & Hfreq).
    cbn [fst snd] in *. unfold mat_step. rewrite Htl. cbn [bind].
    destruct tl as [|kv tl]; [left; exists st; split; [reflexivity|exact Hst]|].
    cbn [length Nat.eqb negb]. rewrite Hev. cbn [bind].
    destruct (forallb (fun kv => existsb (String.eqb (fst kv)) default_terms) (kv :: tl))
      eqn:Eall.
    + left. rewrite forallb_forall in Eall.
      assert (Hserved : served default_mf (kv :: tl)).
      { apply Forall_forall. intros kv' Hkv'. rewrite Forall_forall in Hfreq.
        split; [apply Hfreq; exact Hkv'|].
        apply default_term_served. specialize (Eall kv' Hkv').
        apply existsb_exists in Eall. destruct Eall as (k & Hk & E).
        apply String.eqb_eq in E. subst k. exact Hk. }
      destruct (@served_weight (kv :: tl) Hserved) as (act & aggr & Hact & Hagg & Hlit);
        [discriminate|].
      apply in_prod_iff in Hp. destruct Hp as [Hp1 _].
      apply (@infer_centroid_ok concepts a' c' (kv :: tl) _ act aggr);
        assumption.
    + right.
      assert (Hbad : exists kv', In kv' (kv :: tl) /\ sget default_mf (fst kv') = None).
      { destruct (forallb_false_exists _ _ Eall) as (kv' & Hkv' & E).
        exists kv'. split; [exact Hkv'|].
        destruct (sget default_mf (fst kv')) as [y|] eqn:Ey; [|reflexivity].
        exfalso. apply sget_In in Ey. apply (in_map fst) in Ey. cbn [fst] in Ey.
        fold (keys default_mf) in Ey. rewrite default_mf_keys in Ey.
        assert (Ht : existsb (String.eqb (fst kv')) default_terms = true).
        { apply existsb_exists. exists (fst kv'). split; [exact Ey|apply String.eqb_refl]. }
        congruence. }
      destruct st as [self wm]. destruct Hst as [Hterms _]. cbn [fst snd] in *.
      unfold infer. cbn [terms set_expert_data]. rewrite Hterms.
      rewrite (activate_unknown (kv :: tl) default_mf Hbad). reflexivity.
  - apply in_prod; assumption.
  - intros st Hst. destruct (Hstep (a, c) (in_prod _ _ _ _ Ha Hc))
      as (tl & Htl & Hev & Hkeys & Hfreq). cbn [fst snd] in *.
    assert (Hk : In t (keys tl)).
    { apply Hkeys. unfold answers. apply in_map_iff. exists e. auto. }
    unfold mat_step. rewrite Htl. cbn [bind].
    destruct tl as [|kv tl]; [destruct Hk|].
    cbn [length Nat.eqb negb]. rewrite Hev. cbn [bind].
    destruct st as [self wm]. destruct Hst as [Hterms _]. cbn [fst snd] in *.
    unfold infer. cbn [terms set_expert_data]. rewrite Hterms.
    rewrite (activate_unknown (kv :: tl) default_mf); [reflexivity|].
    unfold keys in Hk. apply in_map_iff in Hk. destruct Hk as (kv' & E & Hkv').
    exists kv'. split; [exact Hkv'|]. rewrite E.
    destruct (sget default_mf t) as [y|] eqn:Ey; [|reflexivity].
    exfalso. apply Hnot. rewrite <- default_mf_keys.
    apply sget_In in Ey. unfold keys. apply (in_map fst _ _ Ey).
  - split; [reflexivity|]. intros x Hx. cbn [snd]. rewrite index_blank.
    apply unique_In. apply index_matrix_flat; assumption.
Qed.
End UnknownTerm.

Lemma unknown_term_raises_witness :
  gen_weights_mat no_check
    (fresh (matrix_data ["A"; "B"] [("Expert1", says "H"); ("Expert2", says "+H")]))
    PyNone default_terms "centroid" = Err KeyError.
Proof.
  apply (@unknown_term_raises no_check ["A"; "B"]
           [("Expert1", says "H"); ("Expert2", says "+H")] "A" "B" "+H"
           ("Expert2", says "+H")).
  - reflexivity.
  - reflexivity.
  - simpl; lia.
  - simpl; tauto.
  - simpl; tauto.
  - simpl; tauto.
  - reflexivity.
  - unfold default_terms. intros [H|[H|[H|[H|[H|[H|[H|[H|[H|[H|[]]]]]]]]]]]; discriminate H.
Defined.

(** ** Too few linguistic terms *)

(** With fewer than four terms, none or two included, [automf] raises
    [IndexError] on a universe that is not empty: each half of the centers
    has one entry at most, and [centers_pos[1]] is read. *)
Theorem automf_few_terms (univ : array) (linguistic_terms : list string) :
  univ <> [] -> (length linguistic_terms < 4)%nat ->
  automf univ linguistic_terms = Err IndexError.
Proof.
  intros Hu Hlt.
  destruct univ as [|x u]; [congruence|].
  destruct linguistic_terms as [|t1 [|t2 [|t3 [|t4 l]]]]; simpl in Hlt; try lia; reflexivity.
Qed.

Lemma automf_few_terms_witness :
  automf universe ["L"; "H"] = Err IndexError.
Proof.
  apply (@automf_few_terms universe ["L"; "H"]).
  - discriminate.
  - simpl; lia.
Defined.
